(** * safe-rename: the per-file rewrite engine and its driver

    A shallow embedding of [src/engine.ts]: the six rewrite strategies,
    the file classifier inside [processFile], and the file pass of
    [runSafeRename].

    Modelling conventions.
    - A JavaScript string is a [list ascii], one element per code unit
      below 256.  White space ([\s], [trim]) is that of the language
      among these code units, the no-break space included.  Case folding
      ([canon], [toUpperCase]) is the one of the 7-bit letters: it is the
      engine's whenever the tokens of the rename map are 7-bit, whatever
      the text holds, and the statements that depend on it assume
      [ascii_tokens].
    - Regular expressions are built, as in the source, from the pattern
      text: [RegExp_new] parses the text into a syntax tree and
      [String_replace] runs the backtracking matcher of the language
      specification over it.  Pattern syntax the parser does not cover
      makes the result [Beyond]: the model then says nothing.
    - [JSON.parse], and the [yaml] package, are libraries the engine calls;
      they are fields of the class [Libs].  [JSON.stringify] with an
      indentation of two is modelled on the value tree.
    - Exceptions are values ([Throw]); the file system and the console are
      an explicit [world] threaded through the driver. *)

From Stdlib Require Import Ascii String List Bool Arith Lia.
From stdpp Require Import gmap strings.
Import ListNotations.

Open Scope char_scope.
Open Scope list_scope.

(** ** Texts *)

Abbreviation text := (list ascii).

Definition str (s : string) : text := list_ascii_of_string s.

(** The double quote and the backslash. *)
Definition dq : ascii := "034".
Definition bsl : ascii := "\".

Definition ascii_in (lo hi c : ascii) : bool :=
  Nat.leb (nat_of_ascii lo) (nat_of_ascii c) && Nat.leb (nat_of_ascii c) (nat_of_ascii hi).

Definition is_lower (c : ascii) : bool := ascii_in "a" "z" c.
Definition is_upper (c : ascii) : bool := ascii_in "A" "Z" c.
Definition is_digit (c : ascii) : bool := ascii_in "0" "9" c.
Definition is_alnum (c : ascii) : bool := is_lower c || is_upper c || is_digit c.

Definition upper_char (c : ascii) : ascii :=
  if is_lower c then ascii_of_nat (nat_of_ascii c - 32) else c.
Definition lower_char (c : ascii) : ascii :=
  if is_upper c then ascii_of_nat (nat_of_ascii c + 32) else c.

(** [String.prototype.toUpperCase]. *)
Definition toUpperCase (s : text) : text := map upper_char s.

Definition text_eqb (a b : text) : bool := bool_decide (a = b).

Fixpoint starts_with (p s : text) : bool :=
  match p, s with
  | [], _ => true
  | c :: p', x :: s' => Ascii.eqb c x && starts_with p' s'
  | _ :: _, [] => false
  end.

(** [String.prototype.includes]. *)
Fixpoint includes (s p : text) : bool :=
  starts_with p s || match s with [] => false | _ :: s' => includes s' p end.

(** ** Results of computations that may throw *)

Record exn := { exn_name : text; exn_message : text }.

(** [Beyond]: the input left the fragment of the language the model covers. *)
Inductive res (A : Type) : Type :=
| Ok (a : A)
| Throw (e : exn)
| Beyond.
Arguments Ok {A} a.
Arguments Throw {A} e.
Arguments Beyond {A}.

#[global] Instance res_ret : MRet res := fun A a => Ok a.
#[global] Instance res_bind : MBind res := fun A B k m =>
  match m with
  | Ok a => k a
  | Throw e => Throw e
  | Beyond => Beyond
  end.

Definition SyntaxError (msg : text) : exn :=
  {| exn_name := str "SyntaxError"; exn_message := msg |}.

(** The error of [new RegExp] on a pattern that does not parse.  Its
    message holds the reason only; the engine's message also quotes the
    pattern and the flags before the reason. *)
Definition RegExpError (msg : string) : exn :=
  SyntaxError (str "Invalid regular expression: " ++ str msg).

(** ** Regular expressions: syntax *)

Inductive cesc := EscSpace | EscDigit | EscWord.

Inductive citem :=
| CChar (c : ascii)
| CEsc (k : cesc) (complement : bool).

Inductive regex :=
| REmpty
| RChar (c : ascii)
| RAny
| RClass (neg : bool) (items : list citem)
| RSeq (a b : regex)
| RAlt (a b : regex)
| RQuant (greedy : bool) (min : nat) (max : option nat) (a : regex)
| RGroup (idx : nat) (a : regex)
| RBol
| REol
| RWordB (neg : bool).

Fixpoint seq_of (l : list regex) : regex :=
  match l with
  | [] => REmpty
  | r :: l' => RSeq r (seq_of l')
  end.

Fixpoint alt_of (r : regex) (l : list regex) : regex :=
  match l with
  | [] => r
  | r' :: l' => RAlt r (alt_of r' l')
  end.

(** The pattern of a sequence of ordinary characters. *)
Definition lit (s : text) : regex := seq_of (map RChar s).

(** ** Regular expressions: the parser behind [new RegExp(source, flags)]

    One pass over the pattern text with an explicit stack of open groups.
    [f_alts] and [f_cur] hold the finished alternatives and the terms of
    the alternative being read, most recent first. *)

Record frame := {
  f_alts : list regex;
  f_cur : list regex;
  f_idx : nat
}.

(** What the last term read was: nothing that a quantifier can apply to,
    an opening parenthesis, an atom, or an atom with its quantifier. *)
Inductive plast := LNone | LOpen | LAtom | LQuant.

Inductive pmode :=
| MNormal
| MEscape
| MClassOpen
| MClass (neg : bool) (items : list citem)
| MClassEscape (neg : bool) (items : list citem).

Record pstate := {
  p_stack : list frame;
  p_top : frame;
  p_groups : nat;
  p_last : plast;
  p_mode : pmode
}.

Definition p_init : pstate :=
  {| p_stack := [];
     p_top := {| f_alts := []; f_cur := []; f_idx := 0 |};
     p_groups := 0; p_last := LNone; p_mode := MNormal |}.

Definition push_term (r : regex) (l : plast) (st : pstate) : pstate :=
  {| p_stack := p_stack st;
     p_top := {| f_alts := f_alts (p_top st);
                 f_cur := r :: f_cur (p_top st);
                 f_idx := f_idx (p_top st) |};
     p_groups := p_groups st; p_last := l; p_mode := MNormal |}.

Definition set_mode (m : pmode) (st : pstate) : pstate :=
  {| p_stack := p_stack st; p_top := p_top st; p_groups := p_groups st;
     p_last := p_last st; p_mode := m |}.

Definition frame_regex (f : frame) : regex :=
  match rev (seq_of (rev (f_cur f)) :: f_alts f) with
  | [] => REmpty
  | r :: l => alt_of r l
  end.

(** A quantifier applies to the term read last. *)
Definition quantify (mn : nat) (mx : option nat) (st : pstate) : res pstate :=
  match p_last st, f_cur (p_top st) with
  | LAtom, r :: cur =>
      Ok {| p_stack := p_stack st;
            p_top := {| f_alts := f_alts (p_top st);
                        f_cur := RQuant true mn mx r :: cur;
                        f_idx := f_idx (p_top st) |};
            p_groups := p_groups st; p_last := LQuant; p_mode := MNormal |}
  | _, _ => Throw (RegExpError "Nothing to repeat")
  end.

Definition make_lazy (st : pstate) : res pstate :=
  match f_cur (p_top st) with
  | RQuant _ mn mx r :: cur =>
      Ok {| p_stack := p_stack st;
            p_top := {| f_alts := f_alts (p_top st);
                        f_cur := RQuant false mn mx r :: cur;
                        f_idx := f_idx (p_top st) |};
            p_groups := p_groups st; p_last := LNone; p_mode := MNormal |}
  | _ => Beyond
  end.

Definition class_escape (c : ascii) : option citem :=
  if Ascii.eqb c "s" then Some (CEsc EscSpace false)
  else if Ascii.eqb c "S" then Some (CEsc EscSpace true)
  else if Ascii.eqb c "d" then Some (CEsc EscDigit false)
  else if Ascii.eqb c "D" then Some (CEsc EscDigit true)
  else if Ascii.eqb c "w" then Some (CEsc EscWord false)
  else if Ascii.eqb c "W" then Some (CEsc EscWord true)
  else None.

(** An escaped character that is neither a letter, a digit nor [_] stands
    for itself. *)
Definition identity_escape (c : ascii) : bool :=
  negb (is_alnum c || Ascii.eqb c "_") && Nat.ltb (nat_of_ascii c) 128.

Definition p_step (st : pstate) (c : ascii) : res pstate :=
  match p_mode st with
  | MNormal =>
      if Ascii.eqb c bsl then Ok (set_mode MEscape st)
      else if Ascii.eqb c "[" then Ok (set_mode MClassOpen st)
      else if Ascii.eqb c "(" then
        Ok {| p_stack := p_top st :: p_stack st;
              p_top := {| f_alts := []; f_cur := [];
                          f_idx := S (p_groups st) |};
              p_groups := S (p_groups st); p_last := LOpen;
              p_mode := MNormal |}
      else if Ascii.eqb c ")" then
        match p_stack st with
        | [] => Throw (RegExpError "Unmatched ')'")
        | f :: stk =>
            Ok {| p_stack := stk;
                  p_top := {| f_alts := f_alts f;
                              f_cur := RGroup (f_idx (p_top st))
                                         (frame_regex (p_top st)) :: f_cur f;
                              f_idx := f_idx f |};
                  p_groups := p_groups st; p_last := LAtom;
                  p_mode := MNormal |}
        end
      else if Ascii.eqb c "|" then
        Ok {| p_stack := p_stack st;
              p_top := {| f_alts := seq_of (rev (f_cur (p_top st)))
                                      :: f_alts (p_top st);
                          f_cur := [];
                          f_idx := f_idx (p_top st) |};
              p_groups := p_groups st; p_last := LNone; p_mode := MNormal |}
      else if Ascii.eqb c "*" then quantify 0 None st
      else if Ascii.eqb c "+" then quantify 1 None st
      else if Ascii.eqb c "?" then
        match p_last st with
        | LQuant => make_lazy st
        | LOpen => Beyond
        | _ => quantify 0 (Some 1) st
        end
      else if Ascii.eqb c "{" then Beyond
      else if Ascii.eqb c "." then Ok (push_term RAny LAtom st)
      else if Ascii.eqb c "^" then Ok (push_term RBol LNone st)
      else if Ascii.eqb c "$" then Ok (push_term REol LNone st)
      else Ok (push_term (RChar c) LAtom st)
  | MEscape =>
      match class_escape c with
      | Some (CEsc k neg) => Ok (push_term (RClass false [CEsc k neg]) LAtom st)
      | Some (CChar _) => Beyond
      | None =>
          if Ascii.eqb c "b" then Ok (push_term (RWordB false) LNone st)
          else if Ascii.eqb c "B" then Ok (push_term (RWordB true) LNone st)
          else if identity_escape c then Ok (push_term (RChar c) LAtom st)
          else Beyond
      end
  | MClassOpen =>
      if Ascii.eqb c "^" then Ok (set_mode (MClass true []) st)
      else if Ascii.eqb c "]" then Ok (push_term (RClass false []) LAtom st)
      else if Ascii.eqb c bsl then Ok (set_mode (MClassEscape false []) st)
      else if Ascii.eqb c "-" then Beyond
      else Ok (set_mode (MClass false [CChar c]) st)
  | MClass neg items =>
      if Ascii.eqb c "]" then Ok (push_term (RClass neg (rev items)) LAtom st)
      else if Ascii.eqb c bsl then Ok (set_mode (MClassEscape neg items) st)
      else if Ascii.eqb c "-" then Beyond
      else Ok (set_mode (MClass neg (CChar c :: items)) st)
  | MClassEscape neg items =>
      match class_escape c with
      | Some it => Ok (set_mode (MClass neg (it :: items)) st)
      | None =>
          if identity_escape c then Ok (set_mode (MClass neg (CChar c :: items)) st)
          else Beyond
      end
  end.

Fixpoint p_run (st : pstate) (src : text) : res pstate :=
  match src with
  | [] => Ok st
  | c :: src' =>
      match p_step st c with
      | Ok st' => p_run st' src'
      | Throw e => Throw e
      | Beyond => Beyond
      end
  end.

Definition p_finish (st : pstate) : res (regex * nat) :=
  match p_mode st with
  | MNormal =>
      match p_stack st with
      | [] => Ok (frame_regex (p_top st), p_groups st)
      | _ :: _ => Throw (RegExpError "Unterminated group")
      end
  | MEscape => Throw (RegExpError "\ at end of pattern")
  | _ => Throw (RegExpError "Unterminated character class")
  end.

Record RegExp := {
  re_tree : regex;
  re_groups : nat;
  re_global : bool;
  re_ignoreCase : bool
}.

(** The engine passes [g] or [gi]; other flag letters are not modelled. *)
Definition flag_ok (c : ascii) : bool := Ascii.eqb c "g" || Ascii.eqb c "i".

Definition RegExp_new (source flags : text) : res RegExp :=
  if negb (forallb flag_ok flags) then Beyond
  else
    match p_run p_init source with
    | Ok st =>
        match p_finish st with
        | Ok (r, n) =>
            Ok {| re_tree := r; re_groups := n;
                  re_global := existsb (Ascii.eqb "g") flags;
                  re_ignoreCase := existsb (Ascii.eqb "i") flags |}
        | Throw e => Throw e
        | Beyond => Beyond
        end
    | Throw e => Throw e
    | Beyond => Beyond
    end.

(** ** Regular expressions: the backtracking matcher

    A match state is the text already consumed (most recent first), the
    text still ahead, and the captures recorded so far. *)

Record mstate := {
  m_before : text;
  m_after : text;
  m_caps : list (nat * text)
}.

(** The white space and line terminators among the 8-bit code units: tab
    to carriage return, the space and the no-break space. *)
Definition is_space (c : ascii) : bool :=
  let n := nat_of_ascii c in
  (Nat.leb 9 n && Nat.leb n 13) || Nat.eqb n 32 || Nat.eqb n 160.

Definition is_word (c : ascii) : bool := is_alnum c || Ascii.eqb c "_".

Definition is_line_terminator (c : ascii) : bool :=
  let n := nat_of_ascii c in Nat.eqb n 10 || Nat.eqb n 13.

(** Canonicalize of the specification, on 7-bit characters. *)
Definition canon (ic : bool) (c : ascii) : ascii :=
  if ic then upper_char c else c.

Definition char_eq (ic : bool) (c x : ascii) : bool :=
  Ascii.eqb (canon ic c) (canon ic x).

Definition cesc_holds (k : cesc) (c : ascii) : bool :=
  match k with
  | EscSpace => is_space c
  | EscDigit => is_digit c
  | EscWord => is_word c
  end.

Definition citem_has (it : citem) (x : ascii) : bool :=
  match it with
  | CChar c => Ascii.eqb c x
  | CEsc k complement => xorb complement (cesc_holds k x)
  end.

(** A character is in a set when some member canonicalizes as it does. *)
Definition citem_match (ic : bool) (it : citem) (x : ascii) : bool :=
  citem_has it x
  || (ic && (citem_has it (upper_char x) || citem_has it (lower_char x))).

Definition class_match (ic neg : bool) (items : list citem) (x : ascii) : bool :=
  xorb neg (existsb (fun it => citem_match ic it x) items).

Definition m_advance (x : ascii) (xs : text) (st : mstate) : mstate :=
  {| m_before := x :: m_before st; m_after := xs; m_caps := m_caps st |}.

Definition m_one (ok : ascii -> bool) (st : mstate)
    (k : mstate -> option mstate) : option mstate :=
  match m_after st with
  | x :: xs => if ok x then k (m_advance x xs st) else None
  | [] => None
  end.

(** The text consumed between two states of one run. *)
Definition consumed (st st' : mstate) : text :=
  rev (firstn (length (m_before st') - length (m_before st)) (m_before st')).

Definition set_cap (i : nat) (st st' : mstate) : mstate :=
  {| m_before := m_before st'; m_after := m_after st';
     m_caps := (i, consumed st st') :: m_caps st' |}.

Fixpoint groups_in (r : regex) : list nat :=
  match r with
  | RSeq a b | RAlt a b => groups_in a ++ groups_in b
  | RQuant _ _ _ a => groups_in a
  | RGroup i a => i :: groups_in a
  | _ => []
  end.

Definition clear_caps (gs : list nat) (st : mstate) : mstate :=
  {| m_before := m_before st; m_after := m_after st;
     m_caps := filter (fun p => negb (existsb (Nat.eqb (fst p)) gs)) (m_caps st) |}.

Definition at_word_boundary (st : mstate) : bool :=
  let a := match m_before st with x :: _ => is_word x | [] => false end in
  let b := match m_after st with x :: _ => is_word x | [] => false end in
  xorb a b.

Definition dec_max (mx : option nat) : option nat :=
  match mx with Some n => Some (pred n) | None => None end.

(** RepeatMatcher: an iteration that consumes nothing once the minimum is
    reached is rejected, so [min + length ahead + 1] iterations suffice. *)
Fixpoint rep_loop (step : mstate -> (mstate -> option mstate) -> option mstate)
    (greedy : bool) (fuel mn : nat) (mx : option nat) (st : mstate)
    (k : mstate -> option mstate) : option mstate :=
  match fuel with
  | O => None
  | S fuel' =>
      match mx with
      | Some O => k st
      | _ =>
          let again :=
            step st (fun st' =>
              if Nat.eqb mn 0
                 && Nat.eqb (length (m_after st')) (length (m_after st))
              then None
              else rep_loop step greedy fuel' (pred mn) (dec_max mx) st' k) in
          if negb (Nat.eqb mn 0) then again
          else if greedy then
            match again with Some r => Some r | None => k st end
          else
            match k st with Some r => Some r | None => again end
      end
  end.

Fixpoint rmatch (ic : bool) (r : regex) (st : mstate)
    (k : mstate -> option mstate) : option mstate :=
  match r with
  | REmpty => k st
  | RChar c => m_one (char_eq ic c) st k
  | RAny => m_one (fun x => negb (is_line_terminator x)) st k
  | RClass neg items => m_one (class_match ic neg items) st k
  | RSeq a b => rmatch ic a st (fun st' => rmatch ic b st' k)
  | RAlt a b =>
      match rmatch ic a st k with
      | Some r => Some r
      | None => rmatch ic b st k
      end
  | RQuant greedy mn mx a =>
      rep_loop (fun s => rmatch ic a (clear_caps (groups_in a) s))
        greedy (mn + length (m_after st) + 1) mn mx st k
  | RGroup i a => rmatch ic a st (fun st' => k (set_cap i st st'))
  | RBol => match m_before st with [] => k st | _ :: _ => None end
  | REol => match m_after st with [] => k st | _ :: _ => None end
  | RWordB neg => if xorb neg (at_word_boundary st) then k st else None
  end.

(** RegExpBuiltinExec at one position. *)
Definition exec_at (re : RegExp) (before after : text) : option mstate :=
  rmatch (re_ignoreCase re) (re_tree re)
    {| m_before := before; m_after := after; m_caps := [] |} Some.

Fixpoint cap_lookup (i : nat) (caps : list (nat * text)) : option text :=
  match caps with
  | [] => None
  | (j, s) :: caps' => if Nat.eqb i j then Some s else cap_lookup i caps'
  end.

(** The captures [1..n] of a match, [None] for undefined. *)
Definition captures_of (n : nat) (st : mstate) : list (option text) :=
  map (fun i => cap_lookup i (m_caps st)) (seq 1 n).

(** ** [String.prototype.replace] with a regular expression *)

Definition digit_val (c : ascii) : nat := nat_of_ascii c - 48.

(** The replacement of a [$n] reference: a capture, or the reference itself
    when no group has that number. *)
Definition ref_replacement (caps : list (option text)) (index : nat)
    (ref : text) : text :=
  if Nat.leb 1 index && Nat.leb index (length caps)
  then match nth (index - 1) caps None with Some s => s | None => [] end
  else ref.

(** GetSubstitution; there are no named groups. *)
Fixpoint GetSubstitution (matched pre post : text) (caps : list (option text))
    (tpl : text) : text :=
  match tpl with
  | [] => []
  | c :: rest =>
      if negb (Ascii.eqb c "$") then
        c :: GetSubstitution matched pre post caps rest
      else
        match rest with
        | [] => ["$"]
        | d :: rest1 =>
            if Ascii.eqb d "$" then
              "$" :: GetSubstitution matched pre post caps rest1
            else if Ascii.eqb d "&" then
              matched ++ GetSubstitution matched pre post caps rest1
            else if Ascii.eqb d "`" then
              pre ++ GetSubstitution matched pre post caps rest1
            else if Ascii.eqb d "'" then
              post ++ GetSubstitution matched pre post caps rest1
            else if is_digit d then
              match rest1 with
              | d2 :: rest2 =>
                  if is_digit d2
                     && Nat.leb (10 * digit_val d + digit_val d2) (length caps)
                  then
                    ref_replacement caps (10 * digit_val d + digit_val d2)
                      ["$"; d; d2]
                    ++ GetSubstitution matched pre post caps rest2
                  else
                    ref_replacement caps (digit_val d) ["$"; d]
                    ++ GetSubstitution matched pre post caps rest1
              | [] => ref_replacement caps (digit_val d) ["$"; d]
              end
            else "$" :: GetSubstitution matched pre post caps rest
        end
  end.

(** The second argument of [replace]: a replacement pattern, or a function
    of the matched text and the captures. *)
Inductive replacer :=
| ByPattern (tpl : text)
| ByFunction (f : text -> list (option text) -> res text).

Definition apply_replacer (r : replacer) (matched pre post : text)
    (caps : list (option text)) : res text :=
  match r with
  | ByPattern tpl => Ok (GetSubstitution matched pre post caps tpl)
  | ByFunction f => f matched caps
  end.

(** The scan of [RegExp.prototype[Symbol.replace]]: the leftmost match from
    the current position is replaced and the scan resumes after it, one
    character further when the match is empty. *)
Fixpoint replace_from (fuel : nat) (re : RegExp) (r : replacer)
    (before after : text) : res text :=
  match fuel with
  | O => Ok after
  | S fuel' =>
      match exec_at re before after with
      | Some st' =>
          let matched :=
            rev (firstn (length (m_before st') - length before)
                   (m_before st')) in
          out ← apply_replacer r matched (rev before) (m_after st')
                  (captures_of (re_groups re) st');
          if negb (re_global re) then Ok (out ++ m_after st')
          else
            match matched with
            | [] =>
                match after with
                | [] => Ok out
                | x :: xs =>
                    rest ← replace_from fuel' re r (x :: before) xs;
                    Ok (out ++ x :: rest)
                end
            | _ :: _ =>
                rest ← replace_from fuel' re r (m_before st') (m_after st');
                Ok (out ++ rest)
            end
      | None =>
          match after with
          | [] => Ok []
          | x :: xs =>
              rest ← replace_from fuel' re r (x :: before) xs;
              Ok (x :: rest)
          end
      end
  end.

Definition String_replace (s : text) (re : RegExp) (r : replacer) : res text :=
  replace_from (S (length s)) re r [] s.

(** ** Rename options *)

(** An object with string keys, as the list of its own enumerable
    properties in enumeration order. *)
Definition jsobj (A : Type) := list (text * A).

Definition Object_entries {A} (o : jsobj A) : list (text * A) := o.

(** [RenameOptions]; [ignore] and [include] only feed the glob expansion,
    whose result the driver receives as a list of paths. *)
Record RenameOptions := {
  oldName : text;
  newName : text;
  updatePackage : bool;
  updateRemote : bool;
  dry : bool;
  multiMap : option (jsobj text);
  caseSensitive : bool;
  concurrency : option nat
}.

(** [options.multiMap || { [options.oldName]: options.newName }] *)
Definition renameMap_of (options : RenameOptions) : jsobj text :=
  match multiMap options with
  | Some m => m
  | None => [(oldName options, newName options)]
  end.

(** [options.caseSensitive ? "g" : "gi"] *)
Definition flags_of (options : RenameOptions) : text :=
  if caseSensitive options then str "g" else str "gi".

(** ** The Code strategy *)

Definition import_source (oldName : text) : text :=
  str "(import\s+.*?\s+from\s+['" ++ [dq] ++ str "][^'" ++ [dq] ++ str "]*)"
  ++ oldName ++ str "([^'" ++ [dq] ++ str "]*['" ++ [dq] ++ str "])".

Definition export_source (oldName : text) : text :=
  str "(export\s+.*?\s+from\s+['" ++ [dq] ++ str "][^'" ++ [dq] ++ str "]*)"
  ++ oldName ++ str "([^'" ++ [dq] ++ str "]*['" ++ [dq] ++ str "])".

Definition require_source (oldName : text) : text :=
  str "(require\s*\(\s*['" ++ [dq] ++ str "][^'" ++ [dq] ++ str "]*)"
  ++ oldName ++ str "([^'" ++ [dq] ++ str "]*['" ++ [dq] ++ str "])".

Definition scoped_source (oldName : text) : text :=
  str "(@" ++ oldName ++ str ")".

Definition word_source (oldName : text) : text :=
  str "\b" ++ oldName ++ str "\b".

(** One [newContent = newContent.replace(new RegExp(source, flags), by)]. *)
Definition replace_step (source flags : text) (by_ : replacer)
    (newContent : text) : res text :=
  re ← RegExp_new source flags;
  String_replace newContent re by_.

(** The body of the loop of [processTypeScriptFile] for one pair. *)
Definition ts_pair (flags : text) (entry : text * text) (newContent : text)
    : res text :=
  let '(oldName, newName) := entry in
  newContent ← replace_step (import_source oldName) flags
    (ByPattern (str "$1" ++ newName ++ str "$2")) newContent;
  newContent ← replace_step (export_source oldName) flags
    (ByPattern (str "$1" ++ newName ++ str "$2")) newContent;
  newContent ← replace_step (require_source oldName) flags
    (ByPattern (str "$1" ++ newName ++ str "$2")) newContent;
  newContent ← replace_step (scoped_source oldName) flags
    (ByPattern (str "@" ++ newName)) newContent;
  replace_step (word_source oldName) flags (ByPattern newName) newContent.

(** [for (const [oldName, newName] of Object.entries(renameMap)) body] with
    the variable [newContent] as its state. *)
Fixpoint for_entries (body : text * text -> text -> res text)
    (entries : list (text * text)) (newContent : text) : res text :=
  match entries with
  | [] => Ok newContent
  | entry :: entries' =>
      newContent ← body entry newContent;
      for_entries body entries' newContent
  end.

Definition processTypeScriptFile (content : text) (options : RenameOptions)
    : res text :=
  for_entries (ts_pair (flags_of options))
    (Object_entries (renameMap_of options)) content.

(** ** Objects and the value tree of JSON and YAML documents *)

(** A canonical numeric string below [2^32 - 1] is an array index; such
    keys are enumerated first, in ascending order. *)
Definition decimal_value (k : text) : N :=
  fold_left (fun acc c => (acc * 10 + N.of_nat (digit_val c))%N) k 0%N.

Definition array_index (k : text) : option N :=
  match k with
  | [] => None
  | c :: k' =>
      if forallb is_digit k
         && (negb (Ascii.eqb c "0") || bool_decide (k' = []))
         && Nat.leb (length k) 10
         && (decimal_value k <? 4294967295)%N
      then Some (decimal_value k) else None
  end.

Fixpoint obj_has {A} (o : jsobj A) (k : text) : bool :=
  match o with
  | [] => false
  | (k', _) :: o' => text_eqb k' k || obj_has o' k
  end.

Fixpoint obj_get {A} (o : jsobj A) (k : text) : option A :=
  match o with
  | [] => None
  | (k', v) :: o' => if text_eqb k' k then Some v else obj_get o' k
  end.

Fixpoint obj_update {A} (o : jsobj A) (k : text) (v : A) : jsobj A :=
  match o with
  | [] => []
  | (k', v') :: o' =>
      if text_eqb k' k then (k', v) :: o' else (k', v') :: obj_update o' k v
  end.

(** A new index key goes before the first key that is not a smaller index. *)
Fixpoint obj_insert_index {A} (o : jsobj A) (n : N) (k : text) (v : A)
    : jsobj A :=
  match o with
  | [] => [(k, v)]
  | (k', v') :: o' =>
      match array_index k' with
      | Some n' =>
          if (n' <? n)%N then (k', v') :: obj_insert_index o' n k v
          else (k, v) :: o
      | None => (k, v) :: o
      end
  end.

(** CreateDataProperty: the value of an existing key is replaced where the
    key stands; a new key is added in enumeration order. *)
Definition obj_define {A} (o : jsobj A) (k : text) (v : A) : jsobj A :=
  if obj_has o k then obj_update o k v
  else
    match array_index k with
    | Some n => obj_insert_index o n k v
    | None => o ++ [(k, v)]
    end.

(** The assignment [result[key] = v] on an object made by [{}].  The key
    [__proto__] reaches the inherited accessor and changes the prototype
    instead of adding a property: such objects are outside the model. *)
Definition obj_set {A} (o : jsobj A) (k : text) (v : A) : res (jsobj A) :=
  if text_eqb k (str "__proto__") then Beyond else Ok (obj_define o k v).

(** A number is kept as the text [JSON.stringify] prints for it. *)
Inductive value :=
| VNull
| VBool (b : bool)
| VNumber (repr : text)
| VString (s : text)
| VArray (items : list value)
| VObject (props : jsobj value).

(** The libraries the structural strategies call. *)
Class Libs := {
  JSON_parse : text -> res value;
  YAML_parse : text -> res value;
  YAML_stringify : value -> res text
}.

(** The inner loop of [processValue], on a string value or a key:
    [newValue = newValue.replace(new RegExp(oldName, flags), newName)]. *)
Definition rename_entry (flags : text) (entry : text * text)
    (newValue : text) : res text :=
  let '(oldName, newName) := entry in
  replace_step oldName flags (ByPattern newName) newValue.

Definition rename_text (renameMap : jsobj text) (flags : text) (s : text)
    : res text :=
  for_entries (rename_entry flags) (Object_entries renameMap) s.

(** [value.map(processValue)] *)
Definition map_items (f : value -> res value) : list value -> res (list value) :=
  fix go (l : list value) : res (list value) :=
    match l with
    | [] => Ok []
    | x :: l' =>
        x' ← f x;
        l'' ← go l';
        Ok (x' :: l'')
    end.

(** [for (const [key, val] of Object.entries(value))] with [result] as its
    state: the key is renamed, then the value is processed, then
    [result[newKey]] is assigned. *)
Definition each_entry (rename : text -> res text) (f : value -> res value)
    : jsobj value -> jsobj value -> res (jsobj value) :=
  fix go (l : jsobj value) (result : jsobj value) : res (jsobj value) :=
    match l with
    | [] => Ok result
    | kv :: l' =>
        newKey ← rename (fst kv);
        val ← f (snd kv);
        result' ← obj_set result newKey val;
        go l' result'
    end.

(** [processValue], the same function in [processJsonFile] and in
    [processYamlFile]. *)
Fixpoint processValue (renameMap : jsobj text) (flags : text) (v : value)
    : res value :=
  match v with
  | VString s =>
      newValue ← rename_text renameMap flags s;
      Ok (VString newValue)
  | VArray items =>
      items' ← map_items (processValue renameMap flags) items;
      Ok (VArray items')
  | VObject props =>
      result ← each_entry (rename_text renameMap flags)
                 (processValue renameMap flags) (Object_entries props) [];
      Ok (VObject result)
  | _ => Ok v
  end.

(** ** [JSON.stringify(value, null, 2)] *)

Definition hex_digit (n : nat) : ascii :=
  if Nat.ltb n 10 then ascii_of_nat (48 + n) else ascii_of_nat (87 + n).

Definition quote_char (c : ascii) : text :=
  let n := nat_of_ascii c in
  if Ascii.eqb c dq then [bsl; dq]
  else if Ascii.eqb c bsl then [bsl; bsl]
  else if Nat.eqb n 8 then [bsl; "b"]
  else if Nat.eqb n 12 then [bsl; "f"]
  else if Nat.eqb n 10 then [bsl; "n"]
  else if Nat.eqb n 13 then [bsl; "r"]
  else if Nat.eqb n 9 then [bsl; "t"]
  else if Nat.ltb n 32 then
    [bsl; "u"; "0"; "0"; hex_digit (n / 16); hex_digit (n mod 16)]
  else [c].

(** QuoteJSONString *)
Definition quote (s : text) : text := dq :: flat_map quote_char s ++ [dq].

Fixpoint join (sep : text) (parts : list text) : text :=
  match parts with
  | [] => []
  | [p] => p
  | p :: parts' => p ++ sep ++ join sep parts'
  end.

Definition newline : ascii := "010".

(** SerializeJSONProperty with the gap [gap]; [indent] is the current
    indentation. *)
Fixpoint serialize (gap indent : text) (v : value) : text :=
  match v with
  | VNull => str "null"
  | VBool true => str "true"
  | VBool false => str "false"
  | VNumber repr => repr
  | VString s => quote s
  | VArray items =>
      match items with
      | [] => str "[]"
      | _ :: _ =>
          let inner := indent ++ gap in
          str "[" ++ [newline] ++ inner
          ++ join (str "," ++ [newline] ++ inner)
               (map (serialize gap inner) items)
          ++ [newline] ++ indent ++ str "]"
      end
  | VObject props =>
      match props with
      | [] => str "{}"
      | _ :: _ =>
          let inner := indent ++ gap in
          str "{" ++ [newline] ++ inner
          ++ join (str "," ++ [newline] ++ inner)
               (map (fun kv => quote (fst kv) ++ str ": "
                               ++ serialize gap inner (snd kv)) props)
          ++ [newline] ++ indent ++ str "}"
      end
  end.

(** [JSON.stringify(value, null, 2)] *)
Definition JSON_stringify2 (v : value) : text := serialize (str "  ") [] v.

(** ** The JSON and YAML strategies *)

(** What the engine writes to the console. *)
Inductive console_line :=
| LogStart (oldName newName : text)
| LogDryRun
| LogFound (n : nat)
| LogSummary (processed modified errors : nat)
| ErrRequired
| WarnJson (message : text)
| WarnYaml (message : text).

(** A strategy result: the new content and the lines it wrote. *)
Definition strategy_result : Type := text * list console_line.

Definition processJsonFile `{Libs} (content : text) (options : RenameOptions)
    : res strategy_result :=
  match
    data ← JSON_parse content;
    processedData ← processValue (renameMap_of options) (flags_of options) data;
    Ok (JSON_stringify2 processedData)
  with
  | Ok out => Ok (out, [])
  | Throw error => Ok (content, [WarnJson (exn_message error)])
  | Beyond => Beyond
  end.

Definition processYamlFile `{Libs} (content : text) (options : RenameOptions)
    : res strategy_result :=
  match
    data ← YAML_parse content;
    processedData ← processValue (renameMap_of options) (flags_of options) data;
    YAML_stringify processedData
  with
  | Ok out => Ok (out, [])
  | Throw error => Ok (content, [WarnYaml (exn_message error)])
  | Beyond => Beyond
  end.

(** ** The Env strategy *)

Definition env_pair (flags : text) (entry : text * text) (newContent : text)
    : res text :=
  let '(oldName, newName) := entry in
  newContent ← replace_step (str "(" ++ toUpperCase oldName ++ str ")") flags
    (ByPattern (toUpperCase newName)) newContent;
  replace_step (str "=" ++ oldName) flags
    (ByPattern (str "=" ++ newName)) newContent.

Definition processEnvFile (content : text) (options : RenameOptions)
    : res text :=
  for_entries (env_pair (flags_of options))
    (Object_entries (renameMap_of options)) content.

(** ** The Docker strategy *)

Definition from_source (oldName : text) : text :=
  str "(FROM|image:)\s*([^\s]*" ++ oldName ++ str "[^\s]*)".

Definition envarg_source (oldName : text) : text :=
  str "(ENV|ARG)\s+(" ++ toUpperCase oldName ++ str ")".

Definition docker_pair (flags : text) (entry : text * text)
    (newContent : text) : res text :=
  let '(oldName, newName) := entry in
  fromRegex ← RegExp_new (from_source oldName) flags;
  newContent ← String_replace newContent fromRegex
    (ByFunction (fun _ caps =>
       match caps with
       | [Some prefix; Some imagePath] =>
           newImagePath ← replace_step oldName flags (ByPattern newName)
                            imagePath;
           Ok (prefix ++ str " " ++ newImagePath)
       | _ => Beyond
       end));
  replace_step (envarg_source oldName) flags
    (ByPattern (str "$1 " ++ toUpperCase newName)) newContent.

Definition processDockerFile (content : text) (options : RenameOptions)
    : res text :=
  for_entries (docker_pair (flags_of options))
    (Object_entries (renameMap_of options)) content.

(** ** The Markdown strategy *)

(** The pattern text of [codeBlockRegex].  The string literal of the source
    writes four backslashes before every backquote, bracket, [s] and [S];
    each four stand for two in the pattern text. *)
Definition codeBlock_source : text :=
  str "(\\`\\`\\[\\s\\S]*?\\`\\`\\`|\\`[^\\`]*\\`)".

Definition link_source (oldName : text) : text :=
  str "\[([^\]]*)\]\(([^)]*" ++ oldName ++ str "[^)]*)\)".

Definition markdown_pair (flags : text) (entry : text * text)
    (newContent : text) : res text :=
  let '(oldName, newName) := entry in
  codeBlockRegex ← RegExp_new codeBlock_source flags;
  newContent ← String_replace newContent codeBlockRegex
    (ByFunction (fun matched _ =>
       replace_step oldName flags (ByPattern newName) matched));
  linkRegex ← RegExp_new (link_source oldName) flags;
  newContent ← String_replace newContent linkRegex
    (ByFunction (fun _ caps =>
       match caps with
       | [Some txt; Some url] =>
           url' ← replace_step oldName flags (ByPattern newName) url;
           Ok (str "[" ++ txt ++ str "](" ++ url' ++ str ")")
       | _ => Beyond
       end));
  replace_step (word_source oldName) flags (ByPattern newName) newContent.

Definition processMarkdownFile (content : text) (options : RenameOptions)
    : res text :=
  for_entries (markdown_pair (flags_of options))
    (Object_entries (renameMap_of options)) content.

(** ** [path.extname] (POSIX) *)

Record ext_scan := {
  startDot : option nat;
  startPart : nat;
  endPart : option nat;
  matchedSlash : bool;
  preDotState : Z
}.

(** The loop of [extname], from the last character down; the index of a
    character is the number of characters before it. *)
Fixpoint extname_loop (rev_path : text) (st : ext_scan) : ext_scan :=
  match rev_path with
  | [] => st
  | code :: rest =>
      let i := length rest in
      if Ascii.eqb code "/" then
        if negb (matchedSlash st) then
          {| startDot := startDot st; startPart := i + 1;
             endPart := endPart st; matchedSlash := matchedSlash st;
             preDotState := preDotState st |}
        else extname_loop rest st
      else
        let st1 :=
          match endPart st with
          | None =>
              {| startDot := startDot st; startPart := startPart st;
                 endPart := Some (i + 1); matchedSlash := false;
                 preDotState := preDotState st |}
          | Some _ => st
          end in
        let st2 :=
          if Ascii.eqb code "." then
            match startDot st1 with
            | None =>
                {| startDot := Some i; startPart := startPart st1;
                   endPart := endPart st1; matchedSlash := matchedSlash st1;
                   preDotState := preDotState st1 |}
            | Some _ =>
                {| startDot := startDot st1; startPart := startPart st1;
                   endPart := endPart st1; matchedSlash := matchedSlash st1;
                   preDotState := 1 |}
            end
          else
            match startDot st1 with
            | Some _ =>
                {| startDot := startDot st1; startPart := startPart st1;
                   endPart := endPart st1; matchedSlash := matchedSlash st1;
                   preDotState := (-1) |}
            | None => st1
            end in
        extname_loop rest st2
  end.

Definition path_extname (path : text) : text :=
  let st := extname_loop (rev path)
              {| startDot := None; startPart := 0; endPart := None;
                 matchedSlash := true; preDotState := 0 |} in
  match startDot st, endPart st with
  | Some sd, Some e =>
      if Z.eqb (preDotState st) 0
         || (Z.eqb (preDotState st) 1 && Nat.eqb sd (e - 1)
             && Nat.eqb sd (startPart st + 1))
      then []
      else firstn (e - sd) (skipn sd path)
  | _, _ => []
  end.

(** [list.includes(ext)] *)
Definition ext_in (l : list string) (ext : text) : bool :=
  existsb (fun e => text_eqb (str e) ext) l.

(** ** The file classifier

    The chain of conditions of [processFile], as the strategy it selects. *)

Inductive strategy := Code | Json | Yaml | Env | Docker | Markdown.

Definition classify (filePath : text) : option strategy :=
  let ext := path_extname filePath in
  if ext_in [".ts"; ".tsx"; ".js"; ".jsx"]%string ext then Some Code
  else if ext_in [".json"]%string ext then Some Json
  else if ext_in [".yml"; ".yaml"]%string ext then Some Yaml
  else if includes filePath (str "env") then Some Env
  else if includes filePath (str "Dockerfile")
          || includes filePath (str "docker-compose") then Some Docker
  else if ext_in [".md"]%string ext then Some Markdown
  else None.

(** The branch taken: the new content and the console lines of the call. *)
Definition run_strategy `{Libs} (s : option strategy) (content : text)
    (options : RenameOptions) : res strategy_result :=
  match s with
  | Some Code => r ← processTypeScriptFile content options; Ok (r, [])
  | Some Json => processJsonFile content options
  | Some Yaml => processYamlFile content options
  | Some Env => r ← processEnvFile content options; Ok (r, [])
  | Some Docker => r ← processDockerFile content options; Ok (r, [])
  | Some Markdown => r ← processMarkdownFile content options; Ok (r, [])
  | None => Ok (content, [])
  end.

(** ** The world: files and the trace of what the run did *)

Record file := {
  file_data : text;
  file_readable : bool;
  file_writable : bool
}.

Inductive event :=
| EvRead (path : text)
| EvWrite (path : text) (data : text)
| EvConsole (line : console_line).

(** [w_trace] holds the most recent event first. *)
Record world := {
  w_files : gmap text file;
  w_trace : list event
}.

Definition emit (e : event) (w : world) : world :=
  {| w_files := w_files w; w_trace := e :: w_trace w |}.

Inductive outcome (A : Type) : Type :=
| Done (a : A) (w : world)
| Raised (e : exn) (w : world)
| Exited (code : nat) (w : world)
| Lost.
Arguments Done {A} a w.
Arguments Raised {A} e w.
Arguments Exited {A} code w.
Arguments Lost {A}.

Definition IO (A : Type) : Type := world -> outcome A.

#[global] Instance IO_ret : MRet IO := fun A a w => Done a w.
#[global] Instance IO_bind : MBind IO := fun A B k m w =>
  match m w with
  | Done a w' => k a w'
  | Raised e w' => Raised e w'
  | Exited c w' => Exited c w'
  | Lost => Lost
  end.

(** [try { body } catch (error) { handler }] *)
Definition try_catch {A} (body : IO A) (handler : exn -> IO A) : IO A :=
  fun w =>
    match body w with
    | Raised e w' => handler e w'
    | r => r
    end.

Definition lift {A} (r : res A) : IO A :=
  fun w =>
    match r with
    | Ok a => Done a w
    | Throw e => Raised e w
    | Beyond => Lost
    end.

Definition console (line : console_line) : IO unit :=
  fun w => Done tt (emit (EvConsole line) w).

Definition fs_error (code : string) (path : text) : exn :=
  {| exn_name := str "Error";
     exn_message := str code ++ str ", open '" ++ path ++ str "'" |}.

(** [fs.readFile(path, "utf8")] *)
Definition fs_readFile (path : text) : IO text :=
  fun w =>
    let w' := emit (EvRead path) w in
    match w_files w !! path with
    | None => Raised (fs_error "ENOENT: no such file or directory" path) w'
    | Some f =>
        if file_readable f then Done (file_data f) w'
        else Raised (fs_error "EACCES: permission denied" path) w'
    end.

(** [fs.writeFile(path, data, "utf8")] *)
Definition fs_writeFile (path data : text) : IO unit :=
  fun w =>
    let w' := emit (EvWrite path data) w in
    match w_files w !! path with
    | None =>
        Done tt {| w_files := <[path := {| file_data := data;
                                            file_readable := true;
                                            file_writable := true |}]>
                                (w_files w);
                   w_trace := w_trace w' |}
    | Some f =>
        if file_writable f then
          Done tt {| w_files := <[path := {| file_data := data;
                                              file_readable := file_readable f;
                                              file_writable := true |}]>
                                  (w_files w);
                     w_trace := w_trace w' |}
        else Raised (fs_error "EACCES: permission denied" path) w'
    end.

(** ** The driver *)

Record FileOutcome := {
  processed : bool;
  modified : bool;
  error : option text
}.

Fixpoint console_all (lines : list console_line) : IO unit :=
  match lines with
  | [] => mret tt
  | l :: lines' => console l ;; console_all lines'
  end.

(** The [try] block of [processFile]. *)
Definition processFile_try `{Libs} (filePath : text) (options : RenameOptions)
    : IO FileOutcome :=
  content ← fs_readFile filePath;
  '(newContent, lines) ← lift (run_strategy (classify filePath) content options);
  console_all lines ;;
  let modified := negb (text_eqb newContent content) in
  (if modified && negb (dry options)
   then fs_writeFile filePath newContent else mret tt) ;;
  mret {| processed := true; modified := modified; error := None |}.

Definition processFile `{Libs} (filePath : text) (options : RenameOptions)
    : IO FileOutcome :=
  try_catch (processFile_try filePath options)
    (fun error =>
       mret {| processed := false; modified := false;
               error := Some (exn_message error) |}).

(** [Promise.all(files.map((file) => limit(() => processFile(file, options))))]:
    the tasks share nothing but the options and each touches its own path,
    so they are run one after the other, in the order of [files].
    [pLimit(options.concurrency || 10)] only bounds how many tasks are in
    flight; it throws for a number that is no positive integer, which the
    type of the field [concurrency] leaves out. *)
Fixpoint processFiles `{Libs} (files : list text) (options : RenameOptions)
    : IO (list FileOutcome) :=
  match files with
  | [] => mret []
  | f :: files' =>
      r ← processFile f options;
      rs ← processFiles files' options;
      mret (r :: rs)
  end.

Record RunSummary := {
  processedCount : nat;
  modifiedCount : nat;
  errorCount : nat
}.

(** A message counts when it is a non-empty string. *)
Definition truthy (e : option text) : bool :=
  match e with
  | Some (_ :: _) => true
  | _ => false
  end.

(** [results.reduce(..., { processed: 0, modified: 0, errors: 0 })] *)
Definition summarize (results : list FileOutcome) : RunSummary :=
  fold_left
    (fun acc result =>
       {| processedCount :=
            processedCount acc + (if processed result then 1 else 0);
          modifiedCount :=
            modifiedCount acc + (if modified result then 1 else 0);
          errorCount := errorCount acc + (if truthy (error result) then 1 else 0) |})
    results
    {| processedCount := 0; modifiedCount := 0; errorCount := 0 |}.

Definition process_exit {A} (code : nat) : IO A := fun w => Exited code w.

Definition beyond {A} : IO A := fun _ => Lost.

(** [runSafeRename] from the resolved options on; [files] is the list
    [findFilesToProcess] returns.  The function ends without a [return]:
    its result is the unit value.  The post-pass is not part of this
    definition: a run that reaches an updater is [Lost], and says nothing
    ([updatePackageJson] is modelled on its own further down). *)
Definition runSafeRename `{Libs} (files : list text) (options : RenameOptions)
    : IO unit :=
  (match oldName options, newName options with
   | _ :: _, _ :: _ => mret tt
   | _, _ => console ErrRequired ;; process_exit 1
   end) ;;
  console (LogStart (oldName options) (newName options)) ;;
  (if dry options then console LogDryRun else mret tt) ;;
  console (LogFound (length files)) ;;
  results ← processFiles files options;
  let summary := summarize results in
  console (LogSummary (processedCount summary) (modifiedCount summary)
             (errorCount summary)) ;;
  if (updatePackage options || updateRemote options) && negb (dry options)
  then beyond else mret tt.

(** ** A reference instance of the libraries

    A parser for the JSON documents whose numbers are integers of at most
    fifteen digits and whose strings have no [\u] escape, and a parser and
    printer for the YAML documents that are one block mapping of plain
    words.  Documents outside these fragments are [Beyond]. *)

Definition json_error : exn := SyntaxError (str "Unexpected token in JSON").

Definition is_json_ws (c : ascii) : bool :=
  let n := nat_of_ascii c in
  Nat.eqb n 32 || Nat.eqb n 9 || Nat.eqb n 10 || Nat.eqb n 13.

Fixpoint skip_ws (s : text) : text :=
  match s with
  | c :: s' => if is_json_ws c then skip_ws s' else s
  | [] => []
  end.

(** The characters of a string literal after its opening quote. *)
Fixpoint json_string (s : text) (acc : text) : res (text * text) :=
  match s with
  | [] => Throw json_error
  | c :: s' =>
      if Ascii.eqb c dq then Ok (rev acc, s')
      else if Ascii.eqb c bsl then
        match s' with
        | [] => Throw json_error
        | e :: s'' =>
            if Ascii.eqb e dq then json_string s'' (dq :: acc)
            else if Ascii.eqb e bsl then json_string s'' (bsl :: acc)
            else if Ascii.eqb e "/" then json_string s'' ("/" :: acc)
            else if Ascii.eqb e "b" then json_string s'' ("008" :: acc)
            else if Ascii.eqb e "f" then json_string s'' ("012" :: acc)
            else if Ascii.eqb e "n" then json_string s'' ("010" :: acc)
            else if Ascii.eqb e "r" then json_string s'' ("013" :: acc)
            else if Ascii.eqb e "t" then json_string s'' ("009" :: acc)
            else if Ascii.eqb e "u" then Beyond
            else Throw json_error
        end
      else if Nat.ltb (nat_of_ascii c) 32 then Throw json_error
      else json_string s' (c :: acc)
  end.

Fixpoint span_digits (s : text) : text * text :=
  match s with
  | c :: s' =>
      if is_digit c then let '(d, r) := span_digits s' in (c :: d, r)
      else ([], s)
  | [] => ([], [])
  end.

(** An integer literal; a fraction or an exponent is outside the fragment. *)
Definition json_number (s : text) : res (value * text) :=
  let '(neg, s1) :=
    match s with
    | c :: s' => if Ascii.eqb c "-" then (true, s') else (false, s)
    | [] => (false, s)
    end in
  let '(digits, rest) := span_digits s1 in
  match digits with
  | [] => Throw json_error
  | d :: ds =>
      if Ascii.eqb d "0" && negb (bool_decide (ds = [])) then Throw json_error
      else
        match rest with
        | c :: _ =>
            if Ascii.eqb c "." || Ascii.eqb c "e" || Ascii.eqb c "E"
            then Beyond
            else if Nat.ltb 15 (length digits) then Beyond
            else Ok (VNumber (if neg && negb (Ascii.eqb d "0")
                              then "-" :: digits else digits), rest)
        | [] =>
            if Nat.ltb 15 (length digits) then Beyond
            else Ok (VNumber (if neg && negb (Ascii.eqb d "0")
                              then "-" :: digits else digits), rest)
        end
  end.

Definition expect_word (w : string) (v : value) (s : text)
    : res (value * text) :=
  if starts_with (str w) s then Ok (v, skipn (String.length w) s)
  else Throw json_error.

Fixpoint json_value (fuel : nat) (s : text) : res (value * text) :=
  match fuel with
  | O => Beyond
  | S fuel' =>
      match skip_ws s with
      | [] => Throw json_error
      | c :: s' =>
          if Ascii.eqb c "{" then
            match skip_ws s' with
            | c' :: s'' =>
                if Ascii.eqb c' "}" then Ok (VObject [], s'')
                else json_members fuel' (skip_ws s') []
            | [] => Throw json_error
            end
          else if Ascii.eqb c "[" then
            match skip_ws s' with
            | c' :: s'' =>
                if Ascii.eqb c' "]" then Ok (VArray [], s'')
                else json_elements fuel' (skip_ws s') []
            | [] => Throw json_error
            end
          else if Ascii.eqb c dq then
            '(str_, rest) ← json_string s' [];
            Ok (VString str_, rest)
          else if Ascii.eqb c "t" then expect_word "true" (VBool true) (c :: s')
          else if Ascii.eqb c "f" then expect_word "false" (VBool false) (c :: s')
          else if Ascii.eqb c "n" then expect_word "null" VNull (c :: s')
          else json_number (c :: s')
      end
  end
with json_elements (fuel : nat) (s : text) (acc : list value)
    : res (value * text) :=
  match fuel with
  | O => Beyond
  | S fuel' =>
      '(v, rest) ← json_value fuel' s;
      match skip_ws rest with
      | c :: rest' =>
          if Ascii.eqb c "," then json_elements fuel' rest' (v :: acc)
          else if Ascii.eqb c "]" then Ok (VArray (rev (v :: acc)), rest')
          else Throw json_error
      | [] => Throw json_error
      end
  end
with json_members (fuel : nat) (s : text) (acc : jsobj value)
    : res (value * text) :=
  match fuel with
  | O => Beyond
  | S fuel' =>
      match skip_ws s with
      | c :: s' =>
          if Ascii.eqb c dq then
            '(key, rest) ← json_string s' [];
            match skip_ws rest with
            | c' :: rest' =>
                if Ascii.eqb c' ":" then
                  '(v, rest'') ← json_value fuel' rest';
                  match skip_ws rest'' with
                  | c'' :: rest3 =>
                      if Ascii.eqb c'' "," then
                        json_members fuel' rest3 (obj_define acc key v)
                      else if Ascii.eqb c'' "}" then
                        Ok (VObject (obj_define acc key v), rest3)
                      else Throw json_error
                  | [] => Throw json_error
                  end
                else Throw json_error
            | [] => Throw json_error
            end
          else Throw json_error
      | [] => Throw json_error
      end
  end.

Definition lite_JSON_parse (s : text) : res value :=
  '(v, rest) ← json_value (S (length s)) s;
  match skip_ws rest with
  | [] => Ok v
  | _ :: _ => Throw json_error
  end.

Definition is_plain_char (c : ascii) : bool :=
  is_alnum c || Ascii.eqb c "-" || Ascii.eqb c "_".

(** A plain word: it starts with a letter and is no keyword of the core
    schema. *)
Definition is_plain_word (s : text) : bool :=
  match s with
  | c :: _ =>
      (is_lower c || is_upper c) && forallb is_plain_char s
      && negb (existsb (fun k => text_eqb (str k) (map lower_char s))
                 ["true"; "false"; "null"; "yes"; "no"; "on"; "off";
                  "y"; "n"]%string)
  | [] => false
  end.

Fixpoint split_lines (s : text) (cur : text) : list text :=
  match s with
  | [] => [rev cur]
  | c :: s' =>
      if Ascii.eqb c newline then rev cur :: split_lines s' []
      else split_lines s' (c :: cur)
  end.

(** [key: value] split at the first colon followed by a space. *)
Fixpoint split_colon (s : text) (key : text) : option (text * text) :=
  match s with
  | c :: s' =>
      match s' with
      | c' :: s'' =>
          if Ascii.eqb c ":" && Ascii.eqb c' " " then Some (rev key, s'')
          else split_colon s' (c :: key)
      | [] => None
      end
  | [] => None
  end.

Definition yaml_error : exn :=
  {| exn_name := str "YAMLParseError";
     exn_message :=
       str "Nested mappings are not allowed in compact mappings" |}.

Fixpoint yaml_lines (lines : list text) (acc : jsobj value) : res value :=
  match lines with
  | [] => Ok (VObject acc)
  | [] :: lines' => yaml_lines lines' acc
  | line :: lines' =>
      match split_colon line [] with
      | Some (key, val) =>
          if includes val (str ": ") then Throw yaml_error
          else if is_plain_word key && is_plain_word val
                  && negb (obj_has acc key)
          then yaml_lines lines' (obj_define acc key (VString val))
          else Beyond
      | None => Beyond
      end
  end.

Definition lite_YAML_parse (s : text) : res value :=
  match split_lines s [] with
  | [[]] => Beyond
  | lines => yaml_lines lines []
  end.

Definition lite_YAML_stringify (v : value) : res text :=
  match v with
  | VObject ((k, v0) :: props) =>
      (fix lines (l : jsobj value) : res text :=
         match l with
         | [] => Ok []
         | (key, VString val) :: l' =>
             if is_plain_word key && is_plain_word val then
               rest ← lines l';
               Ok (key ++ str ": " ++ val ++ [newline] ++ rest)
             else Beyond
         | _ => Beyond
         end) ((k, v0) :: props)
  | _ => Beyond
  end.

Definition lite_libs : Libs :=
  {| JSON_parse := lite_JSON_parse;
     YAML_parse := lite_YAML_parse;
     YAML_stringify := lite_YAML_stringify |}.

(** ** Plain tokens and literal substitution

    The words of the specification: a token is a run of ordinary characters
    and a rename replaces its occurrences, leftmost first, one after the
    other. *)

(** The characters that are syntax in a pattern. *)
Definition pattern_syntax : text := str "\^$.*+?()[]{}|".

Definition plain_char (c : ascii) : bool :=
  negb (existsb (Ascii.eqb c) pattern_syntax).

Definition plain (token : text) : bool := forallb plain_char token.

(** A replacement with no [$] stands for itself. *)
Definition no_dollar (token : text) : bool :=
  forallb (fun c => negb (Ascii.eqb c "$")) token.

Fixpoint matches_at (ic : bool) (p s : text) : bool :=
  match p, s with
  | [], _ => true
  | c :: p', x :: s' => char_eq ic c x && matches_at ic p' s'
  | _ :: _, [] => false
  end.

(** [substitute ic old new skip s]: [s] with the occurrences of the non-empty
    [old] replaced by [new]; the first [skip] characters belong to an
    occurrence already replaced. *)
Fixpoint substitute (ic : bool) (old new : text) (skip : nat) (s : text)
    : text :=
  match s with
  | [] => []
  | x :: s' =>
      match skip with
      | S k => substitute ic old new k s'
      | O =>
          if matches_at ic old s
          then new ++ substitute ic old new (length old - 1) s'
          else x :: substitute ic old new 0 s'
      end
  end.

(** Tokens of 7-bit characters.  The case folding of the matcher and
    [toUpperCase] are the ASCII ones: they are the engine's on tokens of
    7-bit characters, whatever the text they are matched against holds (a
    character above 127 never folds to a 7-bit one). *)
Definition ascii7 (s : text) : bool :=
  forallb (fun c => Nat.ltb (nat_of_ascii c) 128) s.

Definition ascii_tokens (options : RenameOptions) : bool :=
  forallb (fun e => ascii7 (fst e) && ascii7 (snd e)) (renameMap_of options).

Definition replace_all (ic : bool) (old new s : text) : text :=
  substitute ic old new 0 s.

(** [push_chars s st]: the parser state after the ordinary characters [s]. *)
Definition push_chars (s : text) (st : pstate) : pstate :=
  fold_left (fun st c => push_term (RChar c) LAtom st) s st.

(** ** What one file's processing amounts to

    [processFile] reads and writes its own path only.  [process_pure] gives
    its outcome, the file it leaves when it writes, and the events it adds
    (most recent first), from the state of that one path. *)

Definition caught (e : exn) : FileOutcome :=
  {| processed := false; modified := false; error := Some (exn_message e) |}.

Definition console_events (lines : list console_line) : list event :=
  rev (map EvConsole lines).

Definition process_pure `{Libs} (filePath : text) (options : RenameOptions)
    (fl : option file) : option (FileOutcome * option file * list event) :=
  match fl with
  | None =>
      Some (caught (fs_error "ENOENT: no such file or directory" filePath),
            None, [EvRead filePath])
  | Some f =>
      if file_readable f then
        match run_strategy (classify filePath) (file_data f) options with
        | Ok (newContent, lines) =>
            let evs := console_events lines ++ [EvRead filePath] in
            if negb (text_eqb newContent (file_data f)) && negb (dry options)
            then
              if file_writable f then
                Some ({| processed := true; modified := true; error := None |},
                      Some {| file_data := newContent;
                              file_readable := file_readable f;
                              file_writable := true |},
                      EvWrite filePath newContent :: evs)
              else
                Some (caught (fs_error "EACCES: permission denied" filePath),
                      None, EvWrite filePath newContent :: evs)
            else
              Some ({| processed := true;
                       modified := negb (text_eqb newContent (file_data f));
                       error := None |}, None, evs)
        | Throw e => Some (caught e, None, [EvRead filePath])
        | Beyond => None
        end
      else
        Some (caught (fs_error "EACCES: permission denied" filePath),
              None, [EvRead filePath])
  end.

(** The writes of a trace, most recent first. *)
Definition writes_of (t : list event) : list (text * text) :=
  flat_map (fun e => match e with EvWrite p d => [(p, d)] | _ => [] end) t.

(** A computation the model covers: it did not leave the modelled
    fragment. *)
Definition covered {A} (o : outcome A) : bool :=
  match o with Lost => false | _ => true end.

(** The result of [processFile] from [process_pure]. *)
Definition apply_pure (filePath : text) (w : world)
    (r : option (FileOutcome * option file * list event))
    : outcome FileOutcome :=
  match r with
  | Some (out, fl', evs) =>
      Done out {| w_files := match fl' with
                             | Some x => <[filePath := x]> (w_files w)
                             | None => w_files w
                             end;
                  w_trace := evs ++ w_trace w |}
  | None => Lost
  end.

(** The file a path holds after its processing. *)
Definition file_after `{Libs} (filePath : text) (options : RenameOptions)
    (fl : option file) : option file :=
  match process_pure filePath options fl with
  | Some (_, Some x, _) => Some x
  | _ => fl
  end.

(** The console lines before the file pass. *)
Definition prelude (files : list text) (options : RenameOptions) (w : world)
    : world :=
  let w1 := emit (EvConsole (LogStart (oldName options) (newName options))) w in
  let w2 := if dry options then emit (EvConsole LogDryRun) w1 else w1 in
  emit (EvConsole (LogFound (length files))) w2.

Definition summary_line (s : RunSummary) : console_line :=
  LogSummary (processedCount s) (modifiedCount s) (errorCount s).

(** ** Paths into a value tree *)

Inductive step := Key (k : text) | Idx (i : nat).

Fixpoint lookup_path (v : value) (p : list step) : option value :=
  match p with
  | [] => Some v
  | Key k :: p' =>
      match v with
      | VObject props =>
          match obj_get props k with
          | Some x => lookup_path x p'
          | None => None
          end
      | _ => None
      end
  | Idx i :: p' =>
      match v with
      | VArray items =>
          match nth_error items i with
          | Some x => lookup_path x p'
          | None => None
          end
      | _ => None
      end
  end.

(** [descends rename v p p' leaf]: the path [p] leads from [v] to [leaf],
    [p'] is [p] with every key renamed, and at every object on the way no
    later entry is renamed to the same key. *)
Inductive descends (rename : text -> res text)
    : value -> list step -> list step -> value -> Prop :=
| descends_here (v : value) : descends rename v [] [] v
| descends_index (items : list value) (i : nat) (x : value)
    (p p' : list step) (leaf : value) :
    nth_error items i = Some x ->
    descends rename x p p' leaf ->
    descends rename (VArray items) (Idx i :: p) (Idx i :: p') leaf
| descends_key (pre post : jsobj value) (k k' : text) (val : value)
    (p p' : list step) (leaf : value) :
    rename k = Ok k' ->
    (forall k2 v2, In (k2, v2) post -> rename k2 <> Ok k') ->
    descends rename val p p' leaf ->
    descends rename (VObject (pre ++ (k, val) :: post))
      (Key k :: p) (Key k' :: p') leaf.

(** The depth of a path. *)
Definition depth (p : list step) : nat := length p.

(** ** The pattern [codeBlockRegex] denotes

    Both alternatives begin with a backslash: the fence is backslash,
    backquote, backslash, backquote, backslash, then characters among
    backslash, [s] and [S], then three times backslash and backquote; the
    inline span is backslash, backquote, characters other than backslash
    and backquote, backslash, backquote. *)

Definition fence_alt : regex :=
  seq_of [RChar bsl; RChar "`"; RChar bsl; RChar "`"; RChar bsl;
          RQuant false 0 None
            (RClass false [CChar bsl; CChar "s"; CChar bsl; CChar "S"]);
          RChar bsl; RChar "`"; RChar bsl; RChar "`"; RChar bsl; RChar "`"].

Definition inline_alt : regex :=
  seq_of [RChar bsl; RChar "`";
          RQuant true 0 None (RClass true [CChar bsl; CChar "`"]);
          RChar bsl; RChar "`"].

Definition codeBlock_tree : regex :=
  RSeq (RGroup 1 (RAlt fence_alt inline_alt)) REmpty.

Definition no_backslash (s : text) : bool :=
  forallb (fun c => negb (Ascii.eqb c bsl)) s.

(** ** The Code strategy in the words of the specification

    Five named rules per pair, applied in the listed order; every pair in
    the order of the map, each pair's output being the next pair's input. *)

Definition rule : Type := text -> res text.

Definition import_rule (flags oldName newName : text) : rule :=
  replace_step (import_source oldName) flags
    (ByPattern (str "$1" ++ newName ++ str "$2")).

Definition export_rule (flags oldName newName : text) : rule :=
  replace_step (export_source oldName) flags
    (ByPattern (str "$1" ++ newName ++ str "$2")).

Definition require_rule (flags oldName newName : text) : rule :=
  replace_step (require_source oldName) flags
    (ByPattern (str "$1" ++ newName ++ str "$2")).

Definition scoped_rule (flags oldName newName : text) : rule :=
  replace_step (scoped_source oldName) flags (ByPattern (str "@" ++ newName)).

Definition word_rule (flags oldName newName : text) : rule :=
  replace_step (word_source oldName) flags (ByPattern newName).

Definition code_rules (flags oldName newName : text) : list rule :=
  [import_rule flags oldName newName; export_rule flags oldName newName;
   require_rule flags oldName newName; scoped_rule flags oldName newName;
   word_rule flags oldName newName].

Definition apply_in_order (rules : list rule) (s : text) : res text :=
  fold_left (fun acc r => acc ≫= r) rules (Ok s).

Definition code_pipeline (flags : text) (pairs : list (text * text))
    (content : text) : res text :=
  fold_left
    (fun acc entry =>
       acc ≫= apply_in_order (code_rules flags (fst entry) (snd entry)))
    pairs (Ok content).

(** ** Conditions and data of the statements below *)

(** The warning of a structural strategy, and the parser it calls. *)
Definition parse_warning (s : strategy) (e : exn) : console_line :=
  match s with
  | Yaml => WarnYaml (exn_message e)
  | _ => WarnJson (exn_message e)
  end.

Definition parse_of `{Libs} (s : strategy) (content : text) : res value :=
  match s with
  | Yaml => YAML_parse content
  | _ => JSON_parse content
  end.

(** Options with the defaults of the configuration. *)
Definition options_for (old new : text) : RenameOptions :=
  {| oldName := old; newName := new; updatePackage := false;
     updateRemote := false; dry := false; multiMap := None;
     caseSensitive := false; concurrency := None |}.

Definition plain_file (data : text) : file :=
  {| file_data := data; file_readable := true; file_writable := true |}.

(** A string literal of a JSON text. *)
Definition quoted (s : string) : text := dq :: str s ++ [dq].

(** A working tree: a module, a corrupted JSON file, a Markdown file that
    cannot be read, and a file of no known type. *)
Definition corrupted_json : text := str "{" ++ quoted "invalid" ++ str ": json}".

Definition sample_world : world :=
  {| w_files :=
       list_to_map
         [(str "/r/a.ts", plain_file (str "import x from 'old'"));
          (str "/r/b.json", plain_file corrupted_json);
          (str "/r/c.md", {| file_data := str "old"; file_readable := false;
                             file_writable := true |});
          (str "/r/d.txt", plain_file (str "old"))];
     w_trace := [] |}.

Definition sample_files : list text :=
  [str "/r/a.ts"; str "/r/b.json"; str "/r/c.md"; str "/r/d.txt";
   str "/r/missing.ts"].

(** A scoped import, renamed to a name that still begins with the old one. *)
Definition scoped_world : world :=
  {| w_files := {[ str "/r/a.ts" := plain_file (str "@lib") ]};
     w_trace := [] |}.

(** An object whose first key is renamed to its second key. *)
Definition colliding_value : value :=
  VObject [(str "old", VObject [(str "k", VString (str "old"))]);
           (str "new", VNumber (str "1"))].

Definition colliding_json : text :=
  str "{" ++ quoted "old" ++ str ": {" ++ quoted "k" ++ str ": " ++ quoted "old" ++ str "}, "
  ++ quoted "new" ++ str ": 1}".

Definition nested_value : value :=
  VObject [(str "nested", VArray [VObject [(str "old-key", VString (str "old-key"))]])].

(** The world a finished computation leaves. *)
Definition world_of {A} (o : outcome A) (w : world) : world :=
  match o with
  | Done _ w' => w'
  | _ => w
  end.

Definition nested_json : text :=
  str "{" ++ quoted "nested" ++ str ": [{" ++ quoted "old-key" ++ str ": "
  ++ quoted "old-key" ++ str "}]}".

(** [nested_json] after the rename of [old-key] to [new-key], as
    [JSON.stringify] prints it with an indentation of two. *)
Definition nested_json_renamed : text :=
  str "{" ++ [newline]
  ++ str "  " ++ quoted "nested" ++ str ": [" ++ [newline]
  ++ str "    {" ++ [newline]
  ++ str "      " ++ quoted "new-key" ++ str ": " ++ quoted "new-key" ++ [newline]
  ++ str "    }" ++ [newline]
  ++ str "  ]" ++ [newline]
  ++ str "}".

Definition colliding_json_renamed : text :=
  str "{" ++ [newline] ++ str "  " ++ quoted "new" ++ str ": 1" ++ [newline]
  ++ str "}".

(** [sample_world] after one run of the rename of [old] to [new]. *)
Definition sample_after_one : world :=
  world_of (@runSafeRename lite_libs sample_files
              (options_for (str "old") (str "new")) sample_world) sample_world.

(** [sample_world] after the processing of its module. *)
Definition sample_after_module : world :=
  world_of (@processFile lite_libs (str "/r/a.ts")
              (options_for (str "old") (str "new")) sample_world) sample_world.

(** ** Notions for the matcher *)

(** Two continuations that agree on the states no further from the end of
    the text than [st]. *)
Definition agree_below (st : mstate) (k k' : mstate -> option mstate) : Prop :=
  forall st', length (m_after st') <= length (m_after st) -> k st' = k' st'.

(** A matcher that only looks at its continuation on such states. *)
Definition local
    (step : mstate -> (mstate -> option mstate) -> option mstate) : Prop :=
  forall st k k', agree_below st k k' -> step st k = step st k'.

(** [st'] is [st] advanced over a piece of the text. *)
Definition follows (st st' : mstate) : Prop :=
  exists mid,
    m_after st = mid ++ m_after st' /\ m_before st' = rev mid ++ m_before st.

(** A matcher whose result is a result of its continuation at a state that
    follows. *)
Definition reaches
    (step : mstate -> (mstate -> option mstate) -> option mstate) : Prop :=
  forall st k res,
    step st k = Some res -> exists st', follows st st' /\ k st' = Some res.

(** ** Occurrences of a token and what a pattern needs to match *)

(** [occurs ic p s]: the token [p] stands somewhere in [s], letter case
    ignored when [ic] holds. *)
Fixpoint occurs (ic : bool) (p s : text) : bool :=
  matches_at ic p s
  || match s with [] => false | _ :: s' => occurs ic p s' end.

(** A property of texts that a longer text inherits from its end. *)
Definition upward (P : text -> Prop) : Prop :=
  forall x s, P s -> P (x :: s).

(** A matcher that only succeeds on a text ahead with the property [P]. *)
Definition requires (P : text -> Prop)
    (step : mstate -> (mstate -> option mstate) -> option mstate) : Prop :=
  forall st k res, step st k = Some res -> P (m_after st).

(** The pattern text compiles to a pattern that needs [P]. *)
Definition compiles (P : text -> Prop) (source flags : text) : Prop :=
  exists re, RegExp_new source flags = Ok re
             /\ requires P (rmatch (re_ignoreCase re) (re_tree re)).

Definition mentions (old : text) (s : text) : Prop := occurs true old s = true.

Definition has_char (ok : ascii -> bool) (s : text) : Prop := existsb ok s = true.

Definition is_quote (c : ascii) : bool := Ascii.eqb c "'" || Ascii.eqb c dq.

Definition is_at (c : ascii) : bool := Ascii.eqb c "@".

(** No old token of the rename map stands in [content], whatever the letter
    case; the tokens are plain and not empty. *)
Definition absent (content : text) (options : RenameOptions) : bool :=
  forallb (fun e => plain (fst e) && negb (text_eqb (fst e) [])
                    && negb (occurs true (fst e) content))
    (renameMap_of options).

(** Every old token of the rename map is plain, not empty and shorter than
    [content]. *)
Definition shorter_tokens (content : text) (options : RenameOptions) : bool :=
  forallb (fun e => plain (fst e) && negb (text_eqb (fst e) [])
                    && Nat.ltb (length (fst e)) (length content))
    (renameMap_of options).

Definition is_bracket (c : ascii) : bool := Ascii.eqb c "[".

(** The strategies that work on the text of a file. *)
Definition textual (s : strategy) : bool :=
  match s with
  | Code | Env | Docker | Markdown => true
  | Json | Yaml => false
  end.

(** ** The whole-word rule as a scan of the text

    [word_substitute ic old new skip prev s]: the text [s], whose previous
    character is [prev], with the occurrences of [old] that stand between
    two word boundaries replaced by [new]; the first [skip] characters
    belong to an occurrence already replaced. *)

Definition word_edge (prev next : option ascii) : bool :=
  xorb (match prev with Some c => is_word c | None => false end)
       (match next with Some c => is_word c | None => false end).

Definition whole_word_at (ic : bool) (old : text) (prev : option ascii)
    (s : text) : bool :=
  word_edge prev (hd_error s)
  && matches_at ic old s
  && word_edge (nth_error s (length old - 1)) (nth_error s (length old)).

Fixpoint word_substitute (ic : bool) (old new : text) (skip : nat)
    (prev : option ascii) (s : text) : text :=
  match s with
  | [] => []
  | x :: s' =>
      match skip with
      | S k => word_substitute ic old new k (Some x) s'
      | O =>
          if whole_word_at ic old prev s
          then new ++ word_substitute ic old new (length old - 1) (Some x) s'
          else x :: word_substitute ic old new 0 (Some x) s'
      end
  end.

Definition replace_words (ic : bool) (old new s : text) : text :=
  word_substitute ic old new 0 None s.

(** ** The strategies on plain tokens, as scans

    What one pair of the rename map does to a text: in an Env file, the
    upper-case old token becomes the upper-case new token wherever it
    stands, then [=old] becomes [=new]; in code without quotes, [@old]
    becomes [@new], then the whole words [old] become [new]; in Markdown
    without backslash and bracket, the whole words [old] become [new]. *)

Definition env_scan (ic : bool) (e : text * text) (s : text) : text :=
  replace_all ic ("=" :: fst e) ("=" :: snd e)
    (replace_all ic (toUpperCase (fst e)) (toUpperCase (snd e)) s).

Definition code_scan (ic : bool) (e : text * text) (s : text) : text :=
  replace_words ic (fst e) (snd e)
    (replace_all ic ("@" :: fst e) ("@" :: snd e) s).

Definition markdown_scan (ic : bool) (e : text * text) (s : text) : text :=
  replace_words ic (fst e) (snd e) s.

(** The old tokens of the rename map are plain and not empty, the new
    tokens have no [$]. *)
Definition tame (options : RenameOptions) : bool :=
  forallb (fun e => plain (fst e) && negb (text_eqb (fst e) [])
                    && no_dollar (snd e))
    (renameMap_of options).

(** The text and the new tokens are made of characters that satisfy [ok]. *)
Definition made_of (ok : ascii -> bool) (content : text)
    (options : RenameOptions) : bool :=
  forallb ok content
  && forallb (fun e => forallb ok (snd e)) (renameMap_of options).

Definition code_char (c : ascii) : bool := negb (is_quote c).

Definition prose_char (c : ascii) : bool :=
  negb (Ascii.eqb c bsl) && negb (is_bracket c).

(** ** Conditions on the driver *)

(** The same options in preview mode. *)
Definition preview (options : RenameOptions) : RenameOptions :=
  {| oldName := oldName options; newName := newName options;
     updatePackage := updatePackage options;
     updateRemote := updateRemote options; dry := true;
     multiMap := multiMap options; caseSensitive := caseSensitive options;
     concurrency := concurrency options |}.

(** An exception with a message that counts as an error in the summary. *)
Definition loud {A} (r : res A) : Prop :=
  forall e, r = Throw e -> exn_message e <> [].

(** The two shapes of a file outcome: processed without an error, or not
    processed, not modified and with an error message that counts. *)
Definition settled (r : FileOutcome) : Prop :=
  (processed r = true /\ error r = None)
  \/ (processed r = false /\ modified r = false /\ truthy (error r) = true).

(** A value that holds a string or a key: the rewrite of such a value
    builds a pattern. *)
Fixpoint has_text (v : value) : bool :=
  match v with
  | VString _ => true
  | VArray items => existsb has_text items
  | VObject props =>
      match props with
      | [] => false
      | _ :: _ => true
      end
  | _ => false
  end.

(** [new] before every character of [s] and at its end. *)
Definition interleaved (new s : text) : text :=
  new ++ flat_map (fun c => c :: new) s.

(** Induction on a value with the elements of an array and the values of
    an object as smaller values. *)
Section ValueInduction.
Variable P : value -> Prop.
Hypothesis Hnull : P VNull.
Hypothesis Hbool : forall b, P (VBool b).
Hypothesis Hnumber : forall repr, P (VNumber repr).
Hypothesis Hstring : forall s, P (VString s).
Hypothesis Harray : forall items, Forall P items -> P (VArray items).
Hypothesis Hobject :
  forall props, Forall (fun kv => P (snd kv)) props -> P (VObject props).

Fixpoint value_induction (v : value) : P v :=
  match v with
  | VNull => Hnull
  | VBool b => Hbool b
  | VNumber repr => Hnumber repr
  | VString s => Hstring s
  | VArray items =>
      Harray items
        ((fix go (l : list value) : Forall P l :=
            match l with
            | [] => List.Forall_nil P
            | x :: l' => List.Forall_cons P x l' (value_induction x) (go l')
            end) items)
  | VObject props =>
      Hobject props
        ((fix go (l : jsobj value) : Forall (fun kv => P (snd kv)) l :=
            match l with
            | [] => List.Forall_nil _
            | kv :: l' => List.Forall_cons _ kv l' (value_induction (snd kv)) (go l')
            end) props)
  end.
End ValueInduction.

(** * The updaters after the file pass, and the configuration

    [updatePackageJson] of [src/engine.ts] and the functions of
    [src/config.ts].  They read and write JSON files through [fs-extra]
    and join paths with [path.join]. *)

(** ** Values as JavaScript sees them *)

(** ToBoolean of a value read from JSON: a number is [0] exactly when it
    prints as [0]. *)
Definition js_truthy (v : value) : bool :=
  match v with
  | VNull => false
  | VBool b => b
  | VNumber repr => negb (text_eqb repr (str "0"))
  | VString s => negb (text_eqb s [])
  | VArray _ | VObject _ => true
  end.

Definition TypeError (msg : text) : exn :=
  {| exn_name := str "TypeError"; exn_message := msg |}.

(** [v[k]] for a property name [k] that no prototype defines: an own
    property of an object, [undefined] on the other values, a [TypeError]
    on [null]. *)
Definition get_prop (v : value) (k : text) : res (option value) :=
  match v with
  | VNull =>
      Throw (TypeError (str "Cannot read properties of null (reading '"
                        ++ k ++ str "')"))
  | VObject props => Ok (obj_get props k)
  | _ => Ok None
  end.

(** [delete o[k]] *)
Definition obj_delete {A} (o : jsobj A) (k : text) : jsobj A :=
  List.filter (fun kv => negb (text_eqb (fst kv) k)) o.

(** [Object.keys(o).find((key) => key.includes(oldName))] *)
Definition find_key {A} (o : jsobj A) (oldName : text) : option text :=
  match List.find (fun kv => includes (fst kv) oldName) o with
  | Some kv => Some (fst kv)
  | None => None
  end.

(** ** Paths and JSON files *)

Fixpoint split_char (sep : ascii) (s : text) (cur : text) : list text :=
  match s with
  | [] => [rev cur]
  | c :: s' =>
      if Ascii.eqb c sep then rev cur :: split_char sep s' []
      else split_char sep s' (c :: cur)
  end.

(** An absolute path in normal form: [/], or segments that are neither
    empty nor [.] nor [..], with no slash at the end. *)
Definition clean_root (root : text) : bool :=
  text_eqb root (str "/")
  || match split_char "/" root [] with
     | [] :: seg :: segs =>
         forallb (fun s => negb (text_eqb s []) && negb (text_eqb s (str "."))
                           && negb (text_eqb s (str "..")))
           (seg :: segs)
     | _ => false
     end.

(** [path.join(root, name)] for such a root and a file name [name]; other
    roots are outside the model. *)
Definition path_join (root name : text) : res text :=
  if clean_root root then
    if text_eqb root (str "/") then Ok ("/" :: name)
    else Ok (root ++ "/" :: name)
  else Beyond.

(** [fs.pathExists(path)] *)
Definition fs_pathExists (path : text) : IO bool :=
  fun w => Done (bool_decide (is_Some (w_files w !! path))) w.

(** [fs.readJson(path)]: the file is read and parsed; the message of a
    parse error is prefixed with the path. *)
Definition fs_readJson `{Libs} (path : text) : IO value :=
  data ← fs_readFile path;
  match JSON_parse data with
  | Ok v => mret v
  | Throw e =>
      lift (Throw {| exn_name := exn_name e;
                     exn_message := path ++ str ": " ++ exn_message e |})
  | Beyond => beyond
  end.

(** [fs.writeJson(path, v, { spaces: 2 })]: the text ends with a line
    feed. *)
Definition fs_writeJson (path : text) (v : value) : IO unit :=
  fs_writeFile path (JSON_stringify2 v ++ [newline]).

(** ** [updatePackageJson] *)

(** What the updaters and the configuration loader write to the console;
    the functions below return their lines, oldest first. *)
Inductive notice :=
| LogUpdatedPackage
| WarnConfig (configPath : text) (error : exn).

(** The body of the loop over the rename map, on the object [deps] of one
    dependency type. *)
Definition rename_dep (flags : text) (entry : text * text)
    (deps : jsobj value) : res (jsobj value) :=
  let '(oldName, newName) := entry in
  match find_key deps oldName with
  | Some oldDepKey =>
      if text_eqb oldDepKey [] then Ok deps
      else
        newDepKey ← replace_step oldName flags (ByPattern newName) oldDepKey;
        match obj_get deps oldDepKey with
        | Some val =>
            deps' ← obj_set deps newDepKey val;
            Ok (obj_delete deps' oldDepKey)
        | None => Beyond
        end
  | None => Ok deps
  end.

Fixpoint rename_deps (flags : text) (entries : list (text * text))
    (deps : jsobj value) : res (jsobj value) :=
  match entries with
  | [] => Ok deps
  | entry :: entries' =>
      deps' ← rename_dep flags entry deps;
      rename_deps flags entries' deps'
  end.

(** The callback of [forEach] for one dependency type.  The keys of a
    number or of a boolean are none; an array or a string in the place of
    the dependencies is outside the model. *)
Definition update_deps (options : RenameOptions) (packageJson : jsobj value)
    (depType : text) : res (jsobj value) :=
  match obj_get packageJson depType with
  | Some depsValue =>
      if js_truthy depsValue then
        match depsValue with
        | VObject deps =>
            deps' ← rename_deps (flags_of options)
                      (Object_entries (renameMap_of options)) deps;
            Ok (obj_update packageJson depType (VObject deps'))
        | VNumber _ | VBool _ => Ok packageJson
        | _ => Beyond
        end
      else Ok packageJson
  | None => Ok packageJson
  end.

(** The update of the parsed [package.json]. *)
Definition update_package (options : RenameOptions) (packageJson : value)
    : res value :=
  match packageJson with
  | VNull =>
      Throw (TypeError (str "Cannot read properties of null (reading 'name')"))
  | VObject props =>
      let props :=
        match obj_get props (str "name") with
        | Some (VString name) =>
            if text_eqb name (oldName options)
            then obj_update props (str "name") (VString (newName options))
            else props
        | _ => props
        end in
      props ← update_deps options props (str "dependencies");
      props ← update_deps options props (str "devDependencies");
      props ← update_deps options props (str "peerDependencies");
      Ok (VObject props)
  | _ => Ok packageJson
  end.

(** The fields of [package.json] the updater may change. *)
Definition package_fields : list text :=
  [str "name"; str "dependencies"; str "devDependencies";
   str "peerDependencies"].

(** Nothing to update: the name is not the old name and no key of a
    dependency object contains an old token. *)
Definition settled_deps (options : RenameOptions) (props : jsobj value)
    (depType : text) : bool :=
  match obj_get props depType with
  | Some (VObject deps) =>
      forallb (fun e => forallb (fun kv => negb (includes (fst kv) (fst e))) deps)
        (renameMap_of options)
  | Some (VArray _) => false
  | Some (VString s) => text_eqb s []
  | _ => true
  end.

Definition nothing_to_update (options : RenameOptions) (props : jsobj value)
    : bool :=
  match obj_get props (str "name") with
  | Some (VString name) => negb (text_eqb name (oldName options))
  | _ => true
  end
  && settled_deps options props (str "dependencies")
  && settled_deps options props (str "devDependencies")
  && settled_deps options props (str "peerDependencies").

Definition updatePackageJson `{Libs} (root : text) (options : RenameOptions)
    : IO (list notice) :=
  packageJsonPath ← lift (path_join root (str "package.json"));
  present ← fs_pathExists packageJsonPath;
  if (present : bool) then
    packageJson ← fs_readJson packageJsonPath;
    packageJson ← lift (update_package options packageJson);
    fs_writeJson packageJsonPath packageJson ;;
    mret [LogUpdatedPackage]
  else mret [].

(** ** [src/config.ts] *)

Definition strings (l : list string) : value :=
  VArray (map (fun s => VString (str s)) l).

Definition getDefaultConfig : value :=
  VObject
    [(str "updatePackage", VBool false);
     (str "updateRemote", VBool false);
     (str "caseSensitive", VBool false);
     (str "dry", VBool false);
     (str "ignore",
      strings ["node_modules/**"; "dist/**"; "build/**"; ".git/**";
               "**/coverage/**"; "**/*.log"]%string);
     (str "include",
      strings ["**/*.{ts,tsx,js,jsx}"; "**/*.{json,yml,yaml}"; "**/*.env*";
               "**/Dockerfile*"; "**/docker-compose*"; "**/*.md"]%string);
     (str "concurrency", VNumber (str "10"))].

(** [s.endsWith(suffix)] *)
Definition ends_with (s suffix : text) : bool :=
  starts_with (rev suffix) (rev s).

(** The [try] block of [loadConfig] for one path: the configuration it
    returns, or [None] when the loop goes on. *)
Definition read_config `{Libs} (configPath : text) : IO (option value) :=
  if ends_with configPath (str "package.json") then
    packageJson ← fs_readJson configPath;
    safeRename ← lift (get_prop packageJson (str "safeRename"));
    match safeRename with
    | Some v => if js_truthy v then mret (Some v) else mret None
    | None => mret None
    end
  else
    config ← fs_readJson configPath;
    mret (Some config).

(** The loop of [loadConfig]; [notes] holds the warnings so far, most
    recent first. *)
Fixpoint try_configs `{Libs} (configPaths : list text) (notes : list notice)
    : IO (value * list notice) :=
  match configPaths with
  | [] => mret (getDefaultConfig, rev notes)
  | configPath :: rest =>
      present ← fs_pathExists configPath;
      if (present : bool) then
        found ← try_catch
                  (r ← read_config configPath; mret (inl r))
                  (fun error => mret (inr error));
        match found with
        | inl (Some config) => mret (config, rev notes)
        | inl None => try_configs rest notes
        | inr error => try_configs rest (WarnConfig configPath error :: notes)
        end
      else try_configs rest notes
  end.

Definition config_names : list string :=
  [".saferenamerc.json"; ".saferenamerc"; "safe-rename.config.json";
   "package.json"]%string.

Fixpoint join_all (root : text) (names : list string) : res (list text) :=
  match names with
  | [] => Ok []
  | n :: names' =>
      p ← path_join root (str n);
      ps ← join_all root names';
      Ok (p :: ps)
  end.

Definition loadConfig `{Libs} (root : text) : IO (value * list notice) :=
  configPaths ← lift (join_all root config_names);
  try_configs configPaths [].

(** [a ?? b] *)
Definition nullish (v : option value) : bool :=
  match v with
  | None | Some VNull => true
  | _ => false
  end.

(** [{ ...config }]: the own properties of an object, nothing for [null],
    a boolean or a number; the spread of an array or of a string (its
    elements under their indices) is outside the model.  A property may
    hold [undefined], written [None]. *)
Definition spread (config : value) : res (jsobj (option value)) :=
  match config with
  | VObject props => Ok (map (fun kv => (fst kv, Some (snd kv))) props)
  | VArray _ | VString _ => Beyond
  | _ => Ok []
  end.

(** [args[argKey] ?? config[configKey]] *)
Definition merge_field (config : value) (args : jsobj value)
    (argKey configKey : string) : res (option value) :=
  if nullish (obj_get args (str argKey)) then get_prop config (str configKey)
  else Ok (obj_get args (str argKey)).

(** [args["multi-map"] ? JSON.parse(args["multi-map"]) : config.multiMap];
    an argument that is no string is outside the model. *)
Definition merge_multiMap `{Libs} (config : value) (args : jsobj value)
    : res (option value) :=
  match obj_get args (str "multi-map") with
  | Some v =>
      if js_truthy v then
        match v with
        | VString s => m ← JSON_parse s; Ok (Some m)
        | _ => Beyond
        end
      else get_prop config (str "multiMap")
  | None => get_prop config (str "multiMap")
  end.

Definition mergeConfigWithArgs `{Libs} (config : value) (args : jsobj value)
    : res (jsobj (option value)) :=
  base ← spread config;
  updatePackage ← merge_field config args "update-package" "updatePackage";
  updateRemote ← merge_field config args "update-remote" "updateRemote";
  caseSensitive ← merge_field config args "case-sensitive" "caseSensitive";
  dry ← merge_field config args "dry" "dry";
  multiMap ← merge_multiMap config args;
  concurrency ← merge_field config args "concurrency" "concurrency";
  Ok (obj_define
        (obj_define
           (obj_define
              (obj_define
                 (obj_define
                    (obj_define base
                       (str "updatePackage") updatePackage)
                    (str "updateRemote") updateRemote)
                 (str "caseSensitive") caseSensitive)
              (str "dry") dry)
           (str "multiMap") multiMap)
        (str "concurrency") concurrency).

(** The flags of the command line with the fields of the configuration
    they override, and the fields [mergeConfigWithArgs] sets. *)
Definition flag_names : list (string * string) :=
  [("update-package", "updatePackage"); ("update-remote", "updateRemote");
   ("case-sensitive", "caseSensitive"); ("dry", "dry");
   ("concurrency", "concurrency")]%string.

Definition merged_fields : list text :=
  [str "updatePackage"; str "updateRemote"; str "caseSensitive"; str "dry";
   str "multiMap"; str "concurrency"].

(** * Validation of names, rename maps and configurations

    The functions of the validation module. *)

(** ** Patterns written as literals *)

(** The characters from [lo] to [hi], as members of a character set. *)
Definition class_range (lo hi : nat) : list citem :=
  map (fun n => CChar (ascii_of_nat n)) (seq lo (S hi - lo)).

(** A pattern literal without flags. *)
Definition literal (tree : regex) (groups : nat) (global : bool) : RegExp :=
  {| re_tree := tree; re_groups := groups; re_global := global;
     re_ignoreCase := false |}.

(** The leftmost match at or after the current position. *)
Fixpoint search (re : RegExp) (before after : text) : option mstate :=
  match exec_at re before after with
  | Some st => Some st
  | None =>
      match after with
      | [] => None
      | x :: xs => search re (x :: before) xs
      end
  end.

(** [re.test(s)] for a pattern that is neither global nor sticky. *)
Definition RegExp_test (re : RegExp) (s : text) : bool :=
  match search re [] s with
  | Some _ => true
  | None => false
  end.

(** [String.prototype.trim] *)
Fixpoint trim_start (s : text) : text :=
  match s with
  | c :: s' => if is_space c then trim_start s' else s
  | [] => []
  end.

Definition trim (s : text) : text := rev (trim_start (rev (trim_start s))).

(** ** [validateRenameOptions] *)

Record ValidationIssue := {
  v_field : text;
  v_message : text;
  v_value : option value
}.

Record ValidationResult := {
  isValid : bool;
  errors : list ValidationIssue
}.

(** The pattern literal of the source: one character among less-than,
    greater-than, colon, double quote, slash, backslash, bar, question mark,
    star and the control characters 0 to 31. *)
Definition invalidChars : RegExp :=
  literal
    (seq_of
       [RClass false
          ([CChar "<"; CChar ">"; CChar ":"; CChar dq; CChar "/"; CChar bsl;
            CChar "|"; CChar "?"; CChar "*"] ++ class_range 0 31)])
    0 false.

Definition issue (field message : string) (value : option value)
    : ValidationIssue :=
  {| v_field := str field; v_message := str message; v_value := value |}.

(** [errors.push(e)] when [cond] holds. *)
Definition push_if (cond : bool) (e : ValidationIssue)
    (errors : list ValidationIssue) : list ValidationIssue :=
  if cond then errors ++ [e] else errors.

(** A string is truthy when it is not empty. *)
Definition given (s : text) : bool := negb (text_eqb s []).

Definition validateRenameOptions (oldName newName : text) : ValidationResult :=
  let errors := [] in
  let errors :=
    push_if (negb (given oldName) || Nat.eqb (length (trim oldName)) 0)
      (issue "oldName" "Old name is required and cannot be empty" None)
      errors in
  let errors :=
    push_if (given oldName && Nat.ltb 255 (length oldName))
      (issue "oldName" "Old name cannot exceed 255 characters"
         (Some (VString oldName)))
      errors in
  let errors :=
    push_if (negb (given newName) || Nat.eqb (length (trim newName)) 0)
      (issue "newName" "New name is required and cannot be empty" None)
      errors in
  let errors :=
    push_if (given newName && Nat.ltb 255 (length newName))
      (issue "newName" "New name cannot exceed 255 characters"
         (Some (VString newName)))
      errors in
  let errors :=
    push_if (given oldName && given newName
             && text_eqb (trim oldName) (trim newName))
      (issue "newName" "New name must be different from old name" None)
      errors in
  let errors :=
    push_if (given oldName && RegExp_test invalidChars oldName)
      (issue "oldName" "Old name contains invalid characters"
         (Some (VString oldName)))
      errors in
  let errors :=
    push_if (given newName && RegExp_test invalidChars newName)
      (issue "newName" "New name contains invalid characters"
         (Some (VString newName)))
      errors in
  {| isValid := Nat.eqb (length errors) 0; errors := errors |}.

(** ** [validateMultiMap] *)

(** The errors of one entry, under the field of the map and with the pair
    as their value. *)
Definition entry_issue (oldName newName : text) (err : ValidationIssue)
    : ValidationIssue :=
  {| v_field := str "multiMap." ++ v_field err;
     v_message := v_message err;
     v_value := Some (VString (oldName ++ str " -> " ++ newName)) |}.

(** The loop over the entries; a value that is no string is outside the
    model. *)
Fixpoint validate_entries (entries : jsobj value)
    (acc : list ValidationIssue) : res (list ValidationIssue) :=
  match entries with
  | [] => Ok acc
  | (oldName, VString newName) :: entries' =>
      let validation := validateRenameOptions oldName newName in
      validate_entries entries'
        (if isValid validation then acc
         else acc ++ map (entry_issue oldName newName) (errors validation))
  | _ :: _ => Beyond
  end.

(** The argument is [undefined] ([None]) or a value; the entries of an
    array are outside the model. *)
Definition validateMultiMap (multiMap : option value) : res ValidationResult :=
  match multiMap with
  | Some (VObject props) =>
      errors ← validate_entries (Object_entries props) [];
      Ok {| isValid := Nat.eqb (length errors) 0; errors := errors |}
  | Some (VArray _) => Beyond
  | _ =>
      Ok {| isValid := false;
            errors := [issue "multiMap" "Multi-map must be a valid object" None] |}
  end.

(** ** [validateConfig] *)

Definition is_boolean (v : value) : bool :=
  match v with VBool _ => true | _ => false end.

Definition is_array (v : value) : bool :=
  match v with VArray _ => true | _ => false end.

(** The value of a number that prints as an integer. *)
Definition integer_of (repr : text) : option Z :=
  match repr with
  | "-" :: d :: ds =>
      if forallb is_digit (d :: ds)
      then Some (- Z.of_N (decimal_value (d :: ds)))%Z else None
  | d :: ds =>
      if forallb is_digit (d :: ds)
      then Some (Z.of_N (decimal_value (d :: ds))) else None
  | [] => None
  end.

Fixpoint check_fields (config : jsobj value) (ok : value -> bool)
    (what : string) (fields : list string) (acc : list ValidationIssue)
    : list ValidationIssue :=
  match fields with
  | [] => acc
  | field :: fields' =>
      check_fields config ok what fields'
        (match obj_get config (str field) with
         | Some v =>
             push_if (negb (ok v))
               {| v_field := str field;
                  v_message := str field ++ str what;
                  v_value := Some v |}
               acc
         | None => acc
         end)
  end.

(** [config] is the object given; a number that does not print as an
    integer is outside the model. *)
Definition validateConfig (config : jsobj value) : res ValidationResult :=
  let errors := [] in
  let errors :=
    check_fields config is_boolean " must be a boolean value"
      ["updatePackage"; "updateRemote"; "caseSensitive"; "dry"]%string errors in
  let errors :=
    check_fields config is_array " must be an array"
      ["ignore"; "include"]%string errors in
  errors ←
    match obj_get config (str "concurrency") with
    | Some v =>
        bad ← match v with
              | VNumber repr =>
                  match integer_of repr with
                  | Some n => Ok ((n <? 1)%Z || (100 <? n)%Z)
                  | None => Beyond
                  end
              | _ => Ok true
              end;
        Ok (push_if bad
              (issue "concurrency"
                 "Concurrency must be a number between 1 and 100" (Some v))
              errors)
    | None => Ok errors
    end;
  Ok {| isValid := Nat.eqb (length errors) 0; errors := errors |}.

(** ** The conditions the validators check, as predicates *)

(** A character a name may not hold. *)
Definition invalid_char (c : ascii) : bool :=
  Nat.ltb (nat_of_ascii c) 32
  || existsb (Ascii.eqb c) (str "<>:" ++ [dq] ++ str "/\|?*").

(** Both names have a character that is no white space, neither is longer
    than 255 characters, they differ once trimmed, and neither holds an
    invalid character. *)
Definition acceptable (oldName newName : text) : bool :=
  negb (text_eqb (trim oldName) [])
  && negb (text_eqb (trim newName) [])
  && Nat.leb (length oldName) 255
  && Nat.leb (length newName) 255
  && negb (text_eqb (trim oldName) (trim newName))
  && negb (existsb invalid_char oldName)
  && negb (existsb invalid_char newName).

Definition acceptable_entry (kv : text * value) : bool :=
  match snd kv with
  | VString newName => acceptable (fst kv) newName
  | _ => false
  end.

(** The errors [validateMultiMap] reports for one entry. *)
Definition entry_errors (kv : text * value) : list ValidationIssue :=
  match snd kv with
  | VString newName =>
      map (entry_issue (fst kv) newName)
        (errors (validateRenameOptions (fst kv) newName))
  | _ => []
  end.

Definition absent_or (ok : value -> bool) (config : jsobj value)
    (field : string) : bool :=
  match obj_get config (str field) with
  | Some v => ok v
  | None => true
  end.

Definition in_range (v : value) : bool :=
  match v with
  | VNumber repr =>
      match integer_of repr with
      | Some n => (1 <=? n)%Z && (n <=? 100)%Z
      | None => false
      end
  | _ => false
  end.

Definition acceptable_config (config : jsobj value) : bool :=
  forallb (absent_or is_boolean config)
    ["updatePackage"; "updateRemote"; "caseSensitive"; "dry"]%string
  && forallb (absent_or is_array config) ["ignore"; "include"]%string
  && absent_or in_range config "concurrency".

(** * The planner: the most frequent tokens of a repository

    [analyzeRepo] of [src/planner.ts], from the list of files its glob
    yields. *)

(** ** [String.prototype.match] with a global pattern, [replace] and
    [split] with a string *)

(** The matches of a global pattern, leftmost first; the scan resumes after
    each match, one character further when the match is empty. *)
Fixpoint match_from (fuel : nat) (re : RegExp) (before after : text)
    : list text :=
  match fuel with
  | O => []
  | S fuel' =>
      match exec_at re before after with
      | Some st' =>
          let matched :=
            rev (firstn (length (m_before st') - length before)
                   (m_before st')) in
          match matched with
          | [] =>
              match after with
              | [] => [[]]
              | x :: xs => [] :: match_from fuel' re (x :: before) xs
              end
          | _ :: _ =>
              matched :: match_from fuel' re (m_before st') (m_after st')
          end
      | None =>
          match after with
          | [] => []
          | x :: xs => match_from fuel' re (x :: before) xs
          end
      end
  end.

(** [s.match(re) || []] *)
Definition String_match (s : text) (re : RegExp) : list text :=
  match_from (S (length s)) re [] s.

(** [s.replace(p, tpl)] with a string [p]: the first occurrence only. *)
Fixpoint replace_first (p tpl : text) (before s : text) : text :=
  if starts_with p s then
    GetSubstitution p (rev before) (skipn (length p) s) [] tpl
    ++ skipn (length p) s
  else
    match s with
    | [] => []
    | x :: xs => x :: replace_first p tpl (x :: before) xs
    end.

Definition String_replace_text (s p tpl : text) : text :=
  replace_first p tpl [] s.

(** ** The four patterns *)

Definition word_or_dash : list citem :=
  class_range 97 122 ++ class_range 65 90 ++ class_range 48 57
  ++ [CChar "-"; CChar "_"].

(** The literal of the scopes: [@], one or more letters, digits, dashes or
    underscores in a group, and a slash. *)
Definition scope_pattern : RegExp :=
  literal
    (seq_of [RChar "@";
             RGroup 1 (seq_of [RQuant true 1 None (RClass false word_or_dash)]);
             RChar "/"])
    1 true.

(** The literal of the environment names: five or more capitals, digits or
    underscores, and an underscore. *)
Definition env_pattern : RegExp :=
  literal
    (seq_of [RQuant true 5 None
               (RClass false
                  (class_range 65 90 ++ class_range 48 57 ++ [CChar "_"]));
             RChar "_"])
    0 true.

(** The literal of the images: [image:], white space, and one or more
    characters that are not white space in a group. *)
Definition image_pattern : RegExp :=
  literal
    (seq_of (map RChar (str "image:")
             ++ [RQuant true 0 None (RClass false [CEsc EscSpace false]);
                 RGroup 1 (seq_of [RQuant true 1 None
                                     (RClass true [CEsc EscSpace false])])]))
    1 true.

(** The literal of the imports: [from], a space, a quote, one or more
    characters that are no quote in a group, and a quote. *)
Definition from_pattern : RegExp :=
  literal
    (seq_of (map RChar (str "from ")
             ++ [RClass false [CChar dq; CChar "'"];
                 RGroup 1 (seq_of [RQuant true 1 None
                                     (RClass true [CChar dq; CChar "'"])]);
                 RClass false [CChar dq; CChar "'"]]))
    1 true.

(** ** The frequency table *)

(** The names every object inherits: a word that is one of them reads a
    function where a count is expected, which is outside the model. *)
Definition inherited_names : list string :=
  ["constructor"; "__defineGetter__"; "__defineSetter__"; "hasOwnProperty";
   "__lookupGetter__"; "__lookupSetter__"; "isPrototypeOf";
   "propertyIsEnumerable"; "toString"; "valueOf"; "__proto__";
   "toLocaleString"]%string.

Definition inherited (word : text) : bool :=
  existsb (fun n => text_eqb (str n) word) inherited_names.

(** [freq[word] = (freq[word] || 0) + 1] *)
Definition add (freq : jsobj nat) (word : text) : res (jsobj nat) :=
  if inherited word then Beyond
  else
    match obj_get freq word with
    | Some n => Ok (obj_define freq word (n + 1))
    | None => Ok (obj_define freq word 1)
    end.

Fixpoint add_all (freq : jsobj nat) (words : list text) : res (jsobj nat) :=
  match words with
  | [] => Ok freq
  | word :: words' =>
      freq' ← add freq word;
      add_all freq' words'
  end.

(** [m.split(":")[1]] *)
Definition after_colon (m : text) : res text :=
  match nth_error (split_char ":" m []) 1 with
  | Some part => Ok part
  | None => Beyond
  end.

Fixpoint after_colons (ms : list text) : res (list text) :=
  match ms with
  | [] => Ok []
  | m :: ms' =>
      part ← after_colon m;
      parts ← after_colons ms';
      Ok (part :: parts)
  end.

(** The words one file adds to the table, in the order of the calls:
    the scopes without their [@] and slash, the environment names, the
    images and the imports. *)
Definition scope_words (content : text) : list text :=
  map (fun m => String_replace_text
                  (String_replace_text m (str "@") []) (str "/") [])
    (String_match content scope_pattern).

Definition env_words (content : text) : list text :=
  String_match content env_pattern.

Definition image_words (content : text) : res (list text) :=
  after_colons (String_match content image_pattern).

Definition import_words (content : text) : list text :=
  String_match content from_pattern.

Definition words_of (content : text) : res (list text) :=
  images ← image_words content;
  Ok (scope_words content ++ env_words content ++ images
      ++ import_words content).

(** ** [analyzeRepo] *)

(** [Object.entries(freq).sort((a, b) => b[1] - a[1])]: the sort is stable,
    entries with the same count keep their order. *)
Fixpoint insert_entry (e : text * nat) (sorted : list (text * nat))
    : list (text * nat) :=
  match sorted with
  | [] => [e]
  | x :: l =>
      if Nat.leb (snd x) (snd e) then e :: x :: l
      else x :: insert_entry e l
  end.

Definition sort_entries (entries : list (text * nat)) : list (text * nat) :=
  fold_right insert_entry [] entries.

(** The loop over the files. *)
Fixpoint analyze_files (root : text) (files : list text) (freq : jsobj nat)
    : IO (jsobj nat) :=
  match files with
  | [] => mret freq
  | f :: files' =>
      content ← fs_readFile (root ++ str "/" ++ f);
      words ← lift (words_of content);
      freq' ← lift (add_all freq words);
      analyze_files root files' freq'
  end.

(** [files] is the list the glob of the planner yields. *)
Definition analyzeRepo (root : text) (files : list text)
    : IO (list (text * nat)) :=
  freq ← analyze_files root files [];
  let sorted := sort_entries (Object_entries freq) in
  mret (firstn 20 sorted).

(** The counts go down along the list. *)
Fixpoint descending (l : list (text * nat)) : bool :=
  match l with
  | a :: l' =>
      match l' with
      | b :: _ => Nat.leb (snd b) (snd a) && descending l'
      | [] => true
      end
  | [] => true
  end.

(** The words of all the files, in the order of the list; [None] when a
    file is missing or cannot be read, or its words are outside the
    model. *)
Fixpoint repo_words (root : text) (files : list text) (m : gmap text file)
    : option (list text) :=
  match files with
  | [] => Some []
  | f :: files' =>
      match m !! (root ++ str "/" ++ f) with
      | Some x =>
          if file_readable x then
            match words_of (file_data x), repo_words root files' m with
            | Ok ws, Some rest => Some (ws ++ rest)
            | _, _ => None
            end
          else None
      | None => None
      end
  end.

(** How many times [word] stands in [words]. *)
Definition occurrences (words : list text) (word : text) : nat :=
  length (List.filter (text_eqb word) words).

(** The reads of the loop, in the order of the list. *)
Definition reads (root : text) (files : list text) : list event :=
  map (fun f => EvRead (root ++ str "/" ++ f)) files.

(** No word is the name of an inherited property. *)
Definition own_words (words : list text) : bool :=
  forallb (fun word => negb (inherited word)) words.

(** ** The shapes of the tokens *)

(** A matcher whose result is a result of its continuation after a text
    with the property [P]. *)
Definition consumes (P : text -> Prop)
    (step : mstate -> (mstate -> option mstate) -> option mstate) : Prop :=
  forall st k res,
    step st k = Some res ->
    exists mid st',
      P mid
      /\ m_after st = mid ++ m_after st'
      /\ m_before st' = rev mid ++ m_before st
      /\ k st' = Some res.

(** One character with the property [ok]. *)
Definition one_of (ok : ascii -> bool) (m : text) : Prop :=
  exists x, m = [x] /\ ok x = true.

(** A text with [P] and then a text with [Q]. *)
Definition then_ (P Q : text -> Prop) (m : text) : Prop :=
  exists a b, m = a ++ b /\ P a /\ Q b.

(** [mn] or more characters with the property [ok]. *)
Definition run_of (mn : nat) (ok : ascii -> bool) (m : text) : Prop :=
  mn <= length m /\ forallb ok m = true.

(** The members of the four character sets. *)
Definition scope_char (c : ascii) : bool :=
  class_match false false word_or_dash c.

Definition env_char (c : ascii) : bool :=
  class_match false false
    (class_range 65 90 ++ class_range 48 57 ++ [CChar "_"]) c.

Definition space_char (c : ascii) : bool :=
  class_match false false [CEsc EscSpace false] c.

Definition no_space_char (c : ascii) : bool :=
  class_match false true [CEsc EscSpace false] c.

Definition quote_mark (c : ascii) : bool :=
  class_match false false [CChar dq; CChar "'"] c.

Definition not_quote_mark (c : ascii) : bool :=
  class_match false true [CChar dq; CChar "'"] c.

(** ** Sample data of the updaters, the configuration and the planner *)

(** Options whose old token is no valid pattern, and options with an empty
    old token in the rename map. *)
Definition unclosed_options : RenameOptions :=
  options_for (str "(") (str "new").

Definition empty_token_options : RenameOptions :=
  {| oldName := str "old"; newName := str "new"; updatePackage := false;
     updateRemote := false; dry := false; multiMap := Some [([], str "-")];
     caseSensitive := false; concurrency := None |}.

Definition small_json : text :=
  str "{" ++ quoted "a" ++ str ": " ++ quoted "b" ++ str "}".

Definition small_json_world : world :=
  {| w_files := {[ str "/r/b.json" := plain_file small_json ]};
     w_trace := [] |}.

(** The objects of three dependencies, before and after the rename of
    [old] to [new]. *)
Definition sample_deps : jsobj value :=
  [(str "left-pad", VString (str "1")); (str "old-lib", VString (str "2"));
   (str "old-two", VString (str "3"))].

Definition sample_deps_renamed : jsobj value :=
  [(str "left-pad", VString (str "1")); (str "old-two", VString (str "3"));
   (str "new-lib", VString (str "2"))].

(** A [package.json] with nothing to update, and its world. *)
Definition settled_package : text :=
  str "{" ++ quoted "name" ++ str ": " ++ quoted "app" ++ str ", "
  ++ quoted "dependencies" ++ str ": {" ++ quoted "left-pad" ++ str ": "
  ++ quoted "1.0.0" ++ str "}}".

Definition settled_package_props : jsobj value :=
  [(str "name", VString (str "app"));
   (str "dependencies", VObject [(str "left-pad", VString (str "1.0.0"))])].

Definition package_world : world :=
  {| w_files := {[ str "/r/package.json" := plain_file settled_package ]};
     w_trace := [] |}.

Definition named_package : jsobj value :=
  [(str "name", VString (str "old")); (str "version", VString (str "1"))].

(** A configuration file that parses and one that does not. *)
Definition config_world : world :=
  {| w_files :=
       {[ str "/r/.saferenamerc.json"
          := plain_file (str "{" ++ quoted "dry" ++ str ": true}") ]};
     w_trace := [] |}.

Definition broken_config_world : world :=
  {| w_files := {[ str "/r/.saferenamerc.json" := plain_file corrupted_json ]};
     w_trace := [] |}.

Definition sample_config : jsobj value :=
  [(str "dry", VBool true); (str "ignore", VArray [])].

Definition sample_args : jsobj value := [(str "dry", VBool false)].

(** A repository of two files for the planner. *)
Definition repo_world : world :=
  {| w_files :=
       list_to_map
         [(str "/r/a.ts",
           plain_file (str "import x from '@acme/core'; DATABASE_URL"));
          (str "/r/b.env", plain_file (str "DATABASE_URL=1"))];
     w_trace := [] |}.

Definition repo_files : list text := [str "a.ts"; str "b.env"].

Definition repo_tokens : list text :=
  [str "acme"; str "DATABASE_"; str "from '@acme/core'"; str "DATABASE_"].

(** The text a string value or a key becomes: for each pair of the rename
    map in turn, every occurrence of the old token replaced by the new
    token. *)
Definition rename_all (options : RenameOptions) (s : text) : text :=
  fold_left
    (fun acc e =>
       replace_all (negb (caseSensitive options)) (fst e) (snd e) acc)
    (renameMap_of options) s.

(** A step of a path with its key renamed. *)
Definition renamed_step (options : RenameOptions) (st : step) : step :=
  match st with
  | Key k => Key (rename_all options k)
  | Idx i => Idx i
  end.

(** ** Texts and documents that hold no old token *)

(** No key and no string of the value holds an old token of the rename
    map, whatever the letter case. *)
Fixpoint clean_value (options : RenameOptions) (v : value) : bool :=
  match v with
  | VString s => absent s options
  | VArray items => forallb (clean_value options) items
  | VObject props =>
      forallb (fun kv => absent (fst kv) options
                         && clean_value options (snd kv)) props
  | _ => true
  end.

(** A module whose import path holds the old token twice. *)
Definition repeated_world : world :=
  {| w_files := {[ str "/r/a.ts" := plain_file (str "import x from 'oldold'") ]};
     w_trace := [] |}.

(** A JSON document, as [JSON.stringify] prints it, with one string. *)
Definition one_string_json (s : string) : text :=
  str "{" ++ [newline] ++ str "  " ++ quoted "k" ++ str ": " ++ quoted s
  ++ [newline] ++ str "}".

(** A JSON file in which the replacement of [ab] by [b] joins a new [ab]. *)
Definition joined_world : world :=
  {| w_files := {[ str "/r/a.json" := plain_file (one_string_json "aab") ]};
     w_trace := [] |}.

(** The keys of an object in enumeration order: the index keys first, in
    ascending order, then the other keys, none twice. *)
Fixpoint ordered_keys (ks : list text) : Prop :=
  match ks with
  | [] => True
  | k :: ks' =>
      match array_index k with
      | Some n =>
          Forall (fun k' => match array_index k' with
                            | Some n' => (n < n')%N
                            | None => True
                            end) ks'
      | None => Forall (fun k' => array_index k' = None /\ k' <> k) ks'
      end
      /\ ordered_keys ks'
  end.

(** [obj_insert_index] on the keys. *)
Fixpoint key_insert (ks : list text) (n : N) (k : text) : list text :=
  match ks with
  | [] => [k]
  | k' :: ks' =>
      match array_index k' with
      | Some n' => if (n' <? n)%N then k' :: key_insert ks' n k else k :: ks
      | None => k :: ks
      end
  end.

(** The printer of a structural strategy. *)
Definition print_of `{Libs} (s : strategy) (v : value) : res text :=
  match s with
  | Yaml => YAML_stringify v
  | _ => Ok (JSON_stringify2 v)
  end.

(** What the first run writes to the file at [filePath] holds no old token.
    When the strategy changes the text of a Code, Env, Docker or Markdown
    file, no old token occurs in the new text, whatever the letter case;
    when it changes a JSON or YAML file, no old token occurs in the keys
    and strings of the document it prints, and the parser reads that
    document back from the printed text. *)
Definition settles `{Libs} (options : RenameOptions) (filePath : text)
    (x : file) : Prop :=
  match classify filePath with
  | None => True
  | Some s =>
      if textual s then
        forall c1 lines,
          run_strategy (Some s) (file_data x) options = Ok (c1, lines) ->
          c1 <> file_data x ->
          absent c1 options = true
      else
        forall v0 v1 out,
          parse_of s (file_data x) = Ok v0 ->
          processValue (renameMap_of options) (flags_of options) v0 = Ok v1 ->
          print_of s v1 = Ok out ->
          out <> file_data x ->
          clean_value options v1 = true /\ parse_of s out = Ok v1
  end.

(** A working tree with a module, a JSON document, a Markdown file that
    cannot be read and a path that is gone, and the tree after one run of
    the rename of [old-key] to [new-key]. *)
Definition tree_files : list text :=
  [str "/r/a.ts"; str "/r/n.json"; str "/r/c.md"; str "/r/gone.ts"].

Definition tree_world : world :=
  {| w_files :=
       list_to_map
         [(str "/r/a.ts", plain_file (str "import x from 'old-key'"));
          (str "/r/n.json", plain_file nested_json);
          (str "/r/c.md", {| file_data := str "old-key"; file_readable := false;
                             file_writable := true |})];
     w_trace := [] |}.

Definition tree_after_one : world :=
  world_of (@runSafeRename lite_libs tree_files
              (options_for (str "old-key") (str "new-key")) tree_world)
    tree_world.

(** ** The import line and the patterns of the path rules *)

(** [import names from 'path'] between the quotes [q]. *)
Definition import_line (names : text) (q : ascii) (path : text) : text :=
  str "import " ++ names ++ str " from " ++ [q] ++ path ++ [q].

(** What stands between [import] and [from]: not empty, no white space at
    its ends, no quote and no line terminator. *)
Definition import_clause (names : text) : bool :=
  negb (is_space (hd " " names)) && negb (is_space (List.last names " "))
  && forallb (fun c => negb (is_quote c) && negb (is_line_terminator c)) names.

(** The pattern of the import rule. *)
Definition spaces_item : regex :=
  RQuant true 1 None (RClass false [CEsc EscSpace false]).

Definition quote_item : regex := RClass false [CChar "'"; CChar dq].

Definition unquoted_item : regex :=
  RQuant true 0 None (RClass true [CChar "'"; CChar dq]).

Definition from_items : list regex :=
  spaces_item :: map RChar (str "from") ++ [spaces_item; quote_item; unquoted_item].

(** The patterns of the import, export and require rules. *)
Definition path_items (old : text) : regex :=
  seq_of (map RChar old ++ [RGroup 2 (seq_of [unquoted_item; quote_item])]).

Definition import_tree (old : text) : regex :=
  RSeq
    (RGroup 1
       (seq_of (map RChar (str "import")
                ++ [spaces_item; RQuant false 0 None RAny] ++ from_items)))
    (path_items old).

Definition export_tree (old : text) : regex :=
  RSeq
    (RGroup 1
       (seq_of (map RChar (str "export")
                ++ [spaces_item; RQuant false 0 None RAny] ++ from_items)))
    (path_items old).

Definition require_tree (old : text) : regex :=
  RSeq
    (RGroup 1
       (seq_of (map RChar (str "require")
                ++ [RQuant true 0 None (RClass false [CEsc EscSpace false]);
                    RChar "(";
                    RQuant true 0 None (RClass false [CEsc EscSpace false]);
                    quote_item; unquoted_item])))
    (path_items old).

(** A key word stands in the text and a quote after it. *)
Definition keyword_before_quote (kw s : text) : Prop :=
  exists a b, s = a ++ b /\ matches_at true kw b = true /\ has_char is_quote b.

(** What the part of the pattern from the white space before [from] to the
    opening quote consumes. *)
Definition from_shape (ic : bool) (m : text) : Prop :=
  exists a1 F a2 qc a3,
    m = a1 ++ F ++ a2 ++ qc :: a3
    /\ a1 <> [] /\ forallb is_space a1 = true
    /\ forallb (fun c => negb (is_space c)) F = true
    /\ a2 <> [] /\ forallb is_space a2 = true
    /\ is_quote qc = true.

(** An import line and a text without quotes after it, for the old token
    [lib] and the new token [lib2]. *)
Definition import_sample : text :=
  import_line (str "{ lib }") "'" (str "lib/core") ++ str "; lib.run();".

(** No key of the value is renamed to [__proto__], the one key whose
    assignment is outside the model. *)
Fixpoint proto_free (options : RenameOptions) (v : value) : bool :=
  match v with
  | VArray items => forallb (proto_free options) items
  | VObject props =>
      forallb (fun kv => negb (text_eqb (rename_all options (fst kv))
                                 (str "__proto__"))
                         && proto_free options (snd kv)) props
  | _ => true
  end.

(** * Properties *)

(** ** Texts *)

Lemma text_eqb_false (a b : text) : text_eqb a b = false <-> a <> b.
Proof. unfold text_eqb. apply bool_decide_eq_false. Qed.

Lemma text_eqb_true (a b : text) : text_eqb a b = true <-> a = b.
Proof. unfold text_eqb. apply bool_decide_eq_true. Qed.

Lemma text_eqb_refl (a : text) : text_eqb a a = true.
Proof. apply text_eqb_true. reflexivity. Qed.


(** ** The matcher needs no more fuel than it is given *)

Lemma m_one_local (ok : ascii -> bool) : local (m_one ok).
Proof.
  intros st k k' Hk. unfold m_one.
  destruct (m_after st) as [|x xs] eqn:E; [reflexivity|].
  destruct (ok x); [|reflexivity]. apply Hk. rewrite E. simpl. lia.
Qed.

Lemma rep_loop_local (step : mstate -> (mstate -> option mstate) -> option mstate)
    (greedy : bool) :
  local step ->
  forall fuel mn mx, local (fun st k => rep_loop step greedy fuel mn mx st k).
Proof.
  intros Hstep. induction fuel as [|fuel IH]; intros mn mx st k k' Hk.
  - reflexivity.
  - cbn [rep_loop].
    assert (Hst : k st = k' st) by (apply Hk; lia).
    assert (Hagain :
      step st (fun st' =>
        if Nat.eqb mn 0 && Nat.eqb (length (m_after st')) (length (m_after st))
        then None else rep_loop step greedy fuel (pred mn) (dec_max mx) st' k)
      = step st (fun st' =>
        if Nat.eqb mn 0 && Nat.eqb (length (m_after st')) (length (m_after st))
        then None else rep_loop step greedy fuel (pred mn) (dec_max mx) st' k')).
    { apply Hstep. intros st' Hle.
      destruct (_ && _); [reflexivity|].
      apply IH. intros st'' Hle'. apply Hk. lia. }
    rewrite Hagain, Hst. reflexivity.
Qed.

Lemma rmatch_local (ic : bool) (r : regex) : local (rmatch ic r).
Proof.
  induction r as [ | c | | neg items | a IHa b IHb | a IHa b IHb
                 | greedy mn mx a IHa | i a IHa | | | neg];
    intros st k k' Hk; cbn [rmatch].
  - apply Hk. lia.
  - apply m_one_local. assumption.
  - apply m_one_local. assumption.
  - apply m_one_local. assumption.
  - apply IHa. intros st' Hle. apply IHb. intros st'' Hle'. apply Hk. lia.
  - rewrite (IHa st k k' Hk), (IHb st k k' Hk). reflexivity.
  - apply (rep_loop_local (fun s => rmatch ic a (clear_caps (groups_in a) s)) greedy).
    + intros s k1 k2 H12. apply IHa. exact H12.
    + assumption.
  - apply IHa. intros st' Hle. apply Hk. simpl. assumption.
  - destruct (m_before st); [apply Hk; lia|reflexivity].
  - destruct (m_after st) eqn:E; [apply Hk; rewrite E; simpl; lia|reflexivity].
  - destruct (xorb neg (at_word_boundary st)); [apply Hk; lia|reflexivity].
Qed.

Lemma rep_loop_fuel (step : mstate -> (mstate -> option mstate) -> option mstate)
    (greedy : bool) :
  local step ->
  forall fuel fuel' mn mx st k,
    mn + length (m_after st) < fuel -> mn + length (m_after st) < fuel' ->
    rep_loop step greedy fuel mn mx st k = rep_loop step greedy fuel' mn mx st k.
Proof.
  intros Hstep. induction fuel as [|fuel IH]; intros fuel' mn mx st k H1 H2; [lia|].
  destruct fuel' as [|fuel']; [lia|]. cbn [rep_loop].
  assert (Hagain :
    step st (fun st' =>
      if Nat.eqb mn 0 && Nat.eqb (length (m_after st')) (length (m_after st))
      then None else rep_loop step greedy fuel (pred mn) (dec_max mx) st' k)
    = step st (fun st' =>
      if Nat.eqb mn 0 && Nat.eqb (length (m_after st')) (length (m_after st))
      then None else rep_loop step greedy fuel' (pred mn) (dec_max mx) st' k)).
  { apply Hstep. intros st' Hle.
    destruct (Nat.eqb mn 0) eqn:Emn; simpl andb.
    - apply Nat.eqb_eq in Emn. subst mn.
      destruct (Nat.eqb _ _) eqn:El; [reflexivity|].
      apply Nat.eqb_neq in El. apply IH; simpl; lia.
    - apply Nat.eqb_neq in Emn. apply IH; lia. }
  rewrite Hagain. reflexivity.
Qed.

(** The quantifier with any larger fuel is the quantifier. *)
Lemma quantifier_fuel (ic greedy : bool) (mn : nat) (mx : option nat)
    (a : regex) (st : mstate) (k : mstate -> option mstate) (fuel : nat) :
  mn + length (m_after st) < fuel ->
  rmatch ic (RQuant greedy mn mx a) st k
  = rep_loop (fun s => rmatch ic a (clear_caps (groups_in a) s))
      greedy fuel mn mx st k.
Proof.
  intros Hf. cbn [rmatch]. apply rep_loop_fuel; [|lia|assumption].
  intros s k1 k2 H12. apply rmatch_local. exact H12.
Qed.

(** ** A match is a segment of the text *)

Lemma follows_refl (st : mstate) : follows st st.
Proof. exists []. split; reflexivity. Qed.

Lemma follows_trans (a b c : mstate) : follows a b -> follows b c -> follows a c.
Proof.
  intros (m1 & A1 & B1) (m2 & A2 & B2). exists (m1 ++ m2). split.
  - rewrite A1, A2, app_assoc. reflexivity.
  - rewrite B2, B1, rev_app_distr, app_assoc. reflexivity.
Qed.

Lemma follows_length (a b : mstate) :
  follows a b -> length (m_after b) <= length (m_after a).
Proof. intros (m & A & _). rewrite A, length_app. lia. Qed.

Lemma m_one_reaches (ok : ascii -> bool) : reaches (m_one ok).
Proof.
  intros st k res. unfold m_one.
  destruct (m_after st) as [|x xs] eqn:E; [discriminate|].
  destruct (ok x); [|discriminate]. intros Hk.
  exists (m_advance x xs st). split; [|assumption].
  exists [x]. split; [assumption|reflexivity].
Qed.

Lemma rep_loop_reaches (step : mstate -> (mstate -> option mstate) -> option mstate)
    (greedy : bool) :
  reaches step ->
  forall fuel mn mx, reaches (fun st k => rep_loop step greedy fuel mn mx st k).
Proof.
  intros Hstep. induction fuel as [|fuel IH]; intros mn mx st k res; [discriminate|].
  cbn [rep_loop].
  assert (Hagain : forall r,
    step st (fun st' =>
      if Nat.eqb mn 0 && Nat.eqb (length (m_after st')) (length (m_after st))
      then None else rep_loop step greedy fuel (pred mn) (dec_max mx) st' k) = Some r ->
    exists st', follows st st' /\ k st' = Some r).
  { intros r Hr. apply Hstep in Hr as (st1 & F1 & Hr).
    destruct (_ && _); [discriminate|].
    apply IH in Hr as (st2 & F2 & Hr).
    exists st2. split; [eapply follows_trans; eassumption|assumption]. }
  assert (Hhere : forall r, k st = Some r -> exists st', follows st st' /\ k st' = Some r).
  { intros r Hr. exists st. split; [apply follows_refl|assumption]. }
  assert (Hboth : forall o1 o2 : option mstate,
            (forall r, o1 = Some r -> exists st', follows st st' /\ k st' = Some r) ->
            (forall r, o2 = Some r -> exists st', follows st st' /\ k st' = Some r) ->
            match o1 with Some r => Some r | None => o2 end = Some res ->
            exists st', follows st st' /\ k st' = Some res).
  { intros o1 o2 P1 P2. destruct o1 as [r|]; [apply P1|apply P2]. }
  destruct mx as [[|n]|]; [apply Hhere | |];
    (destruct (negb (Nat.eqb mn 0)); [apply Hagain|];
     destruct greedy; apply Hboth; assumption).
Qed.

Lemma clear_caps_follows (gs : list nat) (st : mstate) : follows st (clear_caps gs st).
Proof. exists []. split; reflexivity. Qed.

Lemma rmatch_reaches (ic : bool) (r : regex) : reaches (rmatch ic r).
Proof.
  induction r as [ | c | | neg items | a IHa b IHb | a IHa b IHb
                 | greedy mn mx a IHa | i a IHa | | | neg];
    intros st k res; cbn [rmatch].
  - intros Hk. exists st. split; [apply follows_refl|assumption].
  - apply m_one_reaches.
  - apply m_one_reaches.
  - apply m_one_reaches.
  - intros E. apply IHa in E as (st1 & F1 & E). apply IHb in E as (st2 & F2 & E).
    exists st2. split; [eapply follows_trans; eassumption|assumption].
  - destruct (rmatch ic a st k) as [r|] eqn:E.
    + intros [= <-]. apply IHa. assumption.
    + apply IHb.
  - apply (rep_loop_reaches (fun s => rmatch ic a (clear_caps (groups_in a) s)) greedy).
    intros s k1 r1 E. apply IHa in E as (s1 & F & E).
    exists s1. split; [|assumption].
    eapply follows_trans; [apply clear_caps_follows|exact F].
  - intros E. apply IHa in E as (st1 & F1 & E).
    exists (set_cap i st st1). split; [|assumption].
    destruct F1 as (m & A & B). exists m. split; assumption.
  - destruct (m_before st); [|discriminate].
    intros Hk. exists st. split; [apply follows_refl|assumption].
  - destruct (m_after st) eqn:E; [|discriminate].
    intros Hk. exists st. split; [apply follows_refl|assumption].
  - destruct (xorb neg (at_word_boundary st)); [|discriminate].
    intros Hk. exists st. split; [apply follows_refl|assumption].
Qed.

Lemma exec_at_segment (re : RegExp) (before after : text) (st' : mstate) :
  exec_at re before after = Some st' ->
  exists matched,
    after = matched ++ m_after st'
    /\ m_before st' = rev matched ++ before
    /\ rev (firstn (length (m_before st') - length before) (m_before st'))
       = matched.
Proof.
  unfold exec_at. intros E. apply rmatch_reaches in E as (st1 & (m & A & B) & [= ->]).
  simpl in A, B. exists m. split; [assumption|]. split; [assumption|].
  rewrite B, length_app, length_rev.
  replace (length m + length before - length before) with (length (rev m))
    by (rewrite length_rev; lia).
  rewrite firstn_app, Nat.sub_diag, firstn_O, app_nil_r, firstn_all.
  apply rev_involutive.
Qed.

(** The scan with any larger fuel is the scan. *)
Lemma replace_from_fuel (re : RegExp) (r : replacer) :
  forall fuel fuel' before after,
    length after < fuel -> length after < fuel' ->
    replace_from fuel re r before after = replace_from fuel' re r before after.
Proof.
  induction fuel as [|fuel IH]; intros fuel' before after H1 H2; [lia|].
  destruct fuel' as [|fuel']; [lia|]. cbn [replace_from].
  destruct (exec_at re before after) as [st'|] eqn:E.
  - apply exec_at_segment in E as (m & A & B & C). rewrite C.
    destruct (apply_replacer r m (rev before) (m_after st') _); try reflexivity.
    cbn [mbind res_bind].
    destruct (negb (re_global re)); [reflexivity|].
    destruct m as [|c m].
    + destruct after as [|x xs]; [reflexivity|].
      rewrite (IH fuel') by (simpl in *; lia). reflexivity.
    + rewrite (IH fuel'); [reflexivity| |];
        rewrite A in H1, H2; rewrite length_app in H1, H2; simpl in *; lia.
  - destruct after as [|x xs]; [reflexivity|].
    rewrite (IH fuel') by (simpl in *; lia). reflexivity.
Qed.

Lemma String_replace_fuel (s : text) (re : RegExp) (r : replacer) (fuel : nat) :
  length s < fuel -> String_replace s re r = replace_from fuel re r [] s.
Proof. intros Hf. unfold String_replace. apply replace_from_fuel; lia. Qed.

(** ** Patterns of plain tokens

    For a token of ordinary characters the pattern is the token itself and
    [replace] is the substitution of its occurrences. *)

Lemma plain_char_not (c x : ascii) :
  plain_char c = true -> In x pattern_syntax -> Ascii.eqb c x = false.
Proof.
  unfold plain_char. intros Hp Hin.
  apply negb_true_iff in Hp.
  destruct (Ascii.eqb c x) eqn:E; [|reflexivity].
  assert (existsb (Ascii.eqb c) pattern_syntax = true) as Hex
    by (apply existsb_exists; exists x; split; assumption).
  congruence.
Qed.

Lemma p_step_plain (c : ascii) (st : pstate) :
  plain_char c = true -> p_mode st = MNormal ->
  p_step st c = Ok (push_term (RChar c) LAtom st).
Proof.
  intros Hp Hm. unfold p_step. rewrite Hm.
  unfold bsl.
  rewrite !(plain_char_not c _ Hp) by (vm_compute; tauto).
  reflexivity.
Qed.

Lemma p_run_plain (s : text) : forall st,
  plain s = true -> p_mode st = MNormal ->
  p_run st s = Ok (push_chars s st).
Proof.
  induction s as [|c s IH]; intros st Hp Hm; [reflexivity|].
  simpl in Hp. apply andb_true_iff in Hp as [Hc Hs].
  simpl. rewrite (p_step_plain c st Hc Hm).
  apply IH; [assumption|reflexivity].
Qed.

Lemma push_chars_shape (s : text) : forall st,
  p_stack (push_chars s st) = p_stack st
  /\ f_alts (p_top (push_chars s st)) = f_alts (p_top st)
  /\ f_cur (p_top (push_chars s st)) = rev (map RChar s) ++ f_cur (p_top st)
  /\ f_idx (p_top (push_chars s st)) = f_idx (p_top st)
  /\ p_groups (push_chars s st) = p_groups st
  /\ (p_mode st = MNormal -> p_mode (push_chars s st) = MNormal).
Proof.
  induction s as [|c s IH]; intros st; [simpl; tauto|].
  unfold push_chars in *. simpl fold_left.
  destruct (IH (push_term (RChar c) LAtom st)) as (H1 & H2 & H3 & H4 & H5 & H6).
  rewrite H1, H2, H3, H4, H5. simpl.
  repeat split; try reflexivity.
  - rewrite <- app_assoc. reflexivity.
  - intros _. apply H6. reflexivity.
Qed.

Lemma seq_of_lit (s : text) : seq_of (map RChar s) = lit s.
Proof. reflexivity. Qed.

Lemma RegExp_new_plain (old flags : text) :
  plain old = true -> forallb flag_ok flags = true ->
  RegExp_new old flags =
    Ok {| re_tree := lit old; re_groups := 0;
          re_global := existsb (Ascii.eqb "g") flags;
          re_ignoreCase := existsb (Ascii.eqb "i") flags |}.
Proof.
  intros Hp Hf. unfold RegExp_new. rewrite Hf. simpl negb. cbv iota.
  rewrite (p_run_plain old p_init Hp eq_refl).
  destruct (push_chars_shape old p_init) as (H1 & H2 & H3 & H4 & H5 & H6).
  unfold p_finish. rewrite (H6 eq_refl), H1. simpl.
  unfold frame_regex. rewrite H2, H3, H5. simpl.
  rewrite app_nil_r, rev_involutive. reflexivity.
Qed.

Lemma rmatch_lit (ic : bool) (p : text) : forall st k,
  rmatch ic (lit p) st k =
    if matches_at ic p (m_after st)
    then k {| m_before := rev (firstn (length p) (m_after st)) ++ m_before st;
              m_after := skipn (length p) (m_after st);
              m_caps := m_caps st |}
    else None.
Proof.
  induction p as [|c p IH]; intros st k.
  - simpl. destruct st; reflexivity.
  - unfold lit. simpl map. simpl seq_of. simpl rmatch. unfold m_one.
    destruct (m_after st) as [|x xs] eqn:E; [reflexivity|].
    simpl matches_at. destruct (char_eq ic c x); [|reflexivity].
    simpl andb. fold (lit p). rewrite IH. simpl m_after.
    destruct (matches_at ic p xs); [|reflexivity].
    f_equal. unfold m_advance. simpl. rewrite <- app_assoc. reflexivity.
Qed.

Lemma GetSubstitution_plain (m pre post : text) (caps : list (option text)) (tpl : text) :
  no_dollar tpl = true -> GetSubstitution m pre post caps tpl = tpl.
Proof.
  induction tpl as [|c tpl IH]; intros H; [reflexivity|].
  simpl in H. apply andb_true_iff in H as [Hc Ht].
  simpl. rewrite Hc. f_equal. apply IH. assumption.
Qed.

Lemma matches_at_length (ic : bool) (p s : text) :
  matches_at ic p s = true -> length p <= length s.
Proof.
  revert s. induction p as [|c p IH]; intros [|x s] H; simpl in *; try lia; try discriminate.
  apply andb_true_iff in H as [_ H]. apply IH in H. lia.
Qed.

Lemma substitute_skip (ic : bool) (old new : text) (k : nat) : forall s,
  k <= length s ->
  substitute ic old new k s = substitute ic old new 0 (skipn k s).
Proof.
  induction k as [|k IH]; intros s Hk; [reflexivity|].
  destruct s as [|x s]; simpl in *; [lia|].
  apply IH. lia.
Qed.

Lemma substitute_cons (ic : bool) (old new : text) (x : ascii) (s : text) :
  substitute ic old new 0 (x :: s) =
    if matches_at ic old (x :: s)
    then new ++ substitute ic old new (length old - 1) s
    else x :: substitute ic old new 0 s.
Proof. reflexivity. Qed.

Lemma replace_from_lit (ic : bool) (old tpl : text) :
  old <> [] -> no_dollar tpl = true -> 
  forall fuel before after,
    length after < fuel ->
    replace_from fuel
      {| re_tree := lit old; re_groups := 0; re_global := true;
         re_ignoreCase := ic |} (ByPattern tpl) before after
    = Ok (substitute ic old tpl 0 after).
Proof.
  intros Hold Htpl. induction fuel as [|fuel IH]; intros before after Hlen; [lia|].
  simpl replace_from. unfold exec_at. simpl re_tree. simpl re_ignoreCase.
  rewrite rmatch_lit. simpl m_after.
  destruct (matches_at ic old after) eqn:Hm.
  - simpl m_before. simpl m_after. simpl re_global. cbv beta iota.
    unfold apply_replacer. rewrite GetSubstitution_plain by assumption.
    pose proof (matches_at_length _ _ _ Hm) as Hle.
    destruct old as [|c old']; [congruence|].
    destruct after as [|x xs]; [exfalso; simpl in Hle; lia|].
    simpl in Hle.
    rewrite length_app, length_rev, length_firstn.
    replace (length (c :: old') `min` length (x :: xs) + length before - length before)
      with (length (c :: old')) by (simpl; lia).
    rewrite firstn_app, length_rev, length_firstn.
    replace (length (c :: old') - length (c :: old') `min` length (x :: xs)) with 0 by (simpl; lia).
    rewrite firstn_O, app_nil_r.
    rewrite firstn_all2 by (rewrite length_rev, length_firstn; simpl; lia).
    rewrite rev_involutive.
    simpl firstn at 1. cbv iota. simpl mbind. unfold res_bind.
    simpl in Hlen.
    rewrite IH by (simpl; rewrite length_skipn; lia).
    rewrite substitute_cons, Hm.
    simpl mbind. f_equal. f_equal.
    rewrite (substitute_skip ic (c :: old') tpl (length (c :: old') - 1) xs)
      by (simpl; lia).
    simpl. rewrite Nat.sub_0_r. reflexivity.
  - destruct after as [|x xs]; [reflexivity|].
    simpl mbind. unfold res_bind. rewrite IH by (simpl in Hlen; lia).
    rewrite substitute_cons, Hm. reflexivity.
Qed.

Lemma replace_step_plain (options : RenameOptions) (old new s : text) :
  plain old = true -> old <> [] -> no_dollar new = true ->
  replace_step old (flags_of options) (ByPattern new) s
  = Ok (replace_all (negb (caseSensitive options)) old new s).
Proof.
  intros Hp Ho Hn. unfold replace_step, flags_of.
  destruct (caseSensitive options); rewrite RegExp_new_plain by (assumption || reflexivity);
    simpl mbind; unfold String_replace, replace_all;
    apply replace_from_lit; auto.
Qed.

Lemma fold_bind_stuck {A B} (g : B -> A -> res A) (l : list B) (m : res A) :
  (forall a, m <> Ok a) ->
  fold_left (fun acc b => acc ≫= g b) l m = m.
Proof.
  revert m. induction l as [|b l IH]; intros m Hm; [reflexivity|].
  simpl. destruct m as [a| |]; [exfalso; exact (Hm a eq_refl)| |];
    simpl; apply IH; intros a; discriminate.
Qed.

Lemma for_entries_fold (body : text * text -> text -> res text)
    (entries : list (text * text)) : forall content,
  for_entries body entries content =
    fold_left (fun acc e => acc ≫= body e) entries (Ok content).
Proof.
  induction entries as [|e entries IH]; intros content; [reflexivity|].
  simpl. destruct (body e content) as [c| |] eqn:E; simpl.
  - apply IH.
  - symmetry. apply fold_bind_stuck. intros a; discriminate.
  - symmetry. apply fold_bind_stuck. intros a; discriminate.
Qed.

Lemma res_bind_assoc {A B C} (m : res A) (f : A -> res B) (g : B -> res C) :
  (m ≫= f) ≫= g = m ≫= (fun x => f x ≫= g).
Proof. destruct m; reflexivity. Qed.

Lemma ts_pair_rules (flags : text) (pair : text * text) (content : text) :
  ts_pair flags pair content =
    apply_in_order (code_rules flags (fst pair) (snd pair)) content.
Proof.
  destruct pair as [o n]. unfold apply_in_order, code_rules.
  cbn [fold_left fst snd].
  rewrite !res_bind_assoc. reflexivity.
Qed.

Lemma codeBlock_parsed (options : RenameOptions) :
  RegExp_new codeBlock_source (flags_of options) =
    Ok {| re_tree := codeBlock_tree; re_groups := 1; re_global := true;
          re_ignoreCase := negb (caseSensitive options) |}.
Proof. unfold flags_of. destruct (caseSensitive options); vm_compute; reflexivity. Qed.

Lemma upper_char_backslash (x : ascii) :
  Ascii.eqb x bsl = false -> Ascii.eqb bsl (upper_char x) = false.
Proof.
  intros Hx. unfold upper_char.
  destruct (is_lower x) eqn:El.
  - destruct x as [[] [] [] [] [] [] [] []]; vm_compute in El; try discriminate;
      vm_compute; reflexivity.
  - rewrite Ascii.eqb_sym. assumption.
Qed.

Lemma char_eq_backslash (ic : bool) (x : ascii) :
  Ascii.eqb x bsl = false -> char_eq ic bsl x = false.
Proof.
  intros Hx. unfold char_eq, canon. destruct ic.
  - change (upper_char bsl) with bsl. apply upper_char_backslash. assumption.
  - rewrite Ascii.eqb_sym. assumption.
Qed.

Lemma codeBlock_no_match (ic : bool) (before after : text) :
  match after with
  | [] => True
  | x :: _ => Ascii.eqb x bsl = false
  end ->
  exec_at {| re_tree := codeBlock_tree; re_groups := 1; re_global := true;
             re_ignoreCase := ic |} before after = None.
Proof.
  intros H. unfold exec_at. simpl re_tree. simpl re_ignoreCase.
  destruct after as [|x xs].
  - reflexivity.
  - unfold codeBlock_tree, fence_alt, inline_alt.
    cbn [rmatch seq_of m_one m_after].
    rewrite (char_eq_backslash ic x H). reflexivity.
Qed.

Lemma codeBlock_rule_idle (ic : bool) (r : replacer) (content : text) :
  no_backslash content = true ->
  forall fuel before,
    length content < fuel ->
    replace_from fuel
      {| re_tree := codeBlock_tree; re_groups := 1; re_global := true;
         re_ignoreCase := ic |} r before content = Ok content.
Proof.
  induction content as [|x xs IH]; intros Hnb fuel before Hlen.
  - destruct fuel; [simpl in Hlen; lia|]. cbn [replace_from].
    rewrite codeBlock_no_match by exact I. reflexivity.
  - simpl in Hnb. apply andb_true_iff in Hnb as [Hx Hxs].
    apply negb_true_iff in Hx.
    destruct fuel; [simpl in Hlen; lia|].
    cbn [replace_from]. rewrite codeBlock_no_match by exact Hx.
    rewrite IH by (assumption || (simpl in Hlen; lia)). reflexivity.
Qed.

Lemma replace_from_constant (re : RegExp) (tpl : text) :
  no_dollar tpl = true ->
  forall fuel before after,
    replace_from fuel re (ByPattern tpl) before after
    = replace_from fuel re (ByFunction (fun _ _ => Ok tpl)) before after.
Proof.
  intros Ht. induction fuel as [|fuel IH]; intros before after; [reflexivity|].
  cbn [replace_from]. destruct (exec_at re before after) as [st'|].
  - unfold apply_replacer. rewrite GetSubstitution_plain by assumption.
    cbn [mbind res_bind].
    destruct (negb (re_global re)); [reflexivity|].
    destruct (rev _) as [|m ms].
    + destruct after as [|x xs]; [reflexivity|]. rewrite IH. reflexivity.
    + rewrite IH. reflexivity.
  - destruct after as [|x xs]; [reflexivity|]. rewrite IH. reflexivity.
Qed.

Lemma substitute_clean_prefix (ic : bool) (c0 : ascii) (old' tpl : text)
    (pre rest : text) :
  forallb (fun c => negb (char_eq ic c0 c)) pre = true ->
  substitute ic (c0 :: old') tpl 0 (pre ++ rest)
  = pre ++ substitute ic (c0 :: old') tpl 0 rest.
Proof.
  induction pre as [|x pre IH]; intros Hp; [reflexivity|].
  simpl in Hp. apply andb_true_iff in Hp as [Hx Hp]. apply negb_true_iff in Hx.
  change ((x :: pre) ++ rest) with (x :: (pre ++ rest)).
  rewrite substitute_cons. cbn [matches_at]. rewrite Hx. cbn [andb].
  rewrite IH by assumption. reflexivity.
Qed.

Lemma word_char_facts (c : ascii) :
  is_word c = true ->
  Ascii.eqb (upper_char c) "$" = false
  /\ Ascii.eqb c "$" = false
  /\ char_eq true "=" (upper_char c) = false.
Proof.
  destruct c as [[] [] [] [] [] [] [] []]; vm_compute; intros H;
    try discriminate; repeat split.
Qed.

Lemma word_token_facts (new : text) :
  forallb is_word new = true ->
  no_dollar (toUpperCase new) = true
  /\ no_dollar new = true
  /\ forallb (fun c => negb (char_eq true "=" c)) (toUpperCase new) = true.
Proof.
  induction new as [|c new IH]; intros Hw; [repeat split|].
  simpl in Hw. apply andb_true_iff in Hw as [Hc Hw].
  destruct (IH Hw) as (H1 & H2 & H3).
  destruct (word_char_facts c Hc) as (F1 & F2 & F3).
  unfold no_dollar, toUpperCase in *. simpl.
  rewrite F1, F2, F3, H1, H2, H3. repeat split.
Qed.

Lemma env_name_uppercased (new : text) :
  forallb is_word new = true ->
  processEnvFile (str "old_var=value") (options_for (str "old_var") new)
  = Ok (toUpperCase new ++ str "=value").
Proof.
  intros Hw. destruct (word_token_facts new Hw) as (Hup & Hnew & Heq).
  unfold processEnvFile, options_for, renameMap_of, flags_of, Object_entries.
  cbn [multiMap caseSensitive oldName newName for_entries env_pair].
  assert (Step1 :
    replace_step (str "(" ++ toUpperCase (str "old_var") ++ str ")") (str "gi")
      (ByPattern (toUpperCase new)) (str "old_var=value")
    = Ok (toUpperCase new ++ str "=value")).
  { unfold replace_step.
    change (RegExp_new (str "(" ++ toUpperCase (str "old_var") ++ str ")") (str "gi"))
      with (Ok {| re_tree := RSeq (RGroup 1 (lit (str "OLD_VAR"))) REmpty;
                  re_groups := 1; re_global := true; re_ignoreCase := true |}).
    cbn [mbind res_bind]. unfold String_replace.
    rewrite replace_from_constant by assumption.
    generalize (toUpperCase new). intros T. vm_compute. reflexivity. }
  rewrite Step1. cbn [mbind res_bind].
  assert (Step2 :
    replace_step (str "=" ++ str "old_var") (str "gi")
      (ByPattern (str "=" ++ new)) (toUpperCase new ++ str "=value")
    = Ok (toUpperCase new ++ str "=value")).
  { pose proof (replace_step_plain (options_for (str "old_var") new) (str "=old_var")
                  (str "=" ++ new) (toUpperCase new ++ str "=value")) as Hs.
    unfold flags_of, options_for in Hs. cbn [caseSensitive negb] in Hs.
    change (str "=" ++ str "old_var") with (str "=old_var").
    rewrite Hs; [|reflexivity|discriminate|exact Hnew].
    unfold replace_all. f_equal.
    change (str "=old_var") with ("=" :: str "old_var").
    rewrite substitute_clean_prefix by exact Heq.
    reflexivity. }
  rewrite Step2. reflexivity.
Qed.


(** ** Objects: keys stay distinct, the last assignment wins *)


Section Objects.
Context {A : Type}.
Implicit Types (o : jsobj A) (k : text) (v : A).

Lemma obj_has_get o k : obj_has o k = true <-> exists v, obj_get o k = Some v.
Proof.
  induction o as [|[k' v'] o IH]; simpl.
  - split; [discriminate|intros [? ?]; discriminate].
  - destruct (text_eqb k' k); simpl; [split; eauto|exact IH].
Qed.

Lemma obj_has_false_get o k : obj_has o k = false <-> obj_get o k = None.
Proof.
  induction o as [|[k' v'] o IH]; simpl; [tauto|].
  destruct (text_eqb k' k); simpl; [split; discriminate|exact IH].
Qed.

Lemma obj_has_keys o k : obj_has o k = true <-> In k (map fst o).
Proof.
  induction o as [|[k' v'] o IH]; simpl.
  - split; [discriminate|tauto].
  - destruct (text_eqb k' k) eqn:E; simpl.
    + apply text_eqb_true in E. tauto.
    + apply text_eqb_false in E. rewrite IH. tauto.
Qed.

Lemma obj_update_keys o k v : map fst (obj_update o k v) = map fst o.
Proof.
  induction o as [|[k' v'] o IH]; simpl; [reflexivity|].
  destruct (text_eqb k' k); simpl; [reflexivity|]. rewrite IH. reflexivity.
Qed.

Lemma obj_get_update_eq o k v :
  obj_has o k = true -> obj_get (obj_update o k v) k = Some v.
Proof.
  induction o as [|[k' v'] o IH]; simpl; [discriminate|].
  destruct (text_eqb k' k) eqn:E; simpl; rewrite E; [reflexivity|exact IH].
Qed.

Lemma obj_get_update_ne o k k2 v :
  k2 <> k -> obj_get (obj_update o k2 v) k = obj_get o k.
Proof.
  intros Hne. induction o as [|[k' v'] o IH]; simpl; [reflexivity|].
  destruct (text_eqb k' k2) eqn:E; simpl.
  - apply text_eqb_true in E. subst k'.
    apply text_eqb_false in Hne. rewrite Hne. reflexivity.
  - rewrite IH. reflexivity.
Qed.

Lemma obj_get_insert_index_eq o n k v :
  obj_has o k = false -> obj_get (obj_insert_index o n k v) k = Some v.
Proof.
  induction o as [|[k' v'] o IH]; simpl; intros Hh.
  - rewrite text_eqb_refl. reflexivity.
  - apply orb_false_iff in Hh as [Hk Ho].
    destruct (array_index k') as [n'|].
    + destruct (n' <? n)%N; simpl.
      * rewrite Hk. apply IH. assumption.
      * rewrite text_eqb_refl. reflexivity.
    + simpl. rewrite text_eqb_refl. reflexivity.
Qed.

Lemma obj_get_insert_index_ne o n k k2 v :
  k2 <> k -> obj_get (obj_insert_index o n k2 v) k = obj_get o k.
Proof.
  intros Hne. apply text_eqb_false in Hne.
  induction o as [|[k' v'] o IH]; simpl.
  - rewrite Hne. reflexivity.
  - destruct (array_index k') as [n'|].
    + destruct (n' <? n)%N; simpl.
      * rewrite IH. reflexivity.
      * rewrite Hne. reflexivity.
    + simpl. rewrite Hne. reflexivity.
Qed.

Lemma obj_get_app o o2 k :
  obj_get (o ++ o2) k =
    match obj_get o k with Some v => Some v | None => obj_get o2 k end.
Proof.
  induction o as [|[k' v'] o IH]; simpl; [reflexivity|].
  destruct (text_eqb k' k); [reflexivity|exact IH].
Qed.

Lemma obj_get_define_eq o k v : obj_get (obj_define o k v) k = Some v.
Proof.
  unfold obj_define. destruct (obj_has o k) eqn:Hh.
  - apply obj_get_update_eq. assumption.
  - destruct (array_index k).
    + apply obj_get_insert_index_eq. assumption.
    + rewrite obj_get_app. apply obj_has_false_get in Hh. rewrite Hh.
      simpl. rewrite text_eqb_refl. reflexivity.
Qed.

Lemma obj_get_define_ne o k k2 v :
  k2 <> k -> obj_get (obj_define o k2 v) k = obj_get o k.
Proof.
  intros Hne. unfold obj_define. destruct (obj_has o k2).
  - apply obj_get_update_ne. assumption.
  - destruct (array_index k2).
    + apply obj_get_insert_index_ne. assumption.
    + rewrite obj_get_app. simpl.
      apply text_eqb_false in Hne. rewrite Hne.
      destruct (obj_get o k); reflexivity.
Qed.

Lemma obj_insert_index_keys o n k v :
  forall x, In x (map fst (obj_insert_index o n k v)) <-> x = k \/ In x (map fst o).
Proof.
  induction o as [|[k' v'] o IH]; simpl; intros x.
  - intuition.
  - destruct (array_index k') as [n'|].
    + destruct (n' <? n)%N; simpl.
      * rewrite IH. intuition.
      * intuition.
    + simpl. intuition.
Qed.

Lemma obj_insert_index_NoDup o n k v :
  obj_has o k = false -> NoDup (map fst o) ->
  NoDup (map fst (obj_insert_index o n k v)).
Proof.
  induction o as [|[k' v'] o IH]; simpl; intros Hh Hnd.
  - apply NoDup_cons. split; [apply not_elem_of_nil|constructor].
  - apply orb_false_iff in Hh as [Hk Ho].
    apply NoDup_cons in Hnd as [Hnotin Hnd].
    assert (Hnew : NoDup (k :: k' :: map fst o)).
    { apply NoDup_cons. split.
      - rewrite list_elem_of_In. simpl. intros [E|Hin].
        + subst. rewrite text_eqb_refl in Hk. discriminate.
        + apply obj_has_keys in Hin. congruence.
      - apply NoDup_cons. split; assumption. }
    destruct (array_index k') as [n'|]; [|exact Hnew].
    destruct (n' <? n)%N; [|exact Hnew]. simpl.
    apply NoDup_cons. split; [|apply IH; assumption].
    rewrite list_elem_of_In, obj_insert_index_keys. intros [E|Hin].
    + subst. rewrite text_eqb_refl in Hk. discriminate.
    + apply Hnotin. apply list_elem_of_In. assumption.
Qed.

Lemma obj_define_NoDup o k v :
  NoDup (map fst o) -> NoDup (map fst (obj_define o k v)).
Proof.
  intros Hnd. unfold obj_define. destruct (obj_has o k) eqn:Hh.
  - rewrite obj_update_keys. assumption.
  - destruct (array_index k).
    + apply obj_insert_index_NoDup; assumption.
    + rewrite map_app. simpl. apply NoDup_app. split; [assumption|]. split.
      * intros x Hx Hx'. apply list_elem_of_In in Hx.
        apply list_elem_of_singleton in Hx'. subst.
        apply obj_has_keys in Hx. congruence.
      * apply NoDup_singleton.
Qed.

Lemma obj_update_length o k v : length (obj_update o k v) = length o.
Proof.
  induction o as [|[k' v'] o IH]; simpl; [reflexivity|].
  destruct (text_eqb k' k); simpl; [reflexivity|]. rewrite IH. reflexivity.
Qed.

Lemma obj_insert_index_length o n k v :
  length (obj_insert_index o n k v) = S (length o).
Proof.
  induction o as [|[k' v'] o IH]; simpl; [reflexivity|].
  destruct (array_index k'); [|reflexivity].
  destruct (_ <? _)%N; simpl; [rewrite IH|]; reflexivity.
Qed.

Lemma obj_define_length o k v :
  length (obj_define o k v) =
    if obj_has o k then length o else S (length o).
Proof.
  unfold obj_define. destruct (obj_has o k).
  - apply obj_update_length.
  - destruct (array_index k).
    + apply obj_insert_index_length.
    + rewrite length_app. simpl. lia.
Qed.

Lemma obj_has_define o k k2 v :
  obj_has (obj_define o k2 v) k = text_eqb k2 k || obj_has o k.
Proof.
  destruct (text_eqb k2 k) eqn:E.
  - apply text_eqb_true in E. subst. simpl.
    apply obj_has_get. exists v. apply obj_get_define_eq.
  - apply text_eqb_false in E. simpl.
    destruct (obj_has o k) eqn:Hh.
    + apply obj_has_get. apply obj_has_get in Hh as [x Hx].
      exists x. rewrite obj_get_define_ne; assumption.
    + apply obj_has_false_get. apply obj_has_false_get in Hh.
      rewrite obj_get_define_ne; assumption.
Qed.
End Objects.

Lemma res_bind_ok {A B} (m : res A) (k : A -> res B) (b : B) :
  m ≫= k = Ok b -> exists a, m = Ok a /\ k a = Ok b.
Proof. destruct m; simpl; intros E; try discriminate. eauto. Qed.

Lemma obj_set_ok {A} (o o' : jsobj A) (k : text) (v : A) :
  obj_set o k v = Ok o' -> o' = obj_define o k v.
Proof.
  unfold obj_set. destruct (text_eqb k (str "__proto__")); [discriminate|].
  intros [= <-]. reflexivity.
Qed.

Section Entries.
Variable rename : text -> res text.
Variable f : value -> res value.

Lemma each_entry_cons (kv : text * value) (l result : jsobj value) :
  each_entry rename f (kv :: l) result =
    rename (fst kv) ≫= λ newKey,
      f (snd kv) ≫= λ val,
        obj_set result newKey val ≫= λ result', each_entry rename f l result'.
Proof. reflexivity. Qed.

Lemma each_entry_step (k : text) (val : value) (l result result' : jsobj value) :
  each_entry rename f ((k, val) :: l) result = Ok result' ->
  exists k' val',
    rename k = Ok k' /\ f val = Ok val'
    /\ obj_set result k' val' = Ok (obj_define result k' val')
    /\ each_entry rename f l (obj_define result k' val') = Ok result'.
Proof.
  rewrite each_entry_cons. simpl fst. simpl snd. intros E.
  apply res_bind_ok in E as (k' & Hk & E).
  apply res_bind_ok in E as (val' & Hv & E).
  apply res_bind_ok in E as (r1 & Hs & E).
  pose proof (obj_set_ok _ _ _ _ Hs) as ->. eauto 6.
Qed.

Lemma each_entry_NoDup (l : jsobj value) : forall result result',
  each_entry rename f l result = Ok result' ->
  NoDup (map fst result) -> NoDup (map fst result').
Proof.
  induction l as [|[k val] l IH]; intros result result' E Hnd.
  - injection E as <-. assumption.
  - apply each_entry_step in E as (k' & val' & _ & _ & _ & E).
    eapply IH; [exact E|]. apply obj_define_NoDup. assumption.
Qed.

Lemma each_entry_frame (k' : text) (l : jsobj value) : forall result result',
  each_entry rename f l result = Ok result' ->
  (forall k2 v2, In (k2, v2) l -> rename k2 <> Ok k') ->
  obj_get result' k' = obj_get result k'.
Proof.
  induction l as [|[k val] l IH]; intros result result' E Hno.
  - injection E as <-. reflexivity.
  - apply each_entry_step in E as (k1 & val' & Hk & _ & _ & E).
    rewrite (IH _ _ E) by (intros k2 v2 Hin; apply (Hno k2 v2); right; assumption).
    apply obj_get_define_ne. intros ->. apply (Hno k val); [left; reflexivity|assumption].
Qed.

Lemma each_entry_last (pre post : jsobj value) (k k' : text) (val : value) :
  forall result result',
  each_entry rename f (pre ++ (k, val) :: post) result = Ok result' ->
  rename k = Ok k' ->
  (forall k2 v2, In (k2, v2) post -> rename k2 <> Ok k') ->
  exists val', f val = Ok val' /\ obj_get result' k' = Some val'.
Proof.
  induction pre as [|[k0 v0] pre IH]; intros result result' E Hk Hno.
  - simpl in E. apply each_entry_step in E as (k1 & val' & Hk1 & Hv & _ & E).
    assert (k1 = k') as -> by congruence.
    exists val'. split; [assumption|].
    rewrite (each_entry_frame k' post _ _ E Hno). apply obj_get_define_eq.
  - simpl in E. apply each_entry_step in E as (k1 & val' & _ & _ & _ & E).
    eapply IH; eassumption.
Qed.

Lemma each_entry_has (k' : text) (l : jsobj value) : forall result result',
  each_entry rename f l result = Ok result' ->
  obj_has result k' = true -> obj_has result' k' = true.
Proof.
  induction l as [|[k val] l IH]; intros result result' E Hh.
  - injection E as <-. assumption.
  - apply each_entry_step in E as (k1 & val' & _ & _ & _ & E).
    eapply IH; [exact E|]. rewrite obj_has_define, Hh. apply orb_true_r.
Qed.

Lemma each_entry_length (l : jsobj value) : forall result result',
  each_entry rename f l result = Ok result' ->
  length result' <= length result + length l.
Proof.
  induction l as [|[k val] l IH]; intros result result' E.
  - injection E as <-. simpl. lia.
  - apply each_entry_step in E as (k1 & val' & _ & _ & _ & E).
    apply IH in E. rewrite obj_define_length in E. simpl.
    destruct (obj_has result k1); lia.
Qed.

Lemma each_entry_app (l1 l2 : jsobj value) : forall result result',
  each_entry rename f (l1 ++ l2) result = Ok result' ->
  exists mid, each_entry rename f l1 result = Ok mid
              /\ each_entry rename f l2 mid = Ok result'.
Proof.
  induction l1 as [|[k val] l1 IH]; intros result result' E.
  - exists result. split; [reflexivity|assumption].
  - simpl in E. apply each_entry_step in E as (k1 & val' & Hk & Hv & Hs & E).
    apply IH in E as (mid & E1 & E2). exists mid. split; [|assumption].
    rewrite each_entry_cons. simpl fst. simpl snd.
    rewrite Hk, Hv. simpl. rewrite Hs. exact E1.
Qed.
End Entries.

Section Rewrite.
Variable renameMap : jsobj text.
Variable flags : text.

Lemma map_items_nth (items : list value) : forall items' i x,
  map_items (processValue renameMap flags) items = Ok items' ->
  nth_error items i = Some x ->
  exists x', processValue renameMap flags x = Ok x' /\ nth_error items' i = Some x'.
Proof.
  induction items as [|y items IH]; intros items' i x E Hn.
  - destruct i; discriminate.
  - simpl in E. apply res_bind_ok in E as (y' & Hy & E).
    apply res_bind_ok in E as (l' & Hl & E). injection E as <-.
    destruct i as [|i]; simpl in Hn.
    + injection Hn as <-. exists y'. split; [assumption|reflexivity].
    + destruct (IH l' i x Hl Hn) as (x' & Hx & Hn'). exists x'. split; assumption.
Qed.

Lemma map_items_Forall2 (items : list value) : forall items',
  map_items (processValue renameMap flags) items = Ok items' ->
  Forall2 (fun x x' => processValue renameMap flags x = Ok x') items items'.
Proof.
  induction items as [|y items IH]; intros items' E.
  - injection E as <-. constructor.
  - simpl in E. apply res_bind_ok in E as (y' & Hy & E).
    apply res_bind_ok in E as (l' & Hl & E). injection E as <-.
    constructor; [assumption|]. apply IH. assumption.
Qed.

Lemma processValue_array (items : list value) (v' : value) :
  processValue renameMap flags (VArray items) = Ok v' ->
  exists items', v' = VArray items'
    /\ map_items (processValue renameMap flags) items = Ok items'.
Proof.
  simpl. intros E. apply res_bind_ok in E as (items' & Hm & E).
  injection E as <-. eauto.
Qed.

Lemma processValue_object (props : jsobj value) (v' : value) :
  processValue renameMap flags (VObject props) = Ok v' ->
  exists result, v' = VObject result
    /\ each_entry (rename_text renameMap flags) (processValue renameMap flags)
         props [] = Ok result.
Proof.
  simpl. intros E. apply res_bind_ok in E as (result & Hm & E).
  injection E as <-. eauto.
Qed.

Lemma renamed_at_depth (v : value) (p p' : list step) (leaf : value) :
  descends (rename_text renameMap flags) v p p' leaf ->
  forall v', processValue renameMap flags v = Ok v' ->
  exists leaf', processValue renameMap flags leaf = Ok leaf'
                /\ lookup_path v' p' = Some leaf'.
Proof.
  induction 1 as [v | items i x p p' leaf Hn Hd IH
                 | pre post k k' val p p' leaf Hk Hno Hd IH]; intros v' E.
  - exists v'. split; [assumption|reflexivity].
  - apply processValue_array in E as (items' & -> & Hm).
    destruct (map_items_nth items items' i x Hm Hn) as (x' & Hx & Hn').
    destruct (IH x' Hx) as (leaf' & Hl & Hp).
    exists leaf'. split; [assumption|]. simpl. rewrite Hn'. assumption.
  - apply processValue_object in E as (result & -> & He).
    destruct (each_entry_last _ _ pre post k k' val [] result He Hk Hno)
      as (val' & Hv & Hg).
    destruct (IH val' Hv) as (leaf' & Hl & Hp).
    exists leaf'. split; [assumption|]. simpl. rewrite Hg. assumption.
Qed.

(** C10: the object rebuilt by the structural rewrite never has a key twice;
    when two entries of one object are renamed to the same key, the value
    of the later-enumerated one is the value the rebuilt object holds for
    that key, and the rebuilt object has fewer entries than the original:
    a key/value pair is dropped. *)
Theorem later_entry_overwrites (props result : jsobj value) :
  processValue renameMap flags (VObject props) = Ok (VObject result) ->
  NoDup (map fst result)
  /\ forall pre mid post k1 k2 k' v1 v2,
      props = pre ++ (k1, v1) :: mid ++ (k2, v2) :: post ->
      rename_text renameMap flags k1 = Ok k' ->
      rename_text renameMap flags k2 = Ok k' ->
      (forall k3 v3, In (k3, v3) post -> rename_text renameMap flags k3 <> Ok k') ->
      (exists v2', processValue renameMap flags v2 = Ok v2'
                   /\ obj_get result k' = Some v2')
      /\ length result < length props.
Proof.
  intros E. apply processValue_object in E as (result0 & [= <-] & He).
  split.
  - eapply each_entry_NoDup; [exact He|constructor].
  - intros pre mid post k1 k2 k' v1 v2 -> Hk1 Hk2 Hno. split.
    + replace (pre ++ (k1, v1) :: mid ++ (k2, v2) :: post)
        with ((pre ++ (k1, v1) :: mid) ++ (k2, v2) :: post) in He
        by (rewrite <- app_assoc; reflexivity).
      eapply each_entry_last; eassumption.
    + apply each_entry_app in He as (r1 & E1 & He).
      apply each_entry_length in E1. simpl in E1.
      apply each_entry_step in He as (k1' & v1' & Hk1' & _ & _ & He).
      assert (k1' = k') as -> by congruence.
      apply each_entry_app in He as (r2 & E2 & He).
      pose proof (each_entry_has _ _ k' mid _ _ E2) as Hhas.
      rewrite obj_has_define, text_eqb_refl in Hhas. specialize (Hhas eq_refl).
      apply each_entry_length in E2. rewrite obj_define_length in E2.
      apply each_entry_step in He as (k2' & v2' & Hk2' & _ & _ & He).
      assert (k2' = k') as -> by congruence.
      apply each_entry_length in He. rewrite obj_define_length, Hhas in He.
      rewrite !length_app. simpl. rewrite length_app. simpl.
      destruct (obj_has r1 k'); lia.
Qed.
End Rewrite.


(** ** The driver *)


Section Driver.
Context `{Libs}.

Lemma console_all_run (lines : list console_line) : forall w,
  console_all lines w =
    Done tt {| w_files := w_files w;
               w_trace := console_events lines ++ w_trace w |}.
Proof.
  induction lines as [|l lines IH]; intros w.
  - destruct w; reflexivity.
  - simpl console_all. unfold mbind, IO_bind. simpl.
    rewrite IH. simpl. unfold console_events. simpl.
    rewrite <- app_assoc. reflexivity.
Qed.

Lemma processFile_pure (filePath : text) (options : RenameOptions) (w : world) :
  processFile filePath options w =
    apply_pure filePath w (process_pure filePath options (w_files w !! filePath)).
Proof.
  unfold processFile, try_catch, processFile_try.
  unfold mbind at 1. unfold IO_bind at 1. unfold fs_readFile.
  unfold process_pure.
  destruct (w_files w !! filePath) as [f|] eqn:Ef; [|reflexivity].
  destruct (file_readable f) eqn:Er; [|reflexivity].
  unfold mbind at 1. unfold IO_bind at 1. unfold lift.
  destruct (run_strategy (classify filePath) (file_data f) options) as [[newContent lines]| e |]; try reflexivity.
  unfold mbind at 1. unfold IO_bind at 1.
  rewrite console_all_run. simpl w_files. simpl w_trace.
  destruct (negb (text_eqb newContent (file_data f)) && negb (dry options)) eqn:Ew.
  - unfold mbind, IO_bind, fs_writeFile. simpl w_files. rewrite Ef.
    destruct (file_writable f) eqn:Ewr.
    + simpl. apply andb_true_iff in Ew as [Ew _]. rewrite Ew, Er.
      unfold apply_pure. rewrite <- app_assoc. reflexivity.
    + simpl. unfold apply_pure, caught. simpl. rewrite <- app_assoc. reflexivity.
  - simpl. unfold apply_pure. rewrite <- app_assoc. reflexivity.
Qed.

Lemma processFile_never_raises (f : text) (options : RenameOptions) (w : world) :
  match processFile f options w with
  | Done _ _ | Lost => True
  | _ => False
  end.
Proof.
  rewrite processFile_pure.
  destruct (process_pure f options (w_files w !! f)) as [[[? ?] ?]|]; exact I.
Qed.

Lemma Forall2_pure_frame (options : RenameOptions) (m1 m2 : gmap text file)
    (files : list text) (rs : list FileOutcome) :
  (forall g, g ∈ files -> m1 !! g = m2 !! g) ->
  Forall2 (fun f r => exists fl' evs,
             process_pure f options (m1 !! f) = Some (r, fl', evs)) files rs ->
  Forall2 (fun f r => exists fl' evs,
             process_pure f options (m2 !! f) = Some (r, fl', evs)) files rs.
Proof.
  intros Hm HF. induction HF as [|f r files rs (fl' & evs & Hp) HF IH].
  - constructor.
  - constructor.
    + exists fl', evs. rewrite <- (Hm f) by left. assumption.
    + apply IH. intros g Hg. apply Hm. right. assumption.
Qed.

Lemma processFiles_spec (options : RenameOptions) (files : list text) : forall w,
  NoDup files ->
  match processFiles files options w with
  | Done rs w' =>
      Forall2 (fun f r => exists fl' evs,
                 process_pure f options (w_files w !! f) = Some (r, fl', evs))
        files rs
      /\ (forall g, w_files w' !! g =
            if decide (g ∈ files)
            then file_after g options (w_files w !! g)
            else w_files w !! g)
      /\ exists evs, w_trace w' = evs ++ w_trace w
  | Lost => exists f, f ∈ files /\ process_pure f options (w_files w !! f) = None
  | _ => False
  end.
Proof.
  induction files as [|f files IH]; intros w Hnd.
  - simpl. split; [constructor|]. split; [intros g; reflexivity|]. exists []. reflexivity.
  - apply NoDup_cons in Hnd as [Hnotin Hnd].
    simpl processFiles. unfold mbind at 1. unfold IO_bind at 1.
    rewrite processFile_pure.
    destruct (process_pure f options (w_files w !! f)) as [[[out fl'] evs]|] eqn:Ep.
    2:{ simpl. exists f. split; [left|assumption]. }
    unfold apply_pure.
    set (w1 := {| w_files := match fl' with Some x => <[f:=x]> (w_files w) | None => w_files w end;
                  w_trace := evs ++ w_trace w |}).
    assert (Hframe : forall g, g <> f -> w_files w1 !! g = w_files w !! g).
    { intros g Hg. subst w1. simpl. destruct fl'; [|reflexivity].
      apply lookup_insert_ne. congruence. }
    assert (Hself : w_files w1 !! f = file_after f options (w_files w !! f)).
    { subst w1. simpl. unfold file_after. rewrite Ep. destruct fl'; [|reflexivity].
      apply lookup_insert_eq. }
    specialize (IH w1 Hnd).
    unfold mbind, IO_bind.
    destruct (processFiles files options w1) as [rs w'| | |]; try contradiction.
    + destruct IH as (HF & Hfiles & evs' & Htr). simpl.
      split; [|split].
      * constructor; [exists fl', evs; assumption|].
        eapply Forall2_pure_frame; [|exact HF].
        intros g Hg. apply Hframe. intros ->. contradiction.
      * intros g. rewrite Hfiles.
        destruct (decide (g = f)) as [->|Hne].
        -- rewrite decide_False by assumption.
           rewrite decide_True by left. assumption.
        -- destruct (decide (g ∈ files)) as [Hin|Hin].
           ++ rewrite decide_True by (right; assumption). rewrite Hframe by assumption. reflexivity.
           ++ rewrite decide_False by (intros Hc; apply elem_of_cons in Hc as [?|?]; contradiction).
              apply Hframe. assumption.
      * exists (evs' ++ evs). rewrite Htr. subst w1. simpl. rewrite app_assoc. reflexivity.
    + destruct IH as (g & Hg & Hp). exists g. split; [right; assumption|].
      rewrite <- Hp. f_equal. symmetry. apply Hframe. intros ->. contradiction.
Qed.

Lemma writes_of_app (a b : list event) :
  writes_of (a ++ b) = writes_of a ++ writes_of b.
Proof. unfold writes_of. apply flat_map_app. Qed.

Lemma writes_of_console (lines : list console_line) :
  writes_of (console_events lines) = [].
Proof.
  unfold console_events. induction lines as [|l lines IH]; [reflexivity|].
  simpl. rewrite writes_of_app, IH. reflexivity.
Qed.

Ltac no_write :=
  exists []; split;
  [ simpl; rewrite ?writes_of_app, ?writes_of_console; reflexivity
  | split; [simpl; lia
    | split; [reflexivity | intros _ p d; split; [intros [] | ]]]].

(** C1: for every file the driver processes, the writes it issues are [ws]:
    none in preview mode, whatever the rewritten content; with preview mode
    off, a write [(p, d)] is issued if and only if [p] is the file, [d] is
    its rewritten content and [d] differs from the original content, so no
    write of unchanged content is ever issued. *)
Theorem write_iff_content_differs (filePath : text) (options : RenameOptions)
    (w w' : world) (o : FileOutcome) :
  processFile filePath options w = Done o w' ->
  exists ws,
    writes_of (w_trace w') = ws ++ writes_of (w_trace w)
    /\ length ws <= 1
    /\ (dry options = true -> ws = [])
    /\ (dry options = false ->
        forall p d, In (p, d) ws <->
          p = filePath /\
          exists f lines,
            w_files w !! filePath = Some f /\ file_readable f = true
            /\ run_strategy (classify filePath) (file_data f) options = Ok (d, lines)
            /\ d <> file_data f).
Proof.
  rewrite processFile_pure. unfold process_pure.
  destruct (w_files w !! filePath) as [f|] eqn:Ef.
  2:{ intros [= <- <-]. no_write. intros (_ & f & l & Hf & _). discriminate. }
  destruct (file_readable f) eqn:Er.
  2:{ intros [= <- <-]. no_write. intros (_ & f' & l & Hf & Hr & _). congruence. }
  destruct (run_strategy (classify filePath) (file_data f) options)
    as [[newContent lines]|e|] eqn:Erw.
  3:{ discriminate. }
  2:{ intros [= <- <-]. no_write.
      intros (_ & f' & l & Hf & Hr & Hrw & _). congruence. }
  destruct (text_eqb newContent (file_data f)) eqn:Eeq; simpl negb; simpl andb.
  - intros [= <- <-]. no_write.
    intros (_ & f' & l & Hf & Hr & Hrw & Hne).
    apply text_eqb_true in Eeq.
    assert (f' = f) as -> by congruence.
    rewrite Erw in Hrw. injection Hrw as -> _. contradiction.
  - destruct (dry options) eqn:Ed; simpl negb; cbv iota.
    + intros [= <- <-]. exists []. simpl.
      rewrite writes_of_app, writes_of_app, writes_of_console. simpl.
      split; [reflexivity|]. split; [lia|]. split; [reflexivity|]. discriminate.
    + assert (Hws : forall p d, In (p, d) [(filePath, newContent)] <->
          p = filePath /\
          exists f0 lines0,
            Some f = Some f0 /\ file_readable f0 = true
            /\ run_strategy (classify filePath) (file_data f0) options = Ok (d, lines0)
            /\ d <> file_data f0).
      { intros p d. split.
        - intros [[= <- <-]|[]]. split; [reflexivity|].
          exists f, lines. apply text_eqb_false in Eeq. tauto.
        - intros (-> & f' & l & [= <-] & Hr & Hrw & Hne).
          rewrite Erw in Hrw. injection Hrw as -> _. left. reflexivity. }
      destruct (file_writable f); intros [= <- <-];
        exists [(filePath, newContent)]; simpl;
        rewrite writes_of_app, writes_of_app, writes_of_console; simpl;
        (split; [reflexivity|]; split; [lia|]; split; [discriminate|]; intros _; apply Hws).
Qed.

Lemma processFile_try_caught (f : text) (options : RenameOptions) (w w1 : world) (e : exn) :
  processFile_try f options w = Raised e w1 ->
  processFile f options w = Done (caught e) w1.
Proof. unfold processFile, try_catch. intros ->. reflexivity. Qed.

Lemma pure_outcomes_unique (options : RenameOptions) (m : gmap text file)
    (files : list text) (rs1 rs2 : list FileOutcome) :
  Forall2 (fun f r => exists fl' evs,
             process_pure f options (m !! f) = Some (r, fl', evs)) files rs1 ->
  Forall2 (fun f r => exists fl' evs,
             process_pure f options (m !! f) = Some (r, fl', evs)) files rs2 ->
  rs1 = rs2.
Proof.
  intros H1. revert rs2. induction H1 as [|f r files rs (fl1 & ev1 & Hp) H1 IH]; intros rs2 H2.
  - inversion H2. reflexivity.
  - inversion H2 as [|f' r' files' rs' (fl2 & ev2 & Hp') H2']; subst.
    f_equal; [congruence|]. apply IH. assumption.
Qed.

Lemma runSafeRename_pass (files : list text) (options : RenameOptions) (w : world) :
  oldName options <> [] -> newName options <> [] ->
  runSafeRename files options w =
    match processFiles files options (prelude files options w) with
    | Done results w' =>
        if (updatePackage options || updateRemote options) && negb (dry options)
        then Lost
        else Done tt (emit (EvConsole (summary_line (summarize results))) w')
    | Raised e w' => Raised e w'
    | Exited c w' => Exited c w'
    | Lost => Lost
    end.
Proof.
  intros Ho Hn. unfold runSafeRename.
  assert (match oldName options, newName options with
          | _ :: _, _ :: _ => mret ()
          | _, _ => console ErrRequired ;; process_exit 1
          end = (mret () : IO unit)) as ->.
  { destruct (oldName options); [congruence|].
    destruct (newName options); [congruence|]. reflexivity. }
  unfold prelude. unfold mbind, IO_bind, mret, IO_ret, console. simpl.
  destruct (dry options); simpl;
    destruct (processFiles files options _) as [rs w'| | |]; try reflexivity;
    destruct (updatePackage options || updateRemote options); reflexivity.
Qed.

Lemma prelude_files (files : list text) (options : RenameOptions) (w : world) :
  w_files (prelude files options w) = w_files w.
Proof. unfold prelude. destruct (dry options); reflexivity. Qed.

Lemma covered_pure (f : text) (options : RenameOptions) (w : world) :
  covered (processFile f options w) = true ->
  exists r fl' evs, process_pure f options (w_files w !! f) = Some (r, fl', evs).
Proof.
  rewrite processFile_pure.
  destruct (process_pure f options (w_files w !! f)) as [[[r fl'] evs]|];
    [|discriminate].
  intros _. exists r, fl', evs. reflexivity.
Qed.

Lemma processFiles_done (options : RenameOptions) (files : list text) (w : world) :
  NoDup files ->
  (forall f, f ∈ files -> process_pure f options (w_files w !! f) <> None) ->
  exists rs w',
    processFiles files options w = Done rs w'
    /\ Forall2 (fun f r => exists fl' evs,
                  process_pure f options (w_files w !! f) = Some (r, fl', evs))
         files rs
    /\ (forall g, w_files w' !! g =
           if decide (g ∈ files)
           then file_after g options (w_files w !! g)
           else w_files w !! g).
Proof.
  intros Hnd Hin. pose proof (processFiles_spec options files w Hnd) as Hs.
  destruct (processFiles files options w) as [rs w'| | |]; try contradiction.
  - exists rs, w'. destruct Hs as (HF & Hfiles & _). auto.
  - destruct Hs as (f & Hf & Hp). exfalso. exact (Hin f Hf Hp).
Qed.

Lemma summarize_from (results : list FileOutcome) : forall acc,
  fold_left
    (fun acc result =>
       {| processedCount :=
            processedCount acc + (if processed result then 1 else 0);
          modifiedCount :=
            modifiedCount acc + (if modified result then 1 else 0);
          errorCount := errorCount acc + (if truthy (error result) then 1 else 0) |})
    results acc
  = {| processedCount :=
         processedCount acc + length (List.filter processed results);
       modifiedCount :=
         modifiedCount acc + length (List.filter modified results);
       errorCount :=
         errorCount acc
         + length (List.filter (fun r => truthy (error r)) results) |}.
Proof.
  induction results as [|r results IH]; intros acc.
  - destruct acc. cbn. f_equal; lia.
  - cbn [fold_left List.filter]. rewrite IH. cbn [processedCount modifiedCount errorCount].
    destruct (processed r), (modified r), (truthy (error r));
      cbn [length]; f_equal; lia.
Qed.

Lemma summarize_counts (results : list FileOutcome) :
  summarize results
  = {| processedCount := length (List.filter processed results);
       modifiedCount := length (List.filter modified results);
       errorCount := length (List.filter (fun r => truthy (error r)) results) |}.
Proof. unfold summarize. rewrite summarize_from. reflexivity. Qed.

(** The parts of C2 that hold.  For a resolved file set (no path twice),
    the file pass yields one outcome per file, in order; each is the
    outcome of processing that file on its own from the initial state: a
    missing file, a file that cannot be read, a strategy that throws and a
    write that is refused each give that file's error outcome with the
    message of the exception, and any other file is processed; the summary
    counts the outcomes; and a run without post-pass update finishes, its
    last console line being this summary. *)
Lemma one_outcome_per_file (files : list text) (options : RenameOptions)
    (w : world) :
  NoDup files ->
  forallb (fun f => covered (processFile f options w)) files = true ->
  exists results w',
    processFiles files options w = Done results w'
    /\ length results = length files
    /\ Forall2 (fun f r =>
                  (exists w1, processFile f options w = Done r w1)
                  /\ match w_files w !! f with
                     | None =>
                         r = caught (fs_error "ENOENT: no such file or directory" f)
                     | Some x =>
                         if file_readable x then
                           match run_strategy (classify f) (file_data x) options with
                           | Ok (c, _) =>
                               if negb (text_eqb c (file_data x))
                                  && negb (dry options)
                                  && negb (file_writable x)
                               then r = caught (fs_error "EACCES: permission denied" f)
                               else r = {| processed := true;
                                           modified := negb (text_eqb c (file_data x));
                                           error := None |}
                           | Throw e => r = caught e
                           | Beyond => False
                           end
                         else r = caught (fs_error "EACCES: permission denied" f)
                     end)
         files results
    /\ summarize results
       = {| processedCount := length (List.filter processed results);
            modifiedCount := length (List.filter modified results);
            errorCount :=
              length (List.filter (fun r => truthy (error r)) results) |}
    /\ (oldName options <> [] -> newName options <> [] ->
        (updatePackage options || updateRemote options) && negb (dry options)
        = false ->
        exists w'',
          runSafeRename files options w = Done tt w''
          /\ hd_error (w_trace w'') =
               Some (EvConsole (summary_line (summarize results)))).
Proof.
  intros Hnd Hdone.
  assert (Hin : forall f, f ∈ files -> process_pure f options (w_files w !! f) <> None).
  { intros f Hf. rewrite forallb_forall in Hdone.
    destruct (covered_pure f options w) as (r & fl' & evs & Hp).
    - apply Hdone. apply list_elem_of_In. assumption.
    - congruence. }
  destruct (processFiles_done options files w Hnd Hin) as (rs & w' & Hrun & HF & _).
  exists rs, w'.
  split; [assumption|]. split; [symmetry; eapply Forall2_length; eassumption|].
  split; [|split; [apply summarize_counts|]].
  - eapply Forall2_impl; [exact HF|].
    intros f r (fl' & evs & Hp). split.
    + eexists. rewrite processFile_pure, Hp. reflexivity.
    + unfold process_pure in Hp.
      destruct (w_files w !! f) as [x|]; [|injection Hp as <- _ _; reflexivity].
      destruct (file_readable x); [|injection Hp as <- _ _; reflexivity].
      destruct (run_strategy (classify f) (file_data x) options)
        as [[c lines]|e|]; [|injection Hp as <- _ _; reflexivity|discriminate].
      destruct (negb (text_eqb c (file_data x))) eqn:Ed;
        destruct (dry options); destruct (file_writable x);
        cbn [negb andb] in *; injection Hp as <- _ _; reflexivity.
  - intros Ho Hn Hpost.
    assert (Hin' : forall f, f ∈ files ->
              process_pure f options (w_files (prelude files options w) !! f) <> None).
    { intros f Hf. rewrite prelude_files. apply Hin. assumption. }
    destruct (processFiles_done options files (prelude files options w) Hnd Hin')
      as (rs2 & w2 & Hrun2 & HF2 & _).
    rewrite prelude_files in HF2.
    assert (rs2 = rs) as -> by (eapply pure_outcomes_unique; eassumption).
    exists (emit (EvConsole (summary_line (summarize rs))) w2).
    rewrite runSafeRename_pass by assumption. rewrite Hrun2, Hpost.
    split; reflexivity.
Qed.

Lemma parse_failure_result (content : text) (options : RenameOptions) (e : exn) :
  (JSON_parse content = Throw e ->
   processJsonFile content options = Ok (content, [WarnJson (exn_message e)]))
  /\ (YAML_parse content = Throw e ->
      processYamlFile content options = Ok (content, [WarnYaml (exn_message e)])).
Proof.
  split; intros Hp.
  - unfold processJsonFile. rewrite Hp. reflexivity.
  - unfold processYamlFile. rewrite Hp. reflexivity.
Qed.

(** C3: when the text of a JSON (respectively YAML) file fails to parse,
    the strategy returns the text unchanged together with one warning, and
    nothing is thrown: [processFile] records the file as processed, not
    modified, with no error, writes nothing and leaves the files as they
    were. *)
Theorem parse_failure_keeps_text (s : strategy) (filePath content : text)
    (options : RenameOptions) (e : exn) (w : world) (f : file) :
  s = Json \/ s = Yaml ->
  parse_of s content = Throw e ->
  classify filePath = Some s ->
  w_files w !! filePath = Some f ->
  file_readable f = true ->
  file_data f = content ->
  match s with
  | Yaml => processYamlFile content options
  | _ => processJsonFile content options
  end = Ok (content, [parse_warning s e])
  /\ processFile filePath options w =
       Done {| processed := true; modified := false; error := None |}
         {| w_files := w_files w;
            w_trace := EvConsole (parse_warning s e) :: EvRead filePath
                       :: w_trace w |}.
Proof.
  intros Hs Hparse Hc Hf Hr Hd.
  destruct (parse_failure_result content options e) as [HJ HY].
  assert (Hrw : run_strategy (Some s) content options = Ok (content, [parse_warning s e])).
  { destruct Hs as [-> | ->]; simpl in *; auto. }
  split.
  - destruct Hs as [-> | ->]; exact Hrw.
  - rewrite processFile_pure, Hf. unfold process_pure. rewrite Hr, Hc, Hd, Hrw.
    assert (text_eqb content content = true) as -> by (apply text_eqb_true; reflexivity).
    reflexivity.
Qed.

Lemma unmatched_file_passes_through (filePath : text) (options : RenameOptions)
    (w : world) (f : file) :
  classify filePath = None ->
  w_files w !! filePath = Some f ->
  file_readable f = true ->
  processFile filePath options w =
    Done {| processed := true; modified := false; error := None |}
      {| w_files := w_files w; w_trace := EvRead filePath :: w_trace w |}.
Proof.
  intros Hc Hf Hr.
  rewrite processFile_pure, Hf. unfold process_pure. rewrite Hr, Hc.
  change (run_strategy None (file_data f) options)
    with (Ok (file_data f, @nil console_line) : res strategy_result).
  cbv iota.
  assert (text_eqb (file_data f) (file_data f) = true) as ->
    by (apply text_eqb_true; reflexivity).
  reflexivity.
Qed.
End Driver.

Section Order.
Context `{Libs}.

(** Two tasks on different paths give the same outcomes and the same files
    in either order: the order in which the admission gate lets the tasks
    run is not observable in the results. *)
Lemma processFile_commute (f g : text) (options : RenameOptions)
    (w wf wg : world) (rf rg : FileOutcome) :
  f <> g ->
  processFile f options w = Done rf wf ->
  processFile g options w = Done rg wg ->
  exists wfg wgf,
    processFile g options wf = Done rg wfg
    /\ processFile f options wg = Done rf wgf
    /\ w_files wfg = w_files wgf.
Proof.
  intros Hne. rewrite !processFile_pure.
  destruct (process_pure f options (w_files w !! f)) as [[[o1 ff] e1]|] eqn:Ef;
    [|discriminate].
  destruct (process_pure g options (w_files w !! g)) as [[[o2 fg] e2]|] eqn:Eg;
    [|discriminate].
  unfold apply_pure. intros [= <- <-] [= <- <-].
  eexists. eexists. cbn [w_files w_trace].
  assert (Hg : match ff with Some x => <[f:=x]> (w_files w) | None => w_files w end !! g
               = w_files w !! g).
  { destruct ff; [apply lookup_insert_ne; assumption|reflexivity]. }
  assert (Hf : match fg with Some x => <[g:=x]> (w_files w) | None => w_files w end !! f
               = w_files w !! f).
  { destruct fg; [apply lookup_insert_ne; congruence|reflexivity]. }
  rewrite Hg, Hf, Ef, Eg. unfold apply_pure.
  split; [reflexivity|]. split; [reflexivity|]. cbn [w_files].
  destruct ff, fg; try reflexivity. apply insert_insert_ne. congruence.
Qed.
End Order.

(** ** The structural strategies *)

Lemma descends_depth (rename : text -> res text) (v : value)
    (p p' : list step) (leaf : value) :
  descends rename v p p' leaf -> depth p' = depth p.
Proof.
  unfold depth. induction 1; simpl; congruence.
Qed.

Lemma rename_text_plain (options : RenameOptions) (s : text) :
  multiMap options = None ->
  plain (oldName options) = true -> oldName options <> [] ->
  no_dollar (newName options) = true ->
  rename_text (renameMap_of options) (flags_of options) s
  = Ok (replace_all (negb (caseSensitive options)) (oldName options)
          (newName options) s).
Proof.
  intros Hm Hp Ho Hn. unfold rename_text, renameMap_of, Object_entries.
  rewrite Hm. cbn [for_entries rename_entry].
  rewrite replace_step_plain by assumption. reflexivity.
Qed.

Lemma processValue_string (renameMap : jsobj text) (flags s : text) (v' : value) :
  processValue renameMap flags (VString s) = Ok v' ->
  exists s', rename_text renameMap flags s = Ok s' /\ v' = VString s'.
Proof.
  simpl. intros E. apply res_bind_ok in E as (s' & Hs & [= <-]). eauto.
Qed.

(** ** The classifier *)

Lemma extension_checks_first (filePath : text) :
  (ext_in [".ts"; ".tsx"; ".js"; ".jsx"]%string (path_extname filePath) = true ->
   classify filePath = Some Code)
  /\ (path_extname filePath = str ".json" -> classify filePath = Some Json)
  /\ (path_extname filePath = str ".yml" \/ path_extname filePath = str ".yaml" ->
      classify filePath = Some Yaml).
Proof.
  unfold classify. repeat split.
  - intros E. rewrite E. reflexivity.
  - intros E. rewrite E. reflexivity.
  - intros [E|E]; rewrite E; reflexivity.
Qed.

Example dockerfile_yaml_is_yaml :
  classify (str "/repo/Dockerfile.yaml") = Some Yaml.
Proof. reflexivity. Qed.

(** C4: the check of the extension [.md] stands after the checks of the
    name, so a Markdown file whose path contains [env] is given to the Env
    strategy: its link target is rewritten to the upper-case token, where
    the Markdown strategy would have written the new token. *)
Theorem markdown_check_after_name_checks :
  path_extname (str "/repo/docs/environment.md") = str ".md"
  /\ classify (str "/repo/docs/environment.md") = Some Env
  /\ processEnvFile (str "See [guide](old/guide)")
       (options_for (str "old") (str "new"))
     = Ok (str "See [guide](NEW/guide)")
  /\ processMarkdownFile (str "See [guide](old/guide)")
       (options_for (str "old") (str "new"))
     = Ok (str "See [guide](new/guide)").
Proof. repeat split; vm_compute; reflexivity. Qed.

(** ** The Env strategy *)

(** C7: under the default, case-insensitive matching the first rule has
    already rewritten a right-hand side [=myapp] to the upper-case token
    when the rule for [=<old>] runs; under case-sensitive matching that
    rule writes [=yourapp]. *)
Theorem env_value_uppercased :
  processEnvFile (str "APP_NAME=myapp") (options_for (str "myapp") (str "yourapp"))
  = Ok (str "APP_NAME=YOURAPP")
  /\ processEnvFile (str "APP_NAME=myapp")
       {| oldName := str "myapp"; newName := str "yourapp";
          updatePackage := false; updateRemote := false; dry := false;
          multiMap := None; caseSensitive := true; concurrency := None |}
     = Ok (str "APP_NAME=yourapp").
Proof. split; vm_compute; reflexivity. Qed.

(** ** The Markdown strategy *)

Lemma code_span_rule_idle (options : RenameOptions) (r : replacer)
    (content : text) :
  no_backslash content = true ->
  exists codeBlockRegex,
    RegExp_new codeBlock_source (flags_of options) = Ok codeBlockRegex
    /\ String_replace content codeBlockRegex r = Ok content.
Proof.
  intros Hnb. eexists. split; [apply codeBlock_parsed|].
  unfold String_replace. apply codeBlock_rule_idle; [assumption|lia].
Qed.

(** C9: the pattern for code spans asks for a backslash before every
    backquote, so the token inside a code span is not located: the span is
    left as it is (the whole-word rule does not match inside a longer
    word), while the same token in a link target is rewritten, and so is a
    span written with backslashes. *)
Theorem code_span_not_located :
  processMarkdownFile (str "Use `my_old_pkg` here")
    (options_for (str "old") (str "new"))
  = Ok (str "Use `my_old_pkg` here")
  /\ processMarkdownFile (str "See [a](my_old_pkg)")
       (options_for (str "old") (str "new"))
     = Ok (str "See [a](my_new_pkg)")
  /\ processMarkdownFile (str "Use \`my_old_pkg\` here")
       (options_for (str "old") (str "new"))
     = Ok (str "Use \`my_new_pkg\` here").
Proof. repeat split; vm_compute; reflexivity. Qed.

(** ** The scenarios of the specification *)

Example scenario_import :
  processTypeScriptFile (str "import { a } from 'old-package';")
    (options_for (str "old-package") (str "new-package"))
  = Ok (str "import { a } from 'new-package';").
Proof. vm_compute. reflexivity. Qed.

Example scenario_json_key :
  @processJsonFile lite_libs (str "{" ++ quoted "old-key" ++ str ": " ++ quoted "value" ++ str "}")
    (options_for (str "old-key") (str "new-key"))
  = Ok (str "{" ++ [newline] ++ str "  " ++ quoted "new-key" ++ str ": " ++ quoted "value"
        ++ [newline] ++ str "}", []).
Proof. vm_compute. reflexivity. Qed.

Example scenario_docker :
  processDockerFile (str "FROM old-registry/image:tag")
    (options_for (str "old-registry") (str "new-registry"))
  = Ok (str "FROM new-registry/image:tag").
Proof. vm_compute. reflexivity. Qed.

Example scenario_batch :
  processTypeScriptFile
    (str "import { a } from 'pkg1'; import { b } from 'pkg2';")
    {| oldName := str "pkg1"; newName := str "newpkg1";
       updatePackage := false; updateRemote := false; dry := false;
       multiMap := Some [(str "pkg1", str "newpkg1"); (str "pkg2", str "newpkg2")];
       caseSensitive := false; concurrency := None |}
  = Ok (str "import { a } from 'newpkg1'; import { b } from 'newpkg2';").
Proof. vm_compute. reflexivity. Qed.

(** The import rule rewrites the token inside a path, where the whole-word
    rule leaves a longer word alone. *)
Example import_rule_inside_path :
  processTypeScriptFile (str "import a from 'mypkglib'; const mypkglib = 1;")
    (options_for (str "pkg") (str "new"))
  = Ok (str "import a from 'mynewlib'; const mypkglib = 1;").
Proof. vm_compute. reflexivity. Qed.

Example scenario_env :
  processEnvFile (str "old_var=value") (options_for (str "old_var") (str "new_var"))
  = Ok (str "NEW_VAR=value").
Proof. vm_compute. reflexivity. Qed.

(** C2: on [sample_world] the run prints its summary, three files
    processed, one modified and two errors, as its last console line, and
    ends with the unit value: the summary is not returned. *)
Theorem run_returns_no_summary :
  @runSafeRename lite_libs sample_files (options_for (str "old") (str "new"))
    sample_world
  = Done tt sample_after_one
  /\ hd_error (w_trace sample_after_one) = Some (EvConsole (LogSummary 3 1 2)).
Proof. split; vm_compute; reflexivity. Qed.

(** ** The statements at concrete inputs *)

(** [write_iff_content_differs] on the module of [sample_world]. *)
Lemma write_iff_content_differs_witness :
  @processFile lite_libs (str "/r/a.ts") (options_for (str "old") (str "new"))
    sample_world
  = Done {| processed := true; modified := true; error := None |}
      sample_after_module
  /\ exists ws,
       writes_of (w_trace sample_after_module)
       = ws ++ writes_of (w_trace sample_world)
       /\ length ws <= 1
       /\ (dry (options_for (str "old") (str "new")) = true -> ws = [])
       /\ (dry (options_for (str "old") (str "new")) = false ->
           forall p d, In (p, d) ws <->
             p = str "/r/a.ts" /\
             exists f lines,
               w_files sample_world !! str "/r/a.ts" = Some f
               /\ file_readable f = true
               /\ @run_strategy lite_libs (classify (str "/r/a.ts")) (file_data f)
                    (options_for (str "old") (str "new")) = Ok (d, lines)
               /\ d <> file_data f).
Proof.
  split; [vm_compute; reflexivity|].
  apply (@write_iff_content_differs lite_libs (str "/r/a.ts")
           (options_for (str "old") (str "new")) sample_world _
           {| processed := true; modified := true; error := None |}).
  vm_compute. reflexivity.
Defined.

(** [one_outcome_per_file] on [sample_world]: two of the five files fail. *)
Lemma one_outcome_per_file_on_sample :
  exists results w',
    @processFiles lite_libs sample_files (options_for (str "old") (str "new"))
      sample_world = Done results w'
    /\ length results = length sample_files
    /\ summarize results
       = {| processedCount := 3; modifiedCount := 1; errorCount := 2 |}.
Proof.
  destruct (@one_outcome_per_file lite_libs sample_files
              (options_for (str "old") (str "new")) sample_world)
    as (results & w' & Hrun & Hlen & _ & _ & _);
    [compute_done | vm_compute; reflexivity |].
  exists results, w'. split; [exact Hrun|]. split; [exact Hlen|].
  vm_compute in Hrun. injection Hrun as <- _. vm_compute. reflexivity.
Qed.

(** [parse_failure_keeps_text] on the corrupted JSON file of [sample_world]. *)
Lemma parse_failure_keeps_text_witness :
  @parse_of lite_libs Json corrupted_json = Throw json_error
  /\ classify (str "/r/b.json") = Some Json
  /\ @processJsonFile lite_libs corrupted_json (options_for (str "old") (str "new"))
     = Ok (corrupted_json, [parse_warning Json json_error])
  /\ @processFile lite_libs (str "/r/b.json") (options_for (str "old") (str "new"))
       sample_world
     = Done {| processed := true; modified := false; error := None |}
         {| w_files := w_files sample_world;
            w_trace := [EvConsole (parse_warning Json json_error);
                        EvRead (str "/r/b.json")] |}.
Proof.
  split; [vm_compute; reflexivity|]. split; [reflexivity|].
  apply (@parse_failure_keeps_text lite_libs Json (str "/r/b.json") corrupted_json
           (options_for (str "old") (str "new")) json_error sample_world
           (plain_file corrupted_json));
    [left; reflexivity | vm_compute; reflexivity | reflexivity
    | vm_compute; reflexivity | reflexivity | reflexivity].
Defined.

(** [later_entry_overwrites] on an object whose first key is renamed to its
    second key. *)
Lemma later_entry_overwrites_witness :
  processValue [(str "old", str "new")] (str "gi")
    (VObject [(str "old", VNumber (str "1")); (str "new", VNumber (str "2"))])
  = Ok (VObject [(str "new", VNumber (str "2"))])
  /\ NoDup (map fst [(str "new", VNumber (str "2"))])
  /\ (exists v2', processValue [(str "old", str "new")] (str "gi")
                    (VNumber (str "2")) = Ok v2'
                  /\ obj_get [(str "new", VNumber (str "2"))] (str "new")
                     = Some v2')
  /\ length [(str "new", VNumber (str "2"))]
     < length [(str "old", VNumber (str "1")); (str "new", VNumber (str "2"))].
Proof.
  assert (E : processValue [(str "old", str "new")] (str "gi")
                (VObject [(str "old", VNumber (str "1"));
                          (str "new", VNumber (str "2"))])
              = Ok (VObject [(str "new", VNumber (str "2"))]))
    by (vm_compute; reflexivity).
  split; [exact E|].
  destruct (later_entry_overwrites [(str "old", str "new")] (str "gi") _ _ E)
    as [Hnd Hlast].
  split; [exact Hnd|].
  apply (Hlast [] [] [] (str "old") (str "new") (str "new")
           (VNumber (str "1")) (VNumber (str "2")));
    [reflexivity | vm_compute; reflexivity | vm_compute; reflexivity
    | intros ? ? []].
Defined.

(** ** What the patterns of the rules need *)

Lemma p_run_app (a b : text) : forall st,
  p_run st (a ++ b) = p_run st a ≫= fun st' => p_run st' b.
Proof.
  induction a as [|c a IH]; intros st; [reflexivity|].
  simpl. destruct (p_step st c); try reflexivity. apply IH.
Qed.

Lemma push_chars_eq (s : text) : forall st,
  s <> [] ->
  push_chars s st =
    {| p_stack := p_stack st;
       p_top := {| f_alts := f_alts (p_top st);
                   f_cur := rev (map RChar s) ++ f_cur (p_top st);
                   f_idx := f_idx (p_top st) |};
       p_groups := p_groups st; p_last := LAtom; p_mode := MNormal |}.
Proof.
  induction s as [|c s IH]; intros st Hs; [congruence|].
  unfold push_chars. simpl fold_left. fold (push_chars s (push_term (RChar c) LAtom st)).
  destruct s as [|c' s'].
  - reflexivity.
  - rewrite IH by discriminate. simpl. rewrite <- !app_assoc. reflexivity.
Qed.

Lemma frame_regex_seq (cur : list regex) (i : nat) :
  frame_regex {| f_alts := []; f_cur := cur; f_idx := i |} = seq_of (rev cur).
Proof. reflexivity. Qed.

Lemma rmatch_seq_app (ic : bool) (l1 l2 : list regex) : forall st k,
  rmatch ic (seq_of (l1 ++ l2)) st k
  = rmatch ic (seq_of l1) st (fun st' => rmatch ic (seq_of l2) st' k).
Proof.
  induction l1 as [|r l1 IH]; intros st k; [reflexivity|].
  simpl. apply rmatch_local. intros st' _. apply IH.
Qed.

Lemma upward_follows (P : text -> Prop) (st st' : mstate) :
  upward P -> follows st st' -> P (m_after st') -> P (m_after st).
Proof.
  intros Hup (mid & Ha & _) HP. rewrite Ha. clear Ha.
  induction mid as [|x mid IH]; [assumption|]. simpl. apply Hup, IH.
Qed.

Lemma requires_seq_l (P : text -> Prop) (ic : bool) (a b : regex) :
  requires P (rmatch ic a) -> requires P (rmatch ic (RSeq a b)).
Proof. intros Ha st k res Hm. simpl in Hm. eapply Ha. exact Hm. Qed.

Lemma requires_seq_r (P : text -> Prop) (ic : bool) (a b : regex) :
  upward P -> requires P (rmatch ic b) -> requires P (rmatch ic (RSeq a b)).
Proof.
  intros Hup Hb st k res Hm. simpl in Hm.
  apply rmatch_reaches in Hm as (st' & Hf & Hk).
  eapply upward_follows; [exact Hup|exact Hf|]. eapply Hb. exact Hk.
Qed.

Lemma requires_group (P : text -> Prop) (ic : bool) (i : nat) (a : regex) :
  requires P (rmatch ic a) -> requires P (rmatch ic (RGroup i a)).
Proof. intros Ha st k res Hm. simpl in Hm. eapply Ha. exact Hm. Qed.

Lemma requires_alt (P : text -> Prop) (ic : bool) (a b : regex) :
  requires P (rmatch ic a) -> requires P (rmatch ic b) ->
  requires P (rmatch ic (RAlt a b)).
Proof.
  intros Ha Hb st k res Hm. simpl in Hm.
  destruct (rmatch ic a st k) eqn:E.
  - eapply Ha. exact E.
  - eapply Hb. exact Hm.
Qed.

Lemma requires_class (P : text -> Prop) (ic neg : bool) (items : list citem) :
  (forall x s, class_match ic neg items x = true -> P (x :: s)) ->
  requires P (rmatch ic (RClass neg items)).
Proof.
  intros H st k res Hm. simpl in Hm. unfold m_one in Hm.
  destruct (m_after st) as [|x xs]; [discriminate|].
  destruct (class_match ic neg items x) eqn:E; [|discriminate].
  apply H. exact E.
Qed.

Lemma requires_char (P : text -> Prop) (ic : bool) (c : ascii) :
  (forall x s, char_eq ic c x = true -> P (x :: s)) ->
  requires P (rmatch ic (RChar c)).
Proof.
  intros H st k res Hm. simpl in Hm. unfold m_one in Hm.
  destruct (m_after st) as [|x xs]; [discriminate|].
  destruct (char_eq ic c x) eqn:E; [|discriminate].
  apply H. exact E.
Qed.

Lemma requires_chars (P : text -> Prop) (ic : bool) (p : text)
    (post : list regex) :
  (forall s, matches_at ic p s = true -> P s) ->
  requires P (rmatch ic (seq_of (map RChar p ++ post))).
Proof.
  intros H st k res Hm. rewrite rmatch_seq_app in Hm.
  rewrite seq_of_lit, rmatch_lit in Hm.
  destruct (matches_at ic p (m_after st)) eqn:E; [|discriminate].
  apply H. exact E.
Qed.

Lemma requires_seq_of (P : text -> Prop) (ic : bool) (pre : list regex)
    (rest : list regex) :
  upward P -> requires P (rmatch ic (seq_of rest)) ->
  requires P (rmatch ic (seq_of (pre ++ rest))).
Proof.
  intros Hup Hr st k res Hm. rewrite rmatch_seq_app in Hm.
  apply rmatch_reaches in Hm as (st' & Hf & Hk).
  eapply upward_follows; [exact Hup|exact Hf|]. eapply Hr. exact Hk.
Qed.

(** A pattern that needs what the text does not have replaces nothing. *)
Lemma replace_from_idle (re : RegExp) (r : replacer) (P : text -> Prop) :
  upward P ->
  requires P (rmatch (re_ignoreCase re) (re_tree re)) ->
  forall content, ~ P content ->
  forall fuel before,
    length content < fuel ->
    replace_from fuel re r before content = Ok content.
Proof.
  intros Hup Hreq. induction content as [|x xs IH]; intros HP fuel before Hlen.
  - destruct fuel; [simpl in Hlen; lia|]. cbn [replace_from].
    destruct (exec_at re before []) eqn:E; [|reflexivity].
    exfalso. apply HP. exact (Hreq _ _ _ E).
  - destruct fuel; [simpl in Hlen; lia|]. cbn [replace_from].
    destruct (exec_at re before (x :: xs)) eqn:E.
    + exfalso. apply HP. exact (Hreq _ _ _ E).
    + rewrite IH; [reflexivity| |simpl in Hlen; lia].
      intros Hxs. apply HP. apply Hup. exact Hxs.
Qed.

(** *** Occurrences *)

Lemma upper_char_idem (c : ascii) : upper_char (upper_char c) = upper_char c.
Proof. destruct c as [[] [] [] [] [] [] [] []]; reflexivity. Qed.

Lemma matches_at_fold (ic : bool) (p : text) : forall s,
  matches_at ic p s = true -> matches_at true p s = true.
Proof.
  induction p as [|c p IH]; intros s H; [reflexivity|].
  destruct s as [|x s]; [discriminate|]. simpl in *.
  apply andb_true_iff in H as [Hc Hp]. rewrite (IH _ Hp), andb_true_r.
  destruct ic; [exact Hc|].
  unfold char_eq, canon in *. apply Ascii.eqb_eq in Hc. subst.
  apply Ascii.eqb_refl.
Qed.

Lemma matches_at_upper (ic : bool) (p : text) : forall s,
  matches_at ic (toUpperCase p) s = true -> matches_at true p s = true.
Proof.
  intros s H. apply matches_at_fold in H. revert s H.
  induction p as [|c p IH]; intros s H; [reflexivity|].
  destruct s as [|x s]; [discriminate|]. simpl in *.
  apply andb_true_iff in H as [Hc Hp]. rewrite (IH _ Hp), andb_true_r.
  unfold char_eq, canon in *. rewrite upper_char_idem in Hc. exact Hc.
Qed.

Lemma upward_mentions (old : text) : upward (mentions old).
Proof.
  intros x s H. unfold mentions in *. simpl. rewrite H. apply orb_true_r.
Qed.

Lemma matches_mentions (ic : bool) (old s : text) :
  matches_at ic old s = true -> mentions old s.
Proof.
  intros H. apply matches_at_fold in H. unfold mentions.
  destruct s; simpl; rewrite H; reflexivity.
Qed.

Lemma upper_mentions (ic : bool) (old s : text) :
  matches_at ic (toUpperCase old) s = true -> mentions old s.
Proof.
  intros H. apply matches_at_upper in H. unfold mentions.
  destruct s; simpl; rewrite H; reflexivity.
Qed.

Lemma upward_has_char (ok : ascii -> bool) : upward (has_char ok).
Proof.
  intros x s H. unfold has_char in *. simpl. rewrite H. apply orb_true_r.
Qed.

Lemma plain_upper (old : text) : plain old = true -> plain (toUpperCase old) = true.
Proof.
  unfold plain, toUpperCase. induction old as [|c old IH]; [reflexivity|].
  simpl. intros H. apply andb_true_iff in H as [Hc Ho].
  rewrite IH by assumption. rewrite andb_true_r.
  revert Hc. destruct c as [[] [] [] [] [] [] [] []]; vm_compute; congruence.
Qed.

Lemma upper_nonempty (old : text) : old <> [] -> toUpperCase old <> [].
Proof. destruct old; [congruence|discriminate]. Qed.

Lemma requires_chars_end (P : text -> Prop) (ic : bool) (p : text) :
  (forall s, matches_at ic p s = true -> P s) ->
  requires P (rmatch ic (seq_of (map RChar p))).
Proof.
  intros H. rewrite <- (app_nil_r (map RChar p)). apply requires_chars. exact H.
Qed.

Lemma quote_class (ic : bool) (x : ascii) (s : text) :
  class_match ic false [CChar "'"; CChar dq] x = true -> has_char is_quote (x :: s).
Proof.
  intros H. unfold has_char. simpl.
  replace (is_quote x) with true; [reflexivity|].
  revert H. destruct ic; destruct x as [[] [] [] [] [] [] [] []]; vm_compute; congruence.
Qed.

Lemma at_char (ic : bool) (x : ascii) (s : text) :
  char_eq ic "@" x = true -> has_char is_at (x :: s).
Proof.
  intros H. unfold has_char. simpl.
  replace (is_at x) with true; [reflexivity|].
  revert H. destruct ic; destruct x as [[] [] [] [] [] [] [] []]; vm_compute; congruence.
Qed.

Lemma bracket_char (ic : bool) (x : ascii) (s : text) :
  char_eq ic "[" x = true -> has_char is_bracket (x :: s).
Proof.
  intros H. unfold has_char. simpl.
  replace (is_bracket x) with true; [reflexivity|].
  revert H. destruct ic; destruct x as [[] [] [] [] [] [] [] []]; vm_compute; congruence.
Qed.

(** The parse of a pattern text around the plain token [old]. *)
Ltac parse_pattern Hp Ho :=
  unfold RegExp_new; simpl negb; cbv iota;
  simpl;
  rewrite p_run_app, (p_run_plain _ _ Hp) by reflexivity;
  cbn [mbind res_bind]; rewrite (push_chars_eq _ _ Ho);
  simpl;
  rewrite !frame_regex_seq; cbn [rev app];
  rewrite ?rev_app_distr, ?rev_involutive; cbn [rev app seq_of].

Ltac needs_with base :=
  idtac; lazymatch goal with
  | |- requires _ (rmatch _ (RGroup _ _)) =>
      apply requires_group; needs_with base
  | |- requires _ (rmatch _ (RSeq _ _)) =>
      first [ apply requires_seq_l; needs_with base
            | apply requires_seq_r; [base | needs_with base] ]
  | |- requires _ _ => base
  | |- upward _ => base
  end.

Ltac old_base :=
  idtac; lazymatch goal with
  | |- upward _ => apply upward_mentions
  | |- requires _ (rmatch _ (seq_of (map RChar _ ++ _))) =>
      apply requires_chars; intros ? ?;
      first [ eapply matches_mentions; eassumption
            | eapply upper_mentions; eassumption ]
  | |- requires _ (rmatch _ (seq_of (map RChar _))) =>
      apply requires_chars_end; intros ? ?;
      first [ eapply matches_mentions; eassumption
            | eapply upper_mentions; eassumption ]
  end.

Ltac quote_base :=
  idtac; lazymatch goal with
  | |- upward _ => apply upward_has_char
  | |- requires _ (rmatch _ (RClass false _)) =>
      apply requires_class; intros ? ?; apply quote_class
  end.

Ltac at_base :=
  idtac; lazymatch goal with
  | |- upward _ => apply upward_has_char
  | |- requires _ (rmatch _ (RChar _)) =>
      apply requires_char; intros ? ?; apply at_char
  end.

Ltac bracket_base :=
  idtac; lazymatch goal with
  | |- upward _ => apply upward_has_char
  | |- requires _ (rmatch _ (RChar _)) =>
      apply requires_char; intros ? ?; apply bracket_char
  end.

Ltac needs_old := needs_with old_base.
Ltac needs_bracket := needs_with bracket_base.
Ltac needs_quote := needs_with quote_base.
Ltac needs_at := needs_with at_base.

Lemma import_needs (old : text) (options : RenameOptions) :
  plain old = true -> old <> [] ->
  compiles (mentions old) (import_source old) (flags_of options)
  /\ compiles (has_char is_quote) (import_source old) (flags_of options).
Proof.
  intros Hp Ho. unfold compiles, import_source, flags_of.
  destruct (caseSensitive options); parse_pattern Hp Ho;
    (split; eexists; (split; [reflexivity|])); cbn [re_tree re_ignoreCase];
    [needs_old | needs_quote | needs_old | needs_quote].
Qed.

Ltac pattern_needs Hp Ho tac1 tac2 :=
  parse_pattern Hp Ho;
  (split; eexists; (split; [reflexivity|])); cbn [re_tree re_ignoreCase];
  [tac1 | tac2].

Lemma export_needs (old : text) (options : RenameOptions) :
  plain old = true -> old <> [] ->
  compiles (mentions old) (export_source old) (flags_of options)
  /\ compiles (has_char is_quote) (export_source old) (flags_of options).
Proof.
  intros Hp Ho. unfold compiles, export_source, flags_of.
  destruct (caseSensitive options); pattern_needs Hp Ho needs_old needs_quote.
Qed.

Lemma require_needs (old : text) (options : RenameOptions) :
  plain old = true -> old <> [] ->
  compiles (mentions old) (require_source old) (flags_of options)
  /\ compiles (has_char is_quote) (require_source old) (flags_of options).
Proof.
  intros Hp Ho. unfold compiles, require_source, flags_of.
  destruct (caseSensitive options); pattern_needs Hp Ho needs_old needs_quote.
Qed.

Lemma scoped_needs (old : text) (options : RenameOptions) :
  plain old = true -> old <> [] ->
  compiles (mentions old) (scoped_source old) (flags_of options)
  /\ compiles (has_char is_at) (scoped_source old) (flags_of options).
Proof.
  intros Hp Ho. unfold compiles, scoped_source, flags_of.
  destruct (caseSensitive options); pattern_needs Hp Ho needs_old needs_at.
Qed.

Lemma word_parsed (old : text) (options : RenameOptions) :
  plain old = true -> old <> [] ->
  RegExp_new (word_source old) (flags_of options)
  = Ok {| re_tree := seq_of (RWordB false :: map RChar old ++ [RWordB false]);
          re_groups := 0; re_global := true;
          re_ignoreCase := negb (caseSensitive options) |}.
Proof.
  intros Hp Ho. unfold word_source, flags_of.
  destruct (caseSensitive options); parse_pattern Hp Ho; reflexivity.
Qed.

Lemma word_needs (old : text) (options : RenameOptions) :
  plain old = true -> old <> [] ->
  compiles (mentions old) (word_source old) (flags_of options).
Proof.
  intros Hp Ho. eexists. split; [apply word_parsed; assumption|].
  cbn [re_tree re_ignoreCase seq_of]. needs_old.
Qed.

Lemma env_name_needs (old : text) (options : RenameOptions) :
  plain old = true -> old <> [] ->
  compiles (mentions old) (str "(" ++ toUpperCase old ++ str ")")
    (flags_of options).
Proof.
  intros Hp Ho. apply plain_upper in Hp. apply upper_nonempty in Ho.
  unfold compiles, flags_of.
  destruct (caseSensitive options); parse_pattern Hp Ho;
    eexists; (split; [reflexivity|]); cbn [re_tree re_ignoreCase]; needs_old.
Qed.

Lemma env_value_needs (old : text) (options : RenameOptions) :
  plain old = true -> old <> [] ->
  compiles (mentions old) (str "=" ++ old) (flags_of options).
Proof.
  intros Hp Ho. unfold compiles, flags_of.
  replace (str "=" ++ old) with (str "=" ++ old ++ [])
    by (rewrite app_nil_r; reflexivity).
  destruct (caseSensitive options); parse_pattern Hp Ho;
    eexists; (split; [reflexivity|]); cbn [re_tree re_ignoreCase]; needs_old.
Qed.

Lemma from_needs (old : text) (options : RenameOptions) :
  plain old = true -> old <> [] ->
  compiles (mentions old) (from_source old) (flags_of options).
Proof.
  intros Hp Ho. unfold compiles, from_source, flags_of.
  destruct (caseSensitive options); parse_pattern Hp Ho;
    eexists; (split; [reflexivity|]); cbn [re_tree re_ignoreCase]; needs_old.
Qed.

Lemma envarg_needs (old : text) (options : RenameOptions) :
  plain old = true -> old <> [] ->
  compiles (mentions old) (envarg_source old) (flags_of options).
Proof.
  intros Hp Ho. apply plain_upper in Hp. apply upper_nonempty in Ho.
  unfold compiles, envarg_source, flags_of.
  destruct (caseSensitive options); parse_pattern Hp Ho;
    eexists; (split; [reflexivity|]); cbn [re_tree re_ignoreCase]; needs_old.
Qed.

Lemma link_needs (old : text) (options : RenameOptions) :
  plain old = true -> old <> [] ->
  compiles (mentions old) (link_source old) (flags_of options)
  /\ compiles (has_char is_bracket) (link_source old) (flags_of options).
Proof.
  intros Hp Ho. unfold compiles, link_source, flags_of.
  destruct (caseSensitive options); pattern_needs Hp Ho needs_old needs_bracket.
Qed.

Lemma plain_needs (old : text) (options : RenameOptions) :
  plain old = true -> old <> [] ->
  compiles (mentions old) old (flags_of options).
Proof.
  intros Hp Ho. eexists. split.
  - apply RegExp_new_plain; [assumption|]. unfold flags_of.
    destruct (caseSensitive options); reflexivity.
  - cbn [re_tree re_ignoreCase]. unfold lit. needs_old.
Qed.

(** A rule whose pattern needs what the text does not have returns the
    text. *)
Lemma replace_step_idle (P : text -> Prop) (source flags : text)
    (by_ : replacer) (content : text) :
  upward P -> compiles P source flags -> ~ P content ->
  replace_step source flags by_ content = Ok content.
Proof.
  intros Hup (re & Hre & Hreq) HP. unfold replace_step. rewrite Hre.
  cbn [mbind res_bind]. unfold String_replace.
  eapply replace_from_idle; eauto.
Qed.

Lemma String_replace_idle (P : text -> Prop) (re : RegExp)
    (by_ : replacer) (content : text) :
  upward P -> requires P (rmatch (re_ignoreCase re) (re_tree re)) ->
  ~ P content ->
  String_replace content re by_ = Ok content.
Proof.
  intros Hup Hreq HP. unfold String_replace. eapply replace_from_idle; eauto.
Qed.

Lemma mentions_app_r (old a b : text) : mentions old b -> mentions old (a ++ b).
Proof.
  intros H. induction a as [|x a IH]; [assumption|].
  simpl. apply upward_mentions. exact IH.
Qed.

Lemma matches_at_app (ic : bool) (p : text) : forall m b,
  matches_at ic p m = true -> matches_at ic p (m ++ b) = true.
Proof.
  induction p as [|c p IH]; intros m b H; [reflexivity|].
  destruct m as [|x m]; [discriminate|]. simpl in *.
  apply andb_true_iff in H as [Hc Hp]. rewrite Hc, (IH _ _ Hp). reflexivity.
Qed.

Lemma mentions_app_l (old m b : text) : mentions old m -> mentions old (m ++ b).
Proof.
  unfold mentions. induction m as [|x m IH]; intros H.
  - simpl in H. rewrite orb_false_r in H.
    destruct old; [|discriminate].
    destruct b; reflexivity.
  - simpl in H. apply orb_true_iff in H as [H|H].
    + pose proof (matches_at_app true old (x :: m) b H) as H'.
      simpl app. cbn [occurs]. simpl app in H'. rewrite H'. reflexivity.
    + simpl app. cbn [occurs]. rewrite (IH H). apply orb_true_r.
Qed.

(** A replacer that returns each matched piece as it is changes nothing. *)
Lemma replace_from_same (re : RegExp)
    (f : text -> list (option text) -> res text) (content : text) :
  (forall a m b caps, content = a ++ m ++ b -> f m caps = Ok m) ->
  forall fuel before after a,
    content = a ++ after -> length after < fuel ->
    replace_from fuel re (ByFunction f) before after = Ok after.
Proof.
  intros Hf. induction fuel as [|fuel IH]; intros before after a Hc Hlen; [lia|].
  cbn [replace_from].
  destruct (exec_at re before after) as [st'|] eqn:E.
  - apply exec_at_segment in E as (matched & Ha & Hb & Hm).
    rewrite Hm. cbn [apply_replacer].
    rewrite (Hf a matched (m_after st')) by (rewrite Hc, Ha; reflexivity).
    cbn [mbind res_bind].
    destruct (re_global re); cbn [negb]; [|rewrite Ha; reflexivity].
    destruct matched as [|y matched].
    + simpl in Ha. destruct after as [|x xs]; [reflexivity|].
      rewrite (IH (x :: before) xs (a ++ [x]))
        by (rewrite <- ?app_assoc; simpl in *; (assumption || lia)).
      reflexivity.
    + rewrite (IH (m_before st') (m_after st') (a ++ y :: matched)).
      * rewrite Ha. reflexivity.
      * rewrite Hc, Ha, <- app_assoc. reflexivity.
      * rewrite Ha in Hlen. simpl in Hlen. rewrite length_app in Hlen. lia.
  - destruct after as [|x xs]; [reflexivity|].
    rewrite (IH (x :: before) xs (a ++ [x]))
      by (rewrite <- ?app_assoc; simpl in *; (assumption || lia)).
    reflexivity.
Qed.

Lemma String_replace_same (re : RegExp)
    (f : text -> list (option text) -> res text) (content : text) :
  (forall a m b caps, content = a ++ m ++ b -> f m caps = Ok m) ->
  String_replace content re (ByFunction f) = Ok content.
Proof.
  intros Hf. unfold String_replace.
  apply (replace_from_same re f content Hf _ _ _ []); [reflexivity|lia].
Qed.

Section Idle.
Variables (old new : text) (options : RenameOptions) (content : text).
Hypothesis Hplain : plain old = true.
Hypothesis Hold : old <> [].
Hypothesis Hno : ~ mentions old content.

Lemma ts_pair_idle :
  ts_pair (flags_of options) (old, new) content = Ok content.
Proof.
  unfold ts_pair.
  rewrite (replace_step_idle (mentions old)); cbn [mbind res_bind];
    [|apply upward_mentions|apply import_needs; assumption|assumption].
  rewrite (replace_step_idle (mentions old)); cbn [mbind res_bind];
    [|apply upward_mentions|apply export_needs; assumption|assumption].
  rewrite (replace_step_idle (mentions old)); cbn [mbind res_bind];
    [|apply upward_mentions|apply require_needs; assumption|assumption].
  rewrite (replace_step_idle (mentions old)); cbn [mbind res_bind];
    [|apply upward_mentions|apply scoped_needs; assumption|assumption].
  apply (replace_step_idle (mentions old));
    [apply upward_mentions|apply word_needs; assumption|assumption].
Qed.

Lemma env_pair_idle :
  env_pair (flags_of options) (old, new) content = Ok content.
Proof.
  unfold env_pair.
  rewrite (replace_step_idle (mentions old)); cbn [mbind res_bind];
    [|apply upward_mentions|apply env_name_needs; assumption|assumption].
  apply (replace_step_idle (mentions old));
    [apply upward_mentions|apply env_value_needs; assumption|assumption].
Qed.

Lemma docker_pair_idle :
  docker_pair (flags_of options) (old, new) content = Ok content.
Proof.
  unfold docker_pair.
  destruct (from_needs old options Hplain Hold) as (re & Hre & Hreq).
  rewrite Hre. cbn [mbind res_bind].
  rewrite (String_replace_idle (mentions old));
    [|apply upward_mentions|assumption|assumption].
  cbn [mbind res_bind].
  apply (replace_step_idle (mentions old));
    [apply upward_mentions|apply envarg_needs; assumption|assumption].
Qed.

Lemma markdown_pair_idle :
  markdown_pair (flags_of options) (old, new) content = Ok content.
Proof.
  unfold markdown_pair.
  rewrite codeBlock_parsed. cbn [mbind res_bind].
  rewrite String_replace_same.
  2:{ intros a m b caps Hc.
      apply (replace_step_idle (mentions old));
        [apply upward_mentions|apply plain_needs; assumption|].
      intros Hm. apply Hno. rewrite Hc.
      apply mentions_app_r, mentions_app_l. exact Hm. }
  cbn [mbind res_bind].
  destruct (link_needs old options Hplain Hold) as ((re & Hre & Hreq) & _).
  rewrite Hre. cbn [mbind res_bind].
  rewrite (String_replace_idle (mentions old));
    [|apply upward_mentions|assumption|assumption].
  cbn [mbind res_bind].
  apply (replace_step_idle (mentions old));
    [apply upward_mentions|apply word_needs; assumption|assumption].
Qed.

End Idle.

Lemma for_entries_each (body : text * text -> text -> res text)
    (Q : text -> bool) (content : text) (entries : list (text * text)) :
  (forall old new, Q old = true -> body (old, new) content = Ok content) ->
  forallb (fun e => Q (fst e)) entries = true ->
  for_entries body entries content = Ok content.
Proof.
  intros Hb. induction entries as [|[old new] l IH]; intros Ha; [reflexivity|].
  simpl in Ha. apply andb_true_iff in Ha as [H1 H2].
  cbn [for_entries]. rewrite Hb by assumption.
  cbn [mbind res_bind]. apply IH. exact H2.
Qed.

Lemma for_entries_idle (body : text * text -> text -> res text)
    (options : RenameOptions) (content : text) :
  (forall old new, plain old = true -> old <> [] -> ~ mentions old content ->
                   body (old, new) content = Ok content) ->
  absent content options = true ->
  for_entries body (Object_entries (renameMap_of options)) content = Ok content.
Proof.
  intros Hb. unfold absent, Object_entries.
  induction (renameMap_of options) as [|[old new] l IH]; intros Ha; [reflexivity|].
  simpl in Ha. apply andb_true_iff in Ha as [H1 H2].
  apply andb_true_iff in H1 as [H1 H3]. apply andb_true_iff in H1 as [H1 H4].
  apply negb_true_iff in H3, H4. apply text_eqb_false in H4.
  cbn [for_entries]. rewrite Hb; [| assumption | assumption |].
  - cbn [mbind res_bind]. apply IH. exact H2.
  - unfold mentions. simpl in H3. rewrite H3. discriminate.
Qed.

Section Untouched.
Context `{Libs}.

Lemma textual_idle (s : strategy) (content : text) (options : RenameOptions) :
  textual s = true -> absent content options = true ->
  run_strategy (Some s) content options = Ok (content, []).
Proof.
  intros Hs Ha. destruct s; try discriminate; cbn [run_strategy].
  - unfold processTypeScriptFile.
    rewrite for_entries_idle; [reflexivity| |assumption].
    intros. apply ts_pair_idle; assumption.
  - unfold processEnvFile.
    rewrite for_entries_idle; [reflexivity| |assumption].
    intros. apply env_pair_idle; assumption.
  - unfold processDockerFile.
    rewrite for_entries_idle; [reflexivity| |assumption].
    intros. apply docker_pair_idle; assumption.
  - unfold processMarkdownFile.
    rewrite for_entries_idle; [reflexivity| |assumption].
    intros. apply markdown_pair_idle; assumption.
Qed.

(** X1: with tokens of 7-bit characters, a file handled by one of the four
    textual strategies (Code, Env, Docker, Markdown) in which no old token
    of the rename map occurs, whatever the letter case, comes out of its
    strategy unchanged, and [processFile] reports it processed and not
    modified after reading it, without any write. *)
Theorem absent_token_leaves_file (filePath : text) (options : RenameOptions)
    (w : world) (f : file) (s : strategy) :
  classify filePath = Some s -> textual s = true ->
  w_files w !! filePath = Some f -> file_readable f = true ->
  ascii_tokens options = true ->
  absent (file_data f) options = true ->
  run_strategy (Some s) (file_data f) options = Ok (file_data f, [])
  /\ processFile filePath options w =
       Done {| processed := true; modified := false; error := None |}
         {| w_files := w_files w; w_trace := EvRead filePath :: w_trace w |}.
Proof.
  intros Hc Hs Hf Hr _ Ha.
  pose proof (textual_idle s (file_data f) options Hs Ha) as Hrun.
  split; [exact Hrun|].
  rewrite processFile_pure, Hf. unfold process_pure. rewrite Hr, Hc, Hrun.
  cbv iota.
  assert (text_eqb (file_data f) (file_data f) = true) as ->
    by (apply text_eqb_true; reflexivity).
  reflexivity.
Qed.

End Untouched.

(** ** The whole-word rule *)

Lemma hd_error_skipn {A} (n : nat) : forall l : list A,
  hd_error (skipn n l) = nth_error l n.
Proof.
  induction n as [|n IH]; intros [|x l]; try reflexivity. simpl. apply IH.
Qed.

Lemma hd_error_rev_firstn {A} (n : nat) : forall (l b : list A),
  n < length l -> hd_error (rev (firstn (S n) l) ++ b) = nth_error l n.
Proof.
  induction n as [|n IH]; intros [|x l] b Hn; simpl in Hn; try lia.
  - reflexivity.
  - change (firstn (S (S n)) (x :: l)) with (x :: firstn (S n) l).
    cbn [rev]. rewrite <- app_assoc. rewrite IH by lia. reflexivity.
Qed.

Lemma at_word_boundary_edge (before after : text) (caps : list (nat * text)) :
  at_word_boundary {| m_before := before; m_after := after; m_caps := caps |}
  = word_edge (hd_error before) (hd_error after).
Proof. destruct before, after; reflexivity. Qed.

Lemma rmatch_word (ic : bool) (old : text) (st : mstate)
    (k : mstate -> option mstate) :
  rmatch ic (seq_of (RWordB false :: map RChar old ++ [RWordB false])) st k
  = let st2 := {| m_before := rev (firstn (length old) (m_after st))
                               ++ m_before st;
                  m_after := skipn (length old) (m_after st);
                  m_caps := m_caps st |} in
    if at_word_boundary st && matches_at ic old (m_after st)
       && at_word_boundary st2
    then k st2 else None.
Proof.
  cbn [seq_of rmatch xorb].
  destruct (at_word_boundary st); [|reflexivity].
  rewrite rmatch_seq_app, seq_of_lit, rmatch_lit.
  destruct (matches_at ic old (m_after st)); [|reflexivity].
  cbn [seq_of rmatch xorb andb].
  destruct (at_word_boundary _); reflexivity.
Qed.

Lemma word_substitute_skip (ic : bool) (old new : text) (k : nat) :
  forall prev s,
    k <= length s ->
    word_substitute ic old new k prev s
    = word_substitute ic old new 0
        (match k with 0 => prev | S j => nth_error s j end) (skipn k s).
Proof.
  induction k as [|k IH]; intros prev s Hk; [reflexivity|].
  destruct s as [|x s]; [simpl in Hk; lia|].
  cbn [word_substitute skipn]. rewrite IH by (simpl in Hk; lia).
  destruct k; reflexivity.
Qed.

Lemma word_substitute_cons (ic : bool) (old new : text) (prev : option ascii)
    (x : ascii) (s : text) :
  word_substitute ic old new 0 prev (x :: s) =
    if whole_word_at ic old prev (x :: s)
    then new ++ word_substitute ic old new (length old - 1) (Some x) s
    else x :: word_substitute ic old new 0 (Some x) s.
Proof. reflexivity. Qed.

Lemma replace_from_words (ic : bool) (old tpl : text) :
  old <> [] -> no_dollar tpl = true ->
  forall fuel before after,
    length after < fuel ->
    replace_from fuel
      {| re_tree := seq_of (RWordB false :: map RChar old ++ [RWordB false]);
         re_groups := 0; re_global := true; re_ignoreCase := ic |}
      (ByPattern tpl) before after
    = Ok (word_substitute ic old tpl 0 (hd_error before) after).
Proof.
  intros Hold Htpl. induction fuel as [|fuel IH]; intros before after Hlen; [lia|].
  cbn [replace_from]. unfold exec_at. cbn [re_tree re_ignoreCase].
  rewrite rmatch_word. cbn zeta. cbn [m_after m_before m_caps].
  rewrite at_word_boundary_edge.
  destruct after as [|x xs].
  - destruct old as [|c old']; [congruence|].
    cbn [matches_at]. rewrite andb_false_r. reflexivity.
  - rewrite word_substitute_cons. unfold whole_word_at.
    destruct (word_edge (hd_error before) (hd_error (x :: xs))) eqn:E1;
      cbn [andb].
    2:{ cbn [mbind res_bind]. rewrite IH by (simpl in Hlen; lia). reflexivity. }
    destruct (matches_at ic old (x :: xs)) eqn:Hm; cbn [andb].
    2:{ cbn [mbind res_bind]. rewrite IH by (simpl in Hlen; lia). reflexivity. }
    pose proof (matches_at_length _ _ _ Hm) as Hle.
    destruct old as [|c old']; [congruence|].
    set (n := length (c :: old')) in *.
    assert (Hn : n = S (length old')) by reflexivity.
    rewrite at_word_boundary_edge.
    rewrite hd_error_skipn.
    replace (hd_error (rev (firstn n (x :: xs)) ++ before))
      with (nth_error (x :: xs) (n - 1)).
    2:{ rewrite Hn. rewrite hd_error_rev_firstn by (simpl in *; lia).
        f_equal. lia. }
    destruct (word_edge (nth_error (x :: xs) (n - 1)) (nth_error (x :: xs) n)) eqn:E2.
    2:{ cbn [mbind res_bind]. rewrite IH by (simpl in Hlen; lia). reflexivity. }
    cbn [re_global negb]. cbv beta iota.
    unfold apply_replacer. rewrite GetSubstitution_plain by assumption.
    cbn [m_before m_after m_caps].
    rewrite length_app, length_rev, length_firstn.
    replace (n `min` length (x :: xs) + length before - length before)
      with n by lia.
    rewrite firstn_app, length_rev, length_firstn.
    replace (n - n `min` length (x :: xs)) with 0 by lia.
    rewrite firstn_O, app_nil_r.
    rewrite firstn_all2 by (rewrite length_rev, length_firstn; lia).
    rewrite rev_involutive.
    cbn [mbind res_bind].
    destruct (firstn n (x :: xs)) as [|y ys] eqn:Et;
      [rewrite Hn in Et; discriminate|]. rewrite <- Et.
    rewrite IH by (rewrite length_skipn; simpl in *; lia).
    cbn [mbind res_bind]. f_equal. f_equal.
    rewrite (word_substitute_skip ic (c :: old') tpl (n - 1) (Some x) xs)
      by (simpl in *; lia).
    rewrite Hn. cbn [skipn]. rewrite Nat.sub_succ, Nat.sub_0_r.
    f_equal.
    rewrite hd_error_rev_firstn by (simpl in *; lia).
    destruct (length old'); reflexivity.
Qed.

Lemma word_rule_scan (options : RenameOptions) (old new s : text) :
  plain old = true -> old <> [] -> no_dollar new = true ->
  word_rule (flags_of options) old new s
  = Ok (replace_words (negb (caseSensitive options)) old new s).
Proof.
  intros Hp Ho Hn. unfold word_rule, replace_step.
  rewrite word_parsed by assumption. cbn [mbind res_bind].
  unfold String_replace, replace_words.
  apply (replace_from_words _ old new Ho Hn (S (length s)) [] s). lia.
Qed.

Lemma word_not_special (c : ascii) :
  is_word c = true -> is_quote c = false /\ is_at c = false.
Proof.
  destruct c as [[] [] [] [] [] [] [] []]; vm_compute; intros; split; congruence.
Qed.

Lemma identifier_clean (s : text) :
  forallb is_word s = true ->
  ~ has_char is_quote s /\ ~ has_char is_at s.
Proof.
  unfold has_char. induction s as [|x s IH]; intros H.
  - split; discriminate.
  - simpl in H. apply andb_true_iff in H as [Hx Hs].
    destruct (word_not_special x Hx) as [Hq Ha].
    destruct (IH Hs) as [IH1 IH2]. simpl. rewrite Hq, Ha. simpl.
    split; assumption.
Qed.

Lemma nth_error_word (s : text) (i : nat) :
  forallb is_word s = true -> i < length s ->
  exists c, nth_error s i = Some c /\ is_word c = true.
Proof.
  revert i. induction s as [|x s IH]; intros i H Hi; [simpl in Hi; lia|].
  simpl in H. apply andb_true_iff in H as [Hx Hs].
  destruct i as [|i]; [exists x; split; [reflexivity|assumption]|].
  simpl. apply IH; [assumption|simpl in Hi; lia].
Qed.

(** Inside a run of word characters the whole-word pattern finds nothing,
    unless the run is the token itself. *)
Lemma replace_from_inside_word (ic : bool) (old : text) (r : replacer) :
  old <> [] ->
  forall fuel before after,
    length after < fuel ->
    forallb is_word after = true ->
    match before with
    | [] => length old < length after
    | p :: _ => is_word p = true
    end ->
    replace_from fuel
      {| re_tree := seq_of (RWordB false :: map RChar old ++ [RWordB false]);
         re_groups := 0; re_global := true; re_ignoreCase := ic |}
      r before after
    = Ok after.
Proof.
  intros Hold. induction fuel as [|fuel IH]; intros before after Hlen Hw Hb; [lia|].
  cbn [replace_from]. unfold exec_at. cbn [re_tree re_ignoreCase].
  rewrite rmatch_word. cbn zeta. cbn [m_after m_before m_caps].
  rewrite !at_word_boundary_edge.
  destruct after as [|x xs].
  - destruct old as [|c old']; [congruence|].
    cbn [matches_at]. rewrite andb_false_r. reflexivity.
  - assert (Hnone :
      word_edge (hd_error before) (hd_error (x :: xs))
      && matches_at ic old (x :: xs)
      && word_edge (hd_error (rev (firstn (length old) (x :: xs)) ++ before))
           (hd_error (skipn (length old) (x :: xs))) = false).
    { pose proof Hw as Hw'. simpl in Hw'. apply andb_true_iff in Hw' as [Hx Hxs].
      destruct before as [|p before].
      - destruct (matches_at ic old (x :: xs)) eqn:Hm;
          [|rewrite andb_false_r; reflexivity].
        destruct old as [|c old']; [congruence|].
        rewrite hd_error_skipn.
        change (length (c :: old')) with (S (length old')) at 1.
        rewrite hd_error_rev_firstn by (simpl in *; lia).
        destruct (nth_error_word (x :: xs) (length old') Hw) as (c1 & -> & Hc1);
          [simpl in *; lia|].
        destruct (nth_error_word (x :: xs) (length (c :: old')) Hw)
          as (c2 & -> & Hc2); [simpl in *; lia|].
        unfold word_edge at 2. rewrite Hc1, Hc2. apply andb_false_r.
      - cbn [hd_error]. unfold word_edge at 1. rewrite Hb, Hx. reflexivity. }
    rewrite Hnone.
    simpl in Hw. apply andb_true_iff in Hw as [Hx Hxs].
    rewrite IH; [reflexivity|simpl in Hlen; lia|exact Hxs|exact Hx].
Qed.

Lemma word_no_backslash (s : text) :
  forallb is_word s = true -> no_backslash s = true /\ ~ has_char is_bracket s.
Proof.
  unfold no_backslash, has_char. induction s as [|x s IH]; intros H.
  - split; [reflexivity|discriminate].
  - simpl in H. apply andb_true_iff in H as [Hx Hs].
    destruct (IH Hs) as [IH1 IH2]. simpl. rewrite IH1.
    assert (Ascii.eqb x bsl = false /\ is_bracket x = false) as [-> ->].
    { revert Hx. destruct x as [[] [] [] [] [] [] [] []]; vm_compute;
        intros; split; congruence. }
    split; [reflexivity|exact IH2].
Qed.

Section Identifier.
Variables (old new : text) (options : RenameOptions) (content : text).
Hypothesis Hplain : plain old = true.
Hypothesis Hold : old <> [].
Hypothesis Hword : forallb is_word content = true.
Hypothesis Hlen : length old < length content.

Lemma word_rule_inside :
  replace_step (word_source old) (flags_of options) (ByPattern new) content
  = Ok content.
Proof.
  unfold replace_step. rewrite word_parsed by assumption.
  cbn [mbind res_bind]. unfold String_replace.
  apply replace_from_inside_word; [assumption|lia|assumption|assumption].
Qed.

Lemma ts_pair_identifier :
  ts_pair (flags_of options) (old, new) content = Ok content.
Proof.
  destruct (identifier_clean content Hword) as [Hq Hat].
  unfold ts_pair.
  rewrite (replace_step_idle (has_char is_quote)); cbn [mbind res_bind];
    [|apply upward_has_char|apply import_needs; assumption|assumption].
  rewrite (replace_step_idle (has_char is_quote)); cbn [mbind res_bind];
    [|apply upward_has_char|apply export_needs; assumption|assumption].
  rewrite (replace_step_idle (has_char is_quote)); cbn [mbind res_bind];
    [|apply upward_has_char|apply require_needs; assumption|assumption].
  rewrite (replace_step_idle (has_char is_at)); cbn [mbind res_bind];
    [|apply upward_has_char|apply scoped_needs; assumption|assumption].
  apply word_rule_inside.
Qed.

Lemma markdown_pair_identifier :
  markdown_pair (flags_of options) (old, new) content = Ok content.
Proof.
  destruct (word_no_backslash content Hword) as [Hb Hbr].
  unfold markdown_pair.
  destruct (code_span_rule_idle options
              (ByFunction (fun matched _ =>
                 replace_step old (flags_of options) (ByPattern new) matched))
              content Hb) as (re & Hre0 & Hsame).
  rewrite Hre0. cbn [mbind res_bind]. rewrite Hsame. cbn [mbind res_bind].
  destruct (link_needs old options Hplain Hold) as (_ & (re' & Hre & Hreq)).
  rewrite Hre. cbn [mbind res_bind].
  rewrite (String_replace_idle (has_char is_bracket));
    [|apply upward_has_char|assumption|assumption].
  cbn [mbind res_bind]. apply word_rule_inside.
Qed.

End Identifier.

(** X2: a run of word characters (an identifier) that is longer than every
    old token of the rename map comes out of the Code strategy and of the
    Markdown strategy unchanged: a token that is only a part of a longer
    identifier is not renamed. *)
Theorem identifier_part_not_renamed (content : text) (options : RenameOptions) :
  forallb is_word content = true ->
  shorter_tokens content options = true ->
  processTypeScriptFile content options = Ok content
  /\ processMarkdownFile content options = Ok content.
Proof.
  intros Hw Hs. unfold shorter_tokens in Hs.
  split.
  - unfold processTypeScriptFile, Object_entries.
    apply (for_entries_each _
             (fun o => plain o && negb (text_eqb o [])
                       && Nat.ltb (length o) (length content)));
      [|exact Hs].
    intros old new HQ.
    apply andb_true_iff in HQ as [HQ H3]. apply andb_true_iff in HQ as [H1 H2].
    apply negb_true_iff in H2. apply text_eqb_false in H2.
    apply Nat.ltb_lt in H3.
    apply ts_pair_identifier; assumption.
  - unfold processMarkdownFile, Object_entries.
    apply (for_entries_each _
             (fun o => plain o && negb (text_eqb o [])
                       && Nat.ltb (length o) (length content)));
      [|exact Hs].
    intros old new HQ.
    apply andb_true_iff in HQ as [HQ H3]. apply andb_true_iff in HQ as [H1 H2].
    apply negb_true_iff in H2. apply text_eqb_false in H2.
    apply Nat.ltb_lt in H3.
    apply markdown_pair_identifier; assumption.
Qed.

(** ** Tokens at the edge of the pattern language *)

Lemma empty_parsed (options : RenameOptions) :
  RegExp_new [] (flags_of options)
  = Ok {| re_tree := REmpty; re_groups := 0; re_global := true;
          re_ignoreCase := negb (caseSensitive options) |}.
Proof. unfold flags_of. destruct (caseSensitive options); reflexivity. Qed.

Lemma replace_from_empty (ic : bool) (tpl : text) :
  no_dollar tpl = true ->
  forall fuel before after,
    length after < fuel ->
    replace_from fuel
      {| re_tree := REmpty; re_groups := 0; re_global := true;
         re_ignoreCase := ic |} (ByPattern tpl) before after
    = Ok (interleaved tpl after).
Proof.
  intros Htpl. induction fuel as [|fuel IH]; intros before after Hlen; [lia|].
  cbn [replace_from]. unfold exec_at. cbn [re_tree re_ignoreCase rmatch m_before].
  rewrite Nat.sub_diag. cbn [firstn rev apply_replacer].
  rewrite GetSubstitution_plain by assumption.
  cbn [mbind res_bind re_global negb m_after].
  destruct after as [|x xs].
  - unfold interleaved. simpl. rewrite app_nil_r. reflexivity.
  - rewrite IH by (simpl in Hlen; lia). cbn [mbind res_bind].
    unfold interleaved. reflexivity.
Qed.

(** X3: an empty old token in the rename map makes the rewrite of a string
    of a JSON or YAML document put the new token before every character of
    the string and at its end. *)
Theorem empty_token_interleaves (options : RenameOptions) (new s : text) :
  multiMap options = Some [([], new)] ->
  no_dollar new = true ->
  rename_text (renameMap_of options) (flags_of options) s
  = Ok (interleaved new s)
  /\ processValue (renameMap_of options) (flags_of options) (VString s)
     = Ok (VString (interleaved new s)).
Proof.
  intros Hm Hn.
  assert (H : rename_text (renameMap_of options) (flags_of options) s
              = Ok (interleaved new s)).
  { unfold rename_text, renameMap_of, Object_entries. rewrite Hm.
    cbn [for_entries rename_entry]. unfold replace_step.
    rewrite empty_parsed. cbn [mbind res_bind]. unfold String_replace.
    rewrite replace_from_empty by (assumption || lia). reflexivity. }
  split; [exact H|]. cbn [processValue]. rewrite H. reflexivity.
Qed.

Section Invalid.
Variables (renameMap : jsobj text) (flags : text) (e : exn).
Hypothesis Hfirst :
  match renameMap with
  | (old, _) :: _ => RegExp_new old flags = Throw e
  | [] => False
  end.

Lemma rename_text_invalid (s : text) : rename_text renameMap flags s = Throw e.
Proof.
  unfold rename_text, Object_entries.
  destruct renameMap as [|[old new] rest]; [contradiction|].
  cbn [for_entries rename_entry]. unfold replace_step. rewrite Hfirst.
  reflexivity.
Qed.

Lemma map_items_invalid (items : list value) :
  Forall (fun v =>
            (has_text v = true -> processValue renameMap flags v = Throw e)
            /\ (has_text v = false ->
                exists v', processValue renameMap flags v = Ok v')) items ->
  (existsb has_text items = true ->
   map_items (processValue renameMap flags) items = Throw e)
  /\ (existsb has_text items = false ->
      exists items', map_items (processValue renameMap flags) items = Ok items').
Proof.
  induction 1 as [|x l [Hx1 Hx2] _ [IH1 IH2]].
  - split; [discriminate|]. intros _. exists []. reflexivity.
  - cbn [existsb map_items]. destruct (has_text x) eqn:Ex.
    + split; [|discriminate]. intros _. rewrite Hx1 by reflexivity. reflexivity.
    + destruct (Hx2 eq_refl) as (x' & ->). cbn [orb mbind res_bind].
      split.
      * intros Hl. fold (map_items (processValue renameMap flags)).
        change ((fix go (l0 : list value) : res (list value) :=
                   match l0 with
                   | [] => Ok []
                   | x0 :: l'0 =>
                       processValue renameMap flags x0 ≫= λ x'0,
                         go l'0 ≫= λ l'', Ok (x'0 :: l'')
                   end) l)
          with (map_items (processValue renameMap flags) l).
        rewrite IH1 by assumption. reflexivity.
      * intros Hl. destruct (IH2 Hl) as (l' & Hl').
        change ((fix go (l0 : list value) : res (list value) :=
                   match l0 with
                   | [] => Ok []
                   | x0 :: l'0 =>
                       processValue renameMap flags x0 ≫= λ x'0,
                         go l'0 ≫= λ l'', Ok (x'0 :: l'')
                   end) l)
          with (map_items (processValue renameMap flags) l).
        rewrite Hl'. eexists. reflexivity.
Qed.

Lemma processValue_invalid (v : value) :
  (has_text v = true -> processValue renameMap flags v = Throw e)
  /\ (has_text v = false -> exists v', processValue renameMap flags v = Ok v').
Proof.
  induction v as [| b | repr | s | items IH | props IH] using value_induction.
  - split; [discriminate|]. intros _. eexists. reflexivity.
  - split; [discriminate|]. intros _. eexists. reflexivity.
  - split; [discriminate|]. intros _. eexists. reflexivity.
  - split; [|discriminate]. intros _. cbn [processValue].
    rewrite rename_text_invalid. reflexivity.
  - destruct (map_items_invalid items IH) as [H1 H2].
    cbn [has_text processValue]. split.
    + intros Ht. rewrite H1 by assumption. reflexivity.
    + intros Ht. destruct (H2 Ht) as (items' & ->). eexists. reflexivity.
  - cbn [has_text processValue]. destruct props as [|kv props].
    + split; [discriminate|]. intros _. eexists. reflexivity.
    + split; [|discriminate]. intros _.
      unfold Object_entries. rewrite each_entry_cons.
      rewrite rename_text_invalid. reflexivity.
Qed.

End Invalid.

Section InvalidToken.
Context `{Libs}.

(** X4: when the first old token of the rename map is not a valid pattern,
    the JSON and YAML strategies, on a document that parses and holds a
    string or a key, catch the pattern error as if the document had failed
    to parse: the text is returned unchanged with the parse warning, which
    carries the message of the pattern error; [processFile] then reports
    the JSON file processed and not modified and writes nothing. *)
Theorem invalid_token_reads_as_parse_failure (filePath content : text)
    (options : RenameOptions) (v : value) (old new : text) (e : exn)
    (w : world) (f : file) :
  hd_error (renameMap_of options) = Some (old, new) ->
  RegExp_new old (flags_of options) = Throw e ->
  has_text v = true ->
  (JSON_parse content = Ok v ->
   processJsonFile content options = Ok (content, [WarnJson (exn_message e)]))
  /\ (YAML_parse content = Ok v ->
      processYamlFile content options = Ok (content, [WarnYaml (exn_message e)]))
  /\ (JSON_parse content = Ok v ->
      classify filePath = Some Json ->
      w_files w !! filePath = Some f -> file_readable f = true ->
      file_data f = content ->
      processFile filePath options w =
        Done {| processed := true; modified := false; error := None |}
          {| w_files := w_files w;
             w_trace := EvConsole (WarnJson (exn_message e))
                        :: EvRead filePath :: w_trace w |}).
Proof.
  intros Hhd Hre Ht.
  assert (Hv : processValue (renameMap_of options) (flags_of options) v = Throw e).
  { apply processValue_invalid; [|exact Ht].
    destruct (renameMap_of options) as [|[o n] rest]; [discriminate|].
    injection Hhd as -> ->. exact Hre. }
  assert (HJ : JSON_parse content = Ok v ->
               processJsonFile content options
               = Ok (content, [WarnJson (exn_message e)])).
  { intros Hp. unfold processJsonFile. rewrite Hp. cbn [mbind res_bind].
    rewrite Hv. reflexivity. }
  split; [exact HJ|]. split.
  - intros Hp. unfold processYamlFile. rewrite Hp. cbn [mbind res_bind].
    rewrite Hv. reflexivity.
  - intros Hp Hc Hf Hr Hd.
    rewrite processFile_pure, Hf. unfold process_pure. rewrite Hr, Hc.
    cbn [run_strategy]. rewrite Hd, (HJ Hp). cbv iota.
    assert (text_eqb content content = true) as ->
      by (apply text_eqb_true; reflexivity).
    reflexivity.
Qed.

End InvalidToken.

(** ** The file pass as a whole *)

Section Pass.
Context `{Libs}.

Lemma process_pure_file (f : text) (options : RenameOptions) (fl : option file)
    (r : FileOutcome) (x : file) (evs : list event) :
  process_pure f options fl = Some (r, Some x, evs) ->
  exists x0, fl = Some x0 /\ file_readable x0 = true /\ file_writable x0 = true
             /\ dry options = false
             /\ file_readable x = true /\ file_writable x = true.
Proof.
  unfold process_pure. destruct fl as [x0|]; [|discriminate].
  destruct (file_readable x0) eqn:Er; [|discriminate].
  destruct (run_strategy (classify f) (file_data x0) options)
    as [[newContent lines]| |]; try discriminate.
  destruct (negb (text_eqb newContent (file_data x0)) && negb (dry options)) eqn:E;
    [|discriminate].
  destruct (file_writable x0) eqn:Ew; [|discriminate].
  intros [= <- <- <-]. exists x0.
  apply andb_true_iff in E as [_ E]. apply negb_true_iff in E.
  repeat split; assumption || reflexivity.
Qed.

Lemma processFile_frame (f : text) (options : RenameOptions) (w w' : world)
    (r : FileOutcome) :
  processFile f options w = Done r w' ->
  dom (w_files w') = dom (w_files w)
  /\ (forall g, g <> f -> w_files w' !! g = w_files w !! g)
  /\ (dry options = true -> w_files w' = w_files w).
Proof.
  rewrite processFile_pure.
  destruct (process_pure f options (w_files w !! f)) as [[[out fl'] evs]|] eqn:Ep;
    [|discriminate].
  cbn [apply_pure]. intros [= <- <-]. cbn [w_files].
  destruct fl' as [x|]; [|repeat split; reflexivity].
  apply process_pure_file in Ep as (x0 & Hx0 & _ & _ & Hdry & _).
  split; [|split].
  - apply set_eq. intros g. rewrite !elem_of_dom.
    destruct (decide (g = f)) as [->|Hne].
    + rewrite lookup_insert_eq, Hx0. split; intros _; eexists; reflexivity.
    + rewrite lookup_insert_ne by congruence. reflexivity.
  - intros g Hg. apply lookup_insert_ne. congruence.
  - intros Hd. congruence.
Qed.

Lemma processFiles_frame (options : RenameOptions) (files : list text) :
  forall w rs w',
    processFiles files options w = Done rs w' ->
    dom (w_files w') = dom (w_files w)
    /\ (forall g, g ∉ files -> w_files w' !! g = w_files w !! g)
    /\ (dry options = true -> w_files w' = w_files w).
Proof.
  induction files as [|f files IH]; intros w rs w' Hp.
  - injection Hp as <- <-. repeat split; reflexivity.
  - cbn [processFiles] in Hp. unfold mbind at 1, IO_bind at 1 in Hp.
    destruct (processFile f options w) as [r w1| | |] eqn:E1; try discriminate.
    unfold mbind, IO_bind in Hp.
    destruct (processFiles files options w1) as [rs1 w2| | |] eqn:E2;
      try discriminate.
    injection Hp as <- <-.
    apply processFile_frame in E1 as (Hd1 & Hf1 & Hdry1).
    apply IH in E2 as (Hd2 & Hf2 & Hdry2).
    split; [congruence|]. split.
    + intros g Hg. rewrite Hf2, Hf1; [reflexivity| |];
        intros Hc; apply Hg; [subst; left|right; assumption].
    + intros Hd. rewrite Hdry2, Hdry1 by assumption. reflexivity.
Qed.

(** X5: the file pass of a run, whatever the options, creates no file and
    deletes none, leaves every path outside the resolved list as it was,
    and in preview mode leaves the whole file system as it was; the same
    holds of a whole run that has no post-pass update to make (neither
    [updatePackage] nor [updateRemote] is set, or the run is a preview). *)
Theorem run_keeps_other_files (files : list text) (options : RenameOptions)
    (w : world) :
  (forall results w',
     processFiles files options w = Done results w' ->
     dom (w_files w') = dom (w_files w)
     /\ (forall g, g ∉ files -> w_files w' !! g = w_files w !! g)
     /\ (dry options = true -> w_files w' = w_files w))
  /\ ((updatePackage options || updateRemote options) && negb (dry options)
      = false ->
      forall w',
        runSafeRename files options w = Done tt w' ->
        dom (w_files w') = dom (w_files w)
        /\ (forall g, g ∉ files -> w_files w' !! g = w_files w !! g)
        /\ (dry options = true -> w_files w' = w_files w)).
Proof.
  split; [intros results w'; apply processFiles_frame|].
  intros Hpost w' Hrun.
  destruct (oldName options) as [|c o] eqn:Eo.
  { unfold runSafeRename in Hrun. rewrite Eo in Hrun. discriminate. }
  destruct (newName options) as [|c' n] eqn:En.
  { unfold runSafeRename in Hrun. rewrite Eo, En in Hrun. discriminate. }
  rewrite runSafeRename_pass in Hrun by (rewrite ?Eo, ?En; discriminate).
  destruct (processFiles files options (prelude files options w))
    as [rs w1| | |] eqn:Ep; try discriminate.
  apply processFiles_frame in Ep as (Hd & Hf & Hdry).
  rewrite prelude_files in Hd, Hf, Hdry.
  rewrite Hpost in Hrun.
  injection Hrun as <-. cbn [emit w_files]. auto.
Qed.

End Pass.

Section Preview.
Context `{Libs}.

Lemma run_strategy_preview (s : option strategy) (content : text)
    (options : RenameOptions) :
  run_strategy s content (preview options) = run_strategy s content options.
Proof. destruct s as [[]|]; reflexivity. Qed.

Lemma process_pure_preview (f : text) (options : RenameOptions)
    (fl : option file) (r : FileOutcome) (fl' : option file) (evs : list event) :
  dry options = false ->
  (forall x, fl = Some x -> file_writable x = true) ->
  process_pure f options fl = Some (r, fl', evs) ->
  exists evs', process_pure f (preview options) fl = Some (r, None, evs').
Proof.
  intros Hdry Hw Hp.
  assert (Hq : process_pure f (preview options) fl
               = match process_pure f options fl with
                 | Some (r0, _, evs0) =>
                     Some (r0, None,
                           match evs0 with
                           | EvWrite _ _ :: evs1 => evs1
                           | _ => evs0
                           end)
                 | None => None
                 end).
  { destruct fl as [x|]; [|reflexivity].
    unfold process_pure. rewrite run_strategy_preview, Hdry.
    cbn [dry preview negb].
    destruct (file_readable x); [|reflexivity].
    destruct (run_strategy (classify f) (file_data x) options)
      as [[newContent lines]| |]; [|reflexivity|reflexivity].
    rewrite andb_false_r, andb_true_r. rewrite (Hw x eq_refl).
    destruct (negb (text_eqb newContent (file_data x))) eqn:E.
    - reflexivity.
    - f_equal. f_equal. unfold console_events.
      destruct (rev (map EvConsole lines)) as [|[] ?] eqn:Er; try reflexivity.
      exfalso.
      assert (Hin : In (EvWrite path data) (rev (map EvConsole lines)))
        by (rewrite Er; left; reflexivity).
      rewrite <- in_rev in Hin.
      apply in_map_iff in Hin as (ln & Hl & _). discriminate. }
  rewrite Hq, Hp. eexists. reflexivity.
Qed.

Lemma processFiles_preview (files : list text) (options : RenameOptions)
    (w w0 : world) (rs : list FileOutcome) (w1 : world) :
  NoDup files -> dry options = false ->
  (forall f x, f ∈ files -> w_files w !! f = Some x -> file_writable x = true) ->
  w_files w0 = w_files w ->
  processFiles files options w = Done rs w1 ->
  exists w2, processFiles files (preview options) w0 = Done rs w2.
Proof.
  intros Hnd Hdry Hw H0 Hp.
  pose proof (processFiles_spec options files w Hnd) as Hs.
  rewrite Hp in Hs. destruct Hs as (HF & _ & _).
  assert (HF' : Forall2 (fun f r => exists fl' evs,
                  process_pure f (preview options) (w_files w0 !! f)
                  = Some (r, fl', evs)) files rs).
  { rewrite H0. clear Hp Hnd.
    induction HF as [|f r fs rs0 (fl' & evs & Hpp) HF IH]; constructor.
    - destruct (process_pure_preview f options _ r fl' evs Hdry
                  (fun x Hx => Hw f x ltac:(left) Hx) Hpp)
        as (evs' & He).
      exists None, evs'. exact He.
    - apply IH. intros g x Hg. apply Hw. right. exact Hg. }
  destruct (processFiles_done (preview options) files w0 Hnd) as (rs' & w2 & Hd & HF2 & _).
  { intros f Hf. 
    assert (Hex : exists r fl' evs,
              process_pure f (preview options) (w_files w0 !! f) = Some (r, fl', evs)).
    { clear -HF' Hf. induction HF' as [|g r fs rs0 (fl' & evs & Hpp) HF IH].
      - inversion Hf.
      - apply elem_of_cons in Hf as [->|Hf]; [eauto|apply IH; exact Hf]. }
    destruct Hex as (r & fl' & evs & ->). discriminate. }
  exists w2. rewrite Hd. f_equal.
  eapply pure_outcomes_unique; eassumption.
Qed.

(** X6: when the files of the list are writable, a preview run ends with
    the same summary line as the real run from the same state: the same
    files are counted as processed, as modified and as errors; and the
    preview leaves the file system as it was. *)
Theorem preview_prints_summary_of_run (files : list text)
    (options : RenameOptions) (w w1 : world) :
  NoDup files -> dry options = false ->
  (forall f x, f ∈ files -> w_files w !! f = Some x -> file_writable x = true) ->
  runSafeRename files options w = Done tt w1 ->
  exists (w2 : world) (results : list FileOutcome),
    runSafeRename files (preview options) w = Done tt w2
    /\ hd_error (w_trace w1) = Some (EvConsole (summary_line (summarize results)))
    /\ hd_error (w_trace w2) = Some (EvConsole (summary_line (summarize results)))
    /\ w_files w2 = w_files w.
Proof.
  intros Hnd Hdry Hw Hrun.
  destruct (oldName options) as [|c o] eqn:Eo.
  { unfold runSafeRename in Hrun. rewrite Eo in Hrun. discriminate. }
  destruct (newName options) as [|c' n] eqn:En.
  { unfold runSafeRename in Hrun. rewrite Eo, En in Hrun. discriminate. }
  rewrite runSafeRename_pass in Hrun by (rewrite ?Eo, ?En; discriminate).
  destruct (processFiles files options (prelude files options w))
    as [rs wa| | |] eqn:Ep; try discriminate.
  destruct ((updatePackage options || updateRemote options) && negb (dry options));
    [discriminate|].
  injection Hrun as <-.
  destruct (processFiles_preview files options (prelude files options w)
              (prelude files (preview options) w) rs wa Hnd Hdry)
    as (wb & Hb); [|rewrite !prelude_files; reflexivity|exact Ep|].
  { intros f x Hf. rewrite prelude_files. apply Hw. exact Hf. }
  exists (emit (EvConsole (summary_line (summarize rs))) wb), rs.
  split; [|split; [reflexivity|split; [reflexivity|]]].
  - rewrite runSafeRename_pass by (cbn [preview oldName newName]; rewrite ?Eo, ?En; discriminate).
    rewrite Hb. cbn [preview dry negb]. rewrite andb_false_r. reflexivity.
  - cbn [emit w_files].
    apply processFiles_frame in Hb as (_ & _ & Hsame).
    rewrite Hsame by reflexivity. apply prelude_files.
Qed.

End Preview.

(** ** Every exception of a strategy carries a message *)

Lemma loud_ok {A} (a : A) : loud (Ok a).
Proof. intros e He. discriminate. Qed.

Lemma loud_beyond {A} : loud (@Beyond A).
Proof. intros e He. discriminate. Qed.

Lemma loud_regexp {A} (msg : string) : loud (@Throw A (RegExpError msg)).
Proof. intros e [= <-]. discriminate. Qed.

Lemma loud_throw {A B} (e : exn) : loud (@Throw A e) -> loud (@Throw B e).
Proof. intros H e' [= <-]. exact (H e eq_refl). Qed.

Lemma loud_bind {A B} (m : res A) (k : A -> res B) :
  loud m -> (forall a, loud (k a)) -> loud (m ≫= k).
Proof.
  intros Hm Hk e He. destruct m as [a| e0 |]; cbn [mbind res_bind] in He.
  - exact (Hk a e He).
  - injection He as <-. apply Hm. reflexivity.
  - discriminate.
Qed.

Ltac loud_cases :=
  repeat match goal with
         | |- loud (Ok _) => apply loud_ok
         | |- loud Beyond => apply loud_beyond
         | |- loud (Throw (RegExpError _)) => apply loud_regexp
         | |- loud (if ?b then _ else _) => destruct b
         | |- loud (match ?x with _ => _ end) => destruct x
         end.

Lemma p_step_loud (st : pstate) (c : ascii) : loud (p_step st c).
Proof. unfold p_step, quantify, make_lazy. loud_cases. Qed.

Lemma p_run_loud (src : text) : forall st, loud (p_run st src).
Proof.
  induction src as [|c src IH]; intros st; [apply loud_ok|].
  cbn [p_run]. pose proof (p_step_loud st c) as Hs.
  destruct (p_step st c) as [st'| e |].
  - apply IH.
  - exact Hs.
  - apply loud_beyond.
Qed.

Lemma p_finish_loud (st : pstate) : loud (p_finish st).
Proof. unfold p_finish. loud_cases. Qed.

Lemma RegExp_new_loud (source flags : text) : loud (RegExp_new source flags).
Proof.
  unfold RegExp_new. destruct (negb (forallb flag_ok flags)); [apply loud_beyond|].
  pose proof (p_run_loud source p_init) as Hr.
  destruct (p_run p_init source) as [st| e |];
    [|exact (loud_throw e Hr)|apply loud_beyond].
  pose proof (p_finish_loud st) as Hf.
  destruct (p_finish st) as [[r n]| e |];
    [apply loud_ok|exact (loud_throw e Hf)|apply loud_beyond].
Qed.

Lemma replace_from_loud (re : RegExp) (r : replacer) :
  (forall m pre post caps, loud (apply_replacer r m pre post caps)) ->
  forall fuel before after, loud (replace_from fuel re r before after).
Proof.
  intros Hr. induction fuel as [|fuel IH]; intros before after; [apply loud_ok|].
  cbn [replace_from]. destruct (exec_at re before after) as [st'|].
  - apply loud_bind; [apply Hr|]. intros out.
    destruct (negb (re_global re)); [apply loud_ok|].
    destruct (rev _) as [|? ?].
    + destruct after; [apply loud_ok|].
      apply loud_bind; [apply IH|]. intros; apply loud_ok.
    + apply loud_bind; [apply IH|]. intros; apply loud_ok.
  - destruct after; [apply loud_ok|].
    apply loud_bind; [apply IH|]. intros; apply loud_ok.
Qed.

Lemma String_replace_loud (s : text) (re : RegExp) (r : replacer) :
  (forall m pre post caps, loud (apply_replacer r m pre post caps)) ->
  loud (String_replace s re r).
Proof. intros Hr. apply replace_from_loud. exact Hr. Qed.

Lemma replace_step_loud (source flags : text) (r : replacer) (s : text) :
  (forall m pre post caps, loud (apply_replacer r m pre post caps)) ->
  loud (replace_step source flags r s).
Proof.
  intros Hr. unfold replace_step. apply loud_bind; [apply RegExp_new_loud|].
  intros re. apply String_replace_loud. exact Hr.
Qed.

Lemma pattern_loud (tpl m pre post : text) (caps : list (option text)) :
  loud (apply_replacer (ByPattern tpl) m pre post caps).
Proof. apply loud_ok. Qed.

Lemma for_entries_loud (body : text * text -> text -> res text)
    (entries : list (text * text)) :
  (forall e s, loud (body e s)) -> forall s, loud (for_entries body entries s).
Proof.
  intros Hb. induction entries as [|e l IH]; intros s; [apply loud_ok|].
  cbn [for_entries]. apply loud_bind; [apply Hb|]. exact IH.
Qed.

Ltac loud_step :=
  first
    [ apply loud_ok
    | apply loud_beyond
    | apply replace_step_loud; intros; apply pattern_loud
    | apply RegExp_new_loud
    | apply loud_bind; [|intros ?] ].

Lemma ts_pair_loud (flags : text) (e : text * text) (s : text) :
  loud (ts_pair flags e s).
Proof. destruct e as [old new]. unfold ts_pair. repeat loud_step. Qed.

Lemma env_pair_loud (flags : text) (e : text * text) (s : text) :
  loud (env_pair flags e s).
Proof. destruct e as [old new]. unfold env_pair. repeat loud_step. Qed.

Lemma docker_pair_loud (flags : text) (e : text * text) (s : text) :
  loud (docker_pair flags e s).
Proof.
  destruct e as [old new]. unfold docker_pair.
  apply loud_bind; [apply RegExp_new_loud|]. intros re.
  apply loud_bind.
  - apply String_replace_loud. intros m pre post caps. cbn [apply_replacer].
    loud_cases. repeat loud_step.
  - intros s'. repeat loud_step.
Qed.

Lemma markdown_pair_loud (flags : text) (e : text * text) (s : text) :
  loud (markdown_pair flags e s).
Proof.
  destruct e as [old new]. unfold markdown_pair.
  apply loud_bind; [apply RegExp_new_loud|]. intros re.
  apply loud_bind.
  { apply String_replace_loud. intros m pre post caps. cbn [apply_replacer].
    repeat loud_step. }
  intros s1. apply loud_bind; [apply RegExp_new_loud|]. intros re'.
  apply loud_bind.
  { apply String_replace_loud. intros m pre post caps. cbn [apply_replacer].
    loud_cases. repeat loud_step. }
  intros s2. repeat loud_step.
Qed.

Section Counts.
Context `{Libs}.

Lemma run_strategy_loud (s : option strategy) (content : text)
    (options : RenameOptions) :
  loud (run_strategy s content options).
Proof.
  destruct s as [[]|]; cbn [run_strategy].
  - apply loud_bind; [|intros; apply loud_ok].
    apply for_entries_loud. intros; apply ts_pair_loud.
  - unfold processJsonFile. loud_cases.
  - unfold processYamlFile. loud_cases.
  - apply loud_bind; [|intros; apply loud_ok].
    apply for_entries_loud. intros; apply env_pair_loud.
  - apply loud_bind; [|intros; apply loud_ok].
    apply for_entries_loud. intros; apply docker_pair_loud.
  - apply loud_bind; [|intros; apply loud_ok].
    apply for_entries_loud. intros; apply markdown_pair_loud.
  - apply loud_ok.
Qed.

Lemma caught_settled (e : exn) : exn_message e <> [] -> settled (caught e).
Proof.
  intros He. right. cbn [caught processed modified error truthy].
  destruct (exn_message e); [congruence|]. auto.
Qed.

Lemma fs_error_message (code : string) (path : text) :
  code <> ""%string -> exn_message (fs_error code path) <> [].
Proof. destruct code; [congruence|]. discriminate. Qed.

Lemma process_pure_settled (f : text) (options : RenameOptions)
    (fl : option file) (r : FileOutcome) (fl' : option file) (evs : list event) :
  process_pure f options fl = Some (r, fl', evs) -> settled r.
Proof.
  unfold process_pure. destruct fl as [x|].
  2:{ intros [= <- <- <-]. apply caught_settled, fs_error_message. discriminate. }
  destruct (file_readable x).
  2:{ intros [= <- <- <-]. apply caught_settled, fs_error_message. discriminate. }
  pose proof (run_strategy_loud (classify f) (file_data x) options) as Hl.
  destruct (run_strategy (classify f) (file_data x) options)
    as [[newContent lines]| e |]; [| |discriminate].
  - destruct (negb (text_eqb newContent (file_data x)) && negb (dry options)).
    + destruct (file_writable x); intros [= <- <- <-].
      * left. split; reflexivity.
      * apply caught_settled, fs_error_message. discriminate.
    + intros [= <- <- <-]. left. split; reflexivity.
  - intros [= <- <- <-]. apply caught_settled. apply Hl. reflexivity.
Qed.

Lemma processFiles_settled (options : RenameOptions) (files : list text) :
  forall w rs w',
    processFiles files options w = Done rs w' ->
    length rs = length files /\ Forall settled rs.
Proof.
  induction files as [|f files IH]; intros w rs w' Hp.
  - injection Hp as <- <-. split; [reflexivity|constructor].
  - cbn [processFiles] in Hp. unfold mbind at 1, IO_bind at 1 in Hp.
    destruct (processFile f options w) as [r w1| | |] eqn:E1; try discriminate.
    unfold mbind, IO_bind in Hp.
    destruct (processFiles files options w1) as [rs1 w2| | |] eqn:E2;
      try discriminate.
    injection Hp as <- <-.
    apply IH in E2 as [Hlen HF]. split; [simpl; congruence|].
    constructor; [|exact HF].
    rewrite processFile_pure in E1.
    destruct (process_pure f options (w_files w !! f)) as [[[r0 fl'] evs]|] eqn:Ep;
      [|discriminate].
    injection E1 as <- _. eapply process_pure_settled. exact Ep.
Qed.

Lemma summarize_settled (rs : list FileOutcome) :
  Forall settled rs ->
  forall acc,
    let s := fold_left
      (fun acc result =>
         {| processedCount :=
              processedCount acc + (if processed result then 1 else 0);
            modifiedCount :=
              modifiedCount acc + (if modified result then 1 else 0);
            errorCount :=
              errorCount acc + (if truthy (error result) then 1 else 0) |})
      rs acc in
    processedCount s + errorCount s
    = processedCount acc + errorCount acc + length rs
    /\ (modifiedCount acc <= processedCount acc ->
        modifiedCount s <= processedCount s).
Proof.
  induction 1 as [|r rs Hr _ IH]; intros acc; cbn zeta.
  - simpl. split; [lia|auto].
  - cbn [fold_left]. specialize (IH
      {| processedCount := processedCount acc + (if processed r then 1 else 0);
         modifiedCount := modifiedCount acc + (if modified r then 1 else 0);
         errorCount := errorCount acc + (if truthy (error r) then 1 else 0) |}).
    cbn zeta in IH. destruct IH as [IH1 IH2].
    cbn [processedCount modifiedCount errorCount] in IH1, IH2.
    destruct Hr as [[Hp He]|[Hp [Hm He]]].
    + rewrite Hp, He in *. cbn [truthy] in *. split.
      * rewrite IH1. simpl. lia.
      * intros Hacc. apply IH2. destruct (modified r); lia.
    + rewrite Hp, Hm, He in *. split.
      * rewrite IH1. simpl. lia.
      * intros Hacc. apply IH2. lia.
Qed.

(** X7: the summary line that ends a completed run counts every file of
    the list exactly once, as processed or as an error, and counts no more
    files as modified than as processed. *)
Theorem summary_counts_every_file (files : list text) (options : RenameOptions)
    (w w' : world) :
  runSafeRename files options w = Done tt w' ->
  exists p m e,
    hd_error (w_trace w') = Some (EvConsole (LogSummary p m e))
    /\ p + e = length files /\ m <= p.
Proof.
  intros Hrun.
  destruct (oldName options) as [|c o] eqn:Eo.
  { unfold runSafeRename in Hrun. rewrite Eo in Hrun. discriminate. }
  destruct (newName options) as [|c' n] eqn:En.
  { unfold runSafeRename in Hrun. rewrite Eo, En in Hrun. discriminate. }
  rewrite runSafeRename_pass in Hrun by (rewrite ?Eo, ?En; discriminate).
  destruct (processFiles files options (prelude files options w))
    as [rs w1| | |] eqn:Ep; try discriminate.
  destruct ((updatePackage options || updateRemote options) && negb (dry options));
    [discriminate|].
  injection Hrun as <-.
  apply processFiles_settled in Ep as [Hlen HF].
  destruct (summarize_settled rs HF
              {| processedCount := 0; modifiedCount := 0; errorCount := 0 |})
    as [H1 H2].
  cbn zeta in H1, H2. fold (summarize rs) in H1, H2.
  cbn [processedCount modifiedCount errorCount] in H1, H2.
  exists (processedCount (summarize rs)), (modifiedCount (summarize rs)),
    (errorCount (summarize rs)).
  split; [reflexivity|]. split; [lia|apply H2; lia].
Qed.

End Counts.

(** ** Strategies on plain tokens as scans of the text *)

(** A pattern that matches as the token [old] does is replaced as the
    token is. *)
Lemma replace_from_as_token (re : RegExp) (ic : bool) (old tpl : text) :
  old <> [] -> no_dollar tpl = true -> re_global re = true ->
  (forall before after,
      match exec_at re before after with
      | Some st' =>
          matches_at ic old after = true
          /\ m_before st' = rev (firstn (length old) after) ++ before
          /\ m_after st' = skipn (length old) after
      | None => matches_at ic old after = false
      end) ->
  forall fuel before after,
    length after < fuel ->
    replace_from fuel re (ByPattern tpl) before after
    = Ok (substitute ic old tpl 0 after).
Proof.
  intros Hold Htpl Hg Hexec.
  induction fuel as [|fuel IH]; intros before after Hlen; [lia|].
  cbn [replace_from]. specialize (Hexec before after).
  destruct (exec_at re before after) as [st'|].
  - destruct Hexec as (Hm & Hb & Ha). rewrite Hb, Ha, Hg. cbn [negb].
    unfold apply_replacer. rewrite GetSubstitution_plain by assumption.
    pose proof (matches_at_length _ _ _ Hm) as Hle.
    destruct old as [|c old']; [congruence|].
    destruct after as [|x xs]; [exfalso; simpl in Hle; lia|].
    simpl in Hle.
    rewrite length_app, length_rev, length_firstn.
    replace (length (c :: old') `min` length (x :: xs) + length before - length before)
      with (length (c :: old')) by (simpl; lia).
    rewrite firstn_app, length_rev, length_firstn.
    replace (length (c :: old') - length (c :: old') `min` length (x :: xs)) with 0 by (simpl; lia).
    rewrite firstn_O, app_nil_r.
    rewrite firstn_all2 by (rewrite length_rev, length_firstn; simpl; lia).
    rewrite rev_involutive.
    simpl firstn at 1. cbv iota. simpl mbind. unfold res_bind.
    simpl in Hlen.
    rewrite IH by (simpl; rewrite length_skipn; lia).
    rewrite substitute_cons, Hm.
    simpl mbind. f_equal. f_equal.
    rewrite (substitute_skip ic (c :: old') tpl (length (c :: old') - 1) xs)
      by (simpl; lia).
    simpl. rewrite Nat.sub_0_r. reflexivity.
  - destruct after as [|x xs]; [reflexivity|].
    simpl mbind. unfold res_bind. rewrite IH by (simpl in Hlen; lia).
    rewrite substitute_cons, Hexec. reflexivity.
Qed.

Lemma exec_group_lit (ic g : bool) (p : text) (before after : text) :
  match exec_at {| re_tree := RSeq (RGroup 1 (lit p)) REmpty; re_groups := 1;
                   re_global := g; re_ignoreCase := ic |} before after with
  | Some st' =>
      matches_at ic p after = true
      /\ m_before st' = rev (firstn (length p) after) ++ before
      /\ m_after st' = skipn (length p) after
  | None => matches_at ic p after = false
  end.
Proof.
  unfold exec_at. cbn [re_tree re_ignoreCase rmatch]. rewrite rmatch_lit.
  cbn [m_after m_before].
  destruct (matches_at ic p after); [|reflexivity].
  cbn [set_cap m_before m_after]. auto.
Qed.

Lemma group_lit_parsed (p : text) (options : RenameOptions) :
  plain p = true -> p <> [] ->
  RegExp_new (str "(" ++ p ++ str ")") (flags_of options)
  = Ok {| re_tree := RSeq (RGroup 1 (lit p)) REmpty; re_groups := 1;
          re_global := true; re_ignoreCase := negb (caseSensitive options) |}.
Proof.
  intros Hp Ho. unfold flags_of.
  destruct (caseSensitive options); parse_pattern Hp Ho; reflexivity.
Qed.

(** The rule [s.replace(new RegExp("(" + p + ")", flags), tpl)]. *)
Lemma group_rule_plain (options : RenameOptions) (p tpl s : text) :
  plain p = true -> p <> [] -> no_dollar tpl = true ->
  replace_step (str "(" ++ p ++ str ")") (flags_of options) (ByPattern tpl) s
  = Ok (replace_all (negb (caseSensitive options)) p tpl s).
Proof.
  intros Hp Ho Ht. unfold replace_step. rewrite group_lit_parsed by assumption.
  cbn [mbind res_bind]. unfold String_replace, replace_all.
  apply replace_from_as_token; try assumption; try reflexivity; [|lia].
  intros before after. apply exec_group_lit.
Qed.

Lemma substitute_chars (ok : ascii -> bool) (ic : bool) (old new : text) :
  forallb ok new = true ->
  forall s k, forallb ok s = true ->
              forallb ok (substitute ic old new k s) = true.
Proof.
  intros Hn. induction s as [|x s IH]; intros k Hs; [reflexivity|].
  simpl in Hs. apply andb_true_iff in Hs as [Hx Hs].
  destruct k as [|k]; [|cbn [substitute]; apply IH; assumption].
  rewrite substitute_cons. destruct (matches_at ic old (x :: s)).
  - rewrite forallb_app, Hn, IH by assumption. reflexivity.
  - cbn [forallb]. rewrite Hx, IH by assumption. reflexivity.
Qed.

Lemma word_substitute_chars (ok : ascii -> bool) (ic : bool) (old new : text) :
  forallb ok new = true ->
  forall s k prev, forallb ok s = true ->
                   forallb ok (word_substitute ic old new k prev s) = true.
Proof.
  intros Hn. induction s as [|x s IH]; intros k prev Hs; [reflexivity|].
  simpl in Hs. apply andb_true_iff in Hs as [Hx Hs].
  destruct k as [|k]; [|cbn [word_substitute]; apply IH; assumption].
  rewrite word_substitute_cons. destruct (whole_word_at ic old prev (x :: s)).
  - rewrite forallb_app, Hn, IH by assumption. reflexivity.
  - cbn [forallb]. rewrite Hx, IH by assumption. reflexivity.
Qed.

Lemma upper_no_dollar (new : text) :
  no_dollar new = true -> no_dollar (toUpperCase new) = true.
Proof.
  unfold no_dollar, toUpperCase. induction new as [|c new IH]; [reflexivity|].
  simpl. intros H. apply andb_true_iff in H as [Hc Hn].
  rewrite IH by assumption. rewrite andb_true_r.
  revert Hc. destruct c as [[] [] [] [] [] [] [] []]; vm_compute; congruence.
Qed.

Lemma lacks_char (ok : ascii -> bool) (s : text) :
  forallb (fun c => negb (ok c)) s = true -> ~ has_char ok s.
Proof.
  unfold has_char. induction s as [|x s IH]; [discriminate|].
  simpl. intros H. apply andb_true_iff in H as [Hx Hs].
  apply negb_true_iff in Hx. rewrite Hx. simpl. apply IH. exact Hs.
Qed.

Section Scans.
Variables (options : RenameOptions) (old new : text).
Hypothesis Hplain : plain old = true.
Hypothesis Hold : old <> [].
Hypothesis Hnew : no_dollar new = true.

Lemma env_pair_scan (content : text) :
  env_pair (flags_of options) (old, new) content
  = Ok (env_scan (negb (caseSensitive options)) (old, new) content).
Proof.
  unfold env_pair, env_scan. cbn [fst snd].
  rewrite group_rule_plain
    by (apply plain_upper || apply upper_nonempty || apply upper_no_dollar;
        assumption).
  cbn [mbind res_bind].
  apply (replace_step_plain options ("=" :: old) ("=" :: new));
    [simpl; rewrite Hplain; reflexivity | discriminate
    | simpl; rewrite Hnew; reflexivity].
Qed.

Lemma scoped_rule_scan (content : text) :
  replace_step (scoped_source old) (flags_of options)
    (ByPattern (str "@" ++ new)) content
  = Ok (replace_all (negb (caseSensitive options)) ("@" :: old) ("@" :: new)
          content).
Proof.
  apply (group_rule_plain options ("@" :: old) ("@" :: new));
    [simpl; rewrite Hplain; reflexivity | discriminate
    | simpl; rewrite Hnew; reflexivity].
Qed.

Lemma ts_pair_scan (content : text) :
  forallb code_char content = true ->
  ts_pair (flags_of options) (old, new) content
  = Ok (code_scan (negb (caseSensitive options)) (old, new) content).
Proof.
  intros Hc. apply lacks_char in Hc.
  unfold ts_pair, code_scan. cbn [fst snd].
  rewrite (replace_step_idle (has_char is_quote)); cbn [mbind res_bind];
    [|apply upward_has_char|apply import_needs; assumption|assumption].
  rewrite (replace_step_idle (has_char is_quote)); cbn [mbind res_bind];
    [|apply upward_has_char|apply export_needs; assumption|assumption].
  rewrite (replace_step_idle (has_char is_quote)); cbn [mbind res_bind];
    [|apply upward_has_char|apply require_needs; assumption|assumption].
  rewrite scoped_rule_scan. cbn [mbind res_bind].
  apply (word_rule_scan options old new); assumption.
Qed.

Lemma markdown_pair_scan (content : text) :
  forallb prose_char content = true ->
  markdown_pair (flags_of options) (old, new) content
  = Ok (markdown_scan (negb (caseSensitive options)) (old, new) content).
Proof.
  intros Hc.
  assert (Hb : no_backslash content = true).
  { unfold no_backslash. clear -Hc. induction content as [|x s IH]; [reflexivity|].
    simpl in *. apply andb_true_iff in Hc as [Hx Hs].
    apply andb_true_iff in Hx as [Hx _]. rewrite Hx, IH by assumption.
    reflexivity. }
  assert (Hbr : ~ has_char is_bracket content).
  { apply lacks_char. clear -Hc. induction content as [|x s IH]; [reflexivity|].
    simpl in *. apply andb_true_iff in Hc as [Hx Hs].
    apply andb_true_iff in Hx as [_ Hx]. rewrite Hx, IH by assumption.
    reflexivity. }
  unfold markdown_pair, markdown_scan. cbn [fst snd].
  destruct (code_span_rule_idle options
              (ByFunction (fun matched _ =>
                 replace_step old (flags_of options) (ByPattern new) matched))
              content Hb) as (re & Hre0 & Hsame).
  rewrite Hre0. cbn [mbind res_bind]. rewrite Hsame. cbn [mbind res_bind].
  destruct (link_needs old options Hplain Hold) as (_ & (re' & Hre & Hreq)).
  rewrite Hre. cbn [mbind res_bind].
  rewrite (String_replace_idle (has_char is_bracket));
    [|apply upward_has_char|assumption|assumption].
  cbn [mbind res_bind].
  apply (word_rule_scan options old new); assumption.
Qed.

End Scans.

Lemma for_entries_scan (body : text * text -> text -> res text)
    (scan : text * text -> text -> text) (I : text -> Prop)
    (entries : list (text * text)) :
  (forall e s, In e entries -> I s -> body e s = Ok (scan e s) /\ I (scan e s)) ->
  forall s, I s ->
    for_entries body entries s
    = Ok (fold_left (fun acc e => scan e acc) entries s).
Proof.
  induction entries as [|e l IH]; intros Hb s Hs; [reflexivity|].
  cbn [for_entries fold_left].
  destruct (Hb e s (or_introl eq_refl) Hs) as [-> Hs'].
  cbn [mbind res_bind]. apply IH; [|exact Hs'].
  intros e' s' He'. apply Hb. right. exact He'.
Qed.

Lemma tame_entry (options : RenameOptions) (e : text * text) :
  tame options = true -> In e (renameMap_of options) ->
  plain (fst e) = true /\ fst e <> [] /\ no_dollar (snd e) = true.
Proof.
  unfold tame. intros Ht He. rewrite forallb_forall in Ht.
  specialize (Ht e He).
  apply andb_true_iff in Ht as [Ht H3]. apply andb_true_iff in Ht as [H1 H2].
  apply negb_true_iff in H2. apply text_eqb_false in H2. auto.
Qed.

(** X8: with tokens of 7-bit characters, plain old tokens and new tokens
    without [$], the Env strategy is, for each pair of the rename map in
    turn, two replacements of all occurrences: the upper-case old token by
    the upper-case new token wherever it stands in the file, then [=old] by
    [=new]; letter case is ignored unless the run is case sensitive. *)
Theorem env_strategy_is_two_scans (content : text) (options : RenameOptions) :
  ascii_tokens options = true ->
  tame options = true ->
  processEnvFile content options
  = Ok (fold_left
          (fun acc e => env_scan (negb (caseSensitive options)) e acc)
          (renameMap_of options) content).
Proof.
  intros _ Ht. unfold processEnvFile, Object_entries.
  apply (for_entries_scan _ _ (fun _ => True)); [|exact I].
  intros [old new] s He _. split; [|exact I].
  destruct (tame_entry options (old, new) Ht He) as (H1 & H2 & H3).
  apply env_pair_scan; assumption.
Qed.

(** X9: on a text without quote characters, with tokens of 7-bit
    characters, plain old tokens and new tokens without [$] and without
    quotes, the Code strategy is, for each pair of the rename map in turn,
    the replacement of all [@old] by [@new] followed by the replacement of
    the whole words [old] by [new]: the three rules for import, export and
    require paths find nothing. *)
Theorem code_strategy_without_quotes (content : text) (options : RenameOptions) :
  ascii_tokens options = true ->
  tame options = true ->
  made_of code_char content options = true ->
  processTypeScriptFile content options
  = Ok (fold_left
          (fun acc e => code_scan (negb (caseSensitive options)) e acc)
          (renameMap_of options) content).
Proof.
  intros _ Ht Hm. unfold made_of in Hm. apply andb_true_iff in Hm as [Hc Hn].
  rewrite forallb_forall in Hn.
  unfold processTypeScriptFile, Object_entries.
  apply (for_entries_scan _ _ (fun s => forallb code_char s = true)); [|exact Hc].
  intros [old new] s He Hs.
  destruct (tame_entry options (old, new) Ht He) as (H1 & H2 & H3).
  specialize (Hn (old, new) He). cbn [snd fst] in *.
  split; [apply ts_pair_scan; assumption|].
  unfold code_scan, replace_words, replace_all. cbn [fst snd].
  apply word_substitute_chars; [assumption|].
  apply substitute_chars; [|assumption].
  cbn [forallb]. rewrite Hn. reflexivity.
Qed.

(** X10: on a text without backslash and without opening bracket, with
    tokens of 7-bit characters, plain old tokens and new tokens without
    [$], backslash and bracket, the Markdown strategy is, for each pair of
    the rename map in turn, the replacement of the whole words [old] by
    [new]: the rules for code spans and for links find nothing. *)
Theorem markdown_strategy_on_prose (content : text) (options : RenameOptions) :
  ascii_tokens options = true ->
  tame options = true ->
  made_of prose_char content options = true ->
  processMarkdownFile content options
  = Ok (fold_left
          (fun acc e => markdown_scan (negb (caseSensitive options)) e acc)
          (renameMap_of options) content).
Proof.
  intros _ Ht Hm. unfold made_of in Hm. apply andb_true_iff in Hm as [Hc Hn].
  rewrite forallb_forall in Hn.
  unfold processMarkdownFile, Object_entries.
  apply (for_entries_scan _ _ (fun s => forallb prose_char s = true)); [|exact Hc].
  intros [old new] s He Hs.
  destruct (tame_entry options (old, new) Ht He) as (H1 & H2 & H3).
  specialize (Hn (old, new) He). cbn [snd fst] in *.
  split; [apply markdown_pair_scan; assumption|].
  unfold markdown_scan, replace_words. cbn [fst snd].
  apply word_substitute_chars; assumption.
Qed.

(** ** The structural rewrite at every depth *)

Lemma rename_text_tame (options : RenameOptions) (s : text) :
  tame options = true ->
  rename_text (renameMap_of options) (flags_of options) s
  = Ok (rename_all options s).
Proof.
  intros Ht. unfold rename_text, rename_all, Object_entries.
  apply (for_entries_scan _
           (fun e acc => replace_all (negb (caseSensitive options))
                           (fst e) (snd e) acc)
           (fun _ => True)); [|exact I].
  intros [old new] s' He _. split; [|exact I].
  destruct (tame_entry options (old, new) Ht He) as (H1 & H2 & H3).
  cbn [rename_entry fst snd] in *. apply replace_step_plain; assumption.
Qed.

Lemma descends_ext (r1 r2 : text -> res text) (v : value) (p p' : list step)
    (leaf : value) :
  (forall k, r1 k = r2 k) -> descends r1 v p p' leaf -> descends r2 v p p' leaf.
Proof.
  intros Hr. induction 1 as [v | items i x p p' leaf Hn Hd IH
                            | pre post k k' val p p' leaf Hk Hno Hd IH].
  - apply descends_here.
  - eapply descends_index; eassumption.
  - apply descends_key; [rewrite <- Hr; exact Hk | | exact IH].
    intros k2 v2 Hin. rewrite <- Hr. apply (Hno k2 v2 Hin).
Qed.

Lemma descends_renamed (options : RenameOptions) (v : value)
    (p p' : list step) (leaf : value) :
  descends (fun k => Ok (rename_all options k)) v p p' leaf ->
  p' = map (renamed_step options) p.
Proof.
  induction 1 as [v | items i x p p' leaf Hn Hd IH
                 | pre post k k' val p p' leaf Hk Hno Hd IH].
  - reflexivity.
  - cbn [map renamed_step]. rewrite IH. reflexivity.
  - cbn [map renamed_step]. injection Hk as <-. rewrite IH. reflexivity.
Qed.

(** With plain old tokens and new tokens without [$], the structural
    rewrite returns a value for every value in which no key is renamed to
    [__proto__]. *)
Lemma processValue_returns (options : RenameOptions) (v : value) :
  tame options = true -> proto_free options v = true ->
  exists v', processValue (renameMap_of options) (flags_of options) v = Ok v'.
Proof.
  intros Ht.
  induction v as [| b | repr | s | items IH | props IH] using value_induction;
    intros Hp; try (eexists; reflexivity).
  - cbn [processValue]. rewrite rename_text_tame by assumption.
    eexists. reflexivity.
  - cbn [processValue proto_free] in *.
    assert (Hitems : exists items',
              map_items (processValue (renameMap_of options) (flags_of options))
                items = Ok items').
    { induction IH as [|x items Hx _ IHitems]; [eexists; reflexivity|].
      cbn [forallb] in Hp. apply andb_true_iff in Hp as [Hpx Hpi].
      destruct (Hx Hpx) as (x' & Ex). destruct (IHitems Hpi) as (items' & Ei).
      cbn [map_items]. rewrite Ex. cbn [mbind res_bind]. rewrite Ei.
      eexists. reflexivity. }
    destruct Hitems as (items' & ->). eexists. reflexivity.
  - cbn [processValue proto_free] in *. unfold Object_entries.
    assert (Hprops : forall result, exists result',
              each_entry (rename_text (renameMap_of options) (flags_of options))
                (processValue (renameMap_of options) (flags_of options))
                props result = Ok result').
    { induction IH as [|kv props Hkv _ IHprops]; intros result;
        [eexists; reflexivity|].
      cbn [forallb] in Hp. apply andb_true_iff in Hp as [Hpk Hpp].
      apply andb_true_iff in Hpk as [Hk Hv].
      destruct (Hkv Hv) as (val & Ev).
      rewrite each_entry_cons, rename_text_tame by assumption.
      cbn [mbind res_bind]. rewrite Ev. cbn [mbind res_bind].
      unfold obj_set. apply negb_true_iff in Hk. rewrite Hk.
      cbn [mbind res_bind]. apply IHprops. exact Hpp. }
    destruct (Hprops []) as (result' & ->). eexists. reflexivity.
Qed.

Section Structural.
Context `{Libs}.

(** C6, amended: with plain old tokens, new tokens without [$] and tokens
    of 7-bit characters, for a parsed JSON (respectively YAML) value in
    which no key is renamed to [__proto__], and a path of any depth from it
    to a leaf, where at each object on the path no later entry is renamed
    to the same key: the rewrite returns a value, which holds the rewritten
    leaf at the path whose keys are renamed, every old token replaced by
    its new token, pair after pair, and whose array indices are kept; a
    string leaf is replaced in the same way; an array leaf is mapped
    element by element; and the output text is [JSON.stringify] of the
    rewritten value with an indentation of two (respectively its YAML
    print). *)
Theorem renamed_at_every_depth (options : RenameOptions) (content : text)
    (v : value) (p p' : list step) (leaf : value) :
  tame options = true ->
  ascii_tokens options = true ->
  proto_free options v = true ->
  descends (fun k => Ok (rename_all options k)) v p p' leaf ->
  exists v',
    processValue (renameMap_of options) (flags_of options) v = Ok v'
    /\ p' = map (renamed_step options) p
    /\ depth p' = depth p
    /\ (exists leaf',
          processValue (renameMap_of options) (flags_of options) leaf = Ok leaf'
          /\ lookup_path v' p' = Some leaf')
    /\ (forall s, leaf = VString s ->
        lookup_path v' p' = Some (VString (rename_all options s)))
    /\ (forall items, leaf = VArray items ->
        exists items',
          lookup_path v' p' = Some (VArray items')
          /\ Forall2 (fun x x' =>
                       processValue (renameMap_of options) (flags_of options) x
                       = Ok x') items items')
    /\ (JSON_parse content = Ok v ->
        processJsonFile content options = Ok (JSON_stringify2 v', []))
    /\ (YAML_parse content = Ok v ->
        forall out, YAML_stringify v' = Ok out ->
        processYamlFile content options = Ok (out, [])).
Proof.
  intros Ht _ Hproto Hd.
  destruct (processValue_returns options v Ht Hproto) as (v' & Hv).
  exists v'. split; [exact Hv|].
  pose proof (descends_renamed options v p p' leaf Hd) as Hp'.
  assert (Hd' : descends (rename_text (renameMap_of options) (flags_of options))
                  v p p' leaf).
  { eapply descends_ext; [|exact Hd]. intros k. symmetry.
    apply rename_text_tame. exact Ht. }
  destruct (renamed_at_depth _ _ v p p' leaf Hd' v' Hv) as (leaf' & Hl & Hp).
  split; [exact Hp'|]. split; [eapply descends_depth; eassumption|].
  split; [exists leaf'; auto|]. split; [|split; [|split]].
  - intros s ->.
    apply processValue_string in Hl as (s' & Hs & ->).
    rewrite rename_text_tame in Hs by assumption.
    injection Hs as <-. assumption.
  - intros items ->.
    apply processValue_array in Hl as (items' & -> & Hm).
    exists items'. split; [assumption|]. apply map_items_Forall2. assumption.
  - intros Hparse. unfold processJsonFile. rewrite Hparse. simpl.
    rewrite Hv. reflexivity.
  - intros Hparse out Hout. unfold processYamlFile. rewrite Hparse. simpl.
    rewrite Hv. simpl. rewrite Hout. reflexivity.
Qed.

End Structural.

(** ** The second run *)

Section Rest.
Context `{Libs}.

Lemma rename_text_idle (options : RenameOptions) (s : text) :
  absent s options = true ->
  rename_text (renameMap_of options) (flags_of options) s = Ok s.
Proof.
  intros Ha. unfold rename_text. apply for_entries_idle; [|exact Ha].
  intros old new Hp Ho Hn. cbn [rename_entry].
  apply (replace_step_idle (mentions old)); [apply upward_mentions| |exact Hn].
  apply plain_needs; assumption.
Qed.

Lemma each_entry_same (r1 r2 : text -> res text) (f1 f2 : value -> res value)
    (props : jsobj value) :
  Forall (fun kv => r1 (fst kv) = r2 (fst kv) /\ f1 (snd kv) = f2 (snd kv))
    props ->
  forall result, each_entry r1 f1 props result = each_entry r2 f2 props result.
Proof.
  induction 1 as [|kv props [Hk Hv] _ IH]; intros result; [reflexivity|].
  rewrite !each_entry_cons. rewrite Hk, Hv.
  destruct (r2 (fst kv)) as [k| |]; cbn [mbind res_bind]; try reflexivity.
  destruct (f2 (snd kv)) as [v| |]; cbn [mbind res_bind]; try reflexivity.
  destruct (obj_set result k v) as [result'| |]; cbn [mbind res_bind];
    try reflexivity.
  apply IH.
Qed.

Lemma map_items_same (f1 f2 : value -> res value) (items : list value) :
  Forall (fun x => f1 x = f2 x) items ->
  map_items f1 items = map_items f2 items.
Proof.
  induction 1 as [|x items Hx _ IH]; [reflexivity|].
  cbn [map_items]. rewrite Hx, IH. reflexivity.
Qed.

(** On a value without old token the rewrite renames nothing. *)
Lemma processValue_clean (options : RenameOptions) (v : value) :
  clean_value options v = true ->
  processValue (renameMap_of options) (flags_of options) v
  = processValue [] (flags_of options) v.
Proof.
  induction v as [| b | repr | s | items IH | props IH] using value_induction;
    intros Hc; try reflexivity.
  - cbn [clean_value] in Hc. cbn [processValue].
    rewrite rename_text_idle by exact Hc. reflexivity.
  - cbn [clean_value] in Hc. cbn [processValue].
    rewrite (map_items_same _ (processValue [] (flags_of options)) items);
      [reflexivity|].
    rewrite forallb_forall in Hc. rewrite List.Forall_forall in IH.
    apply List.Forall_forall. intros x Hx. apply IH; [exact Hx|].
    apply Hc. exact Hx.
  - cbn [clean_value] in Hc. cbn [processValue]. unfold Object_entries.
    rewrite (each_entry_same _ (rename_text [] (flags_of options))
               _ (processValue [] (flags_of options)) props); [reflexivity|].
    rewrite forallb_forall in Hc. rewrite List.Forall_forall in IH.
    apply List.Forall_forall. intros kv Hkv.
    specialize (Hc kv Hkv). apply andb_true_iff in Hc as [Hk Hv]. split.
    + rewrite rename_text_idle by exact Hk. reflexivity.
    + apply IH; assumption.
Qed.

End Rest.

(** *** An index has one canonical numeric string *)

Lemma is_digit_range (c : ascii) :
  is_digit c = true -> 48 <= nat_of_ascii c <= 57.
Proof.
  unfold is_digit, ascii_in. intros H. apply andb_true_iff in H as [H1 H2].
  apply Nat.leb_le in H1, H2.
  change (nat_of_ascii "0") with 48 in H1.
  change (nat_of_ascii "9") with 57 in H2. lia.
Qed.

Lemma digit_val_small (c : ascii) : is_digit c = true -> digit_val c <= 9.
Proof. intros H. apply is_digit_range in H. unfold digit_val. lia. Qed.

Lemma digit_val_inj (c d : ascii) :
  is_digit c = true -> is_digit d = true -> digit_val c = digit_val d -> c = d.
Proof.
  intros Hc Hd E. apply is_digit_range in Hc, Hd. unfold digit_val in E.
  rewrite <- (ascii_nat_embedding c), <- (ascii_nat_embedding d).
  f_equal. lia.
Qed.

Lemma digit_val_zero (c : ascii) :
  is_digit c = true -> Ascii.eqb c "0" = false -> 1 <= digit_val c.
Proof.
  intros Hc Hz. apply is_digit_range in Hc. unfold digit_val.
  destruct (Nat.eq_dec (nat_of_ascii c) 48) as [E|E]; [|lia].
  exfalso. apply Ascii.eqb_neq in Hz. apply Hz.
  rewrite <- (ascii_nat_embedding c), E. reflexivity.
Qed.

Lemma decimal_from (k : text) : forall acc : N,
  fold_left (fun acc c => (acc * 10 + N.of_nat (digit_val c))%N) k acc
  = (acc * 10 ^ N.of_nat (length k) + decimal_value k)%N.
Proof.
  unfold decimal_value. induction k as [|c k IH]; intros acc.
  - cbn. lia.
  - cbn [fold_left length]. rewrite IH. rewrite (IH (0 * 10 + _)%N).
    rewrite Nat2N.inj_succ, N.pow_succ_r'. lia.
Qed.

Lemma decimal_cons (c : ascii) (k : text) :
  decimal_value (c :: k)
  = (N.of_nat (digit_val c) * 10 ^ N.of_nat (length k) + decimal_value k)%N.
Proof.
  unfold decimal_value at 1. cbn [fold_left]. rewrite decimal_from. lia.
Qed.

Lemma decimal_bound (k : text) :
  forallb is_digit k = true -> (decimal_value k < 10 ^ N.of_nat (length k))%N.
Proof.
  induction k as [|c k IH]; intros H.
  - cbn. lia.
  - cbn [forallb] in H. apply andb_true_iff in H as [Hc Hk].
    rewrite decimal_cons. cbn [length]. rewrite Nat2N.inj_succ, N.pow_succ_r'.
    specialize (IH Hk). pose proof (digit_val_small c Hc). nia.
Qed.

Lemma decimal_same_length (k1 : text) : forall k2,
  length k1 = length k2 ->
  forallb is_digit k1 = true -> forallb is_digit k2 = true ->
  decimal_value k1 = decimal_value k2 -> k1 = k2.
Proof.
  induction k1 as [|c1 k1 IH]; intros [|c2 k2] Hl H1 H2 E; try discriminate;
    [reflexivity|].
  cbn [forallb] in H1, H2.
  apply andb_true_iff in H1 as [Hc1 Hk1]. apply andb_true_iff in H2 as [Hc2 Hk2].
  injection Hl as Hl. rewrite !decimal_cons, <- Hl in E.
  pose proof (decimal_bound k1 Hk1) as B1.
  pose proof (decimal_bound k2 Hk2) as B2. rewrite <- Hl in B2.
  assert (Hd : digit_val c1 = digit_val c2) by nia.
  assert (Hv : decimal_value k1 = decimal_value k2) by (rewrite Hd in E; lia).
  rewrite (digit_val_inj c1 c2 Hc1 Hc2 Hd), (IH k2 Hl Hk1 Hk2 Hv). reflexivity.
Qed.

Lemma array_index_shape (k : text) (n : N) :
  array_index k = Some n ->
  n = decimal_value k /\ forallb is_digit k = true
  /\ (length k = 1
      \/ exists c k', k = c :: k' /\ k' <> [] /\ 1 <= digit_val c).
Proof.
  unfold array_index. destruct k as [|c k']; [discriminate|].
  destruct (forallb is_digit (c :: k')) eqn:Hd; [|discriminate].
  cbn [andb].
  destruct (negb (Ascii.eqb c "0") || bool_decide (k' = [])) eqn:Hz;
    [|discriminate].
  cbn [andb]. destruct (Nat.leb _ _); [|discriminate]. cbn [andb].
  destruct (_ <? _)%N; [|discriminate]. intros [= <-].
  split; [reflexivity|]. split; [reflexivity|].
  destruct k' as [|c' k'']; [left; reflexivity|right].
  exists c, (c' :: k''). split; [reflexivity|]. split; [discriminate|].
  apply orb_true_iff in Hz as [Hz|Hz].
  - apply negb_true_iff in Hz. cbn [forallb] in Hd.
    apply andb_true_iff in Hd as [Hc _]. exact (digit_val_zero c Hc Hz).
  - apply bool_decide_eq_true in Hz. discriminate.
Qed.

Lemma decimal_long (c : ascii) (k' : text) :
  1 <= digit_val c ->
  (10 ^ N.of_nat (length k') <= decimal_value (c :: k'))%N.
Proof.
  intros H. rewrite decimal_cons.
  assert (1 * 10 ^ N.of_nat (length k')
          <= N.of_nat (digit_val c) * 10 ^ N.of_nat (length k'))%N
    by (apply N.mul_le_mono_r; lia).
  lia.
Qed.

Lemma array_index_inj (k1 k2 : text) (n : N) :
  array_index k1 = Some n -> array_index k2 = Some n -> k1 = k2.
Proof.
  intros H1 H2.
  apply array_index_shape in H1 as (E1 & D1 & S1).
  apply array_index_shape in H2 as (E2 & D2 & S2).
  assert (Hcase : forall a b,
            forallb is_digit a = true -> forallb is_digit b = true ->
            decimal_value a = decimal_value b ->
            (length a = 1
             \/ exists c k', a = c :: k' /\ k' <> [] /\ 1 <= digit_val c) ->
            (length b = 1
             \/ exists c k', b = c :: k' /\ k' <> [] /\ 1 <= digit_val c) ->
            length a < length b -> False).
  { intros a b Da Db E Sa Sb Hl.
    pose proof (decimal_bound a Da) as Ba.
    assert (1 <= length a)
      by (destruct Sa as [Sa|(? & ? & -> & _ & _)]; cbn [length]; lia).
    destruct Sb as [Sb|(c & k' & -> & Hk' & Hc)]; [lia|].
    pose proof (decimal_long c k' Hc) as Lb. cbn [length] in Hl.
    assert (10 ^ N.of_nat (length a) <= 10 ^ N.of_nat (length k'))%N
      by (apply N.pow_le_mono_r; lia).
    lia. }
  destruct (Nat.lt_trichotomy (length k1) (length k2)) as [Hl|[Hl|Hl]].
  - exfalso. eapply (Hcase k1 k2); eauto. congruence.
  - apply decimal_same_length; congruence.
  - exfalso. eapply (Hcase k2 k1); eauto. congruence.
Qed.

(** *** An object built by assignments is in enumeration order *)

Section Ordered.
Context {A : Type}.
Implicit Types (o : jsobj A) (k : text) (v : A).

Lemma insert_keys o n k v :
  map fst (obj_insert_index o n k v) = key_insert (map fst o) n k.
Proof.
  induction o as [|[k' v'] o IH]; [reflexivity|].
  cbn [obj_insert_index map fst key_insert].
  destruct (array_index k') as [n'|]; [|reflexivity].
  destruct (n' <? n)%N; [|reflexivity]. cbn [map fst]. rewrite IH. reflexivity.
Qed.

Lemma key_insert_Forall (P : text -> Prop) (ks : list text) n k :
  P k -> Forall P ks -> Forall P (key_insert ks n k).
Proof.
  intros Hk. induction 1 as [|k' ks Hk' Hks IH]; cbn [key_insert].
  - constructor; [exact Hk|constructor].
  - destruct (array_index k') as [n'|].
    + destruct (n' <? n)%N; constructor; auto.
    + constructor; auto.
Qed.

Lemma key_insert_ordered (ks : list text) n k :
  ordered_keys ks -> array_index k = Some n ->
  Forall (fun k' => array_index k' <> Some n) ks ->
  ordered_keys (key_insert ks n k).
Proof.
  intros Ho Hk. induction ks as [|k' ks IH]; intros Hne.
  - cbn. rewrite Hk. auto.
  - apply Forall_cons in Hne as [Hne' Hne].
    cbn [key_insert]. cbn [ordered_keys] in Ho. destruct Ho as [Hhead Ho].
    destruct (array_index k') as [n'|] eqn:Ek'.
    + destruct (n' <? n)%N eqn:El.
      * apply N.ltb_lt in El. cbn [ordered_keys]. rewrite Ek'. split.
        -- apply key_insert_Forall; [rewrite Hk; exact El|exact Hhead].
        -- apply IH; assumption.
      * apply N.ltb_ge in El.
        assert (Hlt : (n < n')%N).
        { destruct (N.eq_dec n n') as [->|Hn]; [congruence|lia]. }
        cbn [ordered_keys]. rewrite Hk, Ek'. split; [|split; assumption].
        constructor; [rewrite Ek'; exact Hlt|].
        eapply Forall_impl; [exact Hhead|].
        intros k2 H2. cbn in H2. destruct (array_index k2); [lia|exact I].
    + cbn [ordered_keys]. rewrite Hk, Ek'. split; [|split; assumption].
      constructor; [rewrite Ek'; exact I|].
      eapply Forall_impl; [exact Hhead|].
      intros k2 [H2 _]. rewrite H2. exact I.
Qed.

Lemma append_ordered (ks : list text) k :
  ordered_keys ks -> array_index k = None -> ~ In k ks ->
  ordered_keys (ks ++ [k]).
Proof.
  intros Ho Hk. induction ks as [|k' ks IH]; intros Hin.
  - cbn. rewrite Hk. auto.
  - cbn [app ordered_keys] in *. destruct Ho as [Hhead Ho].
    split; [|apply IH; [exact Ho|intros H; apply Hin; right; exact H]].
    destruct (array_index k') as [n'|].
    + apply Forall_app. split; [exact Hhead|].
      constructor; [rewrite Hk; exact I|constructor].
    + apply Forall_app. split; [exact Hhead|].
      constructor; [|constructor]. split; [exact Hk|].
      intros ->. apply Hin. left. reflexivity.
Qed.

Lemma define_ordered o k v :
  ordered_keys (map fst o) -> ordered_keys (map fst (obj_define o k v)).
Proof.
  intros Ho. unfold obj_define. destruct (obj_has o k) eqn:Eh.
  - rewrite obj_update_keys. exact Ho.
  - assert (Hin : ~ In k (map fst o)).
    { intros Hin. apply obj_has_keys in Hin. congruence. }
    destruct (array_index k) as [n|] eqn:Ek.
    + rewrite insert_keys. apply key_insert_ordered; [exact Ho|exact Ek|].
      apply List.Forall_forall. intros k' Hk' E.
      apply Hin. rewrite (array_index_inj k k' n Ek E). exact Hk'.
    + rewrite map_app. cbn [map fst]. apply append_ordered; assumption.
Qed.

(** The keys before a key of an ordered object. *)
Lemma ordered_before (p rest : list text) k :
  ordered_keys (p ++ k :: rest) ->
  ~ In k p
  /\ forall n, array_index k = Some n ->
       Forall (fun k0 => exists n0, array_index k0 = Some n0 /\ (n0 < n)%N) p.
Proof.
  induction p as [|k0 p IH]; intros Ho.
  - split; [intros []|]. intros n _. constructor.
  - cbn [app ordered_keys] in Ho. destruct Ho as [Hhead Ho].
    destruct (IH Ho) as [Hin Hsm].
    assert (Hk : match array_index k0 with
                 | Some n0 => match array_index k with
                              | Some n' => (n0 < n')%N
                              | None => True
                              end
                 | None => array_index k = None /\ k <> k0
                 end).
    { destruct (array_index k0); apply Forall_app in Hhead as [_ Hhead];
        apply Forall_cons in Hhead as [Hk _]; exact Hk. }
    split.
    + intros [->|H]; [|exact (Hin H)].
      destruct (array_index k) as [n|]; [lia|]. destruct Hk as [_ Hk].
      congruence.
    + intros n Hn. constructor; [|exact (Hsm n Hn)].
      rewrite Hn in Hk. destruct (array_index k0) as [n0|]; [eauto|].
      destruct Hk as [Hk _]. congruence.
Qed.

Lemma insert_at_end o n k v :
  Forall (fun k0 => exists n0, array_index k0 = Some n0 /\ (n0 < n)%N)
    (map fst o) ->
  obj_insert_index o n k v = o ++ [(k, v)].
Proof.
  induction o as [|[k0 v0] o IH]; intros H; [reflexivity|].
  cbn [map fst] in H. apply Forall_cons in H as [(n0 & E0 & Hlt) H].
  cbn [obj_insert_index app]. rewrite E0.
  apply N.ltb_lt in Hlt. rewrite Hlt. rewrite IH by exact H. reflexivity.
Qed.

Lemma define_at_end (p rest : jsobj A) k v :
  ordered_keys (map fst (p ++ (k, v) :: rest)) ->
  obj_define p k v = p ++ [(k, v)].
Proof.
  rewrite map_app. cbn [map fst]. intros Ho.
  destruct (ordered_before _ _ _ Ho) as [Hin Hsm].
  unfold obj_define.
  destruct (obj_has p k) eqn:Eh.
  { apply obj_has_keys in Eh. contradiction. }
  destruct (array_index k) as [n|]; [|reflexivity].
  apply insert_at_end. apply Hsm. reflexivity.
Qed.

End Ordered.

(** *** The rewrite of a rewritten document *)

Lemma define_Forall {A} (Pk : text -> Prop) (Pv : A -> Prop)
    (o : jsobj A) (k : text) (v : A) :
  Pk k -> Pv v ->
  Forall (fun kv => Pk (fst kv) /\ Pv (snd kv)) o ->
  Forall (fun kv => Pk (fst kv) /\ Pv (snd kv)) (obj_define o k v).
Proof.
  intros Hk Hv Ho. unfold obj_define. destruct (obj_has o k).
  - induction Ho as [|[k0 v0] o [H1 H2] Ho IH]; [constructor|].
    cbn [obj_update]. destruct (text_eqb k0 k); constructor; auto.
  - destruct (array_index k) as [n|].
    + induction Ho as [|[k0 v0] o [H1 H2] Ho IH]; cbn [obj_insert_index].
      * constructor; [auto|constructor].
      * destruct (array_index k0) as [n0|]; [destruct (n0 <? n)%N|];
          repeat (constructor; auto).
    + apply Forall_app. split; [exact Ho|]. constructor; [auto|constructor].
Qed.

Lemma obj_set_key {A} (o o' : jsobj A) (k : text) (v : A) :
  obj_set o k v = Ok o' -> k <> str "__proto__".
Proof.
  unfold obj_set. destruct (text_eqb k (str "__proto__")) eqn:E; [discriminate|].
  intros _. apply text_eqb_false. exact E.
Qed.

Section Rebuilt.
Variables (rename : text -> res text) (f g : value -> res value).

(** The object a loop of assignments builds: its keys are in enumeration
    order, none is [__proto__], and its values are results of [f]. *)
Lemma each_entry_ordered (l : jsobj value) : forall result result',
  each_entry rename f l result = Ok result' ->
  Forall (fun kv => forall val', f (snd kv) = Ok val' -> g val' = Ok val') l ->
  ordered_keys (map fst result) ->
  Forall (fun kv => fst kv <> str "__proto__" /\ g (snd kv) = Ok (snd kv))
    result ->
  ordered_keys (map fst result')
  /\ Forall (fun kv => fst kv <> str "__proto__" /\ g (snd kv) = Ok (snd kv))
       result'.
Proof.
  induction l as [|[k val] l IH]; intros result result' E Hl Ho Hq.
  - injection E as <-. auto.
  - apply Forall_cons in Hl as [Hval Hl].
    apply each_entry_step in E as (k' & val' & _ & Hv & Hs & E).
    apply (IH _ _ E Hl); [apply define_ordered; exact Ho|].
    apply (define_Forall (fun k => k <> str "__proto__")
             (fun v => g v = Ok v));
      [exact (obj_set_key _ _ _ _ Hs)|exact (Hval _ Hv)|exact Hq].
Qed.

(** Assigning the entries of an ordered object again, in order, builds the
    same object. *)
Lemma each_entry_rebuild (rest : jsobj value) : forall p,
  (forall k, rename k = Ok k) ->
  ordered_keys (map fst (p ++ rest)) ->
  Forall (fun kv => fst kv <> str "__proto__" /\ f (snd kv) = Ok (snd kv))
    rest ->
  each_entry rename f rest p = Ok (p ++ rest).
Proof.
  induction rest as [|[k v] rest IH]; intros p Hr Ho Hq.
  - rewrite app_nil_r. reflexivity.
  - apply Forall_cons in Hq as [[Hk Hv] Hq]. cbn [fst snd] in Hk, Hv.
    rewrite each_entry_cons. cbn [fst snd]. rewrite Hr, Hv.
    cbn [mbind res_bind]. unfold obj_set.
    assert (text_eqb k (str "__proto__") = false) as ->.
    { destruct (text_eqb k (str "__proto__")) eqn:E; [|reflexivity].
      apply text_eqb_true in E. contradiction. }
    cbn [mbind res_bind]. rewrite (define_at_end p rest k v Ho).
    rewrite IH; [rewrite <- app_assoc; reflexivity|exact Hr| |exact Hq].
    rewrite <- app_assoc. exact Ho.
Qed.

End Rebuilt.

(** A value that the rewrite has produced is rewritten to itself when there
    is nothing to rename. *)
Lemma processValue_fixed (renameMap : jsobj text) (flags flags' : text)
    (v : value) :
  forall v', processValue renameMap flags v = Ok v' ->
             processValue [] flags' v' = Ok v'.
Proof.
  induction v as [| b | repr | s | items IH | props IH] using value_induction;
    intros v' E; try (injection E as <-; reflexivity).
  - apply processValue_string in E as (s' & _ & ->). reflexivity.
  - apply processValue_array in E as (items' & -> & E).
    apply map_items_Forall2 in E. cbn [processValue].
    assert (Hm : map_items (processValue [] flags') items' = Ok items').
    { revert IH. induction E as [|x x' items items' Hx _ IHE]; intros IH;
        [reflexivity|].
      apply Forall_cons in IH as [IHx IH].
      cbn [map_items]. rewrite (IHx _ Hx). cbn [mbind res_bind].
      rewrite (IHE IH). reflexivity. }
    rewrite Hm. reflexivity.
  - apply processValue_object in E as (result & -> & E).
    destruct (each_entry_ordered _ _ (processValue [] flags') props [] result E)
      as [Ho Hq]; [exact IH|exact I|constructor|].
    cbn [processValue]. unfold Object_entries.
    rewrite (each_entry_rebuild _ _ result []); [reflexivity| |exact Ho|exact Hq].
    intros k. reflexivity.
Qed.

(** *** The second run *)

Lemma filter_none {A} (p : A -> bool) (l : list A) :
  Forall (fun x => p x = false) l -> List.filter p l = [].
Proof.
  induction 1 as [|x l Hx _ IH]; [reflexivity|].
  cbn [List.filter]. rewrite Hx. exact IH.
Qed.

Section Settled.
Context `{Libs}.

(** A structural strategy that changes a text prints a document. *)
Lemma structural_first (options : RenameOptions) (s : strategy)
    (c0 c1 : text) (lines : list console_line) :
  textual s = false ->
  run_strategy (Some s) c0 options = Ok (c1, lines) -> c1 <> c0 ->
  exists v0 v1,
    parse_of s c0 = Ok v0
    /\ processValue (renameMap_of options) (flags_of options) v0 = Ok v1
    /\ print_of s v1 = Ok c1.
Proof.
  intros Hs Hrun Hne.
  destruct s; try discriminate; cbn [run_strategy parse_of print_of] in *;
    [unfold processJsonFile in Hrun|unfold processYamlFile in Hrun].
  - destruct (JSON_parse c0) as [v0|e|] eqn:Ep; cbn [mbind res_bind] in Hrun;
      [|injection Hrun as <- _; congruence|discriminate].
    destruct (processValue (renameMap_of options) (flags_of options) v0)
      as [v1|e|] eqn:Ev; cbn [mbind res_bind] in Hrun;
      [|injection Hrun as <- _; congruence|discriminate].
    injection Hrun as <- _. exists v0, v1. auto.
  - destruct (YAML_parse c0) as [v0|e|] eqn:Ep; cbn [mbind res_bind] in Hrun;
      [|injection Hrun as <- _; congruence|discriminate].
    destruct (processValue (renameMap_of options) (flags_of options) v0)
      as [v1|e|] eqn:Ev; cbn [mbind res_bind] in Hrun;
      [|injection Hrun as <- _; congruence|discriminate].
    destruct (YAML_stringify v1) as [out|e|] eqn:Ey;
      [|injection Hrun as <- _; congruence|discriminate].
    injection Hrun as <- _. exists v0, v1. auto.
Qed.

(** The strategy leaves the print of a rewritten document without old token
    as it is, when the parser reads the document back. *)
Lemma structural_again (options : RenameOptions) (s : strategy)
    (v0 v1 : value) (out : text) :
  textual s = false ->
  processValue (renameMap_of options) (flags_of options) v0 = Ok v1 ->
  print_of s v1 = Ok out ->
  clean_value options v1 = true -> parse_of s out = Ok v1 ->
  run_strategy (Some s) out options = Ok (out, []).
Proof.
  intros Hs Hv Hprint Hclean Hparse.
  pose proof (processValue_clean options v1 Hclean) as Hsame.
  rewrite (processValue_fixed _ _ (flags_of options) v0 v1 Hv) in Hsame.
  destruct s; try discriminate; cbn [run_strategy parse_of print_of] in *;
    [unfold processJsonFile|unfold processYamlFile];
    rewrite Hparse; cbn [mbind res_bind]; rewrite Hsame; cbn [mbind res_bind].
  - injection Hprint as <-. reflexivity.
  - rewrite Hprint. reflexivity.
Qed.

(** What the second run finds at a path that the first run has processed. *)
Lemma second_pass_file (options : RenameOptions) (f : text)
    (fl : option file) :
  dry options = false ->
  (forall x, fl = Some x -> file_readable x = true -> settles options f x) ->
  process_pure f options fl <> None ->
  exists r evs,
    process_pure f options (file_after f options fl) = Some (r, None, evs)
    /\ modified r = false.
Proof.
  intros Hdry Hset Hsome. unfold file_after.
  destruct fl as [x|]; [|cbn; eauto].
  assert (Hsame : forall r evs,
            process_pure f options (Some x) = Some (r, None, evs) ->
            modified r = false ->
            exists r' evs',
              match process_pure f options (Some x) with
              | Some (_, Some y, _) =>
                  process_pure f options (Some y)
              | _ => process_pure f options (Some x)
              end = Some (r', None, evs') /\ modified r' = false).
  { intros r evs E Hm. rewrite E. eauto. }
  assert (Hgoal : (exists r' evs',
              match process_pure f options (Some x) with
              | Some (_, Some y, _) =>
                  process_pure f options (Some y)
              | _ => process_pure f options (Some x)
              end = Some (r', None, evs') /\ modified r' = false) ->
            exists r evs,
              process_pure f options
                match process_pure f options (Some x) with
                | Some (_, Some x0, _) => Some x0
                | _ => Some x
                end = Some (r, None, evs) /\ modified r = false).
  { destruct (process_pure f options (Some x)) as [[[r0 [y|]] evs0]|] eqn:E;
      intros H0; rewrite ?E; exact H0. }
  apply Hgoal. clear Hgoal.
  cbn [process_pure] in Hsome, Hsame |- *.
  destruct (file_readable x) eqn:Er; [|eapply Hsame; reflexivity].
  specialize (Hset x eq_refl Er).
  destruct (run_strategy (classify f) (file_data x) options)
    as [[c1 lines]|e|] eqn:Erun;
    [|eapply Hsame; reflexivity|congruence].
  rewrite Hdry in *. cbn [negb] in *. rewrite andb_true_r in *.
  destruct (text_eqb c1 (file_data x)) eqn:Ec; cbn [negb] in *;
    [eapply Hsame; reflexivity|].
  apply text_eqb_false in Ec.
  destruct (file_writable x) eqn:Ew; [|eapply Hsame; reflexivity].
  cbn [process_pure file_readable file_data file_writable].
  assert (Hagain : exists lines',
            run_strategy (classify f) c1 options = Ok (c1, lines')).
  { unfold settles in Hset.
    destruct (classify f) as [s|]; [|eexists; reflexivity].
    destruct (textual s) eqn:Es.
    - exists []. apply textual_idle; [exact Es|].
      exact (Hset c1 lines Erun Ec).
    - destruct (structural_first options s _ _ _ Es Erun Ec)
        as (v0 & v1 & Hp & Hv & Hpr).
      destruct (Hset v0 v1 c1 Hp Hv Hpr Ec) as [Hclean Hback].
      exists []. eapply structural_again; eassumption. }
  destruct Hagain as (lines' & ->).
  assert (text_eqb c1 c1 = true) as -> by (apply text_eqb_true; reflexivity).
  cbn [negb andb]. eauto.
Qed.

Lemma Forall2_left {A B} (P : A -> B -> Prop) (l : list A) (l' : list B) :
  Forall2 P l l' -> forall a, In a l -> exists b, P a b.
Proof.
  induction 1 as [|a b l l' Hab _ IH]; intros x [].
  - subst. eauto.
  - eauto.
Qed.

(** A file pass that modifies no file. *)
Lemma processFiles_still (options : RenameOptions) (files : list text)
    (w : world) :
  NoDup files ->
  (forall f, f ∈ files ->
     exists r evs, process_pure f options (w_files w !! f)
                   = Some (r, None, evs) /\ modified r = false) ->
  exists results w',
    processFiles files options w = Done results w'
    /\ w_files w' = w_files w
    /\ modifiedCount (summarize results) = 0.
Proof.
  intros Hnd Hp.
  destruct (processFiles_done options files w Hnd) as (rs & w' & Hrun & HF & Hfiles).
  { intros f Hf. destruct (Hp f Hf) as (r & evs & -> & _). discriminate. }
  exists rs, w'. split; [exact Hrun|]. split.
  - apply map_eq. intros g. rewrite Hfiles.
    destruct (decide (g ∈ files)) as [Hg|Hg]; [|reflexivity].
    unfold file_after. destruct (Hp g Hg) as (r & evs & -> & _). reflexivity.
  - rewrite summarize_counts. cbn [modifiedCount].
    rewrite filter_none; [reflexivity|].
    clear Hrun Hfiles. induction HF as [|f r files rs (fl' & evs & Hr) HF IH];
      [constructor|].
    apply NoDup_cons in Hnd as [_ Hnd]. constructor.
    + destruct (Hp f ltac:(left)) as (r0 & evs0 & Hr0 & Hm).
      rewrite Hr0 in Hr. injection Hr as <- _ _. exact Hm.
    + apply IH; [exact Hnd|].
      intros g Hg. apply Hp. right. exact Hg.
Qed.

(** C8, amended: for a fixed file set, tokens of 7-bit characters, preview
    mode off and a first run that completes without post-pass update, the
    second of two runs modifies no file and changes no file, provided that
    what the first run writes holds no old token: no old token of the
    rename map occurs, whatever the letter case, in the text the first run
    gives a Code, Env, Docker or Markdown file that it changes, nor in the
    keys and strings of the document it prints for a JSON or YAML file that
    it changes, and the parser reads that document back from its print. *)
Theorem second_run_modifies_nothing (files : list text)
    (options : RenameOptions) (w w1 : world) :
  NoDup files ->
  ascii_tokens options = true ->
  dry options = false ->
  runSafeRename files options w = Done tt w1 ->
  (forall f x, f ∈ files -> w_files w !! f = Some x ->
               file_readable x = true -> settles options f x) ->
  exists w2 p e,
    runSafeRename files options w1 = Done tt w2
    /\ hd_error (w_trace w2) = Some (EvConsole (LogSummary p 0 e))
    /\ w_files w2 = w_files w1.
Proof.
  intros Hnd _ Hdry Hrun Hset.
  destruct (oldName options) as [|c o] eqn:Eo.
  { unfold runSafeRename in Hrun. rewrite Eo in Hrun. discriminate. }
  destruct (newName options) as [|c' n] eqn:En.
  { unfold runSafeRename in Hrun. rewrite Eo, En in Hrun. discriminate. }
  assert (Ho : oldName options <> []) by (rewrite Eo; discriminate).
  assert (Hn : newName options <> []) by (rewrite En; discriminate).
  rewrite runSafeRename_pass in Hrun by assumption.
  pose proof (processFiles_spec options files (prelude files options w) Hnd)
    as Hspec.
  destruct (processFiles files options (prelude files options w))
    as [rs wa| | |]; try discriminate.
  destruct Hspec as (HF & Hfiles & _).
  destruct ((updatePackage options || updateRemote options)
            && negb (dry options)) eqn:Hpost; [discriminate|].
  injection Hrun as <-.
  assert (Hp : forall f, f ∈ files ->
            exists r evs,
              process_pure f options
                (w_files (prelude files options
                            (emit (EvConsole (summary_line (summarize rs))) wa))
                 !! f)
              = Some (r, None, evs) /\ modified r = false).
  { intros f Hf. rewrite prelude_files. cbn [emit w_files].
    rewrite Hfiles, prelude_files.
    destruct (decide (f ∈ files)) as [_|Hc]; [|contradiction].
    apply second_pass_file; [exact Hdry| |].
    - intros x Hx. apply Hset; assumption.
    - apply list_elem_of_In in Hf.
      destruct (Forall2_left _ _ _ HF f Hf) as (r & fl' & evs & E).
      rewrite prelude_files in E. congruence. }
  destruct (processFiles_still options files _ Hnd Hp)
    as (rs2 & w' & Hpass & Hfiles2 & Hmod).
  exists (emit (EvConsole (summary_line (summarize rs2))) w'),
    (processedCount (summarize rs2)), (errorCount (summarize rs2)).
  rewrite runSafeRename_pass by assumption. rewrite Hpass, Hpost.
  split; [reflexivity|]. split.
  - cbn [emit w_trace hd_error]. unfold summary_line. rewrite Hmod. reflexivity.
  - cbn [emit w_files]. rewrite Hfiles2, prelude_files. reflexivity.
Qed.

End Settled.

(** ** [updatePackageJson] *)

Section Deletion.
Context {A : Type}.
Implicit Types (o : jsobj A) (k : text) (v : A).

Lemma obj_get_delete_eq o k : obj_get (obj_delete o k) k = None.
Proof.
  unfold obj_delete. induction o as [|[k' v'] o IH]; [reflexivity|].
  cbn [List.filter fst]. destruct (text_eqb k' k) eqn:E; cbn [negb].
  - exact IH.
  - cbn [obj_get]. rewrite E. exact IH.
Qed.

Lemma obj_get_delete_ne o k k2 :
  k2 <> k -> obj_get (obj_delete o k) k2 = obj_get o k2.
Proof.
  intros Hne. unfold obj_delete. induction o as [|[k' v'] o IH]; [reflexivity|].
  cbn [List.filter fst]. destruct (text_eqb k' k) eqn:E; cbn [negb].
  - apply text_eqb_true in E. subst k'. cbn [obj_get].
    assert (text_eqb k k2 = false) as -> by (apply text_eqb_false; congruence).
    exact IH.
  - cbn [obj_get]. rewrite IH. reflexivity.
Qed.

Lemma find_key_get o old k :
  find_key o old = Some k ->
  includes k old = true /\ exists v, obj_get o k = Some v.
Proof.
  unfold find_key. induction o as [|[k' v'] o IH]; [discriminate|].
  cbn [List.find fst]. destruct (includes k' old) eqn:E.
  - intros [= <-]. split; [exact E|]. exists v'. cbn [obj_get].
    rewrite text_eqb_refl. reflexivity.
  - intros H. destruct (IH H) as (Hi & v & Hv). split; [exact Hi|].
    cbn [obj_get]. destruct (text_eqb k' k); eauto.
Qed.

Lemma find_key_none o old :
  find_key o old = None <-> forallb (fun kv => negb (includes (fst kv) old)) o = true.
Proof.
  unfold find_key. induction o as [|[k' v'] o IH]; [split; reflexivity|].
  cbn [List.find forallb fst]. destruct (includes k' old); cbn [negb andb].
  - split; discriminate.
  - exact IH.
Qed.

Lemma obj_update_same o k v : obj_get o k = Some v -> obj_update o k v = o.
Proof.
  induction o as [|[k' v'] o IH]; [reflexivity|].
  cbn [obj_get obj_update]. destruct (text_eqb k' k).
  - intros [= ->]. reflexivity.
  - intros H. rewrite IH by exact H. reflexivity.
Qed.

End Deletion.

(** X11: in the object of one dependency type, a pair of the rename map
    changes only the first key that contains the old token: the value of
    that key is found under the rewritten key, every other key keeps its
    value, and the old key is gone; when the rewritten key is the old key
    itself, the dependency is dropped. *)
Theorem first_dependency_renamed (flags old new : text)
    (deps deps' : jsobj value) (k : text) :
  find_key deps old = Some k -> k <> [] ->
  rename_dep flags (old, new) deps = Ok deps' ->
  exists newKey val,
    replace_step old flags (ByPattern new) k = Ok newKey
    /\ obj_get deps k = Some val
    /\ obj_get deps' k = None
    /\ (newKey <> k -> obj_get deps' newKey = Some val)
    /\ (forall k2, k2 <> k -> k2 <> newKey ->
                   obj_get deps' k2 = obj_get deps k2).
Proof.
  intros Hfind Hk. unfold rename_dep. rewrite Hfind.
  assert (text_eqb k [] = false) as -> by (apply text_eqb_false; exact Hk).
  destruct (find_key_get deps old k Hfind) as (_ & val & Hval).
  destruct (replace_step old flags (ByPattern new) k) as [newKey| |];
    cbn [mbind res_bind]; try discriminate.
  rewrite Hval. intros Hset.
  apply res_bind_ok in Hset as (d1 & Hd1 & Hd2).
  apply obj_set_ok in Hd1. injection Hd2 as <-. subst d1.
  exists newKey, val. split; [reflexivity|]. split; [reflexivity|].
  split; [apply obj_get_delete_eq|]. split.
  - intros Hne. rewrite obj_get_delete_ne by exact Hne.
    apply obj_get_define_eq.
  - intros k2 H1 H2. rewrite obj_get_delete_ne by exact H1.
    apply obj_get_define_ne. congruence.
Qed.

Lemma update_deps_frame (options : RenameOptions) (props props' : jsobj value)
    (depType : text) :
  update_deps options props depType = Ok props' ->
  map fst props' = map fst props
  /\ forall k, k <> depType -> obj_get props' k = obj_get props k.
Proof.
  unfold update_deps. destruct (obj_get props depType) as [d|].
  2:{ intros [= <-]. auto. }
  destruct (js_truthy d).
  2:{ intros [= <-]. auto. }
  destruct d; try discriminate; try (intros [= <-]; auto; fail).
  intros Hd. apply res_bind_ok in Hd as (deps' & _ & Hd). injection Hd as <-.
  split; [apply obj_update_keys|].
  intros k Hk. apply obj_get_update_ne. congruence.
Qed.

(** X12: [updatePackageJson] changes the parsed [package.json] in four
    fields at most: every other field keeps its value, and the fields keep
    their order; the name is replaced by the new name only when it is
    exactly the old name of the options, and is otherwise left as it is. *)
Theorem package_update_touches_four_fields (options : RenameOptions)
    (props : jsobj value) (v' : value) :
  update_package options (VObject props) = Ok v' ->
  exists props',
    v' = VObject props'
    /\ map fst props' = map fst props
    /\ (forall k, ~ In k package_fields -> obj_get props' k = obj_get props k)
    /\ obj_get props' (str "name")
       = match obj_get props (str "name") with
         | Some (VString name) =>
             if text_eqb name (oldName options)
             then Some (VString (newName options))
             else Some (VString name)
         | other => other
         end.
Proof.
  unfold update_package.
  set (props0 := match obj_get props (str "name") with
                 | Some (VString name) =>
                     if text_eqb name (oldName options)
                     then obj_update props (str "name") (VString (newName options))
                     else props
                 | _ => props
                 end).
  assert (H0 : map fst props0 = map fst props
               /\ (forall k, k <> str "name" -> obj_get props0 k = obj_get props k)
               /\ obj_get props0 (str "name")
                  = match obj_get props (str "name") with
                    | Some (VString name) =>
                        if text_eqb name (oldName options)
                        then Some (VString (newName options))
                        else Some (VString name)
                    | other => other
                    end).
  { subst props0. destruct (obj_get props (str "name")) as [[| | | name | |]|] eqn:En;
      try (repeat split; [reflexivity || exact En ..]; fail);
      try (split; [reflexivity|split; [reflexivity|exact En]]).
    destruct (text_eqb name (oldName options)).
    - split; [apply obj_update_keys|]. split.
      + intros k Hk. apply obj_get_update_ne. congruence.
      + apply obj_get_update_eq. apply obj_has_get. eauto.
    - split; [reflexivity|]. split; [reflexivity|exact En]. }
  clearbody props0. destruct H0 as (Hk0 & Hf0 & Hn0).
  intros H.
  apply res_bind_ok in H as (p1 & H1 & H).
  apply res_bind_ok in H as (p2 & H2 & H).
  apply res_bind_ok in H as (p3 & H3 & H). injection H as <-.
  apply update_deps_frame in H1 as (Hk1 & Hf1).
  apply update_deps_frame in H2 as (Hk2 & Hf2).
  apply update_deps_frame in H3 as (Hk3 & Hf3).
  exists p3. split; [reflexivity|]. split; [congruence|]. split.
  - intros k Hk. unfold package_fields in Hk. cbn [In] in Hk.
    rewrite Hf3, Hf2, Hf1, Hf0; [reflexivity|..]; intros ->; tauto.
  - rewrite Hf3, Hf2, Hf1 by discriminate. exact Hn0.
Qed.

Lemma rename_deps_settled (flags : text) (entries : list (text * text))
    (deps : jsobj value) :
  forallb (fun e => forallb (fun kv => negb (includes (fst kv) (fst e))) deps)
    entries = true ->
  rename_deps flags entries deps = Ok deps.
Proof.
  induction entries as [|[old new] l IH]; [reflexivity|].
  cbn [forallb fst]. intros H. apply andb_true_iff in H as [H1 H2].
  cbn [rename_deps]. unfold rename_dep.
  rewrite (proj2 (find_key_none deps old) H1). cbn [mbind res_bind].
  apply IH. exact H2.
Qed.

Lemma update_deps_settled (options : RenameOptions) (props : jsobj value)
    (depType : text) :
  settled_deps options props depType = true ->
  update_deps options props depType = Ok props.
Proof.
  unfold settled_deps, update_deps.
  destruct (obj_get props depType) as [[| b | repr | s | items | deps]|] eqn:E;
    try reflexivity; intros Hs.
  - destruct (js_truthy (VBool b)); reflexivity.
  - destruct (js_truthy (VNumber repr)); reflexivity.
  - cbn [js_truthy]. rewrite Hs. reflexivity.
  - discriminate.
  - cbn [js_truthy]. unfold Object_entries.
    rewrite rename_deps_settled by exact Hs. cbn [mbind res_bind].
    rewrite obj_update_same by exact E. reflexivity.
Qed.

Lemma update_package_settled (options : RenameOptions) (props : jsobj value) :
  nothing_to_update options props = true ->
  update_package options (VObject props) = Ok (VObject props).
Proof.
  unfold nothing_to_update. intros H.
  apply andb_true_iff in H as [H H3]. apply andb_true_iff in H as [H H2].
  apply andb_true_iff in H as [H0 H1].
  unfold update_package.
  assert (match obj_get props (str "name") with
          | Some (VString name) =>
              if text_eqb name (oldName options)
              then obj_update props (str "name") (VString (newName options))
              else props
          | _ => props
          end = props) as ->.
  { destruct (obj_get props (str "name")) as [[| | | name | |]|]; try reflexivity.
    apply negb_true_iff in H0. rewrite H0. reflexivity. }
  rewrite update_deps_settled by exact H1. cbn [mbind res_bind].
  rewrite update_deps_settled by exact H2. cbn [mbind res_bind].
  rewrite update_deps_settled by exact H3. reflexivity.
Qed.

Section PackageFile.
Context `{Libs}.

Lemma updatePackageJson_run (root : text) (options : RenameOptions) (w : world)
    (path : text) (f : file) (v v' : value) :
  path_join root (str "package.json") = Ok path ->
  w_files w !! path = Some f ->
  file_readable f = true -> file_writable f = true ->
  JSON_parse (file_data f) = Ok v ->
  update_package options v = Ok v' ->
  updatePackageJson root options w
  = Done [LogUpdatedPackage]
      {| w_files :=
           <[path := {| file_data := JSON_stringify2 v' ++ [newline];
                        file_readable := true; file_writable := true |}]>
             (w_files w);
         w_trace := EvWrite path (JSON_stringify2 v' ++ [newline])
                    :: EvRead path :: w_trace w |}.
Proof.
  intros Hj Hf Hr Hw Hp Hu. unfold updatePackageJson.
  rewrite Hj. unfold mbind at 1, IO_bind at 1. cbn [lift].
  unfold mbind at 1, IO_bind at 1, fs_pathExists. rewrite Hf.
  rewrite bool_decide_eq_true_2 by eauto.
  unfold mbind at 1, IO_bind at 1. unfold fs_readJson.
  unfold mbind at 1, IO_bind at 1, fs_readFile. rewrite Hf, Hr, Hp.
  cbn [mret IO_ret]. rewrite Hu.
  unfold mbind at 1, IO_bind at 1. cbn [lift].
  unfold mbind, IO_bind, fs_writeJson, fs_writeFile. cbn [emit w_files].
  rewrite Hf, Hw, Hr. reflexivity.
Qed.

(** X13: when [package.json] exists, can be read and written and parses to
    an object, [updatePackageJson] writes it back even if it holds nothing
    to update (the name is not the old name and no dependency key contains
    an old token): the file then holds the same object printed with an
    indentation of two and a line feed at its end, and the update is
    logged. *)
Theorem package_json_rewritten_when_settled (root : text)
    (options : RenameOptions) (w : world) (path : text) (f : file)
    (props : jsobj value) :
  path_join root (str "package.json") = Ok path ->
  w_files w !! path = Some f ->
  file_readable f = true -> file_writable f = true ->
  JSON_parse (file_data f) = Ok (VObject props) ->
  nothing_to_update options props = true ->
  updatePackageJson root options w
  = Done [LogUpdatedPackage]
      {| w_files :=
           <[path := {| file_data := JSON_stringify2 (VObject props) ++ [newline];
                        file_readable := true; file_writable := true |}]>
             (w_files w);
         w_trace := EvWrite path (JSON_stringify2 (VObject props) ++ [newline])
                    :: EvRead path :: w_trace w |}.
Proof.
  intros Hj Hf Hr Hw Hp Hn.
  eapply updatePackageJson_run; try eassumption.
  apply update_package_settled. exact Hn.
Qed.

End PackageFile.

(** ** The configuration *)

Section Config.
Context `{Libs}.

Lemma fs_readJson_cases (path : text) (w : world) :
  match fs_readJson path w with
  | Done _ w' | Raised _ w' => w' = emit (EvRead path) w
  | Exited _ _ => False
  | Lost => True
  end.
Proof.
  unfold fs_readJson, mbind, IO_bind, fs_readFile.
  destruct (w_files w !! path) as [f|]; [|reflexivity].
  destruct (file_readable f); [|reflexivity].
  destruct (JSON_parse (file_data f)); reflexivity || exact I.
Qed.

Lemma read_config_cases (path : text) (w : world) :
  match read_config path w with
  | Done _ w' | Raised _ w' => w' = emit (EvRead path) w
  | Exited _ _ => False
  | Lost => True
  end.
Proof.
  unfold read_config. pose proof (fs_readJson_cases path w) as Hr.
  destruct (ends_with path (str "package.json")).
  - unfold mbind at 1, IO_bind at 1.
    destruct (fs_readJson path w) as [v w'| e w' | |]; try exact Hr.
    unfold mbind, IO_bind, lift.
    destruct (get_prop v (str "safeRename")) as [[c|]| |];
      try exact Hr; try exact I.
    destruct (js_truthy c); exact Hr.
  - unfold mbind, IO_bind.
    destruct (fs_readJson path w) as [v w'| e w' | |]; exact Hr.
Qed.

Lemma try_configs_cases (paths : list text) : forall notes w,
  match try_configs paths notes w with
  | Done (config, notes') w' =>
      w_files w' = w_files w
      /\ writes_of (w_trace w') = writes_of (w_trace w)
      /\ length notes' <= length notes + length paths
  | Lost => True
  | _ => False
  end.
Proof.
  induction paths as [|p paths IH]; intros notes w.
  - cbn [try_configs mret IO_ret]. rewrite length_rev. repeat split. simpl. lia.
  - cbn [try_configs]. unfold mbind at 1, IO_bind at 1, fs_pathExists.
    destruct (bool_decide (is_Some (w_files w !! p))).
    2:{ specialize (IH notes w).
        destruct (try_configs paths notes w) as [[c n] w'| | |]; try exact IH.
        destruct IH as (H1 & H2 & H3). repeat split; try assumption.
        simpl. lia. }
    unfold mbind at 1, IO_bind at 1, try_catch.
    unfold mbind at 1, IO_bind at 1.
    pose proof (read_config_cases p w) as Hr.
    destruct (read_config p w) as [[c|] w1| e w1 | |]; try exact Hr;
      cbn [mret IO_ret]; subst w1.
    + rewrite length_rev. repeat split. simpl. lia.
    + specialize (IH notes (emit (EvRead p) w)).
      destruct (try_configs paths notes (emit (EvRead p) w)) as [[c n] w'| | |];
        try exact IH.
      destruct IH as (H1 & H2 & H3). repeat split; try assumption. simpl. lia.
    + specialize (IH (WarnConfig p e :: notes) (emit (EvRead p) w)).
      destruct (try_configs paths (WarnConfig p e :: notes) (emit (EvRead p) w))
        as [[c n] w'| | |]; try exact IH.
      destruct IH as (H1 & H2 & H3). repeat split; try assumption.
      simpl in *. lia.
Qed.

Lemma join_all_length (root : text) (names : list string) : forall paths,
  join_all root names = Ok paths -> length paths = length names.
Proof.
  induction names as [|n names IH]; intros paths Hj.
  - injection Hj as <-. reflexivity.
  - cbn [join_all] in Hj. apply res_bind_ok in Hj as (p & _ & Hj).
    apply res_bind_ok in Hj as (ps & Hps & Hj). injection Hj as <-.
    simpl. rewrite (IH ps Hps). reflexivity.
Qed.

Lemma join_all_quiet (root : text) (names : list string) (e : exn) :
  join_all root names <> Throw e.
Proof.
  induction names as [|n names IH]; [discriminate|].
  cbn [join_all]. unfold path_join.
  destruct (clean_root root); [|discriminate].
  destruct (text_eqb root (str "/")); cbn [mbind res_bind];
    (destruct (join_all root names) as [ps| e' |];
     [discriminate|exact IH|discriminate]).
Qed.

(** X14: [loadConfig] never throws and never ends the process: it returns
    a configuration, with at most one warning for each of the four
    candidate files, and it writes no file (the model says nothing when
    the root or a document is outside its fragment). *)
Theorem loadConfig_never_raises (root : text) (w : world) :
  match loadConfig root w with
  | Done (config, notes) w' =>
      w_files w' = w_files w
      /\ writes_of (w_trace w') = writes_of (w_trace w)
      /\ length notes <= 4
  | Lost => True
  | _ => False
  end.
Proof.
  unfold loadConfig, mbind, IO_bind, lift.
  destruct (join_all root config_names) as [paths| e |] eqn:Ej.
  - assert (Hlen : length paths = 4) by exact (join_all_length _ _ _ Ej).
    pose proof (try_configs_cases paths [] w) as Ht.
    destruct (try_configs paths [] w) as [[c n] w'| | |]; try exact Ht.
    rewrite Hlen in Ht. exact Ht.
  - exact (join_all_quiet _ _ _ Ej).
  - exact I.
Qed.

Lemma starts_with_app (p a b : text) :
  length p <= length a -> starts_with p (a ++ b) = starts_with p a.
Proof.
  revert a. induction p as [|c p IH]; intros a Hl; [destruct a; reflexivity|].
  destruct a as [|x a]; [simpl in Hl; lia|].
  cbn [app starts_with]. rewrite IH by (simpl in Hl; lia). reflexivity.
Qed.

Lemma ends_with_app (base name suffix : text) :
  length suffix <= length name ->
  ends_with (base ++ name) suffix = ends_with name suffix.
Proof.
  intros Hl. unfold ends_with. rewrite rev_app_distr.
  apply starts_with_app. rewrite !length_rev. exact Hl.
Qed.

Lemma path_join_app (root name path : text) :
  path_join root name = Ok path -> exists base, path = base ++ name.
Proof.
  unfold path_join. destruct (clean_root root); [|discriminate].
  destruct (text_eqb root (str "/")); intros [= <-].
  - exists (str "/"). reflexivity.
  - exists (root ++ str "/"). rewrite <- app_assoc. reflexivity.
Qed.

Lemma config_paths (root : text) (paths : list text) :
  join_all root config_names = Ok paths ->
  exists p1 p2 p3 p4,
    paths = [p1; p2; p3; p4]
    /\ path_join root (str ".saferenamerc.json") = Ok p1
    /\ ends_with p1 (str "package.json") = false
    /\ ends_with p2 (str "package.json") = false
    /\ ends_with p3 (str "package.json") = false
    /\ ends_with p4 (str "package.json") = true.
Proof.
  unfold config_names. cbn [join_all]. intros Hj.
  apply res_bind_ok in Hj as (p1 & H1 & Hj).
  apply res_bind_ok in Hj as (l1 & Hl1 & Hj). injection Hj as <-.
  apply res_bind_ok in Hl1 as (p2 & H2 & Hj).
  apply res_bind_ok in Hj as (l2 & Hl2 & Hj). injection Hj as <-.
  apply res_bind_ok in Hl2 as (p3 & H3 & Hj).
  apply res_bind_ok in Hj as (l3 & Hl3 & Hj). injection Hj as <-.
  apply res_bind_ok in Hl3 as (p4 & H4 & Hj). injection Hj as <-.
  exists p1, p2, p3, p4. split; [reflexivity|]. split; [exact H1|].
  apply path_join_app in H1 as (b1 & ->). apply path_join_app in H2 as (b2 & ->).
  apply path_join_app in H3 as (b3 & ->). apply path_join_app in H4 as (b4 & ->).
  rewrite !ends_with_app by (simpl; lia). repeat split; reflexivity.
Qed.

Lemma try_configs_found (p : text) (rest : list text) (notes : list notice)
    (w : world) (f : file) (v : value) :
  ends_with p (str "package.json") = false ->
  w_files w !! p = Some f -> file_readable f = true ->
  JSON_parse (file_data f) = Ok v ->
  try_configs (p :: rest) notes w = Done (v, rev notes) (emit (EvRead p) w).
Proof.
  intros He Hf Hr Hp. cbn [try_configs].
  unfold mbind at 1, IO_bind at 1, fs_pathExists. rewrite Hf.
  rewrite bool_decide_eq_true_2 by eauto.
  unfold mbind at 1, IO_bind at 1, try_catch.
  unfold mbind at 1, IO_bind at 1. unfold read_config. rewrite He.
  unfold mbind at 1, IO_bind at 1. unfold fs_readJson.
  unfold mbind at 1, IO_bind at 1. unfold fs_readFile. rewrite Hf, Hr, Hp.
  reflexivity.
Qed.

Lemma try_configs_broken (p : text) (rest : list text) (notes : list notice)
    (w w1 : world) (e : exn) :
  is_Some (w_files w !! p) ->
  read_config p w = Raised e w1 ->
  try_configs (p :: rest) notes w
  = try_configs rest (WarnConfig p e :: notes) (emit (EvRead p) w).
Proof.
  intros Hs Hr. cbn [try_configs].
  unfold mbind at 1, IO_bind at 1, fs_pathExists.
  rewrite bool_decide_eq_true_2 by exact Hs.
  unfold mbind at 1, IO_bind at 1, try_catch.
  unfold mbind at 1, IO_bind at 1.
  pose proof (read_config_cases p w) as Hc. rewrite Hr in Hc. subst w1.
  rewrite Hr. reflexivity.
Qed.

Lemma try_configs_absent (paths : list text) (notes : list notice) (w : world) :
  Forall (fun p => w_files w !! p = None) paths ->
  try_configs paths notes w = Done (getDefaultConfig, rev notes) w.
Proof.
  induction 1 as [|p paths Hp _ IH]; [reflexivity|].
  cbn [try_configs]. unfold mbind at 1, IO_bind at 1, fs_pathExists.
  rewrite Hp. rewrite bool_decide_eq_false_2 by (intros [? ?]; discriminate).
  exact IH.
Qed.

(** X15: the first candidate, [.saferenamerc.json], wins: when it exists,
    can be read and parses, [loadConfig] returns the parsed document as it
    is, whatever the other candidates hold, with no warning and after
    reading that one file only; no default is filled in. *)
Theorem first_config_file_wins (root : text) (w : world) (path : text)
    (f : file) (v : value) :
  path_join root (str ".saferenamerc.json") = Ok path ->
  w_files w !! path = Some f -> file_readable f = true ->
  JSON_parse (file_data f) = Ok v ->
  loadConfig root w = Done (v, []) (emit (EvRead path) w).
Proof.
  intros Hj Hf Hr Hp. unfold loadConfig.
  destruct (join_all root config_names) as [paths| e |] eqn:Ej.
  - apply config_paths in Ej as (p1 & p2 & p3 & p4 & -> & H1 & He1 & _).
    rewrite Hj in H1. injection H1 as <-.
    unfold mbind, IO_bind. cbn [lift].
    apply (try_configs_found path [p2; p3; p4] [] w f v He1 Hf Hr Hp).
  - exfalso. exact (join_all_quiet _ _ _ Ej).
  - exfalso. unfold config_names in Ej. cbn [join_all] in Ej.
    rewrite Hj in Ej. cbn [mbind res_bind] in Ej. unfold path_join in *.
    destruct (clean_root root); [|discriminate].
    destruct (text_eqb root (str "/")); discriminate.
Qed.

(** X16: a configuration file that exists but does not parse is skipped
    with a warning that names it and carries the parse error: when
    [.saferenamerc.json] is such a file and the other three candidates do
    not exist, [loadConfig] returns the default configuration and that one
    warning, and changes no file. *)
Theorem broken_config_file_is_skipped (root : text) (w : world)
    (p1 p2 p3 p4 : text) (f : file) (e : exn) :
  join_all root config_names = Ok [p1; p2; p3; p4] ->
  w_files w !! p1 = Some f -> file_readable f = true ->
  JSON_parse (file_data f) = Throw e ->
  w_files w !! p2 = None -> w_files w !! p3 = None -> w_files w !! p4 = None ->
  loadConfig root w
  = Done (getDefaultConfig,
          [WarnConfig p1 {| exn_name := exn_name e;
                            exn_message := p1 ++ str ": " ++ exn_message e |}])
      (emit (EvRead p1) w).
Proof.
  intros Hj Hf Hrd Hp H2 H3 H4. unfold loadConfig. rewrite Hj.
  unfold mbind, IO_bind. cbn [lift].
  pose proof (config_paths root _ Hj) as (q1 & q2 & q3 & q4 & Hq & _ & He1 & _).
  injection Hq as <- <- <- <-.
  rewrite (try_configs_broken p1 [p2; p3; p4] [] w (emit (EvRead p1) w)
             {| exn_name := exn_name e;
                exn_message := p1 ++ str ": " ++ exn_message e |}).
  - apply (try_configs_absent [p2; p3; p4]).
    repeat constructor; assumption.
  - eauto.
  - unfold read_config. rewrite He1.
    unfold mbind, IO_bind, fs_readJson, fs_readFile.
    unfold mbind, IO_bind. rewrite Hf, Hrd, Hp. reflexivity.
Qed.

Lemma obj_get_spread (props : jsobj value) (k : text) :
  obj_get (map (fun kv => (fst kv, Some (snd kv))) props) k
  = option_map Some (obj_get props k).
Proof.
  induction props as [|[k' v'] props IH]; [reflexivity|].
  cbn [map obj_get fst snd]. destruct (text_eqb k' k); [reflexivity|exact IH].
Qed.

Lemma merge_field_object (props : jsobj value) (args : jsobj value)
    (argKey key : string) :
  merge_field (VObject props) args argKey key
  = Ok (if nullish (obj_get args (str argKey)) then obj_get props (str key)
        else obj_get args (str argKey)).
Proof.
  unfold merge_field. destruct (nullish (obj_get args (str argKey))); reflexivity.
Qed.

Ltac other_key :=
  let Hc := fresh in intros Hc; vm_compute in Hc; discriminate Hc.

(** X17: [mergeConfigWithArgs] on a configuration object: each of the five
    flags of the command line overrides the field of the configuration
    whenever it is given and is not [null], also when it is [false]; a
    flag that is not given or is [null] leaves the field of the
    configuration; a non-empty [multi-map] argument is parsed as JSON and
    replaces the rename map of the configuration; and every field of the
    configuration other than the six the function sets, [ignore] and
    [include] among them, is copied as it is, whatever the arguments
    hold. *)
Theorem cli_flags_override_config (props : jsobj value) (args : jsobj value)
    (merged : jsobj (option value)) :
  mergeConfigWithArgs (VObject props) args = Ok merged ->
  (forall argKey key, In (argKey, key) flag_names ->
     obj_get merged (str key)
     = Some (if nullish (obj_get args (str argKey))
             then obj_get props (str key)
             else obj_get args (str argKey)))
  /\ (forall s, obj_get args (str "multi-map") = Some (VString s) -> s <> [] ->
        exists m, JSON_parse s = Ok m
                  /\ obj_get merged (str "multiMap") = Some (Some m))
  /\ (forall k, ~ In k merged_fields ->
        obj_get merged k = option_map Some (obj_get props k)).
Proof.
  unfold mergeConfigWithArgs. cbn [spread mbind res_bind].
  rewrite !merge_field_object. cbn [mbind res_bind].
  intros Hm. apply res_bind_ok in Hm as (mm & Hmm & Hm). cbn beta in Hm.
  rewrite ?merge_field_object in Hm. cbn [mbind res_bind] in Hm.
  injection Hm as <-. split; [|split].
  - intros argKey key Hin. unfold flag_names in Hin. cbn [In] in Hin.
    destruct Hin as [[= <- <-]|[[= <- <-]|[[= <- <-]|[[= <- <-]|[[= <- <-]|[]]]]]].
    + rewrite !obj_get_define_ne by other_key. apply obj_get_define_eq.
    + rewrite !obj_get_define_ne by other_key. apply obj_get_define_eq.
    + rewrite !obj_get_define_ne by other_key. apply obj_get_define_eq.
    + rewrite !obj_get_define_ne by other_key. apply obj_get_define_eq.
    + apply obj_get_define_eq.
  - intros s Hs Hne. unfold merge_multiMap in Hmm. rewrite Hs in Hmm.
    cbn [js_truthy] in Hmm.
    assert (text_eqb s [] = false) as E by (apply text_eqb_false; exact Hne).
    rewrite E in Hmm. cbn [negb] in Hmm.
    apply res_bind_ok in Hmm as (m & Hp & Hmm). injection Hmm as <-.
    exists m. split; [exact Hp|].
    rewrite !obj_get_define_ne by other_key. apply obj_get_define_eq.
  - intros k Hk. unfold merged_fields in Hk. cbn [In] in Hk.
    rewrite !obj_get_define_ne by (intros Heq; apply Hk; subst k; auto 10).
    apply obj_get_spread.
Qed.

End Config.

(** ** Validation *)

Lemma invalid_class (c : ascii) :
  class_match false false
    ([CChar "<"; CChar ">"; CChar ":"; CChar dq; CChar "/"; CChar bsl;
      CChar "|"; CChar "?"; CChar "*"] ++ class_range 0 31) c
  = invalid_char c.
Proof. destruct c as [[] [] [] [] [] [] [] []]; vm_compute; reflexivity. Qed.

Lemma search_invalid (after : text) : forall before,
  match search invalidChars before after with
  | Some _ => true
  | None => false
  end = existsb invalid_char after.
Proof.
  induction after as [|x xs IH]; intros before; [reflexivity|].
  cbn [search]. unfold exec_at, invalidChars, literal.
  cbn [re_tree re_ignoreCase seq_of rmatch m_one m_after].
  rewrite invalid_class. cbn [existsb].
  destruct (invalid_char x); [reflexivity|]. apply IH.
Qed.

Lemma test_invalid (s : text) :
  RegExp_test invalidChars s = existsb invalid_char s.
Proof. unfold RegExp_test. apply search_invalid. Qed.

Lemma length_zero_nil (s : text) : Nat.eqb (length s) 0 = text_eqb s [].
Proof.
  destruct s; [reflexivity|]. simpl. symmetry. apply text_eqb_false. discriminate.
Qed.

Lemma push_if_nil (c : bool) (e : ValidationIssue) (l : list ValidationIssue) :
  Nat.eqb (length (push_if c e l)) 0 = Nat.eqb (length l) 0 && negb c.
Proof.
  unfold push_if. destruct c.
  - rewrite length_app. simpl. rewrite andb_false_r.
    apply Nat.eqb_neq. lia.
  - rewrite andb_true_r. reflexivity.
Qed.

Lemma names_accepted_ok (oldName newName : text) :
  isValid (validateRenameOptions oldName newName) = acceptable oldName newName.
Proof.
  unfold validateRenameOptions, acceptable. cbn [isValid].
  rewrite !push_if_nil. cbn [length Nat.eqb andb].
  rewrite !test_invalid, !length_zero_nil.
  rewrite !Nat.ltb_antisym.
  assert (Hg : forall s, given s = false -> text_eqb (trim s) [] = true).
  { intros [|x s] Hs; [reflexivity|]. unfold given in Hs.
    apply negb_false_iff, text_eqb_true in Hs. discriminate. }
  pose proof (Hg oldName) as Ho. pose proof (Hg newName) as Hn.
  destruct (given oldName), (given newName),
    (text_eqb (trim oldName) []), (text_eqb (trim newName) []),
    (Nat.leb (length oldName) 255), (Nat.leb (length newName) 255),
    (text_eqb (trim oldName) (trim newName)),
    (existsb invalid_char oldName), (existsb invalid_char newName);
    try reflexivity;
    try (specialize (Ho eq_refl); discriminate);
    try (specialize (Hn eq_refl); discriminate).
Qed.

(** X18: [validateRenameOptions] accepts a pair of names exactly when both
    hold a character that is no white space, neither is longer than 255
    characters, they differ once trimmed, and neither holds a control
    character or one of the nine characters of the invalid set, the slash
    among them. *)
Theorem names_accepted_iff (oldName newName : text) :
  isValid (validateRenameOptions oldName newName) = acceptable oldName newName
  /\ (isValid (validateRenameOptions oldName newName) = true ->
      errors (validateRenameOptions oldName newName) = []
      /\ oldName <> [] /\ newName <> []
      /\ ~ In "/" oldName /\ ~ In "/" newName).
Proof.
  split; [apply names_accepted_ok|].
  intros Hv. split.
  { unfold validateRenameOptions in *. cbn [isValid errors] in *.
    apply Nat.eqb_eq in Hv. destruct (push_if _ _ _); [reflexivity|discriminate]. }
  rewrite names_accepted_ok in Hv. unfold acceptable in Hv.
  repeat (apply andb_true_iff in Hv as [Hv ?]).
  assert (Hslash : forall s, negb (existsb invalid_char s) = true -> ~ In "/" s).
  { intros s Hs Hin. apply negb_true_iff in Hs.
    assert (existsb invalid_char s = true); [|congruence].
    apply existsb_exists. exists "/". split; [exact Hin|reflexivity]. }
  repeat split; auto.
  - intros ->. discriminate.
  - intros ->. discriminate.
Qed.

Lemma entries_errors (entries : jsobj value) : forall acc errs,
  validate_entries entries acc = Ok errs ->
  errs = acc ++ flat_map entry_errors entries
  /\ Forall (fun kv => exists n, snd kv = VString n) entries.
Proof.
  induction entries as [|[k v] l IH]; intros acc errs Hv.
  - injection Hv as <-. rewrite app_nil_r. split; [reflexivity|constructor].
  - cbn [validate_entries] in Hv. destruct v; try discriminate.
    apply IH in Hv as [-> HF]. split; [|constructor; [eexists; reflexivity|exact HF]].
    cbn [flat_map]. unfold entry_errors at 2. cbn [snd fst].
    destruct (isValid (validateRenameOptions k s)) eqn:E.
    + cbn [validateRenameOptions isValid] in E.
      assert (errors (validateRenameOptions k s) = []) as ->.
      { unfold validateRenameOptions in *. cbn [isValid errors] in *.
        apply Nat.eqb_eq in E. destruct (push_if _ _ _); [reflexivity|discriminate]. }
      reflexivity.
    + rewrite <- app_assoc. reflexivity.
Qed.

Lemma entry_errors_nil (kv : text * value) (n : text) :
  snd kv = VString n ->
  Nat.eqb (length (entry_errors kv)) 0 = acceptable_entry kv.
Proof.
  intros Hs. unfold entry_errors, acceptable_entry. rewrite Hs.
  rewrite length_map, <- names_accepted_ok. reflexivity.
Qed.

Lemma flat_map_nil {A B} (f : A -> list B) (l : list A) :
  Nat.eqb (length (flat_map f l)) 0
  = forallb (fun x => Nat.eqb (length (f x)) 0) l.
Proof.
  induction l as [|x l IH]; [reflexivity|].
  cbn [flat_map forallb]. rewrite length_app, <- IH.
  destruct (length (f x)), (length (flat_map f l)); reflexivity.
Qed.

(** X19: [validateMultiMap] on an object whose values are strings: the map
    is valid exactly when every pair of old and new name is acceptable to
    [validateRenameOptions]; the errors are those of the pairs, in the
    order of the map, each under the field of the map and with the pair as
    its value. *)
Theorem multi_map_accepted_iff (props : jsobj value) (r : ValidationResult) :
  validateMultiMap (Some (VObject props)) = Ok r ->
  isValid r = forallb acceptable_entry props
  /\ errors r = flat_map entry_errors props
  /\ Forall (fun e => exists field, v_field e = str "multiMap." ++ field)
       (errors r).
Proof.
  unfold validateMultiMap, Object_entries. intros Hv.
  apply res_bind_ok in Hv as (errs & He & Hv). injection Hv as <-.
  apply entries_errors in He as [-> HF]. cbn [app isValid errors].
  split; [|split; [reflexivity|]].
  - rewrite flat_map_nil. clear -HF.
    induction HF as [|kv l (n & Hn) _ IH]; [reflexivity|].
    cbn [forallb]. rewrite IH, (entry_errors_nil kv n Hn). reflexivity.
  - apply List.Forall_forall. intros e He. apply in_flat_map in He as (kv & _ & He).
    unfold entry_errors in He. destruct (snd kv); try contradiction.
    apply in_map_iff in He as (e0 & <- & _). eexists. reflexivity.
Qed.

Lemma check_fields_nil (config : jsobj value) (ok : value -> bool)
    (what : string) (fields : list string) : forall acc,
  Nat.eqb (length (check_fields config ok what fields acc)) 0
  = Nat.eqb (length acc) 0 && forallb (absent_or ok config) fields.
Proof.
  induction fields as [|f fields IH]; intros acc.
  - cbn [check_fields forallb]. rewrite andb_true_r. reflexivity.
  - cbn [check_fields forallb]. rewrite IH. unfold absent_or at 2.
    destruct (obj_get config (str f)) as [v|].
    + rewrite push_if_nil, negb_involutive, andb_assoc. reflexivity.
    + rewrite andb_assoc, andb_true_r. reflexivity.
Qed.

(** X20: [validateConfig] accepts a configuration exactly when each of
    [updatePackage], [updateRemote], [caseSensitive] and [dry] is absent
    or a boolean, each of [ignore] and [include] is absent or an array, and
    [concurrency] is absent or a number from 1 to 100; [null] in the place
    of any of them is rejected, and no other field is looked at. *)
Theorem config_accepted_iff (config : jsobj value) (r : ValidationResult) :
  validateConfig config = Ok r ->
  isValid r = acceptable_config config.
Proof.
  unfold validateConfig, acceptable_config. cbn zeta.
  set (errs2 := check_fields config is_array _ _ _).
  assert (H2 : Nat.eqb (length errs2) 0
               = forallb (absent_or is_boolean config)
                   ["updatePackage"; "updateRemote"; "caseSensitive"; "dry"]%string
                 && forallb (absent_or is_array config) ["ignore"; "include"]%string).
  { subst errs2. rewrite !check_fields_nil. reflexivity. }
  clearbody errs2. intros Hv.
  apply res_bind_ok in Hv as (errs & He & Hv). injection Hv as <-.
  cbn [isValid]. unfold absent_or at 3.
  destruct (obj_get config (str "concurrency")) as [v|].
  - apply res_bind_ok in He as (bad & Hb & He). injection He as <-.
    rewrite push_if_nil, H2.
    f_equal. unfold in_range. destruct v; try (injection Hb as <-; reflexivity).
    destruct (integer_of repr) as [n|]; [|discriminate].
    injection Hb as <-. rewrite negb_orb, !Z.ltb_antisym, !negb_involutive.
    reflexivity.
  - injection He as <-. rewrite H2, andb_true_r. reflexivity.
Qed.

(** ** The planner *)

Lemma insert_entry_in (e x : text * nat) (l : list (text * nat)) :
  In x (insert_entry e l) <-> x = e \/ In x l.
Proof.
  induction l as [|y l IH]; cbn [insert_entry].
  - simpl. intuition.
  - destruct (Nat.leb (snd y) (snd e)); simpl; [intuition|].
    rewrite IH. intuition.
Qed.

Lemma insert_entry_keys (e : text * nat) (l : list (text * nat)) :
  forall k, In k (map fst (insert_entry e l)) <-> k = fst e \/ In k (map fst l).
Proof.
  intros k. rewrite !in_map_iff. split.
  - intros (x & <- & Hx). apply insert_entry_in in Hx as [->|Hx]; [left; reflexivity|].
    right. exists x. split; [reflexivity|exact Hx].
  - intros [->|(x & <- & Hx)].
    + exists e. split; [reflexivity|]. apply insert_entry_in. left. reflexivity.
    + exists x. split; [reflexivity|].
      apply insert_entry_in. right. exact Hx.
Qed.

Lemma insert_entry_NoDup (e : text * nat) (l : list (text * nat)) :
  ~ In (fst e) (map fst l) -> NoDup (map fst l) ->
  NoDup (map fst (insert_entry e l)).
Proof.
  induction l as [|y l IH]; intros Hn Hnd; cbn [insert_entry].
  - simpl. apply NoDup_singleton.
  - destruct (Nat.leb (snd y) (snd e)).
    + cbn [map]. apply NoDup_cons. split; [|exact Hnd].
      rewrite list_elem_of_In. exact Hn.
    + cbn [map] in *. apply NoDup_cons in Hnd as [Hy Hl].
      apply NoDup_cons. split.
      * rewrite list_elem_of_In, insert_entry_keys. intros [Heq|Hin].
        -- apply Hn. left. exact Heq.
        -- apply Hy. apply list_elem_of_In. exact Hin.
      * apply IH; [|exact Hl]. intros Hin. apply Hn. right. exact Hin.
Qed.

Lemma insert_entry_descending (e : text * nat) (l : list (text * nat)) :
  descending l = true -> descending (insert_entry e l) = true.
Proof.
  induction l as [|y l IH]; intros Hd; [reflexivity|].
  cbn [insert_entry]. destruct (Nat.leb (snd y) (snd e)) eqn:E.
  - cbn [descending]. cbn [descending] in Hd. rewrite E. exact Hd.
  - assert (Hl : descending l = true).
    { cbn [descending] in Hd. destruct l; [reflexivity|].
      apply andb_true_iff in Hd as [_ Hd]. exact Hd. }
    specialize (IH Hl).
    cbn [descending]. destruct (insert_entry e l) as [|z l'] eqn:Ei; [reflexivity|].
    rewrite IH, andb_true_r.
    assert (Hz : In z (insert_entry e l)) by (rewrite Ei; left; reflexivity).
    apply insert_entry_in in Hz as [->|Hz].
    + apply Nat.leb_le. apply Nat.leb_gt in E. lia.
    + destruct l as [|y2 l2]; [contradiction|].
      cbn [insert_entry] in Ei.
      destruct (Nat.leb (snd y2) (snd e)).
      * injection Ei as <- <-. apply Nat.leb_le. apply Nat.leb_gt in E. lia.
      * injection Ei as <- <-. cbn [descending] in Hd.
        apply andb_true_iff in Hd as [Hd _]. exact Hd.
Qed.

Lemma insert_entry_length (e : text * nat) (l : list (text * nat)) :
  length (insert_entry e l) = S (length l).
Proof.
  induction l as [|y s IHs]; [reflexivity|].
  cbn [insert_entry]. destruct (Nat.leb (snd y) (snd e)); simpl in *; lia.
Qed.

Lemma sort_entries_spec (l : list (text * nat)) :
  descending (sort_entries l) = true
  /\ (forall x, In x (sort_entries l) <-> In x l)
  /\ (NoDup (map fst l) -> NoDup (map fst (sort_entries l)))
  /\ length (sort_entries l) = length l.
Proof.
  induction l as [|e l (IH1 & IH2 & IH3 & IH4)].
  - repeat split; auto.
  - cbn [sort_entries fold_right]. fold (sort_entries l).
    split; [apply insert_entry_descending; exact IH1|]. split; [|split].
    + intros x. rewrite insert_entry_in, IH2. simpl. intuition.
    + intros Hnd. cbn [map] in Hnd. apply NoDup_cons in Hnd as [He Hl].
      apply insert_entry_NoDup; [|apply IH3; exact Hl].
      intros Hin. apply He. apply list_elem_of_In.
      apply in_map_iff in Hin as (x & Hx & Hin).
      apply IH2 in Hin. rewrite <- Hx. apply in_map. exact Hin.
    + rewrite insert_entry_length, IH4. reflexivity.
Qed.

Lemma descending_firstn (n : nat) : forall l,
  descending l = true -> descending (firstn n l) = true.
Proof.
  induction n as [|n IH]; intros l Hd; [reflexivity|].
  destruct l as [|a l]; [reflexivity|].
  cbn [firstn]. cbn [descending] in Hd. destruct l as [|b l].
  - destruct n; reflexivity.
  - apply andb_true_iff in Hd as [Hab Hd]. specialize (IH (b :: l) Hd).
    destruct n as [|n]; [reflexivity|].
    cbn [firstn] in *. cbn [descending]. cbn [descending] in IH.
    rewrite Hab. exact IH.
Qed.

Lemma text_eqb_sym (a b : text) : text_eqb a b = text_eqb b a.
Proof. unfold text_eqb. apply bool_decide_ext. split; congruence. Qed.

Lemma add_spec (freq freq' : jsobj nat) (word : text) :
  add freq word = Ok freq' ->
  (NoDup (map fst freq) -> NoDup (map fst freq'))
  /\ forall w, obj_get freq' w
               = if text_eqb word w
                 then Some (match obj_get freq w with Some n => n + 1 | None => 1 end)
                 else obj_get freq w.
Proof.
  unfold add. destruct (inherited word); [discriminate|].
  intros Ha.
  assert (Hf : freq' = obj_define freq word
                 (match obj_get freq word with Some n => n + 1 | None => 1 end)).
  { destruct (obj_get freq word); injection Ha as <-; reflexivity. }
  subst freq'. split; [apply obj_define_NoDup|].
  intros w. destruct (text_eqb word w) eqn:E.
  - apply text_eqb_true in E. subst w. apply obj_get_define_eq.
  - apply text_eqb_false in E. apply obj_get_define_ne. exact E.
Qed.

Lemma add_all_spec (words : list text) : forall freq freq',
  add_all freq words = Ok freq' ->
  (NoDup (map fst freq) -> NoDup (map fst freq'))
  /\ forall w, obj_get freq' w
               = match occurrences words w with
                 | O => obj_get freq w
                 | S n => Some (match obj_get freq w with
                                | Some n0 => n0 + S n
                                | None => S n
                                end)
                 end.
Proof.
  induction words as [|word words IH]; intros freq freq' Ha.
  - injection Ha as <-. split; [auto|]. intros w. reflexivity.
  - cbn [add_all] in Ha. apply res_bind_ok in Ha as (f1 & H1 & Ha).
    apply add_spec in H1 as [Hn1 Hg1]. apply IH in Ha as [Hn2 Hg2].
    split; [auto|]. intros w. rewrite Hg2, Hg1. unfold occurrences.
    cbn [List.filter]. rewrite (text_eqb_sym w word).
    destruct (text_eqb word w); cbn [length];
      destruct (length (List.filter (text_eqb w) words));
      destruct (obj_get freq w); try reflexivity; f_equal; lia.
Qed.

Lemma add_all_app (a b : list text) : forall freq,
  add_all freq (a ++ b) = add_all freq a ≫= fun f => add_all f b.
Proof.
  induction a as [|x a IH]; intros freq; [reflexivity|].
  cbn [app add_all]. destruct (add freq x); try reflexivity. apply IH.
Qed.

Lemma obj_get_entries {A} (o : jsobj A) (k : text) (v : A) :
  NoDup (map fst o) -> (In (k, v) o <-> obj_get o k = Some v).
Proof.
  induction o as [|[k' v'] o IH]; intros Hnd; cbn [obj_get].
  - split; [intros []|discriminate].
  - cbn [map fst] in Hnd. apply NoDup_cons in Hnd as [Hk Hnd].
    destruct (text_eqb k' k) eqn:E.
    + apply text_eqb_true in E. subst k'. split.
      * intros [Heq|Hin]; [injection Heq as <-; reflexivity|].
        exfalso. apply Hk. apply list_elem_of_In.
        apply (in_map fst) in Hin. exact Hin.
      * intros Heq. injection Heq as <-. left. reflexivity.
    + apply text_eqb_false in E. rewrite <- (IH Hnd). split.
      * intros [Heq|Hin]; [injection Heq as -> _; contradiction|exact Hin].
      * intros Hin. right. exact Hin.
Qed.

Lemma descending_cons (x : text * nat) (l : list (text * nat)) :
  descending (x :: l) = true ->
  descending l = true /\ forall y, In y l -> snd y <= snd x.
Proof.
  revert x. induction l as [|b l IH]; intros x Hd.
  - split; [reflexivity|intros y []].
  - cbn [descending] in Hd. apply andb_true_iff in Hd as [Hb Hd].
    split; [exact Hd|]. apply Nat.leb_le in Hb.
    destruct (IH b Hd) as [_ Hl]. intros y [<-|Hin]; [exact Hb|].
    specialize (Hl y Hin). lia.
Qed.

Lemma descending_app (a b : list (text * nat)) :
  descending (a ++ b) = true ->
  forall x y, In x a -> In y b -> snd y <= snd x.
Proof.
  induction a as [|c a IH]; intros Hd x y Hx Hy; [destruct Hx|].
  cbn [app] in Hd. apply descending_cons in Hd as [Hd Hl].
  destruct Hx as [<-|Hx].
  - apply Hl. apply in_or_app. right. exact Hy.
  - apply (IH Hd x y Hx Hy).
Qed.

Lemma add_all_ok (words : list text) : forall freq,
  own_words words = true -> exists freq', add_all freq words = Ok freq'.
Proof.
  induction words as [|word words IH]; intros freq Ho.
  - exists freq. reflexivity.
  - cbn [own_words forallb] in Ho. apply andb_true_iff in Ho as [Hw Ho].
    apply negb_true_iff in Hw. cbn [add_all]. unfold add. rewrite Hw.
    destruct (obj_get freq word); cbn [mbind res_bind]; apply IH; exact Ho.
Qed.

Lemma own_words_app (a b : list text) :
  own_words (a ++ b) = own_words a && own_words b.
Proof. unfold own_words. apply forallb_app. Qed.

Lemma analyze_files_run (root : text) (files : list text) :
  forall freq w words,
  repo_words root files (w_files w) = Some words ->
  own_words words = true ->
  exists freq',
    add_all freq words = Ok freq'
    /\ analyze_files root files freq w
       = Done freq' {| w_files := w_files w;
                       w_trace := rev (reads root files) ++ w_trace w |}.
Proof.
  induction files as [|f files IH]; intros freq w words Hr Ho.
  - injection Hr as <-. exists freq. split; [reflexivity|].
    destruct w; reflexivity.
  - cbn [repo_words] in Hr.
    destruct (w_files w !! (root ++ str "/" ++ f)) as [x|] eqn:Hx;
      [|discriminate].
    destruct (file_readable x) eqn:Hrd; [|discriminate].
    destruct (words_of (file_data x)) as [ws| |] eqn:Hws; try discriminate.
    destruct (repo_words root files (w_files w)) as [rest|] eqn:Hrest;
      [|discriminate].
    injection Hr as <-. rewrite own_words_app in Ho.
    apply andb_true_iff in Ho as [Ho1 Ho2].
    destruct (add_all_ok ws freq Ho1) as (f1 & Hf1).
    destruct (IH f1 (emit (EvRead (root ++ str "/" ++ f)) w) rest Hrest Ho2)
      as (freq' & Ha & Hrun).
    exists freq'. split.
    + rewrite add_all_app, Hf1. exact Ha.
    + cbn [analyze_files]. unfold mbind, IO_bind, fs_readFile.
      rewrite Hx, Hrd, Hws. unfold lift at 1. rewrite Hf1. unfold lift at 1.
      rewrite Hrun. cbn [emit w_files w_trace reads map rev].
      rewrite <- app_assoc. reflexivity.
Qed.

Lemma NoDup_keys_firstn (n : nat) (l : list (text * nat)) :
  NoDup (map fst l) -> NoDup (map fst (firstn n l)).
Proof.
  intros Hnd. rewrite <- (firstn_skipn n l), map_app in Hnd.
  apply NoDup_app in Hnd as [Hnd _]. exact Hnd.
Qed.

(** X21: when every listed file can be read, [analyzeRepo] reads each of
    them once, in the order of the list, writes nothing, and returns at most
    twenty distinct tokens by falling count; the count of a token is the
    number of times it stands among the words of the files, and a token
    that is left out stands no more often than any of the twenty. *)
Theorem analyzeRepo_top_tokens (root : text) (files : list text) (w : world)
    (words : list text) :
  repo_words root files (w_files w) = Some words ->
  own_words words = true ->
  exists top,
    analyzeRepo root files w
      = Done top {| w_files := w_files w;
                    w_trace := rev (reads root files) ++ w_trace w |}
    /\ length top <= 20
    /\ descending top = true
    /\ NoDup (map fst top)
    /\ (forall t n, In (t, n) top -> n = occurrences words t /\ 1 <= n)
    /\ (forall t, 1 <= occurrences words t -> ~ In t (map fst top) ->
        length top = 20
        /\ forall e, In e top -> occurrences words t <= snd e).
Proof.
  intros Hr Ho.
  destruct (analyze_files_run root files [] w words Hr Ho)
    as (freq & Ha & Hrun).
  apply add_all_spec in Ha as [Hnd Hget].
  specialize (Hnd (NoDup_nil_2 : NoDup (map fst (@nil (text * nat))))).
  destruct (sort_entries_spec (Object_entries freq))
    as (Hd & Hin & Hsnd & Hlen).
  unfold Object_entries in *. specialize (Hsnd Hnd).
  assert (Hcount : forall t n, In (t, n) (sort_entries freq) <->
                     n = occurrences words t /\ 1 <= n).
  { intros t n. rewrite Hin, (obj_get_entries freq t n Hnd), Hget.
    cbn [obj_get]. destruct (occurrences words t) as [|k].
    - split; [discriminate|]. intros [-> Hle]. lia.
    - split.
      + intros Heq. injection Heq as <-. split; [reflexivity|lia].
      + intros [-> _]. reflexivity. }
  exists (firstn 20 (sort_entries freq)). split; [|split; [|split; [|split; [|split]]]].
  - unfold analyzeRepo, mbind, IO_bind. rewrite Hrun. reflexivity.
  - apply firstn_le_length.
  - apply descending_firstn. exact Hd.
  - apply NoDup_keys_firstn. exact Hsnd.
  - intros t n Hi. apply Hcount.
    rewrite <- (firstn_skipn 20 (sort_entries freq)).
    apply in_or_app. left. exact Hi.
  - intros t Ht Hout.
    assert (Hs : In (t, occurrences words t) (sort_entries freq))
      by (apply Hcount; split; [reflexivity|exact Ht]).
    rewrite <- (firstn_skipn 20 (sort_entries freq)) in Hs, Hd.
    apply in_app_or in Hs as [Hs|Hs].
    + exfalso. apply Hout. apply (in_map fst) in Hs. exact Hs.
    + split.
      * destruct (Nat.le_gt_cases 20 (length (sort_entries freq))) as [Hge|Hlt].
        -- rewrite firstn_length_le; [reflexivity|exact Hge].
        -- rewrite skipn_all2 in Hs by lia. destruct Hs.
      * intros e He. apply (descending_app _ _ Hd e _ He Hs).
Qed.

Lemma analyze_files_app (root : text) (a b : list text) : forall freq w,
  analyze_files root (a ++ b) freq w
  = (analyze_files root a freq ≫= analyze_files root b) w.
Proof.
  induction a as [|f a IH]; intros freq w; [reflexivity|].
  cbn [app analyze_files]. unfold mbind, IO_bind.
  destruct (fs_readFile _ w) as [content w1| | |]; try reflexivity.
  destruct (lift (words_of content) w1) as [ws w2| | |]; try reflexivity.
  destruct (lift (add_all freq ws) w2) as [f1 w3| | |]; try reflexivity.
  apply IH.
Qed.

(** X22: the loop over the files has no handler: at the first listed file
    that is missing the analysis is rejected with the error of the read,
    the files after it are not opened and no token is returned. *)
Theorem analyzeRepo_rejects_at_missing_file (root : text)
    (before : list text) (f : text) (after : list text) (w : world)
    (words : list text) :
  repo_words root before (w_files w) = Some words ->
  own_words words = true ->
  w_files w !! (root ++ str "/" ++ f) = None ->
  analyzeRepo root (before ++ f :: after) w
  = Raised (fs_error "ENOENT: no such file or directory"
              (root ++ str "/" ++ f))
      {| w_files := w_files w;
         w_trace := EvRead (root ++ str "/" ++ f)
                    :: rev (reads root before) ++ w_trace w |}.
Proof.
  intros Hr Ho Hf.
  destruct (analyze_files_run root before [] w words Hr Ho)
    as (freq & _ & Hrun).
  unfold analyzeRepo. unfold mbind at 1. unfold IO_bind.
  rewrite analyze_files_app. unfold mbind at 1. unfold IO_bind.
  rewrite Hrun. cbn [analyze_files]. unfold mbind, IO_bind, fs_readFile.
  cbn [w_files]. rewrite Hf. reflexivity.
Qed.

(** ** The shapes of the tokens of the planner *)

Lemma consumes_weaken (P Q : text -> Prop) step :
  (forall m, P m -> Q m) -> consumes P step -> consumes Q step.
Proof.
  intros HPQ Hc st k res E. apply Hc in E as (mid & st' & Hp & A & B & E).
  exists mid, st'. auto.
Qed.

Lemma consumes_one (ok : ascii -> bool) : consumes (one_of ok) (m_one ok).
Proof.
  intros st k res. unfold m_one.
  destruct (m_after st) as [|x xs] eqn:E; [discriminate|].
  destruct (ok x) eqn:Hok; [|discriminate]. intros Hk.
  exists [x], (m_advance x xs st). split; [exists x; auto|].
  split; [reflexivity|]. split; [reflexivity|exact Hk].
Qed.

Lemma consumes_seq (ic : bool) (a b : regex) (P Q : text -> Prop) :
  consumes P (rmatch ic a) -> consumes Q (rmatch ic b) ->
  consumes (then_ P Q) (rmatch ic (RSeq a b)).
Proof.
  intros Ha Hb st k res E. cbn [rmatch] in E.
  apply Ha in E as (m1 & st1 & Hp & A1 & B1 & E).
  apply Hb in E as (m2 & st2 & Hq & A2 & B2 & E).
  exists (m1 ++ m2), st2. split; [exists m1, m2; auto|].
  split; [rewrite A1, A2, app_assoc; reflexivity|].
  split; [|exact E]. rewrite B2, B1, rev_app_distr, app_assoc. reflexivity.
Qed.

Lemma consumes_empty (ic : bool) : consumes (eq []) (rmatch ic REmpty).
Proof.
  intros st k res E. exists [], st. repeat split; auto.
Qed.

Lemma consumes_group (ic : bool) (i : nat) (a : regex) (P : text -> Prop) :
  consumes P (rmatch ic a) -> consumes P (rmatch ic (RGroup i a)).
Proof.
  intros Ha st k res E. cbn [rmatch] in E.
  apply Ha in E as (m & st1 & Hp & A & B & E).
  exists m, (set_cap i st st1). auto.
Qed.

Lemma consumes_char (ic : bool) (c : ascii) :
  consumes (one_of (char_eq ic c)) (rmatch ic (RChar c)).
Proof. apply consumes_one. Qed.

Lemma consumes_class (ic neg : bool) (items : list citem) :
  consumes (one_of (class_match ic neg items)) (rmatch ic (RClass neg items)).
Proof. apply consumes_one. Qed.

(** The quantifier of a character set. *)
Lemma rep_loop_run (ok : ascii -> bool) (gs : list nat) (greedy : bool) :
  forall fuel mn,
    consumes (run_of mn ok)
      (fun st k =>
         rep_loop (fun s => m_one ok (clear_caps gs s)) greedy fuel mn None
           st k).
Proof.
  induction fuel as [|fuel IH]; intros mn st k res; [discriminate|].
  cbn [rep_loop].
  set (goal := exists mid st',
         run_of mn ok mid /\ m_after st = mid ++ m_after st'
         /\ m_before st' = rev mid ++ m_before st /\ k st' = Some res).
  assert (Hagain :
    m_one ok (clear_caps gs st) (fun st' =>
      if Nat.eqb mn 0 && Nat.eqb (length (m_after st')) (length (m_after st))
      then None else rep_loop (fun s => m_one ok (clear_caps gs s)) greedy fuel
                       (pred mn) (dec_max None) st' k) = Some res -> goal).
  { intros Hr. apply consumes_one in Hr as (m1 & st1 & (x & -> & Hx) & A1 & B1 & Hr).
    destruct (_ && _); [discriminate|].
    cbn [dec_max] in Hr. apply IH in Hr as (m2 & st2 & (Hlen & Hall) & A2 & B2 & Hr).
    exists (x :: m2), st2. split; [|split; [|split; [|exact Hr]]].
    - split; [cbn [length]; lia|]. cbn [forallb]. rewrite Hx. exact Hall.
    - cbn [clear_caps m_after] in A1. rewrite A1, A2. reflexivity.
    - cbn [clear_caps m_before] in B1. rewrite B2, B1. cbn [rev app].
      rewrite <- app_assoc. reflexivity. }
  assert (Hhere : mn = 0 -> k st = Some res -> goal).
  { intros -> Hr. exists [], st. split; [split; [cbn; lia|reflexivity]|].
    split; [reflexivity|]. split; [reflexivity|exact Hr]. }
  destruct (Nat.eqb mn 0) eqn:Emn; cbn [negb].
  - apply Nat.eqb_eq in Emn.
    destruct greedy;
      match goal with
      | |- match ?o with Some _ => _ | None => _ end = _ -> _ =>
          destruct o as [r|] eqn:Eo
      end; intros Hr.
    + injection Hr as ->. apply Hagain. reflexivity.
    + apply Hhere; assumption.
    + injection Hr as ->. apply Hhere; [assumption|reflexivity].
    + apply Hagain. exact Hr.
  - exact Hagain.
Qed.

Lemma consumes_run (ic greedy neg : bool) (mn : nat) (items : list citem) :
  consumes (run_of mn (class_match ic neg items))
    (rmatch ic (RQuant greedy mn None (RClass neg items))).
Proof.
  intros st k res E. cbn [rmatch groups_in] in E.
  apply (rep_loop_run (class_match ic neg items) [] greedy) in E. exact E.
Qed.

(** What a pattern consumes is what a match holds. *)
Lemma exec_at_consumes (P : text -> Prop) (re : RegExp) (before after : text)
    (st' : mstate) :
  consumes P (rmatch (re_ignoreCase re) (re_tree re)) ->
  exec_at re before after = Some st' ->
  exists matched,
    P matched
    /\ after = matched ++ m_after st'
    /\ m_before st' = rev matched ++ before
    /\ rev (firstn (length (m_before st') - length before) (m_before st'))
       = matched.
Proof.
  unfold exec_at. intros Hc E.
  apply Hc in E as (m & st1 & Hp & A & B & [= ->]).
  simpl in A, B. exists m. split; [exact Hp|].
  split; [assumption|]. split; [assumption|].
  rewrite B, length_app, length_rev.
  replace (length m + length before - length before) with (length (rev m))
    by (rewrite length_rev; lia).
  rewrite firstn_app, Nat.sub_diag, firstn_O, app_nil_r, firstn_all.
  apply rev_involutive.
Qed.

Lemma match_from_all (P : text -> Prop) (re : RegExp) :
  consumes P (rmatch (re_ignoreCase re) (re_tree re)) ->
  forall fuel before after t,
    In t (match_from fuel re before after) ->
    P t /\ exists a b, after = a ++ t ++ b.
Proof.
  intros Hc. induction fuel as [|fuel IH]; intros before after t Hin;
    [destruct Hin|].
  cbn [match_from] in Hin.
  assert (Hnext : forall x xs, after = x :: xs ->
            In t (match_from fuel re (x :: before) xs) ->
            P t /\ exists a b, after = a ++ t ++ b).
  { intros x xs -> Hi. apply IH in Hi as (Hp & a & b & ->).
    split; [exact Hp|]. exists (x :: a), b. reflexivity. }
  destruct (exec_at re before after) as [st'|] eqn:E.
  - apply (exec_at_consumes P) in E as (m & Hp & A & B & C); [|exact Hc].
    rewrite C in Hin. destruct m as [|c m].
    + assert (Hnil : P [] /\ exists a b, after = a ++ [] ++ b)
        by (split; [exact Hp|]; exists [], after; reflexivity).
      destruct after as [|x xs].
      * destruct Hin as [<-|[]]. exact Hnil.
      * destruct Hin as [<-|Hin]; [exact Hnil|]. eapply Hnext; eauto.
    + destruct Hin as [<-|Hin].
      * split; [exact Hp|]. exists [], (m_after st'). exact A.
      * apply IH in Hin as (Hpt & a & b & Hab). split; [exact Hpt|].
        exists ((c :: m) ++ a), b. rewrite A, Hab, <- app_assoc. reflexivity.
  - destruct after as [|x xs]; [destruct Hin|]. eapply Hnext; eauto.
Qed.

Lemma String_match_all (P : text -> Prop) (re : RegExp) (s t : text) :
  consumes P (rmatch (re_ignoreCase re) (re_tree re)) ->
  In t (String_match s re) ->
  P t /\ exists a b, s = a ++ t ++ b.
Proof. intros Hc. apply match_from_all. exact Hc. Qed.

Lemma consumes_chars (chars : text) (rest : list regex) (P : text -> Prop) :
  consumes P (rmatch false (seq_of rest)) ->
  consumes (then_ (eq chars) P)
    (rmatch false (seq_of (map RChar chars ++ rest))).
Proof.
  intros Hr. induction chars as [|c chars IH].
  - eapply consumes_weaken; [|exact Hr]. intros m Hm. exists [], m. auto.
  - cbn [map app seq_of].
    eapply consumes_weaken; [|apply consumes_seq; [apply consumes_char|exact IH]].
    intros m (a & b & -> & (x & -> & Hx) & (a2 & b2 & -> & Heq & Hp)).
    subst a2. exists (c :: chars), b2. split; [|auto].
    unfold char_eq in Hx. cbn [canon] in Hx.
    apply Ascii.eqb_eq in Hx. subst x. reflexivity.
Qed.

Lemma one_of_char (c : ascii) (m : text) :
  one_of (char_eq false c) m -> m = [c].
Proof.
  intros (x & -> & Hx). unfold char_eq in Hx. cbn [canon] in Hx.
  apply Ascii.eqb_eq in Hx. subst x. reflexivity.
Qed.

(** The environment pattern. *)
Lemma env_pattern_consumes :
  consumes (fun t => exists body, t = body ++ str "_" /\ run_of 5 env_char body)
    (rmatch (re_ignoreCase env_pattern) (re_tree env_pattern)).
Proof.
  cbn [env_pattern literal re_tree re_ignoreCase seq_of].
  eapply consumes_weaken;
    [|apply consumes_seq;
      [apply consumes_run
      |apply consumes_seq; [apply consumes_char|apply consumes_empty]]].
  intros m (body & b & -> & Hrun & (c & e & -> & Hc & <-)).
  apply one_of_char in Hc. subst c. exists body. split; [reflexivity|exact Hrun].
Qed.

(** X23: every environment token of the planner is a run of five or more
    capitals, digits and underscores of the file with the underscore that
    follows it. *)
Theorem env_tokens_end_with_underscore (content t : text) :
  In t (env_words content) ->
  exists body,
    t = body ++ str "_"
    /\ 5 <= length body
    /\ forallb env_char body = true
    /\ exists a b, content = a ++ t ++ b.
Proof.
  intros Hin. unfold env_words in Hin.
  apply (String_match_all _ _ _ _ env_pattern_consumes) in Hin
    as ((body & -> & Hlen & Hall) & Hseg).
  exists body. auto.
Qed.

(** The pattern of the scopes. *)
Lemma scope_pattern_consumes :
  consumes (fun t => exists body,
              t = "@" :: body ++ str "/" /\ run_of 1 scope_char body)
    (rmatch (re_ignoreCase scope_pattern) (re_tree scope_pattern)).
Proof.
  cbn [scope_pattern literal re_tree re_ignoreCase seq_of].
  eapply consumes_weaken;
    [|apply consumes_seq;
      [apply consumes_char
      |apply consumes_seq;
        [apply consumes_group, consumes_seq;
          [apply consumes_run|apply consumes_empty]
        |apply consumes_seq; [apply consumes_char|apply consumes_empty]]]].
  intros m (a & b & -> & Ha & (g & c & -> & (body & e & -> & Hrun & <-)
                               & (s & e2 & -> & Hs & <-))).
  apply one_of_char in Ha, Hs. subst a s. exists body.
  split; [|exact Hrun]. rewrite !app_nil_r. reflexivity.
Qed.

Lemma replace_first_last (c : ascii) (body : text) : forall before,
  forallb (fun x => negb (Ascii.eqb c x)) body = true ->
  replace_first [c] [] before (body ++ [c]) = body.
Proof.
  induction body as [|x body IH]; intros before Hall.
  - cbn. rewrite Ascii.eqb_refl. reflexivity.
  - cbn [forallb] in Hall. apply andb_true_iff in Hall as [Hx Hall].
    apply negb_true_iff in Hx. cbn [app replace_first starts_with].
    rewrite Hx. cbn [andb]. rewrite IH by exact Hall. reflexivity.
Qed.

Lemma scope_char_plain (x : ascii) :
  scope_char x = true -> Ascii.eqb "/" x = false.
Proof.
  intros Hx. destruct (Ascii.eqb "/" x) eqn:E; [|reflexivity].
  apply Ascii.eqb_eq in E. subst x. vm_compute in Hx. discriminate.
Qed.

(** X24: every scope token of the planner is the name that stands between
    an [@] and a slash of the file: one or more letters, digits, dashes and
    underscores, without the [@] and the slash. *)
Theorem scope_tokens_are_bare_names (content t : text) :
  In t (scope_words content) ->
  1 <= length t
  /\ forallb scope_char t = true
  /\ exists a b, content = a ++ str "@" ++ t ++ str "/" ++ b.
Proof.
  intros Hin. unfold scope_words in Hin.
  apply in_map_iff in Hin as (m & <- & Hin).
  apply (String_match_all _ _ _ _ scope_pattern_consumes) in Hin
    as ((body & -> & Hlen & Hall) & a & b & Hseg).
  assert (Hfirst : String_replace_text ("@" :: body ++ str "/") (str "@") []
                   = body ++ str "/") by reflexivity.
  rewrite Hfirst. unfold String_replace_text.
  change (str "/") with ["/"] in *.
  rewrite (replace_first_last "/" body []).
  - split; [exact Hlen|]. split; [exact Hall|]. exists a, b.
    rewrite Hseg. cbn [app]. rewrite <- !app_assoc. reflexivity.
  - clear -Hall. induction body as [|x body IH]; [reflexivity|].
    cbn [forallb] in *. apply andb_true_iff in Hall as [Hx Hall].
    rewrite (scope_char_plain x Hx), IH by exact Hall. reflexivity.
Qed.

(** The pattern of the imports. *)
Lemma from_pattern_consumes :
  consumes (fun t => exists q1 name q2,
              t = str "from " ++ q1 :: name ++ [q2]
              /\ quote_mark q1 = true /\ quote_mark q2 = true
              /\ run_of 1 not_quote_mark name)
    (rmatch (re_ignoreCase from_pattern) (re_tree from_pattern)).
Proof.
  cbn [from_pattern literal re_tree re_ignoreCase].
  eapply consumes_weaken; [|apply consumes_chars].
  2:{ cbn [seq_of]. apply consumes_seq;
        [apply consumes_class
        |apply consumes_seq;
          [apply consumes_group, consumes_seq;
            [apply consumes_run|apply consumes_empty]
          |apply consumes_seq; [apply consumes_class|apply consumes_empty]]]. }
  intros m (f & r & -> & <- & (a & b & -> & (q1 & -> & Hq1)
             & (g & c & -> & (name & e & -> & Hrun & <-)
                & (s & e2 & -> & (q2 & -> & Hq2) & <-)))).
  exists q1, name, q2. rewrite !app_nil_r. auto.
Qed.

(** X25: every import token of the planner is a whole clause of the file:
    the word [from], the space, the opening quote, the name and the closing
    quote. *)
Theorem import_tokens_are_whole_clauses (content t : text) :
  In t (import_words content) ->
  exists q1 name q2,
    t = str "from " ++ q1 :: name ++ [q2]
    /\ quote_mark q1 = true /\ quote_mark q2 = true
    /\ 1 <= length name
    /\ forallb not_quote_mark name = true
    /\ exists a b, content = a ++ t ++ b.
Proof.
  intros Hin. unfold import_words in Hin.
  apply (String_match_all _ _ _ _ from_pattern_consumes) in Hin
    as ((q1 & name & q2 & -> & Hq1 & Hq2 & Hlen & Hall) & Hseg).
  exists q1, name, q2. auto 10.
Qed.

(** The pattern of the images. *)
Lemma image_pattern_consumes :
  consumes (fun t => exists sp name,
              t = str "image:" ++ sp ++ name
              /\ forallb space_char sp = true
              /\ run_of 1 no_space_char name)
    (rmatch (re_ignoreCase image_pattern) (re_tree image_pattern)).
Proof.
  cbn [image_pattern literal re_tree re_ignoreCase].
  eapply consumes_weaken; [|apply consumes_chars].
  2:{ cbn [seq_of]. apply consumes_seq;
        [apply consumes_run
        |apply consumes_seq;
          [apply consumes_group, consumes_seq;
            [apply consumes_run|apply consumes_empty]
          |apply consumes_empty]]. }
  intros m (f & r & -> & <- & (sp & b & -> & (_ & Hsp)
             & (g & c & -> & (name & e & -> & Hrun & <-) & <-))).
  exists sp, name. rewrite !app_nil_r. auto.
Qed.

(** The first part of a split: the text up to the first separator. *)
Lemma split_char_head (sep : ascii) (s : text) : forall cur,
  exists part rest tl,
    split_char sep s cur = (rev cur ++ part) :: tl
    /\ s = part ++ rest
    /\ forallb (fun x => negb (Ascii.eqb x sep)) part = true.
Proof.
  induction s as [|c s IH]; intros cur; cbn [split_char].
  - exists [], [], []. rewrite app_nil_r. auto.
  - destruct (Ascii.eqb c sep) eqn:E.
    + exists [], (c :: s), (split_char sep s []). rewrite app_nil_r. auto.
    + destruct (IH (c :: cur)) as (part & rest & tl & Hs & -> & Hall).
      exists (c :: part), rest, tl. split; [|split; [reflexivity|]].
      * rewrite Hs. cbn [rev]. rewrite <- app_assoc. reflexivity.
      * cbn [forallb]. rewrite E. exact Hall.
Qed.

Lemma after_colon_image (r : text) :
  exists part rest,
    after_colon (str "image:" ++ r) = Ok part
    /\ r = part ++ rest
    /\ forallb (fun x => negb (Ascii.eqb x ":")) part = true.
Proof.
  destruct (split_char_head ":" r []) as (part & rest & tl & Hs & Hr & Hall).
  exists part, rest. split; [|auto].
  unfold after_colon. cbn. rewrite Hs. reflexivity.
Qed.

Lemma after_colons_all (P : text -> Prop) (ms : list text) :
  (forall m, In m ms -> exists part, after_colon m = Ok part /\ P part) ->
  exists parts, after_colons ms = Ok parts /\ forall t, In t parts -> P t.
Proof.
  induction ms as [|m ms IH]; intros Hm.
  - exists []. split; [reflexivity|intros t []].
  - destruct (Hm m (or_introl eq_refl)) as (part & Hp & HP).
    destruct IH as (parts & Hps & HPs);
      [intros m' Hin; apply Hm; right; exact Hin|].
    exists (part :: parts). split.
    + cbn [after_colons]. rewrite Hp. cbn [mbind res_bind]. rewrite Hps.
      reflexivity.
    + intros t [<-|Hin]; [exact HP|apply HPs; exact Hin].
Qed.

(** X26: the images always yield their tokens, and every image token is
    the text that follows an [image:] of the file, cut before the next
    colon: the tag is left out and the white space before the name is
    kept. *)
Theorem image_tokens_stop_at_colon (content : text) :
  exists tokens,
    image_words content = Ok tokens
    /\ forall t, In t tokens ->
         forallb (fun x => negb (Ascii.eqb x ":")) t = true
         /\ exists a b, content = a ++ str "image:" ++ t ++ b.
Proof.
  unfold image_words. apply after_colons_all. intros m Hin.
  apply (String_match_all _ _ _ _ image_pattern_consumes) in Hin
    as ((sp & name & -> & _ & _) & a & b & Hseg).
  destruct (after_colon_image (sp ++ name)) as (part & rest & Hp & Hr & Hall).
  exists part. split; [exact Hp|]. split; [exact Hall|].
  exists a, (rest ++ b). rewrite Hseg, Hr, <- !app_assoc. reflexivity.
Qed.

(** ** The rules of the Code strategy on an import line *)

Lemma import_parsed (old : text) (options : RenameOptions) :
  plain old = true -> old <> [] ->
  RegExp_new (import_source old) (flags_of options)
  = Ok {| re_tree := import_tree old; re_groups := 2; re_global := true;
          re_ignoreCase := negb (caseSensitive options) |}.
Proof.
  intros Hp Ho. unfold import_source, flags_of.
  destruct (caseSensitive options); parse_pattern Hp Ho; reflexivity.
Qed.

Lemma export_parsed (old : text) (options : RenameOptions) :
  plain old = true -> old <> [] ->
  RegExp_new (export_source old) (flags_of options)
  = Ok {| re_tree := export_tree old; re_groups := 2; re_global := true;
          re_ignoreCase := negb (caseSensitive options) |}.
Proof.
  intros Hp Ho. unfold export_source, flags_of.
  destruct (caseSensitive options); parse_pattern Hp Ho; reflexivity.
Qed.

Lemma require_parsed (old : text) (options : RenameOptions) :
  plain old = true -> old <> [] ->
  RegExp_new (require_source old) (flags_of options)
  = Ok {| re_tree := require_tree old; re_groups := 2; re_global := true;
          re_ignoreCase := negb (caseSensitive options) |}.
Proof.
  intros Hp Ho. unfold require_source, flags_of.
  destruct (caseSensitive options); parse_pattern Hp Ho; reflexivity.
Qed.

(** *** One-character quantifiers, step by step *)

Lemma clear_caps_nil (st : mstate) : clear_caps [] st = st.
Proof.
  destruct st as [b a c]. unfold clear_caps. cbn [m_before m_after m_caps].
  f_equal. induction c as [|x c IH]; [reflexivity|].
  rewrite filter_cons_True; [f_equal; exact IH|exact I].
Qed.

Lemma length_neq_S (n : nat) : Nat.eqb n (S n) = false.
Proof. apply Nat.eqb_neq. lia. Qed.

Section Atom.
Variables (ic : bool) (a : regex) (ok : ascii -> bool).
Hypothesis Hatom : forall s k, rmatch ic a s k = m_one ok s k.
Hypothesis Hgroups : groups_in a = [].

Lemma clear_caps_atom (st : mstate) : clear_caps (groups_in a) st = st.
Proof. rewrite Hgroups. apply clear_caps_nil. Qed.

Lemma star_greedy (st : mstate) (k : mstate -> option mstate) :
  rmatch ic (RQuant true 0 None a) st k
  = match m_after st with
    | x :: xs =>
        if ok x
        then match rmatch ic (RQuant true 0 None a) (m_advance x xs st) k with
             | Some r => Some r
             | None => k st
             end
        else k st
    | [] => k st
    end.
Proof.
  rewrite (quantifier_fuel ic true 0 None a st k (S (1 + length (m_after st))))
    by lia.
  cbn [rep_loop Nat.eqb negb]. rewrite Hatom, clear_caps_atom. unfold m_one.
  destruct (m_after st) as [|x xs] eqn:E; [reflexivity|].
  destruct (ok x); [|reflexivity].
  cbn [m_advance m_after andb length]. rewrite length_neq_S. cbn [dec_max pred].
  rewrite <- (quantifier_fuel ic true 0 None a) by (cbn; lia). reflexivity.
Qed.

Lemma star_lazy (st : mstate) (k : mstate -> option mstate) :
  rmatch ic (RQuant false 0 None a) st k
  = match k st with
    | Some r => Some r
    | None =>
        match m_after st with
        | x :: xs =>
            if ok x then rmatch ic (RQuant false 0 None a) (m_advance x xs st) k
            else None
        | [] => None
        end
    end.
Proof.
  rewrite (quantifier_fuel ic false 0 None a st k (S (1 + length (m_after st))))
    by lia.
  cbn [rep_loop Nat.eqb negb]. rewrite Hatom, clear_caps_atom. unfold m_one.
  destruct (k st); [reflexivity|].
  destruct (m_after st) as [|x xs] eqn:E; [reflexivity|].
  destruct (ok x); [|reflexivity].
  cbn [m_advance m_after andb length]. rewrite length_neq_S. cbn [dec_max pred].
  rewrite <- (quantifier_fuel ic false 0 None a) by (cbn; lia). reflexivity.
Qed.

Lemma plus_greedy (st : mstate) (k : mstate -> option mstate) :
  rmatch ic (RQuant true 1 None a) st k
  = match m_after st with
    | x :: xs =>
        if ok x then rmatch ic (RQuant true 0 None a) (m_advance x xs st) k
        else None
    | [] => None
    end.
Proof.
  rewrite (quantifier_fuel ic true 1 None a st k (S (2 + length (m_after st))))
    by lia.
  cbn [rep_loop Nat.eqb negb]. rewrite Hatom, clear_caps_atom. unfold m_one.
  destruct (m_after st) as [|x xs] eqn:E; [reflexivity|].
  destruct (ok x); [|reflexivity].
  cbn [andb dec_max pred].
  rewrite <- (quantifier_fuel ic true 0 None a) by (cbn; lia). reflexivity.
Qed.

(** A greedy star runs to the end of the characters it accepts and comes
    back to the last position where the rest of the pattern matches. *)
Lemma star_greedy_none (k : mstate -> option mstate) (rest : text) :
  match rest with x :: _ => ok x = false | [] => True end ->
  forall b before caps u0,
    forallb ok b = true ->
    (forall u v, b = u ++ v ->
       k {| m_before := rev u ++ before; m_after := v ++ rest; m_caps := caps |}
       = None) ->
    u0 = before ->
    rmatch ic (RQuant true 0 None a)
      {| m_before := u0; m_after := b ++ rest; m_caps := caps |} k = None.
Proof.
  intros Hrest. induction b as [|x b IH]; intros before caps u0 Hok Hk ->.
  - rewrite star_greedy. cbn [m_after app].
    specialize (Hk [] [] eq_refl). cbn [rev app] in Hk.
    destruct rest as [|y rest']; [exact Hk|]. rewrite Hrest. exact Hk.
  - rewrite star_greedy. cbn [m_after app].
    cbn [forallb] in Hok. apply andb_true_iff in Hok as [Hx Hb]. rewrite Hx.
    unfold m_advance. cbn [m_before m_after m_caps].
    rewrite (IH (x :: before) caps (x :: before)); [| assumption | | reflexivity].
    + specialize (Hk [] (x :: b) eq_refl). exact Hk.
    + intros u v ->. specialize (Hk (x :: u) v eq_refl).
      cbn [rev] in Hk. rewrite <- app_assoc in Hk. exact Hk.
Qed.

Lemma star_greedy_last (k : mstate -> option mstate) (rest : text)
    (r : mstate) :
  match rest with x :: _ => ok x = false | [] => True end ->
  forall a0 b before caps,
    forallb ok (a0 ++ b) = true ->
    (forall u v, b = u ++ v -> u <> [] ->
       k {| m_before := rev (a0 ++ u) ++ before; m_after := v ++ rest;
            m_caps := caps |} = None) ->
    k {| m_before := rev a0 ++ before; m_after := b ++ rest; m_caps := caps |}
    = Some r ->
    rmatch ic (RQuant true 0 None a)
      {| m_before := before; m_after := (a0 ++ b) ++ rest; m_caps := caps |} k
    = Some r.
Proof.
  intros Hrest. induction a0 as [|x a0 IH]; intros b before caps Hok Hk Hr.
  - cbn [app rev] in *. destruct b as [|y b].
    + rewrite star_greedy. cbn [m_after app].
      destruct rest as [|z rest']; [exact Hr|]. rewrite Hrest. exact Hr.
    + rewrite star_greedy. cbn [m_after app].
      cbn [forallb] in Hok. apply andb_true_iff in Hok as [Hy Hb]. rewrite Hy.
      unfold m_advance. cbn [m_before m_after m_caps].
      rewrite (star_greedy_none k rest Hrest b (y :: before) caps (y :: before));
        [exact Hr|assumption| |reflexivity].
      intros u v ->. specialize (Hk (y :: u) v eq_refl).
      cbn [rev] in Hk. rewrite <- app_assoc in Hk. apply Hk. discriminate.
  - rewrite star_greedy. cbn [m_after app].
    cbn [app forallb] in Hok. apply andb_true_iff in Hok as [Hx Hb]. rewrite Hx.
    unfold m_advance. cbn [m_before m_after m_caps].
    rewrite (IH b (x :: before) caps); [reflexivity|assumption| |].
    + intros u v Hb' Hu. specialize (Hk u v Hb' Hu).
      cbn [app rev] in Hk. rewrite <- app_assoc in Hk. exact Hk.
    + cbn [rev] in Hr. rewrite <- app_assoc in Hr. exact Hr.
Qed.

Lemma star_greedy_all (k : mstate -> option mstate) (rest : text)
    (r : mstate) (a0 before : text) (caps : list (nat * text)) :
  match rest with x :: _ => ok x = false | [] => True end ->
  forallb ok a0 = true ->
  k {| m_before := rev a0 ++ before; m_after := rest; m_caps := caps |}
  = Some r ->
  rmatch ic (RQuant true 0 None a)
    {| m_before := before; m_after := a0 ++ rest; m_caps := caps |} k
  = Some r.
Proof.
  intros Hrest Hok Hr.
  pose proof (star_greedy_last k rest r Hrest a0 [] before caps) as H.
  rewrite app_nil_r in H. apply H; [assumption| |exact Hr].
  intros u v E Hu. destruct u; [congruence|discriminate].
Qed.

(** A lazy star stops at the first position where the rest of the pattern
    matches. *)
Lemma star_lazy_first (k : mstate -> option mstate) (rest : text)
    (r : mstate) :
  forall b a0 before caps,
    forallb ok b = true ->
    (forall u v, b = u ++ v -> v <> [] ->
       k {| m_before := rev (a0 ++ u) ++ before; m_after := v ++ rest;
            m_caps := caps |} = None) ->
    k {| m_before := rev (a0 ++ b) ++ before; m_after := rest; m_caps := caps |}
    = Some r ->
    rmatch ic (RQuant false 0 None a)
      {| m_before := rev a0 ++ before; m_after := b ++ rest; m_caps := caps |} k
    = Some r.
Proof.
  induction b as [|x b IH]; intros a0 before caps Hok Hk Hr.
  - rewrite star_lazy. rewrite app_nil_r in Hr. cbn [app]. rewrite Hr. reflexivity.
  - rewrite star_lazy.
    pose proof (Hk [] (x :: b) eq_refl) as H0. rewrite app_nil_r in H0.
    cbn [app] in *. rewrite H0 by discriminate. cbn [m_after].
    cbn [forallb] in Hok. apply andb_true_iff in Hok as [Hx Hb]. rewrite Hx.
    unfold m_advance. cbn [m_before m_after m_caps].
    replace (x :: rev a0 ++ before) with (rev (a0 ++ [x]) ++ before)
      by (rewrite rev_app_distr; reflexivity).
    apply IH; [assumption| |].
    + intros u v -> Hv. specialize (Hk (x :: u) v eq_refl Hv).
      rewrite <- app_assoc. exact Hk.
    + rewrite <- app_assoc. exact Hr.
Qed.

End Atom.

(** *** The character sets of the import rule *)

Lemma space_class (ic : bool) (x : ascii) :
  class_match ic false [CEsc EscSpace false] x = is_space x.
Proof. destruct ic; destruct x as [[] [] [] [] [] [] [] []]; reflexivity. Qed.

Lemma quote_class_is (ic : bool) (x : ascii) :
  class_match ic false [CChar "'"; CChar dq] x = is_quote x.
Proof. destruct ic; destruct x as [[] [] [] [] [] [] [] []]; reflexivity. Qed.

Lemma unquoted_class (ic : bool) (x : ascii) :
  class_match ic true [CChar "'"; CChar dq] x = negb (is_quote x).
Proof. destruct ic; destruct x as [[] [] [] [] [] [] [] []]; reflexivity. Qed.

Lemma quote_not_space (q : ascii) : is_quote q = true -> is_space q = false.
Proof. destruct q as [[] [] [] [] [] [] [] []]; vm_compute; congruence. Qed.

Lemma char_eq_refl (ic : bool) (c : ascii) : char_eq ic c c = true.
Proof. unfold char_eq. apply Ascii.eqb_refl. Qed.

Lemma char_eq_quote (ic : bool) (c q : ascii) :
  is_quote q = true -> char_eq ic c q = true -> is_quote c = true.
Proof.
  destruct ic; destruct q as [[] [] [] [] [] [] [] []]; try discriminate;
    intros _; destruct c as [[] [] [] [] [] [] [] []]; vm_compute; congruence.
Qed.

Lemma matches_at_self (ic : bool) (p s : text) : matches_at ic p (p ++ s) = true.
Proof.
  induction p as [|c p IH]; [reflexivity|]. cbn [app matches_at].
  rewrite char_eq_refl, IH. reflexivity.
Qed.

(** A token without quotes that matches before a quote ends before it. *)
Lemma matches_before_quote (ic : bool) (q : ascii) (t : text) :
  is_quote q = true ->
  forall p s, forallb code_char p = true ->
    matches_at ic p (s ++ q :: t) = true -> matches_at ic p s = true.
Proof.
  intros Hq. induction p as [|c p IH]; intros s Hp H; [reflexivity|].
  cbn [forallb] in Hp. apply andb_true_iff in Hp as [Hc Hp].
  destruct s as [|x s]; cbn [app matches_at] in *.
  - apply andb_true_iff in H as [H _]. apply (char_eq_quote ic c q Hq) in H.
    unfold code_char in Hc. rewrite H in Hc. discriminate.
  - apply andb_true_iff in H as [H1 H2]. rewrite H1, (IH s Hp H2). reflexivity.
Qed.

Lemma occurs_suffix (ic : bool) (p : text) : forall u v,
  occurs ic p (u ++ v) = false -> matches_at ic p v = false.
Proof.
  induction u as [|x u IH]; intros v H.
  - cbn [app] in H. destruct v; cbn [occurs] in H;
      apply orb_false_iff in H as [H _]; exact H.
  - cbn [app occurs] in H. apply orb_false_iff in H as [_ H]. apply IH. exact H.
Qed.

Lemma firstn_length_app {A} (p s : list A) : firstn (length p) (p ++ s) = p.
Proof. induction p as [|c p IH]; [reflexivity|]. simpl. rewrite IH. reflexivity. Qed.

Lemma skipn_length_app {A} (p s : list A) : skipn (length p) (p ++ s) = s.
Proof. induction p as [|c p IH]; [reflexivity|]. simpl. exact IH. Qed.

(** The characters of a pattern, read from the text. *)
Lemma lit_step (ic : bool) (p : text) (l : list regex) (st : mstate)
    (k : mstate -> option mstate) (s : text) :
  m_after st = p ++ s ->
  rmatch ic (seq_of (map RChar p ++ l)) st k
  = rmatch ic (seq_of l)
      {| m_before := rev p ++ m_before st; m_after := s; m_caps := m_caps st |} k.
Proof.
  intros H. rewrite rmatch_seq_app, seq_of_lit, rmatch_lit, H.
  rewrite matches_at_self, firstn_length_app, skipn_length_app. reflexivity.
Qed.

Lemma lit_fails (ic : bool) (p : text) (l : list regex) (st : mstate)
    (k : mstate -> option mstate) :
  matches_at ic p (m_after st) = false ->
  rmatch ic (seq_of (map RChar p ++ l)) st k = None.
Proof.
  intros H. rewrite rmatch_seq_app, seq_of_lit, rmatch_lit, H. reflexivity.
Qed.

(** One white space before a character that is none. *)
Lemma spaces_step (ic : bool) (l : list regex) (st : mstate)
    (k : mstate -> option mstate) (x : ascii) (s : text) :
  m_after st = " " :: x :: s -> is_space x = false ->
  rmatch ic (seq_of (spaces_item :: l)) st k
  = rmatch ic (seq_of l)
      {| m_before := " " :: m_before st; m_after := x :: s;
         m_caps := m_caps st |} k.
Proof.
  intros H Hx. cbn [seq_of rmatch]. fold (rmatch ic).
  change (rep_loop _ true _ 1 None st ?k')
    with (rmatch ic spaces_item st k').
  unfold spaces_item.
  rewrite (plus_greedy ic _ (class_match ic false [CEsc EscSpace false]))
    by reflexivity.
  rewrite H, space_class. cbn [is_space]. 
  rewrite (star_greedy ic _ (class_match ic false [CEsc EscSpace false]))
    by reflexivity.
  unfold m_advance. cbn [m_after]. rewrite space_class, Hx. reflexivity.
Qed.

Lemma quote_step (ic : bool) (l : list regex) (st : mstate)
    (k : mstate -> option mstate) (q : ascii) (s : text) :
  m_after st = q :: s -> is_quote q = true ->
  rmatch ic (seq_of (quote_item :: l)) st k
  = rmatch ic (seq_of l)
      {| m_before := q :: m_before st; m_after := s; m_caps := m_caps st |} k.
Proof.
  intros H Hq. cbn [seq_of rmatch quote_item]. unfold m_one.
  rewrite H, quote_class_is, Hq. reflexivity.
Qed.

(** *** What the [from] part of the pattern consumes *)

Lemma from_letter (ic : bool) (c x : ascii) :
  In c (str "from") -> char_eq ic c x = true -> is_space x = false.
Proof.
  intros [<-|[<-|[<-|[<-|[]]]]];
    destruct ic; destruct x as [[] [] [] [] [] [] [] []]; vm_compute; congruence.
Qed.

Lemma forallb_same {A} (f g : A -> bool) (l : list A) :
  (forall c, f c = g c) -> forallb f l = forallb g l.
Proof.
  intros H. induction l as [|x l IH]; [reflexivity|]. simpl. rewrite H, IH.
  reflexivity.
Qed.

Lemma run_not_empty (ok : ascii -> bool) (m : text) : run_of 1 ok m -> m <> [].
Proof. intros [H _] ->. simpl in H. lia. Qed.

Lemma from_consumes (ic : bool) :
  consumes (from_shape ic) (rmatch ic (seq_of from_items)).
Proof.
  cbn [from_items map app seq_of str list_ascii_of_string].
  eapply consumes_weaken;
    [|apply consumes_seq; [apply consumes_run|];
      apply consumes_seq; [apply consumes_char|];
      apply consumes_seq; [apply consumes_char|];
      apply consumes_seq; [apply consumes_char|];
      apply consumes_seq; [apply consumes_char|];
      apply consumes_seq; [apply consumes_run|];
      apply consumes_seq; [apply consumes_class|];
      apply consumes_seq; [apply consumes_run|apply consumes_empty]].
  intros m (a1 & m1 & -> & R1 & (f1 & m2 & -> & (x1 & -> & H1)
            & (f2 & m3 & -> & (x2 & -> & H2)
            & (f3 & m4 & -> & (x3 & -> & H3)
            & (f4 & m5 & -> & (x4 & -> & H4)
            & (a2 & m6 & -> & R2
            & (c1 & m7 & -> & (qc & -> & Hq) & _))))))).
  exists a1, [x1; x2; x3; x4], a2, qc, m7.
  split; [reflexivity|].
  split; [exact (run_not_empty _ _ R1)|].
  split.
  { destruct R1 as [_ R1]. rewrite <- R1. apply forallb_same.
    intros c. symmetry. apply space_class. }
  split.
  { cbn [forallb].
    rewrite (from_letter ic "f" x1), (from_letter ic "r" x2),
      (from_letter ic "o" x3), (from_letter ic "m" x4); simpl; auto 10. }
  split; [exact (run_not_empty _ _ R2)|].
  split.
  { destruct R2 as [_ R2]. rewrite <- R2. apply forallb_same.
    intros c. symmetry. apply space_class. }
  rewrite quote_class_is in Hq. exact Hq.
Qed.

(** No text that ends outside white space and has no quote is followed by
    the [from] part earlier than at its end. *)
Lemma from_shape_late (ic : bool) (v0 : text) (z q : ascii)
    (R m R' : text) :
  is_space z = false ->
  forallb code_char (v0 ++ [z]) = true ->
  from_shape ic m ->
  (v0 ++ [z]) ++ str " from " ++ q :: R = m ++ R' -> False.
Proof.
  intros Hz Hv (a1 & F & a2 & qc & a3 & -> & Ha1 & Hs1 & HF & Ha2 & Hs2 & Hq) E.
  assert (Hend : forall w, str " from " ++ q :: R = a2 ++ qc :: w -> False).
  { intros w Ew. destruct a2 as [|s a2']; [congruence|].
    cbn in Ew. injection Ew as <- Ew.
    destruct a2' as [|y a2'].
    - cbn in Ew. injection Ew as <- _. discriminate.
    - cbn in Ew. injection Ew as <- _. cbn in Hs2. discriminate. }
  assert (Htail : forall l l', v0 ++ [z] = l ++ l' -> l' <> [] ->
            forallb is_space l' = true -> False).
  { intros l l' El Hl' Hsp.
    destruct (exists_last Hl') as (l0 & z' & ->).
    rewrite app_assoc in El. apply app_inj_tail in El as [_ <-].
    rewrite forallb_app in Hsp. apply andb_true_iff in Hsp as [_ Hsp].
    cbn in Hsp. rewrite Hz in Hsp. discriminate. }
  remember (v0 ++ [z]) as V eqn:EV.
  rewrite <- !app_assoc in E.
  apply List.app_eq_app in E as (l & [[E1 E2]|[E1 E2]]).
  - apply List.app_eq_app in E2 as (l2 & [[E3 E4]|[E3 E4]]).
    + destruct l2 as [|c l2]; [exact (Hend _ E4)|].
      cbn in E4. injection E4 as <- _.
      rewrite E3, forallb_app in HF. apply andb_true_iff in HF as [_ HF].
      cbn in HF. discriminate.
    + apply List.app_eq_app in E4 as (l3 & [[E5 E6]|[E5 E6]]).
      * destruct l2 as [|c l2]; [cbn in E5; subst l3; exact (Hend _ E6)|].
        apply (Htail (a1 ++ F) (c :: l2)).
        -- rewrite E1, E3, app_assoc. reflexivity.
        -- discriminate.
        -- rewrite E5, forallb_app in Hs2.
           apply andb_true_iff in Hs2 as [Hs2 _]. exact Hs2.
      * destruct l3 as [|y l3].
        -- cbn in E6. injection E6 as -> _. discriminate.
        -- cbn in E6. injection E6 as <- _.
           rewrite E1, E3, E5, !forallb_app in Hv.
           apply andb_true_iff in Hv as [_ Hv].
           apply andb_true_iff in Hv as [_ Hv].
           apply andb_true_iff in Hv as [_ Hv].
           cbn in Hv. unfold code_char in Hv. rewrite Hq in Hv. discriminate.
  - destruct l as [|c l].
    + apply (Htail [] V); [rewrite app_nil_r in E1; subst a1; reflexivity| |].
      * subst V. destruct v0; discriminate.
      * rewrite app_nil_r in E1. subst a1. exact Hs1.
    + apply (Htail [] V); [reflexivity| |].
      * subst V. destruct v0; discriminate.
      * rewrite E1, forallb_app in Hs1.
        apply andb_true_iff in Hs1 as [Hs1 _]. exact Hs1.
Qed.

(** *** The match of the import rule *)

Lemma seq_step (ic : bool) (a b : regex) (st : mstate)
    (k : mstate -> option mstate) :
  rmatch ic (RSeq a b) st k = rmatch ic a st (fun st' => rmatch ic b st' k).
Proof. reflexivity. Qed.

Lemma group_step (ic : bool) (i : nat) (a : regex) (st : mstate)
    (k : mstate -> option mstate) :
  rmatch ic (RGroup i a) st k = rmatch ic a st (fun st' => k (set_cap i st st')).
Proof. reflexivity. Qed.

Lemma consumed_app (st st' : mstate) (mid : text) :
  m_before st' = rev mid ++ m_before st -> consumed st st' = mid.
Proof.
  intros B. unfold consumed. rewrite B, length_app, length_rev.
  replace (length mid + length (m_before st) - length (m_before st))
    with (length (rev mid)) by (rewrite length_rev; lia).
  rewrite firstn_app, Nat.sub_diag, firstn_O, app_nil_r, firstn_all.
  apply rev_involutive.
Qed.

Lemma import_line_parts (names : text) (q : ascii) (path tail : text) :
  import_line names q path ++ tail
  = str "import" ++ " " :: names
    ++ " " :: str "from" ++ " " :: q :: path ++ q :: tail.
Proof.
  unfold import_line. cbn [str list_ascii_of_string app].
  rewrite <- !app_assoc. cbn [app]. rewrite <- !app_assoc. reflexivity.
Qed.

Lemma import_clause_parts (names : text) :
  import_clause names = true ->
  (exists n0 names', names = n0 :: names' /\ is_space n0 = false)
  /\ is_space (List.last names " ") = false
  /\ forallb code_char names = true
  /\ forallb (fun x => negb (is_line_terminator x)) names = true.
Proof.
  unfold import_clause. intros H.
  apply andb_true_iff in H as [H H3]. apply andb_true_iff in H as [H1 H2].
  apply negb_true_iff in H1, H2.
  split.
  { destruct names as [|n0 names']; [discriminate|]. exists n0, names'. auto. }
  split; [exact H2|].
  clear H1 H2. induction names as [|x s IH]; [auto|].
  cbn [forallb] in *. apply andb_true_iff in H3 as [Hx Hs].
  apply andb_true_iff in Hx as [Hx1 Hx2]. destruct (IH Hs) as [I1 I2].
  unfold code_char at 1. rewrite Hx1, Hx2, I1, I2. auto.
Qed.

Section ImportMatch.
Variables (ic : bool) (old names pre post tail before : text) (q : ascii).
Hypothesis Hnames : import_clause names = true.
Hypothesis Hq : is_quote q = true.
Hypothesis Hpath : forallb code_char (pre ++ old ++ post) = true.
Hypothesis Hlast : occurs ic old (tl (old ++ post)) = false.
Hypothesis Hold : old <> [].

Lemma import_exec :
  exists r,
    rmatch ic (import_tree old)
      {| m_before := before;
         m_after := import_line names q (pre ++ old ++ post) ++ tail;
         m_caps := [] |} Some = Some r
    /\ m_before r = rev (import_line names q (pre ++ old ++ post)) ++ before
    /\ m_after r = tail
    /\ m_caps r = [(2, post ++ [q]);
                   (1, str "import " ++ names ++ str " from " ++ [q] ++ pre)].
Proof.
  destruct (import_clause_parts names Hnames)
    as ((n0 & names' & En & Hn0) & Hz & Hcode & Hline).
  assert (Hold_code : forallb code_char old = true).
  { rewrite !forallb_app in Hpath. apply andb_true_iff in Hpath as [_ H].
    apply andb_true_iff in H as [H _]. exact H. }
  assert (Hunq : forall s, forallb code_char s = true ->
            forallb (class_match ic true [CChar "'"; CChar dq]) s = true).
  { intros s Hs. rewrite (forallb_same _ code_char); [exact Hs|].
    intros c. apply unquoted_class. }
  assert (Hstop : class_match ic true [CChar "'"; CChar dq] q = false).
  { rewrite unquoted_class, Hq. reflexivity. }
  eexists. split.
  - unfold import_tree, path_items. rewrite seq_step, group_step.
    rewrite import_line_parts.
    match goal with |- context [names ++ ?R] => set (R1 := R) end.
    rewrite (lit_step ic (str "import") _ _ _ (" " :: names ++ R1))
      by reflexivity.
    cbn [app m_before m_after m_caps].
    rewrite (spaces_step ic _ _ _ n0 (names' ++ R1));
      [|cbn [m_after]; rewrite En; reflexivity|exact Hn0].
    cbn [seq_of m_before m_after m_caps]. rewrite seq_step.
    rewrite (app_comm_cons names' R1 n0), <- En.
    eapply (star_lazy_first ic RAny (fun x => negb (is_line_terminator x))
              (fun _ _ => eq_refl) eq_refl _ _ _ names []);
      [exact Hline| |].
    + intros u v E Hv.
      match goal with |- ?t = None => destruct t eqn:Em; [exfalso|reflexivity] end.
      apply from_consumes in Em as (mid & st' & Hshape & A & _).
      cbn [m_after] in A.
      destruct (exists_last Hv) as (v0 & z & ->).
      assert (Hzz : is_space z = false).
      { rewrite E, app_assoc, last_last in Hz. exact Hz. }
      assert (Hvv : forallb code_char (v0 ++ [z]) = true).
      { rewrite E, forallb_app in Hcode.
        apply andb_true_iff in Hcode as [_ H]. exact H. }
      eapply (from_shape_late ic v0 z q _ mid (m_after st') Hzz Hvv Hshape).
      rewrite <- A. reflexivity.
    + subst R1. cbn [app rev]. unfold from_items.
      set (path := pre ++ old ++ post).
      rewrite (spaces_step ic _ _ _ "f" (str "rom" ++ " " :: q :: path ++ q :: tail));
        [|reflexivity|reflexivity].
      cbn [m_before m_after m_caps].
      rewrite (lit_step ic (str "from") _ _ _ (" " :: q :: path ++ q :: tail))
        by reflexivity.
      cbn [m_before m_after m_caps].
      rewrite (spaces_step ic _ _ _ q (path ++ q :: tail));
        [|reflexivity|exact (quote_not_space q Hq)].
      cbn [m_before m_after m_caps].
      rewrite (quote_step ic _ _ _ q (path ++ q :: tail)); [|reflexivity|exact Hq].
      cbn [m_before m_after m_caps seq_of]. rewrite seq_step.
      unfold unquoted_item. subst path.
      eapply (star_greedy_last ic (RClass true [CChar "'"; CChar dq])
                (class_match ic true [CChar "'"; CChar dq])
                (fun _ _ => eq_refl) eq_refl _ (q :: tail) _ Hstop pre (old ++ post));
        [exact (Hunq _ Hpath)| |].
      * intros u v E Hu. cbn [rmatch]. apply lit_fails. cbn [set_cap m_after].
        destruct (matches_at ic old (v ++ q :: tail)) eqn:Em; [exfalso|reflexivity].
        apply (matches_before_quote ic q tail Hq old v Hold_code) in Em.
        destruct u as [|c u]; [congruence|]. rewrite E in Hlast. simpl in Hlast.
        rewrite (occurs_suffix ic old u v Hlast) in Em. discriminate.
      * cbn [rmatch].
        rewrite (lit_step ic old _ _ _ (post ++ q :: tail))
          by (cbn [set_cap m_after]; rewrite <- app_assoc; reflexivity).
        cbn [seq_of]. rewrite seq_step, group_step, seq_step.
        unfold unquoted_item. cbn [set_cap m_before m_after m_caps].
        eapply (star_greedy_all ic (RClass true [CChar "'"; CChar dq])
                  (class_match ic true [CChar "'"; CChar dq])
                  (fun _ _ => eq_refl) eq_refl _ (q :: tail) _ post _ _ Hstop).
        { apply Hunq. rewrite !forallb_app in Hpath.
          apply andb_true_iff in Hpath as [_ H].
          apply andb_true_iff in H as [_ H]. exact H. }
        change (RSeq quote_item REmpty) with (seq_of [quote_item]).
        rewrite (quote_step ic _ _ _ q tail); [|reflexivity|exact Hq].
        cbn [seq_of rmatch]. reflexivity.
  - cbn [set_cap m_before m_after m_caps].
    split; [|split; [reflexivity|]].
    + unfold import_line. rewrite ?rev_app_distr.
      cbn [str list_ascii_of_string app rev]. rewrite <- ?app_assoc.
      cbn [app]. rewrite <- ?app_assoc. reflexivity.
    + f_equal; [|f_equal]; f_equal; apply consumed_app;
        cbn [m_before]; rewrite ?rev_app_distr;
        cbn [str list_ascii_of_string app rev]; rewrite <- ?app_assoc;
        cbn [app]; rewrite <- ?app_assoc; reflexivity.
Qed.

End ImportMatch.

(** *** The replacement [$1new$2] *)

Lemma substitution_app (m pre post : text) (caps : list (option text))
    (new t : text) :
  no_dollar new = true ->
  GetSubstitution m pre post caps (new ++ t)
  = new ++ GetSubstitution m pre post caps t.
Proof.
  induction new as [|c new IH]; intros H; [reflexivity|].
  cbn [no_dollar forallb] in H. apply andb_true_iff in H as [Hc Hn].
  cbn [app GetSubstitution]. rewrite Hc. f_equal. apply IH. exact Hn.
Qed.

Lemma substitution_between (m pre post c1 c2 new : text) :
  no_dollar new = true ->
  GetSubstitution m pre post [Some c1; Some c2] (str "$1" ++ new ++ str "$2")
  = c1 ++ new ++ c2.
Proof.
  intros Hn.
  cbn [str list_ascii_of_string app]. cbn [GetSubstitution].
  cbn [Ascii.eqb Bool.eqb negb is_digit].
  change (is_digit "1") with true. cbv iota.
  assert (Hrest : GetSubstitution m pre post [Some c1; Some c2]
                    (new ++ ["$"; "2"]) = new ++ c2).
  { rewrite substitution_app by assumption. reflexivity. }
  destruct (new ++ ["$"; "2"]) as [|d2 rest2] eqn:E.
  { destruct new; discriminate. }
  replace (Nat.leb (10 * digit_val "1" + digit_val d2) (length [Some c1; Some c2]))
    with false
    by (symmetry; apply Nat.leb_gt; change (digit_val "1") with 1;
        cbn [length]; lia).
  rewrite andb_false_r. rewrite Hrest. reflexivity.
Qed.

(** *** The import rule on an import line *)

Lemma import_rule_line (options : RenameOptions)
    (old new names pre post tail : text) (q : ascii) :
  plain old = true -> old <> [] -> no_dollar new = true ->
  import_clause names = true -> is_quote q = true ->
  forallb code_char (pre ++ old ++ post) = true ->
  occurs (negb (caseSensitive options)) old (tl (old ++ post)) = false ->
  forallb code_char tail = true ->
  replace_step (import_source old) (flags_of options)
    (ByPattern (str "$1" ++ new ++ str "$2"))
    (import_line names q (pre ++ old ++ post) ++ tail)
  = Ok (import_line names q (pre ++ new ++ post) ++ tail).
Proof.
  intros Hp Ho Hn Hnames Hq Hpath Hlast Htail.
  destruct (import_needs old options Hp Ho) as [_ (re & Hre & Hreq)].
  rewrite import_parsed in Hre by assumption. injection Hre as <-.
  cbn [re_tree re_ignoreCase] in Hreq.
  unfold replace_step. rewrite import_parsed by assumption.
  cbn [mbind res_bind]. unfold String_replace. cbn [replace_from].
  unfold exec_at. cbn [re_tree re_ignoreCase re_groups re_global].
  destruct (import_exec (negb (caseSensitive options)) old names pre post tail []
              q Hnames Hq Hpath Hlast) as (r & Hr & B & A & C).
  rewrite Hr. cbn [apply_replacer mbind res_bind negb].
  rewrite B, A, app_nil_r, length_rev. cbn [length]. rewrite Nat.sub_0_r.
  rewrite <- (length_rev (import_line names q (pre ++ old ++ post))) at 1.
  rewrite firstn_all, rev_involutive.
  unfold captures_of. rewrite C. cbn [seq map cap_lookup Nat.eqb].
  rewrite substitution_between by assumption.
  rewrite (replace_from_idle _ _ (has_char is_quote));
    [|apply upward_has_char|exact Hreq|apply lacks_char; exact Htail
     |rewrite length_app; unfold import_line; cbn; lia].
  unfold import_line at 1. cbn [str list_ascii_of_string app mbind res_bind].
  unfold import_line. cbn [str list_ascii_of_string app].
  rewrite <- !app_assoc. cbn [app]. rewrite <- !app_assoc. reflexivity.
Qed.

(** *** The export and require rules need their key word before a quote *)

Lemma upward_keyword (kw : text) : upward (keyword_before_quote kw).
Proof.
  intros x s (a & b & -> & Hm & Hb). exists (x :: a), b. auto.
Qed.

Lemma requires_keyword (ic : bool) (kw : text) (l : list regex) (rest : regex) :
  requires (has_char is_quote)
    (rmatch ic (RSeq (RGroup 1 (seq_of (map RChar kw ++ l))) rest)) ->
  requires (keyword_before_quote kw)
    (rmatch ic (RSeq (RGroup 1 (seq_of (map RChar kw ++ l))) rest)).
Proof.
  intros Hquote st k res Hm. exists [], (m_after st).
  split; [reflexivity|]. split; [|exact (Hquote _ _ _ Hm)].
  rewrite seq_step, group_step, rmatch_seq_app, seq_of_lit, rmatch_lit in Hm.
  destruct (matches_at ic kw (m_after st)) eqn:E; [|discriminate].
  apply (matches_at_fold ic). exact E.
Qed.

Lemma export_keyword (old : text) (options : RenameOptions) :
  plain old = true -> old <> [] ->
  compiles (keyword_before_quote (str "export")) (export_source old)
    (flags_of options).
Proof.
  intros Hp Ho. destruct (export_needs old options Hp Ho) as [_ (re & Hre & Hreq)].
  exists re. split; [exact Hre|].
  rewrite export_parsed in Hre by assumption. injection Hre as <-.
  cbn [re_tree re_ignoreCase] in *. apply requires_keyword. exact Hreq.
Qed.

Lemma require_keyword (old : text) (options : RenameOptions) :
  plain old = true -> old <> [] ->
  compiles (keyword_before_quote (str "require")) (require_source old)
    (flags_of options).
Proof.
  intros Hp Ho. destruct (require_needs old options Hp Ho) as [_ (re & Hre & Hreq)].
  exists re. split; [exact Hre|].
  rewrite require_parsed in Hre by assumption. injection Hre as <-.
  cbn [re_tree re_ignoreCase] in *. apply requires_keyword. exact Hreq.
Qed.

(** A line that ends with a quote and does not mention the key word, before
    a text without quotes. *)
Lemma keyword_absent (kw line tail : text) (q : ascii) :
  forallb code_char kw = true -> is_quote q = true ->
  occurs true kw (line ++ [q]) = false ->
  forallb code_char tail = true ->
  ~ keyword_before_quote kw ((line ++ [q]) ++ tail).
Proof.
  intros Hkw Hq Hocc Htail (a & b & E & Hm & Hb).
  apply List.app_eq_app in E as (l & [[E1 E2]|[E1 E2]]).
  - destruct l as [|z l] using rev_ind.
    + cbn in E2. subst b. exact (lacks_char _ _ Htail Hb).
    + clear IHl. rewrite app_assoc in E1. apply app_inj_tail in E1 as [E1 <-].
      rewrite E2, <- app_assoc in Hm. cbn [app] in Hm.
      apply (matches_before_quote true q tail Hq kw l Hkw) in Hm.
      rewrite E1, <- app_assoc in Hocc.
      apply (occurs_suffix true kw a (l ++ [q])) in Hocc.
      rewrite (matches_at_app true kw l [q] Hm) in Hocc. discriminate.
  - rewrite E2 in Htail. rewrite forallb_app in Htail.
    apply andb_true_iff in Htail as [_ Htail].
    exact (lacks_char _ _ Htail Hb).
Qed.

(** *** The five rules on an import line *)

Lemma ts_pair_import_line (options : RenameOptions)
    (old new names pre post tail : text) (q : ascii) :
  plain old = true -> old <> [] -> no_dollar new = true ->
  import_clause names = true -> is_quote q = true ->
  forallb code_char (pre ++ old ++ post) = true ->
  occurs (negb (caseSensitive options)) old (tl (old ++ post)) = false ->
  forallb code_char tail = true ->
  occurs true (str "export") (import_line names q (pre ++ new ++ post)) = false ->
  occurs true (str "require") (import_line names q (pre ++ new ++ post)) = false ->
  ts_pair (flags_of options) (old, new)
    (import_line names q (pre ++ old ++ post) ++ tail)
  = Ok (code_scan (negb (caseSensitive options)) (old, new)
          (import_line names q (pre ++ new ++ post) ++ tail)).
Proof.
  intros Hp Ho Hn Hnames Hq Hpath Hlast Htail Hexp Hreq.
  unfold ts_pair, code_scan. cbn [fst snd].
  rewrite import_rule_line by assumption. cbn [mbind res_bind].
  assert (Hline : import_line names q (pre ++ new ++ post)
                  = (str "import " ++ names ++ str " from " ++ [q]
                     ++ pre ++ new ++ post) ++ [q]).
  { unfold import_line. rewrite <- !app_assoc. reflexivity. }
  rewrite (replace_step_idle (keyword_before_quote (str "export")));
    cbn [mbind res_bind];
    [|apply upward_keyword|apply export_keyword; assumption
     |rewrite Hline in *; apply keyword_absent; try assumption; reflexivity].
  rewrite (replace_step_idle (keyword_before_quote (str "require")));
    cbn [mbind res_bind];
    [|apply upward_keyword|apply require_keyword; assumption
     |rewrite Hline in *; apply keyword_absent; try assumption; reflexivity].
  rewrite (scoped_rule_scan options old new) by assumption.
  cbn [mbind res_bind].
  apply (word_rule_scan options old new); assumption.
Qed.


(** ** The further statements at concrete inputs *)

(** [absent_token_leaves_file] on the module of [sample_world], for a token
    that does not occur in it. *)
Lemma absent_token_leaves_file_witness :
  @run_strategy lite_libs (Some Code) (str "import x from 'old'")
    (options_for (str "absent") (str "new"))
  = Ok (str "import x from 'old'", [])
  /\ @processFile lite_libs (str "/r/a.ts")
       (options_for (str "absent") (str "new")) sample_world
     = Done {| processed := true; modified := false; error := None |}
         {| w_files := w_files sample_world;
            w_trace := [EvRead (str "/r/a.ts")] |}.
Proof.
  apply (@absent_token_leaves_file lite_libs (str "/r/a.ts")
           (options_for (str "absent") (str "new")) sample_world
           (plain_file (str "import x from 'old'")) Code);
    vm_compute; reflexivity.
Defined.

(** [identifier_part_not_renamed] on an identifier that holds the token. *)
Lemma identifier_part_not_renamed_witness :
  processTypeScriptFile (str "my_old_name") (options_for (str "old") (str "new"))
  = Ok (str "my_old_name")
  /\ processMarkdownFile (str "my_old_name")
       (options_for (str "old") (str "new"))
     = Ok (str "my_old_name").
Proof.
  apply (identifier_part_not_renamed (str "my_old_name")
           (options_for (str "old") (str "new")));
    vm_compute; reflexivity.
Defined.

(** [empty_token_interleaves] on the string [ab]. *)
Lemma empty_token_interleaves_witness :
  rename_text (renameMap_of empty_token_options) (flags_of empty_token_options)
    (str "ab")
  = Ok (str "-a-b-")
  /\ processValue (renameMap_of empty_token_options)
       (flags_of empty_token_options) (VString (str "ab"))
     = Ok (VString (str "-a-b-")).
Proof.
  apply (empty_token_interleaves empty_token_options (str "-") (str "ab"));
    reflexivity.
Defined.

(** [invalid_token_reads_as_parse_failure] on a JSON file that parses. *)
Lemma invalid_token_reads_as_parse_failure_witness :
  @processJsonFile lite_libs small_json unclosed_options
  = Ok (small_json,
        [WarnJson (str "Invalid regular expression: Unterminated group")])
  /\ @processFile lite_libs (str "/r/b.json") unclosed_options small_json_world
     = Done {| processed := true; modified := false; error := None |}
         {| w_files := w_files small_json_world;
            w_trace :=
              [EvConsole
                 (WarnJson (str "Invalid regular expression: Unterminated group"));
               EvRead (str "/r/b.json")] |}.
Proof.
  destruct (@invalid_token_reads_as_parse_failure lite_libs (str "/r/b.json")
              small_json unclosed_options
              (VObject [(str "a", VString (str "b"))]) (str "(") (str "new")
              (SyntaxError (str "Invalid regular expression: Unterminated group"))
              small_json_world (plain_file small_json))
    as (Hj & _ & Hf); [vm_compute; reflexivity ..|].
  split; [apply Hj; vm_compute; reflexivity|].
  apply Hf; vm_compute; reflexivity.
Defined.

(** [run_keeps_other_files] on the run of [sample_world]. *)
Lemma run_keeps_other_files_witness :
  dom (w_files sample_after_one) = dom (w_files sample_world)
  /\ (forall g, g ∉ sample_files ->
        w_files sample_after_one !! g = w_files sample_world !! g)
  /\ (dry (options_for (str "old") (str "new")) = true ->
      w_files sample_after_one = w_files sample_world).
Proof.
  destruct (@run_keeps_other_files lite_libs sample_files
              (options_for (str "old") (str "new")) sample_world)
    as [_ Hrun].
  apply Hrun; vm_compute; reflexivity.
Defined.

(** [summary_counts_every_file] on the run of [sample_world]. *)
Lemma summary_counts_every_file_witness :
  exists p m e,
    hd_error (w_trace sample_after_one) = Some (EvConsole (LogSummary p m e))
    /\ p + e = length sample_files /\ m <= p.
Proof.
  apply (@summary_counts_every_file lite_libs sample_files
           (options_for (str "old") (str "new")) sample_world sample_after_one).
  vm_compute. reflexivity.
Defined.

(** [preview_prints_summary_of_run] on [sample_world], whose files are all
    writable. *)
Lemma preview_prints_summary_of_run_witness :
  exists (w2 : world) (results : list FileOutcome),
    @runSafeRename lite_libs sample_files
      (preview (options_for (str "old") (str "new"))) sample_world = Done tt w2
    /\ hd_error (w_trace sample_after_one)
       = Some (EvConsole (summary_line (summarize results)))
    /\ hd_error (w_trace w2)
       = Some (EvConsole (summary_line (summarize results)))
    /\ w_files w2 = w_files sample_world.
Proof.
  apply (@preview_prints_summary_of_run lite_libs sample_files
           (options_for (str "old") (str "new")) sample_world sample_after_one).
  - compute_done.
  - reflexivity.
  - intros f x Hin Hl.
    repeat (apply elem_of_cons in Hin as [->|Hin];
            [vm_compute in Hl;
             first [discriminate Hl | injection Hl as <-; reflexivity]|]).
    apply elem_of_nil in Hin. destruct Hin.
  - vm_compute. reflexivity.
Defined.

(** [env_strategy_is_two_scans] on a line whose name and value hold the
    token. *)
Lemma env_strategy_is_two_scans_witness :
  processEnvFile (str "old_var=old") (options_for (str "old") (str "new"))
  = Ok (fold_left
          (fun acc e =>
             env_scan
               (negb (caseSensitive (options_for (str "old") (str "new"))))
               e acc)
          (renameMap_of (options_for (str "old") (str "new")))
          (str "old_var=old")).
Proof.
  apply (env_strategy_is_two_scans (str "old_var=old")
           (options_for (str "old") (str "new")));
    vm_compute; reflexivity.
Defined.

(** [code_strategy_without_quotes] on a call with a scoped name. *)
Lemma code_strategy_without_quotes_witness :
  processTypeScriptFile (str "use(@old, old.x, oldest)")
    (options_for (str "old") (str "new"))
  = Ok (fold_left
          (fun acc e =>
             code_scan
               (negb (caseSensitive (options_for (str "old") (str "new"))))
               e acc)
          (renameMap_of (options_for (str "old") (str "new")))
          (str "use(@old, old.x, oldest)")).
Proof.
  apply (code_strategy_without_quotes (str "use(@old, old.x, oldest)")
           (options_for (str "old") (str "new")));
    vm_compute; reflexivity.
Defined.

(** [markdown_strategy_on_prose] on a sentence. *)
Lemma markdown_strategy_on_prose_witness :
  processMarkdownFile (str "The old tool, not the older one.")
    (options_for (str "old") (str "new"))
  = Ok (fold_left
          (fun acc e =>
             markdown_scan
               (negb (caseSensitive (options_for (str "old") (str "new"))))
               e acc)
          (renameMap_of (options_for (str "old") (str "new")))
          (str "The old tool, not the older one.")).
Proof.
  apply (markdown_strategy_on_prose (str "The old tool, not the older one.")
           (options_for (str "old") (str "new")));
    vm_compute; reflexivity.
Defined.

(** [first_dependency_renamed] on [sample_deps]: of the two keys that hold
    the token, the first is renamed. *)
Lemma first_dependency_renamed_witness :
  exists newKey val,
    replace_step (str "old") (str "gi") (ByPattern (str "new")) (str "old-lib")
    = Ok newKey
    /\ obj_get sample_deps (str "old-lib") = Some val
    /\ obj_get sample_deps_renamed (str "old-lib") = None
    /\ (newKey <> str "old-lib" ->
        obj_get sample_deps_renamed newKey = Some val)
    /\ (forall k2, k2 <> str "old-lib" -> k2 <> newKey ->
          obj_get sample_deps_renamed k2 = obj_get sample_deps k2).
Proof.
  apply (first_dependency_renamed (str "gi") (str "old") (str "new")
           sample_deps sample_deps_renamed (str "old-lib"));
    [vm_compute; reflexivity | discriminate | vm_compute; reflexivity].
Defined.

(** [package_update_touches_four_fields] on a package with the old name. *)
Lemma package_update_touches_four_fields_witness :
  exists props',
    VObject [(str "name", VString (str "new")); (str "version", VString (str "1"))]
    = VObject props'
    /\ map fst props' = map fst named_package
    /\ (forall k, ~ In k package_fields ->
          obj_get props' k = obj_get named_package k)
    /\ obj_get props' (str "name")
       = match obj_get named_package (str "name") with
         | Some (VString name) =>
             if text_eqb name (oldName (options_for (str "old") (str "new")))
             then Some (VString (newName (options_for (str "old") (str "new"))))
             else Some (VString name)
         | other => other
         end.
Proof.
  apply (package_update_touches_four_fields
           (options_for (str "old") (str "new")) named_package).
  vm_compute. reflexivity.
Defined.

(** [package_json_rewritten_when_settled] on [package_world]. *)
Lemma package_json_rewritten_when_settled_witness :
  @updatePackageJson lite_libs (str "/r") (options_for (str "old") (str "new"))
    package_world
  = Done [LogUpdatedPackage]
      {| w_files :=
           <[str "/r/package.json"
             := {| file_data :=
                     JSON_stringify2 (VObject settled_package_props)
                     ++ [newline];
                   file_readable := true; file_writable := true |}]>
             (w_files package_world);
         w_trace :=
           [EvWrite (str "/r/package.json")
              (JSON_stringify2 (VObject settled_package_props)
               ++ [newline]);
            EvRead (str "/r/package.json")] |}.
Proof.
  apply (@package_json_rewritten_when_settled lite_libs (str "/r")
           (options_for (str "old") (str "new")) package_world
           (str "/r/package.json") (plain_file settled_package)
           settled_package_props);
    vm_compute; reflexivity.
Defined.

(** [first_config_file_wins] on [config_world]. *)
Lemma first_config_file_wins_witness :
  @loadConfig lite_libs (str "/r") config_world
  = Done (VObject [(str "dry", VBool true)], [])
      (emit (EvRead (str "/r/.saferenamerc.json")) config_world).
Proof.
  apply (@first_config_file_wins lite_libs (str "/r") config_world
           (str "/r/.saferenamerc.json")
           (plain_file (str "{" ++ quoted "dry" ++ str ": true}")));
    vm_compute; reflexivity.
Defined.

(** [broken_config_file_is_skipped] on [broken_config_world]. *)
Lemma broken_config_file_is_skipped_witness :
  @loadConfig lite_libs (str "/r") broken_config_world
  = Done (getDefaultConfig,
          [WarnConfig (str "/r/.saferenamerc.json")
             {| exn_name := exn_name json_error;
                exn_message := str "/r/.saferenamerc.json" ++ str ": "
                               ++ exn_message json_error |}])
      (emit (EvRead (str "/r/.saferenamerc.json")) broken_config_world).
Proof.
  apply (@broken_config_file_is_skipped lite_libs (str "/r")
           broken_config_world (str "/r/.saferenamerc.json")
           (str "/r/.saferenamerc") (str "/r/safe-rename.config.json")
           (str "/r/package.json") (plain_file corrupted_json) json_error);
    vm_compute; reflexivity.
Defined.

(** [cli_flags_override_config] on a configuration that asks for a preview
    and a command line that refuses it. *)
Lemma cli_flags_override_config_witness :
  exists merged,
    @mergeConfigWithArgs lite_libs (VObject sample_config) sample_args
    = Ok merged
    /\ obj_get merged (str "dry") = Some (Some (VBool false))
    /\ obj_get merged (str "ignore") = Some (Some (VArray [])).
Proof.
  destruct (@mergeConfigWithArgs lite_libs (VObject sample_config) sample_args)
    as [merged| |] eqn:Hm; try (vm_compute in Hm; discriminate).
  exists merged. split; [reflexivity|].
  destruct (@cli_flags_override_config lite_libs sample_config sample_args
              merged Hm) as (Hflags & _ & Hrest).
  split.
  - rewrite (Hflags "dry"%string "dry"%string); [reflexivity|].
    vm_compute. auto 10.
  - rewrite (Hrest (str "ignore")); [reflexivity|].
    vm_compute. intuition discriminate.
Defined.

(** [multi_map_accepted_iff] on a map of one pair. *)
Lemma multi_map_accepted_iff_witness :
  isValid {| isValid := true; errors := [] |}
  = forallb acceptable_entry [(str "a", VString (str "b"))]
  /\ errors {| isValid := true; errors := [] |}
     = flat_map entry_errors [(str "a", VString (str "b"))]
  /\ Forall (fun e => exists field, v_field e = str "multiMap." ++ field)
       (errors {| isValid := true; errors := [] |}).
Proof.
  apply (multi_map_accepted_iff [(str "a", VString (str "b"))]).
  vm_compute. reflexivity.
Defined.

(** [config_accepted_iff] on a configuration whose concurrency is out of
    range. *)
Lemma config_accepted_iff_witness :
  exists r,
    validateConfig [(str "concurrency", VNumber (str "0"))] = Ok r
    /\ isValid r = false.
Proof.
  destruct (validateConfig [(str "concurrency", VNumber (str "0"))])
    as [r| |] eqn:Hv; try (vm_compute in Hv; discriminate).
  exists r. split; [reflexivity|].
  rewrite (config_accepted_iff [(str "concurrency", VNumber (str "0"))] r Hv).
  vm_compute. reflexivity.
Defined.

(** [analyzeRepo_top_tokens] on [repo_world]. *)
Lemma analyzeRepo_top_tokens_witness :
  exists top,
    analyzeRepo (str "/r") repo_files repo_world
    = Done top {| w_files := w_files repo_world;
                  w_trace := rev (reads (str "/r") repo_files)
                             ++ w_trace repo_world |}
    /\ length top <= 20
    /\ descending top = true
    /\ NoDup (map fst top)
    /\ (forall t n, In (t, n) top ->
          n = occurrences repo_tokens t /\ 1 <= n)
    /\ (forall t, 1 <= occurrences repo_tokens t -> ~ In t (map fst top) ->
        length top = 20
        /\ forall e, In e top -> occurrences repo_tokens t <= snd e).
Proof.
  apply (analyzeRepo_top_tokens (str "/r") repo_files repo_world repo_tokens);
    vm_compute; reflexivity.
Defined.

(** [analyzeRepo_rejects_at_missing_file] on [repo_world] and a list with a
    file that does not exist. *)
Lemma analyzeRepo_rejects_at_missing_file_witness :
  analyzeRepo (str "/r") ([str "a.ts"] ++ str "gone.ts" :: [str "b.env"])
    repo_world
  = Raised (fs_error "ENOENT: no such file or directory" (str "/r/gone.ts"))
      {| w_files := w_files repo_world;
         w_trace := [EvRead (str "/r/gone.ts"); EvRead (str "/r/a.ts")] |}.
Proof.
  apply (analyzeRepo_rejects_at_missing_file (str "/r") [str "a.ts"]
           (str "gone.ts") [str "b.env"] repo_world
           [str "acme"; str "DATABASE_"; str "from '@acme/core'"]);
    vm_compute; reflexivity.
Defined.

(** [env_tokens_end_with_underscore] on a line of an environment file. *)
Lemma env_tokens_end_with_underscore_witness :
  exists body,
    str "DATABASE_" = body ++ str "_"
    /\ 5 <= length body
    /\ forallb env_char body = true
    /\ exists a b, str "DATABASE_URL=1" = a ++ str "DATABASE_" ++ b.
Proof.
  apply (env_tokens_end_with_underscore (str "DATABASE_URL=1")
           (str "DATABASE_")).
  vm_compute. left. reflexivity.
Defined.

(** [scope_tokens_are_bare_names] on an import of a scoped package. *)
Lemma scope_tokens_are_bare_names_witness :
  1 <= length (str "acme")
  /\ forallb scope_char (str "acme") = true
  /\ exists a b,
       str "import x from '@acme/core'"
       = a ++ str "@" ++ str "acme" ++ str "/" ++ b.
Proof.
  apply (scope_tokens_are_bare_names (str "import x from '@acme/core'")
           (str "acme")).
  vm_compute. left. reflexivity.
Defined.

(** [import_tokens_are_whole_clauses] on an import of a scoped package. *)
Lemma import_tokens_are_whole_clauses_witness :
  exists q1 name q2,
    str "from '@acme/core'" = str "from " ++ q1 :: name ++ [q2]
    /\ quote_mark q1 = true /\ quote_mark q2 = true
    /\ 1 <= length name
    /\ forallb not_quote_mark name = true
    /\ exists a b,
         str "import x from '@acme/core'" = a ++ str "from '@acme/core'" ++ b.
Proof.
  apply (import_tokens_are_whole_clauses (str "import x from '@acme/core'")
           (str "from '@acme/core'")).
  vm_compute. left. reflexivity.
Defined.

(** C6, as stated, fails: the string [old] under the key [old] is neither
    renamed nor kept, because the entry renamed to [new] is overwritten by
    the entry that follows it; a string that holds the old token [a+b] is
    left as it is, because the token is read as a pattern; and with the new
    token [$&] the string [old] is replaced by itself. *)
Lemma structural_rewrite_exceptions :
  (lite_JSON_parse colliding_json = Ok colliding_value
   /\ lookup_path colliding_value [Key (str "old"); Key (str "k")]
      = Some (VString (str "old"))
   /\ processValue [(str "old", str "new")] (str "gi") colliding_value
      = Ok (VObject [(str "new", VNumber (str "1"))])
   /\ lookup_path (VObject [(str "new", VNumber (str "1"))])
        [Key (str "new"); Key (str "k")] = None
   /\ @processJsonFile lite_libs colliding_json
        (options_for (str "old") (str "new"))
      = Ok (colliding_json_renamed, []))
  /\ processValue [(str "a+b", str "x")] (str "gi") (VString (str "a+b"))
     = Ok (VString (str "a+b"))
  /\ processValue [(str "old", str "$&")] (str "gi") (VString (str "old"))
     = Ok (VString (str "old")).
Proof. repeat split; vm_compute; reflexivity. Qed.

(** The path to the string below [nested], an index and [old-key]. *)
Lemma nested_descends :
  descends (fun k => Ok (rename_all (options_for (str "old-key") (str "new-key")) k))
    nested_value
    [Key (str "nested"); Idx 0; Key (str "old-key")]
    [Key (str "nested"); Idx 0; Key (str "new-key")]
    (VString (str "old-key")).
Proof.
  apply (descends_key _ [] [] (str "nested") (str "nested"));
    [vm_compute; reflexivity | intros ? ? [] |].
  apply (descends_index _ _ 0 (VObject [(str "old-key", VString (str "old-key"))]));
    [reflexivity|].
  apply (descends_key _ [] [] (str "old-key") (str "new-key"));
    [vm_compute; reflexivity | intros ? ? [] |].
  apply descends_here.
Defined.

(** [renamed_at_every_depth] at depth three of [nested_value]. *)
Lemma renamed_at_every_depth_witness :
  lite_JSON_parse nested_json = Ok nested_value
  /\ lookup_path nested_value [Key (str "nested"); Idx 0; Key (str "old-key")]
     = Some (VString (str "old-key"))
  /\ (exists v',
        lookup_path v' [Key (str "nested"); Idx 0; Key (str "new-key")]
        = Some (VString (str "new-key"))
        /\ @processJsonFile lite_libs nested_json
             (options_for (str "old-key") (str "new-key"))
           = Ok (JSON_stringify2 v', [])
        /\ JSON_stringify2 v' = nested_json_renamed).
Proof.
  split; [vm_compute; reflexivity|]. split; [vm_compute; reflexivity|].
  destruct (@renamed_at_every_depth lite_libs
              (options_for (str "old-key") (str "new-key")) nested_json
              nested_value _ _ _
              ltac:(vm_compute; reflexivity) ltac:(vm_compute; reflexivity)
              ltac:(vm_compute; reflexivity) nested_descends)
    as (v' & Hv & _ & _ & _ & Hs & _ & Hj & _).
  exists v'. split; [|split].
  - rewrite (Hs (str "old-key") eq_refl). vm_compute. reflexivity.
  - apply Hj. vm_compute. reflexivity.
  - vm_compute in Hv. injection Hv as <-. vm_compute. reflexivity.
Defined.

(** C8, as stated, fails, on names that [validateRenameOptions] accepts.
    [lib] is renamed to [libx]: the first run turns the scoped name [@lib]
    into [@libx], in which the second run finds [@lib] again and modifies
    the file once more.  [ab] is renamed to [b] in a JSON file with the
    string [aab]: the first run leaves [ab], joined from the text and the
    new token, and the second run modifies the file again, to [b].  And
    [old] is renamed to [new] in a module whose import path is [oldold]:
    the import rule replaces one occurrence in a path, the first run leaves
    [oldnew] and the second run modifies the file again, to [newnew]. *)
Lemma second_run_modifies_again :
  (isValid (validateRenameOptions (str "lib") (str "libx")) = true
   /\ exists w1 w2,
     @runSafeRename lite_libs [str "/r/a.ts"]
       (options_for (str "lib") (str "libx")) scoped_world = Done tt w1
     /\ w_files w1 !! str "/r/a.ts" = Some (plain_file (str "@libx"))
     /\ @runSafeRename lite_libs [str "/r/a.ts"]
          (options_for (str "lib") (str "libx")) w1 = Done tt w2
     /\ w_files w2 !! str "/r/a.ts" = Some (plain_file (str "@libxx"))
     /\ hd_error (w_trace w2) = Some (EvConsole (LogSummary 1 1 0)))
  /\ (isValid (validateRenameOptions (str "ab") (str "b")) = true
      /\ exists w1 w2,
        @runSafeRename lite_libs [str "/r/a.json"]
          (options_for (str "ab") (str "b")) joined_world = Done tt w1
        /\ w_files w1 !! str "/r/a.json"
           = Some (plain_file (one_string_json "ab"))
        /\ @runSafeRename lite_libs [str "/r/a.json"]
             (options_for (str "ab") (str "b")) w1 = Done tt w2
        /\ w_files w2 !! str "/r/a.json"
           = Some (plain_file (one_string_json "b"))
        /\ hd_error (w_trace w2) = Some (EvConsole (LogSummary 1 1 0)))
  /\ (isValid (validateRenameOptions (str "old") (str "new")) = true
      /\ exists w1 w2,
        @runSafeRename lite_libs [str "/r/a.ts"]
          (options_for (str "old") (str "new")) repeated_world = Done tt w1
        /\ w_files w1 !! str "/r/a.ts"
           = Some (plain_file (str "import x from 'oldnew'"))
        /\ @runSafeRename lite_libs [str "/r/a.ts"]
             (options_for (str "old") (str "new")) w1 = Done tt w2
        /\ w_files w2 !! str "/r/a.ts"
           = Some (plain_file (str "import x from 'newnew'"))
        /\ hd_error (w_trace w2) = Some (EvConsole (LogSummary 1 1 0))).
Proof.
  split; [|split]; (split; [vm_compute; reflexivity|]);
    eexists; eexists;
    (split; [vm_compute; reflexivity|]);
    (split; [vm_compute; reflexivity|]);
    (split; [vm_compute; reflexivity|]);
    split; vm_compute; reflexivity.
Qed.

(** [second_run_modifies_nothing] on [tree_world]: the first run rewrites
    the module and the document, the second run leaves them. *)
Lemma second_run_modifies_nothing_witness :
  @runSafeRename lite_libs tree_files
    (options_for (str "old-key") (str "new-key")) tree_world
  = Done tt tree_after_one
  /\ w_files tree_after_one !! str "/r/a.ts"
     = Some (plain_file (str "import x from 'new-key'"))
  /\ w_files tree_after_one !! str "/r/n.json"
     = Some (plain_file nested_json_renamed)
  /\ hd_error (w_trace tree_after_one) = Some (EvConsole (LogSummary 2 2 2))
  /\ exists w2 p e,
       @runSafeRename lite_libs tree_files
         (options_for (str "old-key") (str "new-key")) tree_after_one
       = Done tt w2
       /\ hd_error (w_trace w2) = Some (EvConsole (LogSummary p 0 e))
       /\ w_files w2 = w_files tree_after_one.
Proof.
  assert (H1 : @runSafeRename lite_libs tree_files
                 (options_for (str "old-key") (str "new-key")) tree_world
               = Done tt tree_after_one) by (vm_compute; reflexivity).
  split; [exact H1|]. split; [vm_compute; reflexivity|].
  split; [vm_compute; reflexivity|]. split; [vm_compute; reflexivity|].
  apply (@second_run_modifies_nothing lite_libs tree_files
           (options_for (str "old-key") (str "new-key")) tree_world
           tree_after_one);
    [compute_done | vm_compute; reflexivity | reflexivity | exact H1 |].
  intros f x Hf Hx Hr. unfold tree_files in Hf.
  apply elem_of_cons in Hf as [-> | Hf].
  { vm_compute in Hx. injection Hx as <-. unfold settles.
    replace (classify (str "/r/a.ts")) with (Some Code)
      by (vm_compute; reflexivity).
    cbn [textual]. intros c1 lines Hrun _.
    vm_compute in Hrun. injection Hrun as <- _. vm_compute. reflexivity. }
  apply elem_of_cons in Hf as [-> | Hf].
  { vm_compute in Hx. injection Hx as <-. unfold settles.
    replace (classify (str "/r/n.json")) with (Some Json)
      by (vm_compute; reflexivity).
    cbn [textual]. intros v0 v1 out Hp Hv Hpr _.
    vm_compute in Hp. injection Hp as <-.
    vm_compute in Hv. injection Hv as <-.
    vm_compute in Hpr. injection Hpr as <-.
    split; vm_compute; reflexivity. }
  apply elem_of_cons in Hf as [-> | Hf].
  { vm_compute in Hx. injection Hx as <-. discriminate Hr. }
  apply elem_of_cons in Hf as [-> | Hf].
  { vm_compute in Hx. discriminate Hx. }
  apply elem_of_nil in Hf. contradiction.
Defined.


(** The whole-word rule runs over the path that the import rule has
    written: with the new token [my-lib] the path [lib] becomes
    [my-my-lib]. *)
Example import_path_renamed_twice :
  processTypeScriptFile (str "import x from 'lib';")
    (options_for (str "lib") (str "my-lib"))
  = Ok (str "import x from 'my-my-lib';").
Proof. vm_compute. reflexivity. Qed.
